(** * Lost: maze generation, wall queries and drag movement

    A shallow embedding of the core of the maze game (maze.js and the two
    versions of main.js) with the properties that its specification states
    about it.

    Numbers.  Grid coordinates, array indices, passage masks and the state
    of the random generator are JavaScript numbers that hold integers: they
    are modelled in [Z], with the 32-bit conversions of the bit operators
    written out.  Pixel positions, layout metrics and timestamps are
    doubles: they are modelled as exact rationals [Q], without rounding.
    The one place where the source produces a value that is not finite,
    the division by a cell size of zero in [cellFromPoint], is modelled
    with the infinities and NaN.  [Math.hypot] and [Math.sin] are
    parameters of the game loops.  Array lengths and memory are not
    bounded. *)

From Stdlib Require Import ZArith QArith Qround Qabs Lia Lqa Bool.
From stdpp Require Import base list gmap.

Open Scope Z_scope.

(** ** Abrupt completion *)

(** A JavaScript call either returns a value or throws. *)
Inductive result (A : Type) : Type :=
| Ok (a : A)
| Throw.
Arguments Ok {A} a.
Arguments Throw {A}.

#[global] Instance result_ret : MRet result := λ A a, Ok a.
#[global] Instance result_bind : MBind result := λ A B k r,
  match r with
  | Ok a => k a
  | Throw => Throw
  end.

(** ** 32-bit integer operators *)

Module Int32.

Definition two32 : Z := 4294967296.
Definition two31 : Z := 2147483648.

(** ToUint32 and ToInt32 of an integer-valued number. *)
Definition to_uint32 (z : Z) : Z := z mod two32.
Definition to_int32 (z : Z) : Z :=
  let u := z mod two32 in if u <? two31 then u else u - two32.

(** [a | b], [a & b], [a ^ b] *)
Definition or (a b : Z) : Z := Z.lor (to_int32 a) (to_int32 b).
Definition and (a b : Z) : Z := Z.land (to_int32 a) (to_int32 b).
Definition xor (a b : Z) : Z := Z.lxor (to_int32 a) (to_int32 b).

(** [a << n]: the shift count is taken modulo 32 *)
Definition shl (a n : Z) : Z := to_int32 (Z.shiftl (to_int32 a) (n mod 32)).

(** [a >>> n] *)
Definition ushr (a n : Z) : Z := Z.shiftr (to_uint32 a) (n mod 32).

(** [Math.imul(a, b)] *)
Definition imul (a b : Z) : Z := to_int32 (to_int32 a * to_int32 b).

End Int32.

(** ** maze.js: cells and the maze *)

(** [class Cell]: bit flags top(1), right(2), bottom(4), left(8). *)
Record Cell := mkCell {
  cell_x : Z;
  cell_y : Z;
  passages : Z
}.

(** [new Cell(x, y)] *)
Definition Cell_new (x y : Z) : Cell := mkCell x y 0.

(** [open(dir) { this.passages |= (1 << dir); }] *)
Definition open (dir : Z) (c : Cell) : Cell :=
  mkCell (cell_x c) (cell_y c) (Int32.or (passages c) (Int32.shl 1 dir)).

(** [isOpen(dir) { return (this.passages & (1 << dir)) !== 0; }] *)
Definition isOpen (c : Cell) (dir : Z) : bool :=
  negb (Int32.and (passages c) (Int32.shl 1 dir) =? 0).

Record Coord := mkCoord { co_x : Z; co_y : Z }.

#[global] Instance Coord_eq_dec : EqDecision Coord.
Proof. solve_decision. Defined.

(** [class Maze]: [grid] is the dense row-major array of cells. *)
Record Maze := mkMaze {
  cols : Z;
  rows : Z;
  grid : list Cell;
  start : Coord;
  goal : Coord
}.

(** [new Array(cols * rows).fill(0).map((_, i) => new Cell(i % cols, Math.floor(i / cols)))] *)
Definition fresh_grid (cols rows : Z) : list Cell :=
  (λ i, Cell_new (Z.rem i cols) (i / cols)) <$> seqZ 0 (cols * rows).

(** The constructor.  [new Array(n)] raises a RangeError for a negative
    length (the model sets no upper limit on the length). *)
Definition Maze_new (cols rows : Z) : result Maze :=
  if cols * rows <? 0 then Throw
  else Ok (mkMaze cols rows (fresh_grid cols rows)
                  (mkCoord 0 0) (mkCoord (cols - 1) (rows - 1))).

(** [idx(x, y) { return y * this.cols + x; }] *)
Definition idx (m : Maze) (x y : Z) : Z := y * cols m + x.

(** [this.grid[i]] for an integer [i]: [None] is [undefined]. *)
Definition grid_at (m : Maze) (i : Z) : option Cell :=
  if i <? 0 then None else grid m !! Z.to_nat i.

(** [canMove(x, y, dir)].  When the index misses the array, [c] is
    [undefined] and [c.isOpen] raises a TypeError. *)
Definition canMove (m : Maze) (x y dir : Z) : result bool :=
  match grid_at m (idx m x y) with
  | None => Throw
  | Some c =>
      if negb (isOpen c dir) then Ok false
      else if (dir =? 0) && (y <=? 0) then Ok false
      else if (dir =? 1) && (x >=? cols m - 1) then Ok false
      else if (dir =? 2) && (y >=? rows m - 1) then Ok false
      else if (dir =? 3) && (x <=? 0) then Ok false
      else Ok true
  end.

(** The cell in direction [dir] (0 top, 1 right, 2 bottom, 3 left). *)
Definition step_x (x dir : Z) : Z :=
  if dir =? 1 then x + 1 else if dir =? 3 then x - 1 else x.
Definition step_y (y dir : Z) : Z :=
  if dir =? 2 then y + 1 else if dir =? 0 then y - 1 else y.

Definition in_grid (m : Maze) (x y : Z) : Prop :=
  0 ≤ x < cols m ∧ 0 ≤ y < rows m.

Definition in_gridb (m : Maze) (x y : Z) : bool :=
  (0 <=? x) && (x <? cols m) && (0 <=? y) && (y <? rows m).

(** The grid holds one cell per coordinate pair. *)
Definition Maze_wf (m : Maze) : Prop :=
  0 < cols m ∧ 0 < rows m ∧ Z.of_nat (length (grid m)) = cols m * rows m.

(** [neighbors(x, y)]: the in-bounds neighbours, in the order top, right,
    bottom, left, each with the direction that leads to it. *)
Record Nbr := mkNbr { nb_x : Z; nb_y : Z; nb_dir : Z }.

Definition neighbors (m : Maze) (x y : Z) : list Nbr :=
  (if 0 <? y then [mkNbr x (y - 1) 0] else []) ++
  (if x <? cols m - 1 then [mkNbr (x + 1) y 1] else []) ++
  (if y <? rows m - 1 then [mkNbr x (y + 1) 2] else []) ++
  (if 0 <? x then [mkNbr (x - 1) y 3] else []).

(** ** The seeded generator *)

(** The closure variable [a] of [mulberry32] is a double: [a += 0x6D2B79F5]
    is a floating-point addition and is never reduced to 32 bits.  [a]
    always holds a non-negative integer; the sum is exact below 2^53 and
    is rounded to the nearest double (ties to even) above. *)
Definition round_double (n : Z) : Z :=
  if n <? 2 ^ 53 then n
  else
    let ulp := 2 ^ (Z.log2 n - 52) in
    let q := n / ulp in
    let r := n mod ulp in
    if 2 * r <? ulp then q * ulp
    else if ulp <? 2 * r then (q + 1) * ulp
    else if Z.even q then q * ulp else (q + 1) * ulp.

(** One call of the function returned by [mulberry32]: the new value of
    [a] and the integer [u] such that the call returns [u / 4294967296]. *)
Definition mulberry32_next (a : Z) : Z * Z :=
  let a := round_double (a + 1831565813) in
  let t := a in
  let t := Int32.imul (Int32.xor t (Int32.ushr t 15)) (Int32.or t 1) in
  let t := Int32.xor t (t + Int32.imul (Int32.xor t (Int32.ushr t 7)) (Int32.or t 61)) in
  (a, Int32.to_uint32 (Int32.xor t (Int32.ushr t 14))).

(** [Math.floor(rand() * len)] where [rand()] returned [u / 2^32] and
    [len] is an array length of at most four: the quotient by a power of
    two and the product (below 2^34) are exact in a double. *)
Definition rand_index (u : Z) (len : nat) : nat :=
  Z.to_nat (u * Z.of_nat len / Int32.two32).

(** ** Maze.generate *)

(** The variables of the loop of [generate]: the maze being carved, the
    generator's [a], the stack (its top is the head of the list) and the
    set of visited indices. *)
Record GenState := mkGen {
  gs_maze : Maze;
  gs_rand : Z;
  gs_stack : list Coord;
  gs_visited : gset Z
}.

Definition set_grid (m : Maze) (g : list Cell) : Maze :=
  mkMaze (cols m) (rows m) g (start m) (goal m).

(** [this.grid[i].open(dir)]; raises a TypeError when the cell is
    [undefined]. *)
Definition open_at (m : Maze) (i dir : Z) : result Maze :=
  match grid_at m i with
  | None => Throw
  | Some c => Ok (set_grid m (<[Z.to_nat i := open dir c]> (grid m)))
  end.

(** One iteration of [while (stack.length) { ... }]. *)
Definition generate_iter (st : GenState) : result GenState :=
  match gs_stack st with
  | [] => Ok st
  | current :: rest =>
      let m := gs_maze st in
      let unvisited :=
        filter (λ n, idx m (nb_x n) (nb_y n) ∉ gs_visited st)
               (neighbors m (co_x current) (co_y current)) in
      match unvisited with
      | [] => Ok (mkGen m (gs_rand st) rest (gs_visited st))
      | _ :: _ =>
          let '(a, u) := mulberry32_next (gs_rand st) in
          match unvisited !! rand_index u (length unvisited) with
          | None => Throw
          | Some n =>
              let cIdx := idx m (co_x current) (co_y current) in
              let nIdx := idx m (nb_x n) (nb_y n) in
              m1 ← open_at m cIdx (nb_dir n);
              m2 ← open_at m1 nIdx (Z.rem (nb_dir n + 2) 4);
              Ok (mkGen m2 a (mkCoord (nb_x n) (nb_y n) :: current :: rest)
                        ({[nIdx]} ∪ gs_visited st))
          end
      end
  end.

(** The loop, bounded by [fuel] iterations: [None] when the bound is
    reached before the stack is empty. *)
Fixpoint generate_loop (fuel : nat) (st : GenState) : option (result GenState) :=
  match gs_stack st with
  | [] => Some (Ok st)
  | _ :: _ =>
      match fuel with
      | O => None
      | S fuel =>
          match generate_iter st with
          | Ok st' => generate_loop fuel st'
          | Throw => Some Throw
          end
      end
  end.

(** The state on entry to the loop: [rand = mulberry32(seed >>> 0)], the
    stack and the visited set hold the start cell (0,0). *)
Definition generate_init (m : Maze) (seed : Z) : GenState :=
  mkGen m (Int32.to_uint32 seed) [mkCoord 0 0] {[idx m 0 0]}.

(** After the loop: [this.goal = { x: this.cols - 1, y: this.rows - 1 }]. *)
Definition generate_finish (m : Maze) : Maze :=
  mkMaze (cols m) (rows m) (grid m) (start m)
         (mkCoord (cols m - 1) (rows m - 1)).

(** Every iteration pushes a cell that was not visited or pops the stack,
    so twice the number of cells bounds the number of iterations. *)
Definition generate_fuel (m : Maze) : nat := Z.to_nat (2 * (cols m * rows m)).

(** [maze.generate(seed)], with a bound on the iterations of its loop *)
Definition Maze_generate_with (fuel : nat) (m : Maze) (seed : Z)
  : option (result Maze) :=
  match generate_loop fuel (generate_init m seed) with
  | Some (Ok st) => Some (Ok (generate_finish (gs_maze st)))
  | Some Throw => Some Throw
  | None => None
  end.

(** [maze.generate(seed)] *)
Definition Maze_generate (m : Maze) (seed : Z) : option (result Maze) :=
  Maze_generate_with (generate_fuel m) m seed.

(** [generate(cols, rows, seed)] of the specification: a fresh maze,
    generated, as [startGame] does. *)
Definition generate (cols rows seed : Z) : option (result Maze) :=
  match Maze_new cols rows with
  | Ok m => Maze_generate m seed
  | Throw => Some Throw
  end.

(** The same with a given bound on the iterations of the loop. *)
Definition generate_with (fuel : nat) (cols rows seed : Z) : option (result Maze) :=
  match Maze_new cols rows with
  | Ok m => Maze_generate_with fuel m seed
  | Throw => Some Throw
  end.

(** The passage masks of a maze, row-major. *)
Definition masks (m : Maze) : list Z := passages <$> grid m.

(** ** Layout metrics and the cell/pixel maps *)

(** The value of [Math.floor(a / b)] for finite doubles [a] and [b]
    ([b] not the negative zero): an integer, an infinity or NaN.  The same
    type holds the cell coordinates of the player, which are such values. *)
Inductive jsnum : Type :=
| Int (z : Z)
| PosInf
| NegInf
| NaN.

Definition Qzero (q : Q) : bool := Qnum q =? 0.
Definition Qpos (q : Q) : bool := 0 <? Qnum q.

Definition floor_div (a b : Q) : jsnum :=
  if Qzero b then
    if Qzero a then NaN else if Qpos a then PosInf else NegInf
  else Int (Qfloor (a / b)).

Module JsNum.

(** [a < b], [a >= b] with an integer on the right; false on NaN *)
Definition lt (a : jsnum) (b : Z) : bool :=
  match a with Int z => z <? b | NegInf => true | PosInf | NaN => false end.
Definition ge (a : jsnum) (b : Z) : bool :=
  match a with Int z => b <=? z | PosInf => true | NegInf | NaN => false end.

(** [a === b]; NaN differs from itself *)
Definition seq (a b : jsnum) : bool :=
  match a, b with
  | Int x, Int y => x =? y
  | PosInf, PosInf | NegInf, NegInf => true
  | _, _ => false
  end.

Definition neg (a : jsnum) : jsnum :=
  match a with
  | Int z => Int (- z) | PosInf => NegInf | NegInf => PosInf | NaN => NaN
  end.

Definition add (a b : jsnum) : jsnum :=
  match a, b with
  | Int x, Int y => Int (x + y)
  | NaN, _ | _, NaN => NaN
  | PosInf, NegInf | NegInf, PosInf => NaN
  | PosInf, _ | _, PosInf => PosInf
  | NegInf, _ | _, NegInf => NegInf
  end.

Definition sub (a b : jsnum) : jsnum := add a (neg b).

(** [Math.abs] *)
Definition abs (a : jsnum) : jsnum :=
  match a with
  | Int z => Int (Z.abs z) | PosInf | NegInf => PosInf | NaN => NaN
  end.

End JsNum.

(** [{ cellSize, originX, originY }] *)
Record Metrics := mkMetrics {
  cellSize : Q;
  originX : Q;
  originY : Q
}.

(** [Math.min] of two finite numbers *)
Definition Qmin (a b : Q) : Q := if Qle_bool a b then a else b.
Definition QofZ (z : Z) : Q := inject_Z z.

(** The metrics computed and returned by [drawMaze(ctx, maze, { w, h })]
    (default [padding = 16]), for a maze with a positive dimension, so that
    [Math.max(cols, rows)] is not zero. *)
Definition drawMaze (m : Maze) (w h : Q) : Metrics :=
  let padding := 16%Q in
  let cellSize :=
    (QofZ (Qfloor (Qmin w h - padding * 2)) / QofZ (Z.max (cols m) (rows m)))%Q in
  let originX := ((w - cellSize * QofZ (cols m)) / 2)%Q in
  let originY := ((h - cellSize * QofZ (rows m)) / 2)%Q in
  mkMetrics cellSize originX originY.

(** [cellCenter(cx, cy)] *)
Definition cellCenter (mt : Metrics) (cx cy : Z) : Q * Q :=
  ((originX mt + (QofZ cx + (1 # 2)) * cellSize mt)%Q,
   (originY mt + (QofZ cy + (1 # 2)) * cellSize mt)%Q).

(** [cellFromPoint(px, py)]; [None] is [null]. *)
Definition cellFromPoint (m : Maze) (mt : Metrics) (px py : Q)
  : option (jsnum * jsnum) :=
  let x := floor_div (px - originX mt) (cellSize mt) in
  let y := floor_div (py - originY mt) (cellSize mt) in
  if JsNum.lt x 0 || JsNum.lt y 0 || JsNum.ge x (cols m) || JsNum.ge y (rows m)
  then None
  else Some (x, y).

(** [maze.canMove(a.x, a.y, dir)] on cell coordinates: with a coordinate
    that is not finite the index is not finite either and the cell is
    [undefined]. *)
Definition canMove_at (m : Maze) (a : jsnum * jsnum) (dir : Z) : result bool :=
  match a with
  | (Int x, Int y) => canMove m x y dir
  | _ => Throw
  end.

(** [canTraverse(x1, y1, x2, y2)] *)
Definition canTraverse (m : Maze) (mt : Metrics) (x1 y1 x2 y2 : Q) : result bool :=
  match cellFromPoint m mt x1 y1, cellFromPoint m mt x2 y2 with
  | Some a, Some b =>
      if JsNum.seq (fst a) (fst b) && JsNum.seq (snd a) (snd b) then Ok true
      else
        let dx := JsNum.sub (fst b) (fst a) in
        let dy := JsNum.sub (snd b) (snd a) in
        if negb (JsNum.seq (JsNum.add (JsNum.abs dx) (JsNum.abs dy)) (Int 1))
        then Ok false
        else
          let dir :=
            if JsNum.seq dx (Int 1) then 1
            else if JsNum.seq dx (Int (-1)) then 3
            else if JsNum.seq dy (Int 1) then 2 else 0 in
          canMove_at m a dir
  | _, _ => Ok false
  end.

(** [difficultyForAge(age).size] *)
Definition difficultyForAge (age : Z) : Z :=
  if age =? 3 then 5
  else if age =? 4 then 7
  else if age =? 5 then 9
  else if age =? 6 then 12
  else 7.

(** [a < b] on finite numbers *)
Definition Qltb (a b : Q) : bool := negb (Qle_bool b a).

(** [Math.PI] *)
Definition PI : Q := 884279719003555 # 281474976710656.

(** ** main.js: continuous movement with wall collision and axis slide *)

Module Main.

(** [player], with the fields the game loop reads and writes *)
Record Player := mkPlayer {
  cellX : jsnum;
  cellY : jsnum;
  pl_x : Q;
  pl_y : Q;
  radius : Z;
  hurtFlash : Z
}.

(** A callback registered with [requestAnimationFrame]: the game loop's
    [tick], or the [step] closure of the jump started by [onGoal] with
    its captured [t] and [startY]. *)
Inductive Callback : Type :=
| CbTick
| CbJump (t : Z) (startY : Q).

(** The module-level variables, the canvas size, the pending animation
    callbacks (oldest first) and two logs: the times at which [hurt] ran
    (newest first) and the number of calls of [onGoal]. *)
Record Game := mkGame {
  g_maze : Maze;
  g_metrics : Metrics;
  g_player : Player;
  g_dragging : bool;
  g_lastTouch : option (Q * Q);
  g_lastHurtAt : Q;
  g_running : bool;
  g_won : bool;
  g_canvas : Q * Q;
  g_raf : list Callback;
  g_hurts : list Q;
  g_goals : nat
}.

Definition with_player (g : Game) (p : Player) : Game :=
  mkGame (g_maze g) (g_metrics g) p (g_dragging g) (g_lastTouch g)
         (g_lastHurtAt g) (g_running g) (g_won g) (g_canvas g) (g_raf g)
         (g_hurts g) (g_goals g).

Definition with_metrics (g : Game) (mt : Metrics) : Game :=
  mkGame (g_maze g) mt (g_player g) (g_dragging g) (g_lastTouch g)
         (g_lastHurtAt g) (g_running g) (g_won g) (g_canvas g) (g_raf g)
         (g_hurts g) (g_goals g).

Definition with_drag (g : Game) (d : bool) (t : option (Q * Q)) : Game :=
  mkGame (g_maze g) (g_metrics g) (g_player g) d t
         (g_lastHurtAt g) (g_running g) (g_won g) (g_canvas g) (g_raf g)
         (g_hurts g) (g_goals g).

Definition with_canvas (g : Game) (c : Q * Q) : Game :=
  mkGame (g_maze g) (g_metrics g) (g_player g) (g_dragging g) (g_lastTouch g)
         (g_lastHurtAt g) (g_running g) (g_won g) c (g_raf g)
         (g_hurts g) (g_goals g).

(** [requestAnimationFrame(cb)] *)
Definition request (g : Game) (cb : Callback) : Game :=
  mkGame (g_maze g) (g_metrics g) (g_player g) (g_dragging g) (g_lastTouch g)
         (g_lastHurtAt g) (g_running g) (g_won g) (g_canvas g)
         (g_raf g ++ [cb]) (g_hurts g) (g_goals g).

(** [player.x = x; player.y = y].  Positions are stored as fractions in
    lowest terms ([Qred] does not change the number), so that long runs
    of the loop can be evaluated. *)
Definition set_pos (p : Player) (x y : Q) : Player :=
  mkPlayer (cellX p) (cellY p) (Qred x) (Qred y) (radius p) (hurtFlash p).
Definition set_cell (p : Player) (cx cy : jsnum) : Player :=
  mkPlayer cx cy (pl_x p) (pl_y p) (radius p) (hurtFlash p).
Definition set_hurtFlash (p : Player) (n : Z) : Player :=
  mkPlayer (cellX p) (cellY p) (pl_x p) (pl_y p) (radius p) n.

(** [drawAll()]: recomputes the metrics from the canvas size and counts
    the hurt flash down. *)
Definition drawAll (g : Game) : Game :=
  let g := with_metrics g (drawMaze (g_maze g) (fst (g_canvas g)) (snd (g_canvas g))) in
  let p := g_player g in
  if 0 <? hurtFlash p then with_player g (set_hurtFlash p (hurtFlash p - 1))
  else g.

(** [hurt()], run at time [now] *)
Definition hurt (g : Game) (now : Q) : Game :=
  let g := with_player g (set_hurtFlash (g_player g) 8) in
  let g := mkGame (g_maze g) (g_metrics g) (g_player g) (g_dragging g)
                  (g_lastTouch g) (g_lastHurtAt g) (g_running g) (g_won g)
                  (g_canvas g) (g_raf g) (now :: g_hurts g) (g_goals g) in
  drawAll g.

(** [maybeHurt()], where [performance.now()] returns [now] *)
Definition maybeHurt (g : Game) (now : Q) : Game :=
  if Qltb 220 (now - g_lastHurtAt g) then
    hurt (mkGame (g_maze g) (g_metrics g) (g_player g) (g_dragging g)
                 (g_lastTouch g) now (g_running g) (g_won g)
                 (g_canvas g) (g_raf g) (g_hurts g) (g_goals g)) now
  else g.

(** [attemptMove(cx, cy, dx, dy)]: the returned position and the state
    left by [maybeHurt]. *)
Definition attemptMove (g : Game) (now : Q) (cx cy dx dy : Q)
  : result ((Q * Q) * Game) :=
  let m := g_maze g in
  let mt := g_metrics g in
  full ← canTraverse m mt cx cy (cx + dx)%Q (cy + dy)%Q;
  if full : bool then Ok (((cx + dx)%Q, (cy + dy)%Q), g)
  else
    slideX ← canTraverse m mt cx cy (cx + dx)%Q cy;
    if slideX : bool then Ok (((cx + dx)%Q, cy), g)
    else
      slideY ← canTraverse m mt cx cy cx (cy + dy)%Q;
      if slideY : bool then Ok ((cx, (cy + dy)%Q), g)
      else Ok ((cx, cy), maybeHurt g now).

(** [onGoal()]: logs the event and starts the jump animation; the
    delayed [startGame] it schedules arrives as a later start event. *)
Definition onGoal (g : Game) : Game :=
  let g := mkGame (g_maze g) (g_metrics g) (g_player g) (g_dragging g)
                  (g_lastTouch g) (g_lastHurtAt g) (g_running g) (g_won g)
                  (g_canvas g) (g_raf g) (g_hurts g) (S (g_goals g)) in
  request g (CbJump 0 (pl_y (g_player g))).

Definition set_won (g : Game) (w : bool) : Game :=
  mkGame (g_maze g) (g_metrics g) (g_player g) (g_dragging g)
         (g_lastTouch g) (g_lastHurtAt g) (g_running g) w
         (g_canvas g) (g_raf g) (g_hurts g) (g_goals g).

Definition set_running (g : Game) (r : bool) : Game :=
  mkGame (g_maze g) (g_metrics g) (g_player g) (g_dragging g)
         (g_lastTouch g) (g_lastHurtAt g) r (g_won g)
         (g_canvas g) (g_raf g) (g_hurts g) (g_goals g).

Section Loop.

(** [Math.hypot] and [Math.sin] return doubles that approximate the
    exact values; the loop is modelled for any such functions. *)
Variable hypot : Q → Q → Q.
Variable sin : Q → Q.

(** The body of [tick], run at time [now] *)
Definition tick (g : Game) (now : Q) : result Game :=
  if negb (g_running g) then Ok g
  else
    let speed :=
      QofZ (Z.max 3 (Qfloor (cellSize (g_metrics g) * (32 # 100)))) in
    g ←
      match g_dragging g, g_lastTouch g with
      | true, Some (tx, ty) =>
          let p := g_player g in
          let vx := (tx - pl_x p)%Q in
          let vy := (ty - pl_y p)%Q in
          let dist := hypot vx vy in
          if Qltb (1 # 2) dist then
            let step := Qmin speed dist in
            let dx := ((vx / dist) * step)%Q in
            let dy := ((vy / dist) * step)%Q in
            r ← attemptMove g now (pl_x p) (pl_y p) dx dy;
            let '((x, y), g) := r in
            Ok (with_player g (set_pos (g_player g) x y))
          else Ok g
      | _, _ => Ok g
      end;
    let p := g_player g in
    let g :=
      match cellFromPoint (g_maze g) (g_metrics g) (pl_x p) (pl_y p) with
      | Some c => with_player g (set_cell p (fst c) (snd c))
      | None => g
      end in
    let g := drawAll g in
    let p := g_player g in
    let g :=
      if negb (g_won g)
         && JsNum.seq (cellX p) (Int (co_x (goal (g_maze g))))
         && JsNum.seq (cellY p) (Int (co_y (goal (g_maze g))))
      then onGoal (set_won g true)
      else g in
    Ok (request g CbTick).

(** The [step] closure of the jump animation of [onGoal] ([T = 22]) *)
Definition jump_step (g : Game) (t : Z) (startY : Q) : Game :=
  let t := t + 1 in
  let k := (QofZ t / 22)%Q in
  let p := g_player g in
  let y := (startY - sin (k * PI) * (QofZ (radius p) * (8 # 10)))%Q in
  let g := drawAll (with_player g (set_pos p (pl_x p) y)) in
  if t <? 22 then request g (CbJump t startY) else g.

Definition run_callback (g : Game) (now : Q) (cb : Callback) : result Game :=
  match cb with
  | CbTick => tick g now
  | CbJump t startY => Ok (jump_step g t startY)
  end.

(** One animation frame: the callbacks registered so far run in
    order; those they register wait for the next frame.  The model
    stops at a callback that throws. *)
Definition frame (g : Game) (now : Q) : result Game :=
  let cbs := g_raf g in
  let g := mkGame (g_maze g) (g_metrics g) (g_player g) (g_dragging g)
                  (g_lastTouch g) (g_lastHurtAt g) (g_running g) (g_won g)
                  (g_canvas g) [] (g_hurts g) (g_goals g) in
  foldl (λ r cb, g ← r; run_callback g now cb) (Ok g) cbs.

(** [withinPlayer(x, y)] *)
Definition withinPlayer (g : Game) (x y : Q) : bool :=
  let p := g_player g in
  let dx := (x - pl_x p)%Q in
  let dy := (y - pl_y p)%Q in
  Qle_bool (dx * dx + dy * dy)
           (QofZ (radius p) * QofZ (radius p) * (16 # 10)).

(** [onStart], [onMove], [onEnd] at the canvas point [(x, y)] *)
Definition onStart (g : Game) (x y : Q) : Game :=
  if withinPlayer g x y then with_drag g true (Some (x, y)) else g.
Definition onMove (g : Game) (x y : Q) : Game :=
  if negb (g_dragging g) then g else with_drag g (g_dragging g) (Some (x, y)).
Definition onEnd (g : Game) : Game := with_drag g false None.

(** [fitCanvas()], the canvas measured as [w] by [h] *)
Definition fitCanvas (g : Game) (w h : Q) : Game :=
  drawAll (with_canvas g (w, h)).

(** [startLoop()] *)
Definition startLoop (g : Game) : Game :=
  if g_running g then g else request (set_running g true) CbTick.

(** The module-level variables as the page load leaves them, with
    the first maze. *)
Definition loaded (m : Maze) (w h : Q) : Game :=
  mkGame m (drawMaze m w h)
         (mkPlayer (Int 0) (Int 0) 0 0 16 0)
         false None 0 false false (w, h) [] [] 0.

(** [startGame()]: [prev] is the game in progress, if any; [age] is
    [store.age], [seed] the value of [Date.now()] and [w], [h] the
    canvas size that [fitCanvas] measures. *)
Definition startGame (prev : option Game) (age seed : Z) (w h : Q)
  : option (result Game) :=
  let size := difficultyForAge age in
  match generate size size seed with
  | None => None
  | Some Throw => Some Throw
  | Some (Ok m) =>
      let m := mkMaze (cols m) (rows m) (grid m) (mkCoord 0 0)
                      (mkCoord (cols m - 1) (rows m - 1)) in
      let g :=
        match prev with
        | Some g0 =>
            let g0 := fitCanvas g0 w h in
            mkGame m (g_metrics g0) (g_player g0) (g_dragging g0)
                   (g_lastTouch g0) (g_lastHurtAt g0) (g_running g0)
                   (g_won g0) (g_canvas g0) (g_raf g0) (g_hurts g0)
                   (g_goals g0)
        | None => loaded m w h
        end in
      let g := with_metrics g (drawMaze m w h) in
      let p := g_player g in
      let '(px, py) := cellCenter (g_metrics g) (co_x (start m)) (co_y (start m)) in
      let p := mkPlayer (Int (co_x (start m))) (Int (co_y (start m))) px py
                        (Z.max 10 (Qfloor (cellSize (g_metrics g) * (24 # 100))))
                        (hurtFlash p) in
      let g := set_won (with_player g p) false in
      Some (Ok (startLoop (drawAll g)))
  end.

(** What happens to a running game *)
Inductive Event : Type :=
| EvStartGame (age seed : Z) (w h : Q)
| EvFrame (now : Q)
| EvPointerStart (x y : Q)
| EvPointerMove (x y : Q)
| EvPointerEnd
| EvResize (w h : Q).

Definition handle (g : Game) (e : Event) : option (result Game) :=
  match e with
  | EvStartGame age seed w h => startGame (Some g) age seed w h
  | EvFrame now => Some (frame g now)
  | EvPointerStart x y => Some (Ok (onStart g x y))
  | EvPointerMove x y => Some (Ok (onMove g x y))
  | EvPointerEnd => Some (Ok (onEnd g))
  | EvResize w h => Some (Ok (fitCanvas g w h))
  end.

Fixpoint run (g : Game) (es : list Event) : option (result Game) :=
  match es with
  | [] => Some (Ok g)
  | e :: es =>
      match handle g e with
      | Some (Ok g') => run g' es
      | r => r
      end
  end.

Definition is_start (e : Event) : bool :=
  match e with EvStartGame _ _ _ _ => true | _ => false end.

End Loop.

End Main.

(** ** The other version of main.js: whole-cell hops with a queued direction *)

Module Hop.

Record Player := mkPlayer {
  cellX : Z;
  cellY : Z;
  pl_x : Q;
  pl_y : Q;
  targetX : Q;
  targetY : Q;
  radius : Z;
  moving : bool;
  hurtFlash : Z
}.

(** A callback registered with [requestAnimationFrame]: the [step]
    closure of [animate] with its captured [speed], or the [step]
    closure of the jump of [onGoal] with its [t] and [startY]. *)
Inductive Callback : Type :=
| CbStep (speed : Z)
| CbJump (t : Z) (startY : Q).

(** The module-level variables, the canvas size, the pending animation
    callbacks with their request ids (oldest first), the id that the
    next request returns, and the two logs. *)
Record Game := mkGame {
  g_maze : Maze;
  g_metrics : Metrics;
  g_player : Player;
  g_dragging : bool;
  g_lastTouch : option (Q * Q);
  g_rafId : Z;
  g_queuedDir : option Z;
  g_lastHurtAt : Q;
  g_canvas : Q * Q;
  g_raf : list (Z * Callback);
  g_nextId : Z;
  g_hurts : list Q;
  g_goals : nat
}.

Definition with_player (g : Game) (p : Player) : Game :=
  mkGame (g_maze g) (g_metrics g) p (g_dragging g) (g_lastTouch g)
         (g_rafId g) (g_queuedDir g) (g_lastHurtAt g) (g_canvas g)
         (g_raf g) (g_nextId g) (g_hurts g) (g_goals g).

Definition with_metrics (g : Game) (mt : Metrics) : Game :=
  mkGame (g_maze g) mt (g_player g) (g_dragging g) (g_lastTouch g)
         (g_rafId g) (g_queuedDir g) (g_lastHurtAt g) (g_canvas g)
         (g_raf g) (g_nextId g) (g_hurts g) (g_goals g).

Definition with_drag (g : Game) (d : bool) (t : option (Q * Q)) : Game :=
  mkGame (g_maze g) (g_metrics g) (g_player g) d t
         (g_rafId g) (g_queuedDir g) (g_lastHurtAt g) (g_canvas g)
         (g_raf g) (g_nextId g) (g_hurts g) (g_goals g).

Definition with_canvas (g : Game) (c : Q * Q) : Game :=
  mkGame (g_maze g) (g_metrics g) (g_player g) (g_dragging g) (g_lastTouch g)
         (g_rafId g) (g_queuedDir g) (g_lastHurtAt g) c
         (g_raf g) (g_nextId g) (g_hurts g) (g_goals g).

Definition with_queuedDir (g : Game) (d : option Z) : Game :=
  mkGame (g_maze g) (g_metrics g) (g_player g) (g_dragging g) (g_lastTouch g)
         (g_rafId g) d (g_lastHurtAt g) (g_canvas g)
         (g_raf g) (g_nextId g) (g_hurts g) (g_goals g).

(** [requestAnimationFrame(cb)], discarding the returned id *)
Definition request (g : Game) (cb : Callback) : Game :=
  mkGame (g_maze g) (g_metrics g) (g_player g) (g_dragging g) (g_lastTouch g)
         (g_rafId g) (g_queuedDir g) (g_lastHurtAt g) (g_canvas g)
         (g_raf g ++ [(g_nextId g, cb)]) (g_nextId g + 1)
         (g_hurts g) (g_goals g).

(** [rafId = requestAnimationFrame(cb)] *)
Definition request_rafId (g : Game) (cb : Callback) : Game :=
  mkGame (g_maze g) (g_metrics g) (g_player g) (g_dragging g) (g_lastTouch g)
         (g_nextId g) (g_queuedDir g) (g_lastHurtAt g) (g_canvas g)
         (g_raf g ++ [(g_nextId g, cb)]) (g_nextId g + 1)
         (g_hurts g) (g_goals g).

(** [cancelAnimationFrame(rafId)] *)
Definition cancel_rafId (g : Game) : Game :=
  mkGame (g_maze g) (g_metrics g) (g_player g) (g_dragging g) (g_lastTouch g)
         (g_rafId g) (g_queuedDir g) (g_lastHurtAt g) (g_canvas g)
         (filter (λ e, fst e ≠ g_rafId g) (g_raf g)) (g_nextId g)
         (g_hurts g) (g_goals g).

Definition set_hurtFlash (p : Player) (n : Z) : Player :=
  mkPlayer (cellX p) (cellY p) (pl_x p) (pl_y p) (targetX p) (targetY p)
           (radius p) (moving p) n.
(** [player.x = x; player.y = y], stored in lowest terms *)
Definition set_pos (p : Player) (x y : Q) : Player :=
  mkPlayer (cellX p) (cellY p) (Qred x) (Qred y) (targetX p) (targetY p)
           (radius p) (moving p) (hurtFlash p).

(** [drawAll()] *)
Definition drawAll (g : Game) : Game :=
  let g := with_metrics g (drawMaze (g_maze g) (fst (g_canvas g)) (snd (g_canvas g))) in
  let p := g_player g in
  if 0 <? hurtFlash p then with_player g (set_hurtFlash p (hurtFlash p - 1))
  else g.

(** [hurt()], run at time [now] *)
Definition hurt (g : Game) (now : Q) : Game :=
  let g := with_player g (set_hurtFlash (g_player g) 8) in
  let g := mkGame (g_maze g) (g_metrics g) (g_player g) (g_dragging g)
                  (g_lastTouch g) (g_rafId g) (g_queuedDir g) (g_lastHurtAt g)
                  (g_canvas g) (g_raf g) (g_nextId g)
                  (now :: g_hurts g) (g_goals g) in
  drawAll g.

(** [maybeHurt()], where [performance.now()] returns [now] *)
Definition maybeHurt (g : Game) (now : Q) : Game :=
  if Qltb 220 (now - g_lastHurtAt g) then
    hurt (mkGame (g_maze g) (g_metrics g) (g_player g) (g_dragging g)
                 (g_lastTouch g) (g_rafId g) (g_queuedDir g) now
                 (g_canvas g) (g_raf g) (g_nextId g)
                 (g_hurts g) (g_goals g)) now
  else g.

(** [onGoal()] *)
Definition onGoal (g : Game) : Game :=
  let g := mkGame (g_maze g) (g_metrics g) (g_player g) (g_dragging g)
                  (g_lastTouch g) (g_rafId g) (g_queuedDir g) (g_lastHurtAt g)
                  (g_canvas g) (g_raf g) (g_nextId g)
                  (g_hurts g) (S (g_goals g)) in
  request g (CbJump 0 (pl_y (g_player g))).

(** The direction of the larger component of [(dx, dy)]:
    [absX > absY ? (dx > 0 ? 1 : 3) : (dy > 0 ? 2 : 0)] *)
Definition dominant (dx dy : Q) : Z :=
  if Qltb (Qabs dy) (Qabs dx) then (if Qltb 0 dx then 1 else 3)
  else (if Qltb 0 dy then 2 else 0).

(** The hop into the neighbour in direction [dir]: the player's cell and
    target move there and [moving] is set. *)
Definition begin_hop (g : Game) (dir : Z) : Game :=
  let p := g_player g in
  let nx := cellX p + (if dir =? 1 then 1 else if dir =? 3 then -1 else 0) in
  let ny := cellY p + (if dir =? 2 then 1 else if dir =? 0 then -1 else 0) in
  let '(tx, ty) := cellCenter (g_metrics g) nx ny in
  with_player g (mkPlayer nx ny (pl_x p) (pl_y p) tx ty (radius p) true
                          (hurtFlash p)).

(** [animate()] *)
Definition animate (g : Game) : Game :=
  let g := cancel_rafId g in
  let speed := Z.max 4 (Qfloor (cellSize (g_metrics g) * (24 # 100))) in
  request_rafId g (CbStep speed).

(** [tryStepToward(x, y)] at time [now] *)
Definition tryStepToward (g : Game) (now : Q) (x y : Q) : result Game :=
  let p := g_player g in
  let dir := dominant (x - pl_x p) (y - pl_y p) in
  if moving p then
    ok ← canMove (g_maze g) (cellX p) (cellY p) dir;
    if ok : bool then Ok (with_queuedDir g (Some dir))
    else Ok (maybeHurt g now)
  else
    ok ← canMove (g_maze g) (cellX p) (cellY p) dir;
    if negb ok then Ok (maybeHurt g now)
    else Ok (animate (begin_hop g dir)).

Section Loop.

Variable hypot : Q → Q → Q.
Variable sin : Q → Q.

(** The [step] closure of [animate] *)
Definition step (g : Game) (speed : Z) : result Game :=
  let p := g_player g in
  let vx := (targetX p - pl_x p)%Q in
  let vy := (targetY p - pl_y p)%Q in
  let dist := hypot vx vy in
  if Qle_bool dist (QofZ speed) then
    let p := mkPlayer (cellX p) (cellY p) (targetX p) (targetY p)
                      (targetX p) (targetY p) (radius p) false (hurtFlash p) in
    let g := drawAll (with_player g p) in
    let p := g_player g in
    let g :=
      if (cellX p =? co_x (goal (g_maze g))) && (cellY p =? co_y (goal (g_maze g)))
      then onGoal g else g in
    let p := g_player g in
    if negb (moving p)
       && (bool_decide (g_queuedDir g ≠ None)
           || (g_dragging g && bool_decide (g_lastTouch g ≠ None)))
    then
      let dir :=
        match g_queuedDir g, g_dragging g, g_lastTouch g with
        | Some d, _, _ => Some d
        | None, true, Some (tx, ty) =>
            Some (dominant (tx - pl_x p) (ty - pl_y p))
        | None, _, _ => None
        end in
      let g := with_queuedDir g None in
      match dir with
      | Some d =>
          ok ← canMove (g_maze g) (cellX p) (cellY p) d;
          if ok : bool then Ok (request_rafId (begin_hop g d) (CbStep speed))
          else Ok g
      | None => Ok g
      end
    else Ok g
  else
    let nx := (pl_x p + (vx / dist) * QofZ speed)%Q in
    let ny := (pl_y p + (vy / dist) * QofZ speed)%Q in
    let g := drawAll (with_player g (set_pos p nx ny)) in
    Ok (request_rafId g (CbStep speed)).

(** The [step] closure of the jump animation of [onGoal] ([T = 22]) *)
Definition jump_step (g : Game) (t : Z) (startY : Q) : Game :=
  let t := t + 1 in
  let k := (QofZ t / 22)%Q in
  let p := g_player g in
  let y := (startY - sin (k * PI) * (QofZ (radius p) * (8 # 10)))%Q in
  let g := drawAll (with_player g (set_pos p (pl_x p) y)) in
  if t <? 22 then request g (CbJump t startY) else g.

Definition run_callback (g : Game) (cb : Callback) : result Game :=
  match cb with
  | CbStep speed => step g speed
  | CbJump t startY => Ok (jump_step g t startY)
  end.

(** One animation frame: the callbacks registered so far run in
    order; those they register wait for the next frame.  The model
    stops at a callback that throws. *)
Definition frame (g : Game) : result Game :=
  let cbs := g_raf g in
  let g := mkGame (g_maze g) (g_metrics g) (g_player g) (g_dragging g)
                  (g_lastTouch g) (g_rafId g) (g_queuedDir g)
                  (g_lastHurtAt g) (g_canvas g) [] (g_nextId g)
                  (g_hurts g) (g_goals g) in
  foldl (λ r cb, g ← r; run_callback g (snd cb)) (Ok g) cbs.

(** [withinPlayer(x, y)] *)
Definition withinPlayer (g : Game) (x y : Q) : bool :=
  let p := g_player g in
  let dx := (x - pl_x p)%Q in
  let dy := (y - pl_y p)%Q in
  Qle_bool (dx * dx + dy * dy)
           (QofZ (radius p) * QofZ (radius p) * (16 # 10)).

(** [onStart], [onMove], [onEnd] at the canvas point [(x, y)] *)
Definition onStart (g : Game) (x y : Q) : Game :=
  if withinPlayer g x y then with_drag g true (Some (x, y)) else g.
Definition onMove (g : Game) (now : Q) (x y : Q) : result Game :=
  if negb (g_dragging g) then Ok g
  else tryStepToward (with_drag g (g_dragging g) (Some (x, y))) now x y.
Definition onEnd (g : Game) : Game := with_drag g false None.

(** [fitCanvas()], the canvas measured as [w] by [h] *)
Definition fitCanvas (g : Game) (w h : Q) : Game :=
  drawAll (with_canvas g (w, h)).

(** The module-level variables as the page load leaves them, with
    the first maze. *)
Definition loaded (m : Maze) (w h : Q) : Game :=
  mkGame m (drawMaze m w h)
         (mkPlayer 0 0 0 0 0 0 16 false 0)
         false None 0 None 0 (w, h) [] 1 [] 0.

(** [startGame()] *)
Definition startGame (prev : option Game) (age seed : Z) (w h : Q)
  : option (result Game) :=
  let size := difficultyForAge age in
  match generate size size seed with
  | None => None
  | Some Throw => Some Throw
  | Some (Ok m) =>
      let m := mkMaze (cols m) (rows m) (grid m) (mkCoord 0 0)
                      (mkCoord (cols m - 1) (rows m - 1)) in
      let g :=
        match prev with
        | Some g0 =>
            let g0 := fitCanvas g0 w h in
            mkGame m (g_metrics g0) (g_player g0) (g_dragging g0)
                   (g_lastTouch g0) (g_rafId g0) (g_queuedDir g0)
                   (g_lastHurtAt g0) (g_canvas g0) (g_raf g0)
                   (g_nextId g0) (g_hurts g0) (g_goals g0)
        | None => loaded m w h
        end in
      let g := with_metrics g (drawMaze m w h) in
      let p := g_player g in
      let '(px, py) := cellCenter (g_metrics g) (co_x (start m)) (co_y (start m)) in
      let p := mkPlayer (co_x (start m)) (co_y (start m)) px py px py
                        (Z.max 10 (Qfloor (cellSize (g_metrics g) * (28 # 100))))
                        (moving p) (hurtFlash p) in
      Some (Ok (drawAll (with_player g p)))
  end.

Inductive Event : Type :=
| EvStartGame (age seed : Z) (w h : Q)
| EvFrame
| EvPointerStart (x y : Q)
| EvPointerMove (now : Q) (x y : Q)
| EvPointerEnd
| EvResize (w h : Q).

Definition handle (g : Game) (e : Event) : option (result Game) :=
  match e with
  | EvStartGame age seed w h => startGame (Some g) age seed w h
  | EvFrame => Some (frame g)
  | EvPointerStart x y => Some (Ok (onStart g x y))
  | EvPointerMove now x y => Some (onMove g now x y)
  | EvPointerEnd => Some (Ok (onEnd g))
  | EvResize w h => Some (Ok (fitCanvas g w h))
  end.

Fixpoint run (g : Game) (es : list Event) : option (result Game) :=
  match es with
  | [] => Some (Ok g)
  | e :: es =>
      match handle g e with
      | Some (Ok g') => run g' es
      | r => r
      end
  end.

Definition is_start (e : Event) : bool :=
  match e with EvStartGame _ _ _ _ => true | _ => false end.

End Loop.

End Hop.

(** The maze of seed 42 on a 5 by 5 grid, used where a statement is
    checked on a concrete maze. *)
Definition sample_maze : Maze :=
  match generate 5 5 42 with
  | Some (Ok m) => m
  | _ => mkMaze 0 0 [] (mkCoord 0 0) (mkCoord 0 0)
  end.

(** ** Predicates of the statements *)

(** The move from [(x, y)] in direction [dir] leaves the grid. *)
Definition exits (m : Maze) (x y dir : Z) : Prop :=
  ¬ in_grid m (step_x x dir) (step_y y dir).

(** What [maybeHurt] does to [lastHurtAt] and to the log of hurt times,
    in both versions of main.js *)
Definition hurt_step (s : Q * list Q) (now : Q) : Q * list Q :=
  if Qltb 220 (now - fst s) then (now, now :: snd s) else s.

Definition main_hurt_view (g : Main.Game) : Q * list Q :=
  (Main.g_lastHurtAt g, Main.g_hurts g).
Definition hop_hurt_view (g : Hop.Game) : Q * list Q :=
  (Hop.g_lastHurtAt g, Hop.g_hurts g).

(** A log of hurt times, newest first, in which every event comes more
    than 220 ms after all the earlier ones. *)
Fixpoint spaced (log : list Q) : Prop :=
  match log with
  | [] => True
  | t :: older => (∀ t', t' ∈ older → (220 < t - t')%Q) ∧ spaced older
  end.

(** ** The passage graph *)

(** The passage bit [d] of cell [(x, y)]; false where there is no cell. *)
Definition opened (m : Maze) (x y d : Z) : bool :=
  match grid_at m (idx m x y) with
  | Some c => isOpen c d
  | None => false
  end.

Definition origin : Coord := mkCoord 0 0.

Definition neighbor (a : Coord) (d : Z) : Coord :=
  mkCoord (step_x (co_x a) d) (step_y (co_y a) d).

Definition in_maze (m : Maze) (a : Coord) : Prop := in_grid m (co_x a) (co_y a).

Definition in_mazeb (m : Maze) (a : Coord) : bool := in_gridb m (co_x a) (co_y a).

(** The mutual passage invariant: an open bit towards a neighbour in the
    grid is matched by the neighbour's opposite bit. *)
Definition mutual (m : Maze) : Prop :=
  ∀ x y d, in_grid m x y → 0 ≤ d < 4 → opened m x y d = true →
    in_grid m (step_x x d) (step_y y d) →
    opened m (step_x x d) (step_y y d) ((d + 2) mod 4) = true.

(** An open passage leads from cell [a] to its neighbour [b]. *)
Definition link (m : Maze) (a b : Coord) : Prop :=
  in_maze m a ∧ in_maze m b ∧
  ∃ d, 0 ≤ d < 4 ∧ b = neighbor a d ∧ opened m (co_x a) (co_y a) d = true.

(** [b] can be reached from [a] through open passages. *)
Definition reachable (m : Maze) (a b : Coord) : Prop := rtc (link m) a b.

(** A cycle of the passage graph: at least three distinct cells, each
    linked to the next and the last to the first. *)
Definition cycle (m : Maze) (p : list Coord) : Prop :=
  (3 ≤ length p)%nat ∧ NoDup p ∧
  ∀ i a b, p !! i = Some a → p !! ((i + 1) mod length p)%nat = Some b →
           link m a b.

(** The cells of the grid, row-major. *)
Definition cells (m : Maze) : list Coord :=
  (λ i, mkCoord (i mod cols m) (i / cols m)) <$> seqZ 0 (cols m * rows m).

(** The passage between [a] and its neighbour in direction [d] is open on
    both sides. *)
Definition pair_open (m : Maze) (d : Z) (a : Coord) : bool :=
  opened m (co_x a) (co_y a) d
  && in_mazeb m (neighbor a d)
  && opened m (co_x (neighbor a d)) (co_y (neighbor a d)) ((d + 2) mod 4).

(** The number of open passage pairs: every pair of adjacent cells is
    counted once, from its left or upper cell. *)
Definition passage_pairs (m : Maze) : nat :=
  (length (filter (λ a, pair_open m 1 a = true) (cells m)) +
   length (filter (λ a, pair_open m 2 a = true) (cells m)))%nat.

(** A perfect maze: one passage pair less than there are cells, every
    cell reachable from the start, and no cycle. *)
Definition perfect (m : Maze) : Prop :=
  Z.of_nat (passage_pairs m) = cols m * rows m - 1 ∧
  (∀ a, in_maze m a → reachable m origin a) ∧
  (∀ p, ¬ cycle m p).

(** ** Invariants of the generation loop *)

(** The index of a cell in the grid *)
Definition cidx (m : Maze) (a : Coord) : Z := idx m (co_x a) (co_y a).

Definition visited (st : GenState) (a : Coord) : Prop :=
  idx (gs_maze st) (co_x a) (co_y a) ∈ gs_visited st.

#[global] Instance visited_dec st a : Decision (visited st a).
Proof. unfold visited. apply _. Defined.

Definition visited_count (st : GenState) : nat :=
  length (filter (visited st) (cells (gs_maze st))).

(** The states of the loop after each of its first [fuel] iterations. *)
Fixpoint generate_states (fuel : nat) (st : GenState) : list GenState :=
  match gs_stack st, fuel with
  | _ :: _, S fuel =>
      match generate_iter st with
      | Ok st' => st' :: generate_states fuel st'
      | Throw => []
      end
  | _, _ => []
  end.

(** What the loop keeps true while it only needs to keep the passages
    mutual. *)
Record carve_inv (st : GenState) : Prop := mkCarveInv {
  ci_wf : Maze_wf (gs_maze st);
  ci_stack : ∀ a, a ∈ gs_stack st → in_maze (gs_maze st) a;
  ci_mutual : mutual (gs_maze st)
}.

(** What the loop keeps true on a maze that started without passages. *)
Record gen_inv (st : GenState) : Prop := mkGenInv {
  gi_wf : Maze_wf (gs_maze st);
  gi_stack : ∀ a, a ∈ gs_stack st → in_maze (gs_maze st) a ∧ visited st a;
  gi_origin : visited st origin;
  gi_open : ∀ a d, in_maze (gs_maze st) a → 0 ≤ d < 4 →
      opened (gs_maze st) (co_x a) (co_y a) d = true →
      visited st a ∧ in_maze (gs_maze st) (neighbor a d) ∧
      visited st (neighbor a d) ∧
      opened (gs_maze st) (co_x (neighbor a d)) (co_y (neighbor a d))
             ((d + 2) mod 4) = true;
  gi_reach : ∀ a, in_maze (gs_maze st) a → visited st a →
      reachable (gs_maze st) origin a;
  gi_count : (passage_pairs (gs_maze st) + 1 = visited_count st)%nat;
  gi_acyclic : ∀ p, ¬ cycle (gs_maze st) p;
  gi_closed : ∀ a d, in_maze (gs_maze st) a → visited st a →
      a ∉ gs_stack st → 0 ≤ d < 4 → in_maze (gs_maze st) (neighbor a d) →
      visited st (neighbor a d)
}.

(** The bound on the remaining iterations: two for every cell not yet
    visited and one for every cell on the stack. *)
Definition gen_measure (st : GenState) : nat :=
  (2 * (length (cells (gs_maze st)) - visited_count st) + length (gs_stack st))%nat.

(** ** Rational stand-ins for [Math.hypot] and [Math.sin]

    They are used to run the game loop on concrete inputs.  [approx_hypot]
    is exact on vectors along an axis, and rounds the square root down to
    a multiple of 2^-40 otherwise; [approx_sin] is the Taylor polynomial of
    degree 17 on [0, PI], reflected about [PI / 2]. *)

Definition approx_sqrt (s : Q) : Q :=
  Qred (Z.sqrt (Qnum s * Z.pos (Qden s) * 4 ^ 40) # (Qden s * 2 ^ 40)).

Definition approx_hypot (x y : Q) : Q :=
  if Qzero y then Qabs x
  else if Qzero x then Qabs y
  else approx_sqrt (x * x + y * y).

Definition approx_sin (x : Q) : Q :=
  let y := Qred (if Qle_bool x (PI / 2) then x else PI - x) in
  let y2 := Qred (y * y) in
  Qred (y * (1 - y2 / 6 * (1 - y2 / 20 * (1 - y2 / 42 * (1 - y2 / 72 *
        (1 - y2 / 110 * (1 - y2 / 156 * (1 - y2 / 210 * (1 - y2 / 272))))))))).

(** ** A play of the hop version on a 5 by 5 maze

    The canvas is 600 by 600, so the cell size is 113.6, the hop speed is
    27 per frame and a hop takes five frames.  [hop_pt x y] is the centre
    of cell [(x, y)]. *)

Definition hop_pt (x y : Z) : Q * Q :=
  ((364 + 568 * x) # 5, (364 + 568 * y) # 5).

(** The cells of the way from the start to the goal in the maze of seed
    42, the start excluded. *)
Definition hop_way : list (Z * Z) :=
  [(0, 1); (1, 1); (1, 2); (0, 2); (0, 3); (0, 4); (1, 4); (2, 4); (3, 4);
   (3, 3); (3, 2); (2, 2); (2, 1); (3, 1); (4, 1); (4, 2); (4, 3); (4, 4)].

(** One hop that is under way: a frame, the pointer dragged to the centre
    of the cell [next] that follows, and the four frames that complete the
    hop. *)
Definition hop_leg (next : Z * Z) : list Hop.Event :=
  [Hop.EvFrame;
   Hop.EvPointerMove 0 (fst (hop_pt (fst next) (snd next)))
                       (snd (hop_pt (fst next) (snd next)));
   Hop.EvFrame; Hop.EvFrame; Hop.EvFrame; Hop.EvFrame].

(** The player is grabbed on the start cell and dragged along the way;
    during the last hop the pointer goes back to cell (4,3), so that the
    player turns round on the goal. *)
Definition hop_to_goal : list Hop.Event :=
  [Hop.EvPointerStart (fst (hop_pt 0 0)) (snd (hop_pt 0 0));
   Hop.EvPointerMove 0 (fst (hop_pt 0 1)) (snd (hop_pt 0 1))]
  ++ (tail hop_way ++ [(4, 3)]) ≫= hop_leg.

(** The hop back to (4,3) cannot advance during the 22 frames of the jump
    animation, which sets [player.y]; it then takes four frames more.
    The pointer is dragged to the goal meanwhile, and a last hop of five
    frames re-enters the goal: 31 frames after the first arrival. *)
Definition hop_back_and_forth : list Hop.Event :=
  [Hop.EvFrame; Hop.EvPointerMove 0 (fst (hop_pt 4 4)) (snd (hop_pt 4 4))]
  ++ replicate 25 Hop.EvFrame
  ++ replicate 5 Hop.EvFrame.

(** The invariant of the hurt log: it is spaced, and [lastHurtAt] is not
    before any logged time. *)
Definition hurt_inv (s : Q * list Q) : Prop :=
  spaced (snd s) ∧ ∀ t, t ∈ snd s → (t <= fst s)%Q.

(** ** The goal latch of main.js *)

(** The number of goal events that can still fire in the current level:
    one while [won] is false, none once it is set. *)
Definition goal_budget (g : Main.Game) : nat :=
  (Main.g_goals g + (if Main.g_won g then 0 else 1))%nat.

(** No event of the list is a call of [startGame]. *)
Definition same_level (es : list Main.Event) : Prop :=
  forallb (λ e, negb (Main.is_start e)) es = true.

(** What a step of the game may do to [won] and to the number of goal
    events: nothing ([latch_same]), or at most use up the budget
    ([latch_le]). *)
Definition latch_same (g g' : Main.Game) : Prop :=
  Main.g_won g' = Main.g_won g ∧ Main.g_goals g' = Main.g_goals g.
Definition latch_le (g g' : Main.Game) : Prop :=
  (Main.g_goals g ≤ Main.g_goals g')%nat ∧
  (goal_budget g' ≤ goal_budget g)%nat.

(** ** Predicates of the further properties *)

(** The layout in use is the one that [drawMaze] computes for the maze
    and the size of the canvas. *)
Definition main_layout_fresh (g : Main.Game) : Prop :=
  Main.g_metrics g
  = drawMaze (Main.g_maze g) (fst (Main.g_canvas g)) (snd (Main.g_canvas g)).

(** The number of pending animation callbacks that are the game loop's
    [tick]. *)
Definition is_tick (cb : Main.Callback) : bool :=
  match cb with Main.CbTick => true | Main.CbJump _ _ => false end.

Definition pending_ticks (g : Main.Game) : nat :=
  length (filter (λ cb, is_tick cb = true) (Main.g_raf g)).

(** The cell [b] is the cell [a] or the cell entered from [a] through an
    open passage. *)
Definition same_or_through (m : Maze) (a b : Z * Z) : Prop :=
  b = a ∨
  ∃ d, 0 ≤ d < 4 ∧ b = (step_x (fst a) d, step_y (snd a) d) ∧
       canMove m (fst a) (snd a) d = Ok true.

(** The player of the hop version stands on a cell of the grid. *)
Definition hop_on_grid (g : Hop.Game) : Prop :=
  Maze_wf (Hop.g_maze g) ∧
  in_grid (Hop.g_maze g) (Hop.cellX (Hop.g_player g)) (Hop.cellY (Hop.g_player g)).

(** A path of the passage graph: every cell of the list is linked to the
    next one. *)
Fixpoint path (m : Maze) (p : list Coord) : Prop :=
  match p with
  | [] => True
  | a :: q => match q with [] => True | b :: _ => link m a b end ∧ path m q
  end.

(** A route from [a] to [b]: a path from [a] to [b] that visits no cell
    twice. *)
Definition route (m : Maze) (a b : Coord) (p : list Coord) : Prop :=
  head p = Some a ∧ last p = Some b ∧ NoDup p ∧ path m p.

(** The pending animation callbacks of the hop version that are the
    [step] closure of [animate]. *)
Definition is_step (cb : Hop.Callback) : bool :=
  match cb with Hop.CbStep _ => true | Hop.CbJump _ _ => false end.

Definition steps (cbs : list (Z * Hop.Callback)) : nat :=
  length (filter (λ e, is_step (snd e) = true) cbs).

Definition pending_steps (g : Hop.Game) : nat := steps (Hop.g_raf g).

(** Every pending [step] callback is the one that [rafId] names, so that
    [cancelAnimationFrame(rafId)] cancels it. *)
Definition hop_step_named (g : Hop.Game) : Prop :=
  ∀ e, e ∈ Hop.g_raf g → is_step (snd e) = true → fst e = Hop.g_rafId g.

(** The player's cell *)
Definition hop_cell (g : Hop.Game) : Z * Z :=
  (Hop.cellX (Hop.g_player g), Hop.cellY (Hop.g_player g)).

(** What most steps of the hop version leave unchanged: the maze, the
    player's cell, the pending callbacks and [rafId]. *)
Record hop_kept (g g' : Hop.Game) : Prop := mkHopKept {
  hk_maze : Hop.g_maze g' = Hop.g_maze g;
  hk_cell : hop_cell g' = hop_cell g;
  hk_raf : Hop.g_raf g' = Hop.g_raf g;
  hk_rafId : Hop.g_rafId g' = Hop.g_rafId g
}.

(** The invariant of the hop version between two events: the player is
    on the grid, at most one [step] callback is pending, and it is the one
    that [rafId] names. *)
Record hop_inv (g : Hop.Game) : Prop := mkHopInv {
  hi_grid : hop_on_grid g;
  hi_one : (pending_steps g ≤ 1)%nat;
  hi_named : hop_step_named g
}.

(** ** main.js: the selection screen, the coins and the theme lock

    The page is modelled with the fields that the code reads and writes:
    the store, the buttons of the two grids, the start button, the two
    screens, and two logs (the toasts shown and the calls of [startGame]).
    The buttons come from the page's HTML: every button of the age grid
    carries a numeric [data-age], every button of the theme grid a
    [data-theme] that is ['animals'] or ['vehicles'] (the two values that
    the code names).  [store.coins] holds an integer.  The persistence of
    the store ([loadStore], [saveStore]) is not modelled: the number of
    coins at page load is a parameter. *)

Module Ui.

Inductive Theme : Type := animals | vehicles.

#[global] Instance Theme_eq_dec : EqDecision Theme.
Proof. solve_decision. Defined.

(** [UNLOCKS[t] || 0] with [UNLOCKS = { vehicles: 15 }] *)
Definition need (t : Theme) : Z :=
  match t with vehicles => 15 | animals => 0 end.

(** A button of the theme grid: its [data-theme], its [disabled]
    property, its classes [locked] and [selected], and the price that
    its text shows after the lock sign ([None]: the plain label). *)
Record ThemeButton := mkThemeButton {
  tb_theme : Theme;
  tb_disabled : bool;
  tb_locked : bool;
  tb_selected : bool;
  tb_price : option Z
}.

(** A button of the age grid: [Number(btn.dataset.age)] and its class
    [selected]. *)
Record AgeButton := mkAgeButton {
  ab_age : Z;
  ab_selected : bool
}.

Inductive Toast : Type := ToastGoal | ToastUnlocked.

#[global] Instance Toast_eq_dec : EqDecision Toast.
Proof. solve_decision. Defined.

(** A call of [startGame]: [store.age], [store.theme] and [store.coins]
    at the time of the call. *)
Record Start := mkStart {
  st_age : option Z;
  st_theme : option Theme;
  st_coins : Z
}.

Record Page := mkPage {
  age : option Z;
  theme : option Theme;
  coins : Z;
  themeButtons : list ThemeButton;
  ageButtons : list AgeButton;
  startDisabled : bool;
  selectActive : bool;
  gameActive : bool;
  toasts : list Toast;
  starts : list Start
}.

(** The truth value of [store.age] (null, or a number) and of
    [store.theme] (null, or a non-empty string) *)
Definition age_set (a : option Z) : bool :=
  match a with Some n => negb (n =? 0) | None => false end.
Definition theme_set (t : option Theme) : bool :=
  match t with Some _ => true | None => false end.

Definition deselect (b : ThemeButton) : ThemeButton :=
  mkThemeButton (tb_theme b) (tb_disabled b) (tb_locked b) false (tb_price b).
Definition deselect_age (b : AgeButton) : AgeButton :=
  mkAgeButton (ab_age b) false.

(** The body of the [forEach] of [refreshThemeButtons], for the button
    at index [i] *)
Definition refresh_button (pg : Page) (i : nat) : Page :=
  match themeButtons pg !! i with
  | None => pg
  | Some b =>
      let t := tb_theme b in
      let unlocked := need t <=? coins pg in
      let lock := negb unlocked && (0 <? need t) in
      let b' := mkThemeButton t lock lock (tb_selected b)
                              (if unlocked then None else Some (need t)) in
      let btns := <[i := b']> (themeButtons pg) in
      if negb unlocked && bool_decide (theme pg = Some t) then
        mkPage (age pg) None (coins pg) (deselect <$> btns) (ageButtons pg)
               (negb (age_set (age pg) && theme_set None))
               (selectActive pg) (gameActive pg) (toasts pg) (starts pg)
      else
        mkPage (age pg) (theme pg) (coins pg) btns (ageButtons pg)
               (startDisabled pg) (selectActive pg) (gameActive pg)
               (toasts pg) (starts pg)
  end.

(** [refreshThemeButtons()] *)
Definition refreshThemeButtons (pg : Page) : Page :=
  foldl refresh_button pg (seq 0 (length (themeButtons pg))).

(** [toast(msg)] *)
Definition toast (pg : Page) (msg : Toast) : Page :=
  mkPage (age pg) (theme pg) (coins pg) (themeButtons pg) (ageButtons pg)
         (startDisabled pg) (selectActive pg) (gameActive pg)
         (msg :: toasts pg) (starts pg).

(** [switchScreen(which)] *)
Definition switchScreen (pg : Page) (select : bool) : Page :=
  if select then
    refreshThemeButtons
      (mkPage (age pg) (theme pg) (coins pg) (themeButtons pg) (ageButtons pg)
              (startDisabled pg) true false (toasts pg) (starts pg))
  else
    mkPage (age pg) (theme pg) (coins pg) (themeButtons pg) (ageButtons pg)
           (startDisabled pg) false true (toasts pg) (starts pg).

(** [startGame()], as far as the page goes: the game screen is shown
    and the call is logged.  The level that it sets up is the one of
    [Main.startGame]. *)
Definition startGame (pg : Page) : Page :=
  let pg := switchScreen pg false in
  mkPage (age pg) (theme pg) (coins pg) (themeButtons pg) (ageButtons pg)
         (startDisabled pg) (selectActive pg) (gameActive pg) (toasts pg)
         (mkStart (age pg) (theme pg) (coins pg) :: starts pg).

(** The click listener of [bindSelectable(els.themeGrid, 'theme')], for
    a click on the theme button at index [i] *)
Definition click_theme (pg : Page) (i : nat) : Page :=
  match themeButtons pg !! i with
  | None => pg
  | Some b =>
      let btns :=
        <[i := mkThemeButton (tb_theme b) (tb_disabled b) (tb_locked b) true
                             (tb_price b)]>
          (deselect <$> themeButtons pg) in
      let th := Some (tb_theme b) in
      let pg := mkPage (age pg) th (coins pg) btns (ageButtons pg)
                       (negb (age_set (age pg) && theme_set th))
                       (selectActive pg) (gameActive pg) (toasts pg)
                       (starts pg) in
      if age_set (age pg) && theme_set (theme pg) && selectActive pg
      then startGame pg else pg
  end.

(** The click listener of [bindSelectable(els.ageGrid, 'age')] *)
Definition click_age (pg : Page) (i : nat) : Page :=
  match ageButtons pg !! i with
  | None => pg
  | Some b =>
      let btns :=
        <[i := mkAgeButton (ab_age b) true]> (deselect_age <$> ageButtons pg) in
      let a := Some (ab_age b) in
      let pg := mkPage a (theme pg) (coins pg) (themeButtons pg) btns
                       (negb (age_set a && theme_set (theme pg)))
                       (selectActive pg) (gameActive pg) (toasts pg)
                       (starts pg) in
      if age_set (age pg) && theme_set (theme pg) && selectActive pg
      then startGame pg else pg
  end.

(** The click listener of the start button *)
Definition click_start (pg : Page) : Page :=
  if negb (age_set (age pg)) || negb (theme_set (theme pg)) then pg
  else startGame pg.

(** The click listener of the back button *)
Definition click_back (pg : Page) : Page := switchScreen pg true.

(** [coinsAdd(n)] *)
Definition coinsAdd (pg : Page) (n : Z) : Page :=
  let wasVehiclesUnlocked := 15 <=? coins pg in
  let pg := mkPage (age pg) (theme pg) (coins pg + n) (themeButtons pg)
                   (ageButtons pg) (startDisabled pg) (selectActive pg)
                   (gameActive pg) (toasts pg) (starts pg) in
  let nowVehiclesUnlocked := 15 <=? coins pg in
  let pg := refreshThemeButtons pg in
  if negb wasVehiclesUnlocked && nowVehiclesUnlocked
  then toast pg ToastUnlocked else pg.

(** [onGoal()], as far as the page goes: the toast and the five coins.
    The [startGame] that it schedules is the event [Restart]. *)
Definition onGoal (pg : Page) : Page := coinsAdd (toast pg ToastGoal) 5.

(** The page after the script has run at page load, with the buttons as
    the HTML gives them and [coins0] coins in the store. *)
Definition loaded (coins0 : Z) (tbs : list ThemeButton) (abs : list AgeButton)
    (startDisabled0 selectActive0 gameActive0 : bool) : Page :=
  refreshThemeButtons
    (mkPage None None coins0 tbs abs startDisabled0 selectActive0 gameActive0
            [] []).

Inductive Event : Type :=
| ClickTheme (i : nat)
| ClickAge (i : nat)
| ClickStart
| ClickBack
| Goal
| Restart.

#[global] Instance Event_eq_dec : EqDecision Event.
Proof. solve_decision. Defined.

(** A browser dispatches no click event on a disabled button. *)
Definition dispatched (pg : Page) (e : Event) : bool :=
  match e with
  | ClickTheme i =>
      match themeButtons pg !! i with
      | Some b => negb (tb_disabled b)
      | None => false
      end
  | ClickAge i => bool_decide (is_Some (ageButtons pg !! i))
  | ClickStart => negb (startDisabled pg)
  | ClickBack | Goal | Restart => true
  end.

Definition handle (pg : Page) (e : Event) : Page :=
  match e with
  | ClickTheme i => click_theme pg i
  | ClickAge i => click_age pg i
  | ClickStart => click_start pg
  | ClickBack => click_back pg
  | Goal => onGoal pg
  | Restart => startGame pg
  end.

(** A run of events; [None] when an event is a click that the browser
    does not dispatch. *)
Fixpoint run (pg : Page) (es : list Event) : option Page :=
  match es with
  | [] => Some pg
  | e :: es => if dispatched pg e then run (handle pg e) es else None
  end.

End Ui.

(** The theme [t] is locked with [c] coins. *)
Definition theme_locked (t : Ui.Theme) (c : Z) : bool :=
  (c <? Ui.need t) && (0 <? Ui.need t).

(** The button [b] shows the lock state of its theme for [c] coins: it is
    disabled and has the class [locked] exactly when the theme is locked,
    and its text shows the price exactly when the coins do not reach it. *)
Definition button_fresh (c : Z) (b : Ui.ThemeButton) : Prop :=
  Ui.tb_disabled b = theme_locked (Ui.tb_theme b) c ∧
  Ui.tb_locked b = theme_locked (Ui.tb_theme b) c ∧
  Ui.tb_price b = (if Ui.need (Ui.tb_theme b) <=? c then None
                   else Some (Ui.need (Ui.tb_theme b))).

Definition buttons_fresh (pg : Ui.Page) : Prop :=
  ∀ b, b ∈ Ui.themeButtons pg → button_fresh (Ui.coins pg) b.

(** The number of [Goal] events *)
Definition goals_of (es : list Ui.Event) : nat :=
  length (filter (λ e, e = Ui.Goal) es).

(** The selected theme is not locked. *)
Definition theme_unlocked (pg : Ui.Page) : Prop :=
  ∀ t, Ui.theme pg = Some t → theme_locked t (Ui.coins pg) = false.

(** Every logged call of [startGame] was made with a theme that was not
    locked at the time. *)
Definition starts_unlocked (pg : Ui.Page) : Prop :=
  ∀ s t, s ∈ Ui.starts pg → Ui.st_theme s = Some t →
         theme_locked t (Ui.st_coins s) = false.

(** The number of unlock toasts *)
Definition unlock_toasts (pg : Ui.Page) : nat :=
  length (filter (λ m, m = Ui.ToastUnlocked) (Ui.toasts pg)).

(** What holds of the page after every event: the buttons of the theme
    grid are up to date, the selected theme is not locked, and no game
    was started with a locked theme. *)
Definition ui_inv (pg : Ui.Page) : Prop :=
  buttons_fresh pg ∧ theme_unlocked pg ∧ starts_unlocked pg.

(** The start button is enabled exactly when an age and a theme are
    chosen. *)
Definition start_button_ok (pg : Ui.Page) : Prop :=
  Ui.startDisabled pg = negb (Ui.age_set (Ui.age pg) && Ui.theme_set (Ui.theme pg)).

(** ** Generating again on the same maze object *)

(** Every passage flag (directions 0 to 3) that a cell of [m] has, the
    cell of [m'] at the same index has too. *)
Definition flags_in (m m' : Maze) : Prop :=
  ∀ i c, grid_at m i = Some c →
    ∃ c', grid_at m' i = Some c' ∧
          ∀ d, 0 ≤ d < 4 → isOpen c d = true → isOpen c' d = true.

(** The masks use the four direction bits only. *)
Definition small_masks (m : Maze) : Prop :=
  ∀ c, c ∈ grid m → 0 ≤ passages c < 16.

(** Two states of the loop of [generate] that differ in the cells of the
    maze at most: the same generator state, stack and visited set, and a
    maze of the same size. *)
Definition same_control (a b : GenState) : Prop :=
  gs_rand b = gs_rand a ∧ gs_stack b = gs_stack a ∧
  gs_visited b = gs_visited a ∧
  cols (gs_maze b) = cols (gs_maze a) ∧ rows (gs_maze b) = rows (gs_maze a).

(** ** A play of main.js on the 5 by 5 maze of seed 42

    On the 600 by 600 canvas the speed is 36 per frame, so a drag from the
    centre of a cell to the centre of the next takes four frames; frames
    come 16 ms apart. *)

Fixpoint main_frames (t : Z) (n : nat) : list Main.Event :=
  match n with
  | O => []
  | S n => Main.EvFrame (QofZ (t + 16)) :: main_frames (t + 16) n
  end.

(** The pointer is dragged to the centre of each cell of [way] in turn and
    held there for four frames. *)
Fixpoint main_drag (t : Z) (way : list (Z * Z)) : list Main.Event :=
  match way with
  | [] => []
  | c :: way =>
      Main.EvPointerMove (fst (hop_pt (fst c) (snd c))) (snd (hop_pt (fst c) (snd c)))
      :: main_frames t 4 ++ main_drag (t + 64) way
  end.

(** The game that [startGame] sets up for age 3 with [Date.now()] giving
    the seed 42. *)
Definition main_game : Main.Game :=
  match Main.startGame None 3 42 600 600 with
  | Some (Ok g) => g
  | _ => Main.loaded sample_maze 600 600
  end.

(** The player is grabbed at the start and dragged along the way to the
    goal; the run ends with the frame in which the player enters the goal
    cell, the second frame of the last drag. *)
Definition main_to_goal : list Main.Event :=
  Main.EvPointerStart (fst (hop_pt 0 0)) (snd (hop_pt 0 0))
  :: main_drag 0 (removelast hop_way)
  ++ Main.EvPointerMove (fst (hop_pt 4 4)) (snd (hop_pt 4 4)) :: main_frames 1088 2.

(** Two frames more, in which the player moves on inside the goal cell
    while the jump animation runs. *)
Definition main_stay : list Main.Event := main_frames 1120 2.

(** * Properties *)

(** ** Passage bits *)

Lemma to_int32_testbit z i :
  0 ≤ i < 32 → Z.testbit (Int32.to_int32 z) i = Z.testbit z i.
Proof.
  intros Hi.
  assert (Hm : Int32.to_int32 z mod 2 ^ 32 = z mod 2 ^ 32).
  { unfold Int32.to_int32, Int32.two32, Int32.two31.
    change 4294967296 with (2 ^ 32).
    destruct (z mod 2 ^ 32 <? 2147483648).
    - apply Z.mod_mod. lia.
    - replace (z mod 2 ^ 32 - 2 ^ 32) with (z mod 2 ^ 32 + (-1) * 2 ^ 32) by lia.
      rewrite Z.mod_add by lia. apply Z.mod_mod. lia. }
  rewrite <- (Z.mod_pow2_bits_low (Int32.to_int32 z) 32 i) by lia.
  rewrite Hm. apply Z.mod_pow2_bits_low. lia.
Qed.

Lemma to_int32_small z : - 2147483648 ≤ z < 2147483648 → Int32.to_int32 z = z.
Proof.
  intros Hz. unfold Int32.to_int32, Int32.two32, Int32.two31.
  destruct (Z_lt_le_dec z 0).
  - replace (z mod 4294967296) with (z + 4294967296).
    + destruct (z + 4294967296 <? 2147483648) eqn:E; lia.
    + apply Z.mod_unique with (-1); lia.
  - rewrite Z.mod_small by lia.
    destruct (z <? 2147483648) eqn:E; lia.
Qed.

Lemma shl_one dir : 0 ≤ dir < 31 → Int32.shl 1 dir = 2 ^ dir.
Proof.
  intros Hd. unfold Int32.shl.
  rewrite (to_int32_small 1) by lia.
  rewrite Z.mod_small by lia.
  rewrite Z.shiftl_1_l.
  apply to_int32_small.
  assert (0 < 2 ^ dir) by (apply Z.pow_pos_nonneg; lia).
  assert (2 ^ dir ≤ 2 ^ 30) by (apply Z.pow_le_mono_r; lia).
  change (2 ^ 30) with 1073741824 in *. lia.
Qed.

Lemma isOpen_testbit c dir :
  0 ≤ dir < 31 → isOpen c dir = Z.testbit (passages c) dir.
Proof.
  intros Hd. unfold isOpen, Int32.and.
  rewrite shl_one by done.
  assert (H2 : Int32.to_int32 (2 ^ dir) = 2 ^ dir).
  { rewrite <- shl_one at 2 by done. unfold Int32.shl.
    rewrite (to_int32_small 1) by lia.
    rewrite Z.mod_small by lia. by rewrite Z.shiftl_1_l. }
  rewrite H2.
  rewrite <- (to_int32_testbit (passages c) dir) by lia.
  set (p := Int32.to_int32 (passages c)).
  destruct (Z.testbit p dir) eqn:Hb.
  - apply negb_true_iff, Z.eqb_neq. intros H0.
    assert (Hx : Z.testbit (Z.land p (2 ^ dir)) dir = true).
    { rewrite Z.land_spec, Hb, Z.pow2_bits_true; [done | lia]. }
    rewrite H0, Z.bits_0 in Hx. done.
  - apply negb_false_iff, Z.eqb_eq.
    apply Z.bits_inj'. intros n Hn.
    rewrite Z.land_spec, Z.bits_0.
    destruct (Z.eq_dec n dir) as [-> | Hne].
    + by rewrite Hb.
    + rewrite (Z.pow2_bits_false dir n) by lia. apply andb_false_r.
Qed.

Lemma open_testbit c dir i :
  0 ≤ dir < 31 → 0 ≤ i < 31 →
  Z.testbit (passages (open dir c)) i =
  Z.testbit (passages c) i || bool_decide (i = dir).
Proof.
  intros Hd Hi. unfold open, Int32.or. simpl.
  rewrite shl_one by done.
  rewrite Z.lor_spec.
  rewrite !to_int32_testbit by lia.
  f_equal.
  case_bool_decide as Heq.
  - subst. apply Z.pow2_bits_true. lia.
  - apply Z.pow2_bits_false. lia.
Qed.

Lemma isOpen_open c dir i :
  0 ≤ dir < 31 → 0 ≤ i < 31 →
  isOpen (open dir c) i = isOpen c i || bool_decide (i = dir).
Proof.
  intros. rewrite !isOpen_testbit by done. by apply open_testbit.
Qed.

Lemma isOpen_new x y dir : isOpen (Cell_new x y) dir = false.
Proof. reflexivity. Qed.

(** ** Indexing the grid *)

Lemma idx_range m x y :
  in_grid m x y → 0 ≤ idx m x y < cols m * rows m.
Proof. unfold in_grid, idx. nia. Qed.

Lemma idx_inj m x y x' y' :
  in_grid m x y → in_grid m x' y' → idx m x y = idx m x' y' → x = x' ∧ y = y'.
Proof. unfold in_grid, idx. intros ? ? ?. assert (y = y') by nia. split; [nia|done]. Qed.

Lemma grid_at_in_grid m x y :
  Maze_wf m → in_grid m x y → ∃ c, grid_at m (idx m x y) = Some c.
Proof.
  intros (_ & _ & Hlen) Hin.
  pose proof (idx_range m x y Hin) as Hr.
  unfold grid_at.
  destruct (idx m x y <? 0) eqn:E; [lia|].
  apply lookup_lt_is_Some_2. lia.
Qed.

Lemma grid_at_None m i :
  i < 0 ∨ Z.of_nat (length (grid m)) ≤ i → grid_at m i = None.
Proof.
  intros H. unfold grid_at.
  destruct (i <? 0) eqn:E; [done|].
  apply lookup_ge_None_2. lia.
Qed.

(** ** canMove *)

Lemma canMove_spec m x y dir c :
  grid_at m (idx m x y) = Some c →
  0 ≤ dir < 4 → in_grid m x y →
  canMove m x y dir =
  Ok (isOpen c dir && in_gridb m (step_x x dir) (step_y y dir)).
Proof.
  intros Hc Hd [Hx Hy]. unfold canMove. rewrite Hc.
  unfold in_gridb, step_x, step_y.
  destruct (isOpen c dir); simpl; [|done].
  assert (dir = 0 ∨ dir = 1 ∨ dir = 2 ∨ dir = 3) as [-> | [-> | [-> | ->]]] by lia;
    simpl;
    repeat match goal with
    | |- context [?a <=? ?b] => destruct (Z.leb_spec a b)
    | |- context [?a >=? ?b] => rewrite (Z.geb_leb a b)
    | |- context [?a <? ?b] => destruct (Z.ltb_spec a b)
    end; simpl; try done; lia.
Qed.

(** On a cell of the grid [canMove] finds its cell and returns. *)
Lemma canMove_total m x y dir :
  Maze_wf m → in_grid m x y → ∃ b, canMove m x y dir = Ok b.
Proof.
  intros Hwf Hin.
  destruct (grid_at_in_grid m x y Hwf Hin) as [c Hc].
  unfold canMove. rewrite Hc.
  repeat match goal with |- context [if ?b then _ else _] => destruct b end;
    eauto.
Qed.

(** Where the index [y * cols + x] is not an index of the grid array,
    [canMove] throws. *)
Lemma canMove_off_array m x y dir :
  idx m x y < 0 ∨ Z.of_nat (length (grid m)) ≤ idx m x y →
  canMove m x y dir = Throw.
Proof. intros H. unfold canMove. by rewrite grid_at_None. Qed.

(** C1, as the code has it: on a cell of the grid [canMove] returns a
    boolean (it does not throw), and it returns false for every direction
    0..3 that leaves the grid, whatever the passage mask holds.
    Coordinates outside the grid are not checked by [canMove]. *)
Theorem canMove_boundary (m : Maze) (x y dir : Z) :
  Maze_wf m → in_grid m x y →
  (∃ b, canMove m x y dir = Ok b) ∧
  (0 ≤ dir < 4 → exits m x y dir → canMove m x y dir = Ok false).
Proof.
  intros Hwf Hin. split; [by apply canMove_total|].
  destruct (grid_at_in_grid m x y Hwf Hin) as [c Hc].
  intros Hd Hex.
  rewrite (canMove_spec m x y dir c) by done.
  f_equal. apply andb_false_iff. right.
  apply not_true_is_false. intros Hb. apply Hex.
  unfold in_gridb in Hb. unfold in_grid. lia.
Qed.

(** ** cellFromPoint and canTraverse *)

Lemma cellFromPoint_Some_Int m mt px py x y :
  cellFromPoint m mt px py = Some (Int x, Int y) → in_grid m x y.
Proof.
  unfold cellFromPoint.
  destruct (_ || _) eqn:E; [done|].
  intros [= Hx Hy]. rewrite Hx, Hy in E. simpl in E.
  unfold in_grid.
  repeat (apply orb_false_iff in E as [E ?]).
  lia.
Qed.

(** Whatever [cellFromPoint] returns is an in-grid integer or NaN in each
    coordinate. *)
Lemma cellFromPoint_shape m mt px py c :
  cellFromPoint m mt px py = Some c →
  (fst c = NaN ∨ ∃ x, fst c = Int x ∧ 0 ≤ x < cols m) ∧
  (snd c = NaN ∨ ∃ y, snd c = Int y ∧ 0 ≤ y < rows m).
Proof.
  unfold cellFromPoint.
  destruct (_ || _) eqn:E; [done|].
  intros [= <-]. simpl.
  repeat (apply orb_false_iff in E as [E ?]).
  split.
  - destruct (floor_div (px - originX mt) (cellSize mt)); simpl in *;
      try done; [right|by left]. eexists; split; [done|lia].
  - destruct (floor_div (py - originY mt) (cellSize mt)); simpl in *;
      try done; [right|by left]. eexists; split; [done|lia].
Qed.

Lemma canTraverse_cells m mt x1 y1 x2 y2 ax ay bx by_ :
  cellFromPoint m mt x1 y1 = Some (Int ax, Int ay) →
  cellFromPoint m mt x2 y2 = Some (Int bx, Int by_) →
  canTraverse m mt x1 y1 x2 y2 =
  if (ax =? bx) && (ay =? by_) then Ok true
  else if negb (Z.abs (bx - ax) + Z.abs (by_ - ay) =? 1) then Ok false
  else canMove m ax ay
         (if bx - ax =? 1 then 1 else if bx - ax =? -1 then 3
          else if by_ - ay =? 1 then 2 else 0).
Proof.
  intros Ha Hb. unfold canTraverse. rewrite Ha, Hb. simpl.
  replace (bx + - ax) with (bx - ax) by lia.
  replace (by_ + - ay) with (by_ - ay) by lia.
  reflexivity.
Qed.

(** C4.  For two positions that map to grid cells [a] and [b]:
    [canTraverse] is true when the cells are equal; when [b] is the
    neighbour of [a] in direction [d] (one unit on one axis) it is what
    [canMove] answers for [a] and [d]; and when the cells differ by more
    than one unit or on both axes it is false. *)
Theorem canTraverse_cases (m : Maze) (mt : Metrics) (x1 y1 x2 y2 : Q)
    (ax ay bx by_ : Z) :
  cellFromPoint m mt x1 y1 = Some (Int ax, Int ay) →
  cellFromPoint m mt x2 y2 = Some (Int bx, Int by_) →
  ((ax, ay) = (bx, by_) → canTraverse m mt x1 y1 x2 y2 = Ok true) ∧
  (∀ d, 0 ≤ d < 4 → (bx, by_) = (step_x ax d, step_y ay d) →
        canTraverse m mt x1 y1 x2 y2 = canMove m ax ay d) ∧
  (1 < Z.abs (bx - ax) + Z.abs (by_ - ay) →
   canTraverse m mt x1 y1 x2 y2 = Ok false).
Proof.
  intros Ha Hb.
  rewrite (canTraverse_cells _ _ _ _ _ _ _ _ _ _ Ha Hb).
  split; [|split].
  - intros [= -> ->]. by rewrite !Z.eqb_refl.
  - intros d Hd [= -> ->].
    assert (d = 0 ∨ d = 1 ∨ d = 2 ∨ d = 3) as [-> | [-> | [-> | ->]]] by lia;
      unfold step_x, step_y; simpl;
      repeat match goal with
      | |- context [?a =? ?b] => destruct (Z.eqb_spec a b); try lia
      end; simpl; try done; lia.
  - intros Hfar.
    destruct (Z.eqb_spec ax bx), (Z.eqb_spec ay by_); simpl; try lia;
      destruct (Z.eqb_spec (Z.abs (bx - ax) + Z.abs (by_ - ay)) 1);
      simpl; try done; lia.
Qed.

(** A position that does not map to a cell cannot be traversed to or
    from. *)
Lemma canTraverse_null m mt x1 y1 x2 y2 :
  cellFromPoint m mt x1 y1 = None ∨ cellFromPoint m mt x2 y2 = None →
  canTraverse m mt x1 y1 x2 y2 = Ok false.
Proof.
  unfold canTraverse. intros [-> | ->]; [done|].
  by destruct (cellFromPoint m mt x1 y1).
Qed.

Lemma seq_Int_inv a z : JsNum.seq a (Int z) = true → a = Int z.
Proof. destruct a; simpl; try done. intros H. f_equal. lia. Qed.

Lemma seq_true_inv a b :
  JsNum.seq a b = true → a = b ∧ a ≠ NaN.
Proof.
  destruct a, b; simpl; try done. intros H.
  split; [f_equal; lia | done].
Qed.

(** A move that [canTraverse] allows ends in a grid cell whenever it
    starts in one. *)
Lemma canTraverse_true_dest m mt x1 y1 x2 y2 ax ay :
  cellFromPoint m mt x1 y1 = Some (Int ax, Int ay) →
  canTraverse m mt x1 y1 x2 y2 = Ok true →
  ∃ bx by_, cellFromPoint m mt x2 y2 = Some (Int bx, Int by_).
Proof.
  intros Ha. unfold canTraverse. rewrite Ha.
  destruct (cellFromPoint m mt x2 y2) as [[bx by_]|] eqn:Hb; [|done].
  simpl.
  destruct bx as [bx| | |], by_ as [by_| | |]; simpl; eauto;
    repeat match goal with
    | |- context [?a =? ?b] => destruct (a =? b); simpl
    end; done.
Qed.

(** [canTraverse] does not throw on a well-formed maze. *)
Lemma canTraverse_total m mt x1 y1 x2 y2 :
  Maze_wf m → ∃ b, canTraverse m mt x1 y1 x2 y2 = Ok b.
Proof.
  intros Hwf. unfold canTraverse.
  destruct (cellFromPoint m mt x1 y1) as [[ax ay]|] eqn:Ha; [|eauto].
  destruct (cellFromPoint m mt x2 y2) as [[bx by_]|] eqn:Hb; [|eauto].
  simpl.
  destruct (_ && _); [eauto|].
  destruct (negb _) eqn:E; [eauto|].
  apply negb_false_iff in E.
  destruct ax as [ax| | |], ay as [ay| | |];
    try (destruct bx, by_; simpl in E; done).
  simpl.
  apply cellFromPoint_Some_Int in Ha.
  by apply canMove_total.
Qed.

(** ** attemptMove *)

Lemma Qltb_lt a b : Qltb a b = true ↔ (a < b)%Q.
Proof.
  unfold Qltb. rewrite negb_true_iff.
  split.
  - intros H. apply Qnot_le_lt. intros Hle.
    apply Qle_bool_iff in Hle. congruence.
  - intros H. apply not_true_is_false. intros Hle.
    apply Qle_bool_iff in Hle. by apply Qlt_not_le in H.
Qed.

(** C5.  [attemptMove] returns the full step when it can be traversed;
    otherwise the step along X alone when that can be traversed; otherwise
    the step along Y alone when that can be traversed; in these three
    cases no hurt event fires and the state is left as it was.  When all
    three are refused it returns the position it was given and the
    rate-limited hurt event is triggered: if more than 220 ms have passed
    since [lastHurtAt], the hurt fires ([lastHurtAt] becomes the current
    time, the call of [hurt] is logged, and [hurtFlash], set to 8, is at 7
    after the drawing that [hurt] ends with); otherwise nothing happens. *)
Theorem attemptMove_cases (g : Main.Game) (now cx cy dx dy : Q) :
  let m := Main.g_maze g in
  let mt := Main.g_metrics g in
  let full := canTraverse m mt cx cy (cx + dx)%Q (cy + dy)%Q in
  let slideX := canTraverse m mt cx cy (cx + dx)%Q cy in
  let slideY := canTraverse m mt cx cy cx (cy + dy)%Q in
  (full = Ok true →
   Main.attemptMove g now cx cy dx dy = Ok (((cx + dx)%Q, (cy + dy)%Q), g)) ∧
  (full = Ok false → slideX = Ok true →
   Main.attemptMove g now cx cy dx dy = Ok (((cx + dx)%Q, cy), g)) ∧
  (full = Ok false → slideX = Ok false → slideY = Ok true →
   Main.attemptMove g now cx cy dx dy = Ok ((cx, (cy + dy)%Q), g)) ∧
  (full = Ok false → slideX = Ok false → slideY = Ok false →
   ∃ g', Main.attemptMove g now cx cy dx dy = Ok ((cx, cy), g') ∧
     g' = Main.maybeHurt g now ∧
     ((220 < now - Main.g_lastHurtAt g)%Q →
      Main.g_lastHurtAt g' = now ∧
      Main.g_hurts g' = now :: Main.g_hurts g ∧
      Main.hurtFlash (Main.g_player g') = 7 ∧
      Main.g_maze g' = Main.g_maze g ∧
      Main.pl_x (Main.g_player g') = Main.pl_x (Main.g_player g) ∧
      Main.pl_y (Main.g_player g') = Main.pl_y (Main.g_player g)) ∧
     (¬ (220 < now - Main.g_lastHurtAt g)%Q → g' = g)).
Proof.
  intros m mt full slideX slideY. unfold Main.attemptMove.
  fold m mt. fold full slideX slideY.
  split; [by intros ->|]. split; [by intros -> ->|].
  split; [by intros -> -> ->|].
  intros -> -> ->. simpl. eexists. split; [reflexivity|]. split; [reflexivity|].
  unfold Main.maybeHurt.
  destruct (Qltb 220 (now - Main.g_lastHurtAt g)) eqn:Hlate.
  - split; [|intros Hn; exfalso; by apply Hn, Qltb_lt].
    intros _. unfold Main.hurt, Main.drawAll. simpl. done.
  - split; [|done].
    intros Hlt. apply Qltb_lt in Hlt. congruence.
Qed.

(** [attemptMove] does not throw on a well-formed maze. *)
Lemma attemptMove_total g now cx cy dx dy :
  Maze_wf (Main.g_maze g) →
  ∃ r, Main.attemptMove g now cx cy dx dy = Ok r.
Proof.
  intros Hwf. unfold Main.attemptMove.
  destruct (canTraverse_total (Main.g_maze g) (Main.g_metrics g) cx cy
              (cx + dx)%Q (cy + dy)%Q Hwf) as [[] ->]; simpl; [eauto|].
  destruct (canTraverse_total (Main.g_maze g) (Main.g_metrics g) cx cy
              (cx + dx)%Q cy Hwf) as [[] ->]; simpl; [eauto|].
  destruct (canTraverse_total (Main.g_maze g) (Main.g_metrics g) cx cy
              cx (cy + dy)%Q Hwf) as [[] ->]; simpl; eauto.
Qed.

(** C10.  From a position that maps to a grid cell, [attemptMove] returns
    a position that maps to a grid cell. *)
Theorem attemptMove_in_grid (g : Main.Game) (now cx cy dx dy : Q) (ax ay : Z) :
  Maze_wf (Main.g_maze g) →
  cellFromPoint (Main.g_maze g) (Main.g_metrics g) cx cy = Some (Int ax, Int ay) →
  ∃ x' y' g' bx by_,
    Main.attemptMove g now cx cy dx dy = Ok ((x', y'), g') ∧
    cellFromPoint (Main.g_maze g) (Main.g_metrics g) x' y' = Some (Int bx, Int by_) ∧
    in_grid (Main.g_maze g) bx by_.
Proof.
  intros Hwf Ha.
  set (m := Main.g_maze g). set (mt := Main.g_metrics g).
  assert (Hdest : ∀ x2 y2, canTraverse m mt cx cy x2 y2 = Ok true →
            ∃ bx by_, cellFromPoint m mt x2 y2 = Some (Int bx, Int by_) ∧
                      in_grid m bx by_).
  { intros x2 y2 Ht.
    destruct (canTraverse_true_dest m mt cx cy x2 y2 ax ay Ha Ht) as (bx & by_ & Hb).
    exists bx, by_. split; [done|]. by eapply cellFromPoint_Some_Int. }
  unfold Main.attemptMove. fold m mt.
  destruct (canTraverse_total m mt cx cy (cx + dx)%Q (cy + dy)%Q Hwf) as [[] E1];
    rewrite E1; simpl.
  { destruct (Hdest _ _ E1) as (bx & by_ & ? & ?).
    exists (cx + dx)%Q, (cy + dy)%Q, g, bx, by_. auto. }
  destruct (canTraverse_total m mt cx cy (cx + dx)%Q cy Hwf) as [[] E2];
    rewrite E2; simpl.
  { destruct (Hdest _ _ E2) as (bx & by_ & ? & ?).
    exists (cx + dx)%Q, cy, g, bx, by_. auto. }
  destruct (canTraverse_total m mt cx cy cx (cy + dy)%Q Hwf) as [[] E3];
    rewrite E3; simpl.
  { destruct (Hdest _ _ E3) as (bx & by_ & ? & ?).
    exists cx, (cy + dy)%Q, g, bx, by_. auto. }
  exists cx, cy, (Main.maybeHurt g now), ax, ay.
  split; [done|]. split; [done|]. by eapply cellFromPoint_Some_Int.
Qed.

(** ** maybeHurt *)

Lemma main_drawAll_view g : main_hurt_view (Main.drawAll g) = main_hurt_view g.
Proof. unfold Main.drawAll. by destruct (0 <? _). Qed.

Lemma hop_drawAll_view g : hop_hurt_view (Hop.drawAll g) = hop_hurt_view g.
Proof. unfold Hop.drawAll. by destruct (0 <? _). Qed.

Lemma main_maybeHurt_view g now :
  main_hurt_view (Main.maybeHurt g now) = hurt_step (main_hurt_view g) now.
Proof.
  unfold Main.maybeHurt, hurt_step. simpl.
  destruct (Qltb 220 _); [|done].
  unfold Main.hurt. by rewrite main_drawAll_view.
Qed.

Lemma hop_maybeHurt_view g now :
  hop_hurt_view (Hop.maybeHurt g now) = hurt_step (hop_hurt_view g) now.
Proof.
  unfold Hop.maybeHurt, hurt_step. simpl.
  destruct (Qltb 220 _); [|done].
  unfold Hop.hurt. by rewrite hop_drawAll_view.
Qed.

Lemma main_attempts_view g ts :
  main_hurt_view (foldl Main.maybeHurt g ts) = foldl hurt_step (main_hurt_view g) ts.
Proof.
  revert g. induction ts as [|t ts IH]; intros g; simpl; [done|].
  by rewrite IH, main_maybeHurt_view.
Qed.

Lemma hop_attempts_view g ts :
  hop_hurt_view (foldl Hop.maybeHurt g ts) = foldl hurt_step (hop_hurt_view g) ts.
Proof.
  revert g. induction ts as [|t ts IH]; intros g; simpl; [done|].
  by rewrite IH, hop_maybeHurt_view.
Qed.

Lemma hurt_step_inv s now : hurt_inv s → hurt_inv (hurt_step s now).
Proof.
  destruct s as [last log]. intros [Hsp Hle]. unfold hurt_step.
  simpl in *.
  destruct (Qltb 220 (now - last)) eqn:E; [|done].
  apply Qltb_lt in E.
  split; simpl.
  - split; [|done]. intros t' Ht'. specialize (Hle t' Ht'). lra.
  - intros t Ht. apply elem_of_cons in Ht as [-> | Ht]; [lra|].
    specialize (Hle t Ht). lra.
Qed.

Lemma hurt_steps_inv ts s : hurt_inv s → hurt_inv (foldl hurt_step s ts).
Proof.
  revert s. induction ts as [|t ts IH]; intros s Hs; simpl; [done|].
  by apply IH, hurt_step_inv.
Qed.

Lemma spaced_lookup log i j t1 t2 :
  spaced log → log !! i = Some t1 → log !! j = Some t2 →
  (t1 < t2)%Q → (220 < t2 - t1)%Q.
Proof.
  revert i j. induction log as [|t log IH]; intros i j Hsp Hi Hj Hlt;
    [done|].
  destruct Hsp as [Hhd Htl].
  destruct i as [|i], j as [|j]; simpl in *.
  - simplify_eq. lra.
  - simplify_eq.
    assert (220 < t1 - t2)%Q by (apply Hhd; by eapply list_elem_of_lookup_2).
    lra.
  - simplify_eq. apply Hhd. by eapply list_elem_of_lookup_2.
  - by eapply IH.
Qed.

Lemma attempts_spaced s ts :
  snd s = [] → spaced (snd (foldl hurt_step s ts)).
Proof.
  intros Hnil. apply hurt_steps_inv. unfold hurt_inv. rewrite Hnil.
  split; [done|]. intros t Ht. by apply elem_of_nil in Ht.
Qed.

(** C9.  Starting with an empty log, after any sequence of blocked
    attempts (calls of [maybeHurt] at the times [ts]), any two hurt
    events that fired at times [t1 < t2] are more than 220 ms apart; in
    both versions of main.js. *)
Theorem maybeHurt_rate_limited (ts : list Q) :
  (∀ (g : Main.Game) i j t1 t2,
     Main.g_hurts g = [] →
     Main.g_hurts (foldl Main.maybeHurt g ts) !! i = Some t1 →
     Main.g_hurts (foldl Main.maybeHurt g ts) !! j = Some t2 →
     (t1 < t2)%Q → (220 < t2 - t1)%Q) ∧
  (∀ (g : Hop.Game) i j t1 t2,
     Hop.g_hurts g = [] →
     Hop.g_hurts (foldl Hop.maybeHurt g ts) !! i = Some t1 →
     Hop.g_hurts (foldl Hop.maybeHurt g ts) !! j = Some t2 →
     (t1 < t2)%Q → (220 < t2 - t1)%Q).
Proof.
  split; intros g i j t1 t2 Hnil Hi Hj Hlt.
  - eapply (spaced_lookup _ i j); [|done..].
    change (Main.g_hurts ?g) with (snd (main_hurt_view g)).
    rewrite main_attempts_view. by apply attempts_spaced.
  - eapply (spaced_lookup _ i j); [|done..].
    change (Hop.g_hurts ?g) with (snd (hop_hurt_view g)).
    rewrite hop_attempts_view. by apply attempts_spaced.
Qed.


(** ** The coordinate round trip *)

Lemma Qzero_false q : ¬ (q == 0)%Q → Qzero q = false.
Proof.
  intros H. unfold Qzero. apply Z.eqb_neq. intros Hn. apply H.
  unfold Qeq. simpl. lia.
Qed.

Lemma Qzero_true q : (q == 0)%Q → Qzero q = true.
Proof. unfold Qzero, Qeq. simpl. intros H. apply Z.eqb_eq. lia. Qed.

Lemma Qfloor_half z : Qfloor (QofZ z + (1 # 2)) = z.
Proof.
  set (q := (QofZ z + (1 # 2))%Q).
  pose proof (Qfloor_le q) as Hlo.
  pose proof (Qlt_floor q) as Hhi.
  assert (H1 : (inject_Z (Qfloor q) <= inject_Z z + (1 # 2))%Q) by apply Hlo.
  assert (H2 : (inject_Z z + (1 # 2) < inject_Z (Qfloor q + 1))%Q) by apply Hhi.
  rewrite inject_Z_plus in H2.
  assert (Ha : (inject_Z (Qfloor q) < inject_Z (z + 1))%Q).
  { rewrite inject_Z_plus. change (inject_Z 1) with 1%Q. lra. }
  assert (Hb : (inject_Z z < inject_Z (Qfloor q + 1))%Q).
  { rewrite inject_Z_plus. change (inject_Z 1) with 1%Q in *. lra. }
  rewrite <- Zlt_Qlt in Ha, Hb. lia.
Qed.

Lemma floor_div_center o z cs :
  ¬ (cs == 0)%Q →
  floor_div (o + (QofZ z + (1 # 2)) * cs - o) cs = Int z.
Proof.
  intros Hcs. unfold floor_div. rewrite (Qzero_false cs Hcs).
  f_equal. transitivity (Qfloor (QofZ z + (1 # 2))); [|apply Qfloor_half].
  apply Qfloor_comp. unfold QofZ. field. done.
Qed.

(** The round trip for any metrics whose cell size is not zero. *)
Lemma cellFromPoint_cellCenter m mt cx cy :
  ¬ (cellSize mt == 0)%Q → in_grid m cx cy →
  cellFromPoint m mt (fst (cellCenter mt cx cy)) (snd (cellCenter mt cx cy))
  = Some (Int cx, Int cy).
Proof.
  intros Hcs [Hx Hy]. unfold cellFromPoint, cellCenter. simpl.
  rewrite !floor_div_center by done. simpl.
  destruct (Z.ltb_spec cx 0), (Z.ltb_spec cy 0),
    (Z.leb_spec (cols m) cx), (Z.leb_spec (rows m) cy); simpl; try lia.
  done.
Qed.

Lemma drawMaze_cellSize_nonzero m w h :
  0 < cols m → Qfloor (Qmin w h - 32) ≠ 0 →
  ¬ (cellSize (drawMaze m w h) == 0)%Q.
Proof.
  intros Hc Hn. cbv [drawMaze cellSize].
  change (16 * 2)%Q with 32%Q.
  generalize dependent (Qfloor (Qmin w h - 32)). intros n Hn.
  assert (Hk : 0 < Z.max (cols m) (rows m)) by lia.
  generalize dependent (Z.max (cols m) (rows m)). intros k Hk.
  destruct k as [|p|p]; try lia.
  unfold QofZ, Qeq, Qdiv, Qmult, Qinv, inject_Z. simpl. lia.
Qed.

(** C6, as the code has it: with the metrics that [drawMaze] computes for
    a [w] by [h] canvas, whenever the cell size is not zero (the smaller
    side of the canvas less the padding does not round down to 0),
    [cellFromPoint] of the centre of a cell of the grid is that cell. *)
Theorem cell_round_trip (m : Maze) (w h : Q) (cx cy : Z) :
  Qfloor (Qmin w h - 32) ≠ 0 →
  in_grid m cx cy →
  let mt := drawMaze m w h in
  cellFromPoint m mt (fst (cellCenter mt cx cy)) (snd (cellCenter mt cx cy))
  = Some (Int cx, Int cy).
Proof.
  intros Hn Hin mt.
  apply cellFromPoint_cellCenter; [|done].
  apply drawMaze_cellSize_nonzero; [|done].
  destruct Hin. lia.
Qed.

(** ** The sample maze *)

Lemma sample_maze_dims :
  cols sample_maze = 5 ∧ rows sample_maze = 5 ∧
  length (grid sample_maze) = 25%nat.
Proof. vm_compute. done. Qed.

Lemma sample_maze_wf : Maze_wf sample_maze.
Proof.
  destruct sample_maze_dims as (Hc & Hr & Hl).
  unfold Maze_wf. rewrite Hc, Hr, Hl. lia.
Qed.

Lemma sample_maze_in_grid x y :
  in_grid sample_maze x y ↔ 0 ≤ x < 5 ∧ 0 ≤ y < 5.
Proof.
  destruct sample_maze_dims as (Hc & Hr & _).
  unfold in_grid. by rewrite Hc, Hr.
Qed.

(** C6 as stated fails on a canvas whose smaller side is 32: the cell size
    is 0, the centre of every cell is the origin, and [cellFromPoint]
    divides 0 by 0 and returns NaN coordinates. *)
Lemma cell_round_trip_zero_cell_size :
  generate 5 5 42 = Some (Ok sample_maze) ∧ in_grid sample_maze 0 0 ∧
  cellFromPoint sample_maze (drawMaze sample_maze 32 32)
    (fst (cellCenter (drawMaze sample_maze 32 32) 0 0))
    (snd (cellCenter (drawMaze sample_maze 32 32) 0 0))
  = Some (NaN, NaN) ∧
  cellFromPoint sample_maze (drawMaze sample_maze 32 32)
    (fst (cellCenter (drawMaze sample_maze 32 32) 0 0))
    (snd (cellCenter (drawMaze sample_maze 32 32) 0 0))
  ≠ Some (Int 0, Int 0).
Proof.
  split; [vm_compute; reflexivity|].
  split; [apply sample_maze_in_grid; lia|].
  split; [vm_compute; reflexivity | vm_compute; discriminate].
Qed.

(** C1 as stated fails outside the grid: [canMove] does not check the
    coordinates.  With [y = -1] the index is negative, the cell is
    [undefined] and the call throws; with [x = -1] in row 1 the index is
    that of cell (4,0), whose bottom passage is open in this maze, and the
    call returns true. *)
Lemma canMove_outside_grid :
  generate 5 5 42 = Some (Ok sample_maze) ∧
  ¬ in_grid sample_maze 0 (-1) ∧ canMove sample_maze 0 (-1) 0 = Throw ∧
  ¬ in_grid sample_maze (-1) 1 ∧ canMove sample_maze (-1) 1 2 = Ok true.
Proof.
  split; [vm_compute; reflexivity|].
  repeat split; try (vm_compute; reflexivity);
    rewrite sample_maze_in_grid; lia.
Qed.

(** ** Carving *)

Lemma open_at_spec m i dir m' :
  open_at m i dir = Ok m' →
  ∃ c, grid_at m i = Some c ∧ 0 ≤ i ∧
       m' = set_grid m (<[Z.to_nat i := open dir c]> (grid m)).
Proof.
  unfold open_at. destruct (grid_at m i) as [c|] eqn:Hc; [|done].
  intros [= <-]. exists c. split; [done|]. split; [|done].
  unfold grid_at in Hc. destruct (Z.ltb_spec i 0); [done|lia].
Qed.

Lemma open_at_dims m i dir m' :
  open_at m i dir = Ok m' →
  cols m' = cols m ∧ rows m' = rows m ∧ length (grid m') = length (grid m).
Proof.
  intros H. apply open_at_spec in H as (c & _ & _ & ->). simpl.
  by rewrite length_insert.
Qed.

Lemma open_at_wf m i dir m' :
  open_at m i dir = Ok m' → Maze_wf m → Maze_wf m'.
Proof.
  intros H (? & ? & ?). apply open_at_dims in H as (Hc & Hr & Hl).
  unfold Maze_wf. by rewrite Hc, Hr, Hl.
Qed.

Lemma open_at_in_grid m i dir m' x y :
  open_at m i dir = Ok m' → in_grid m' x y ↔ in_grid m x y.
Proof.
  intros H. apply open_at_dims in H as (Hc & Hr & _).
  unfold in_grid. by rewrite Hc, Hr.
Qed.

Lemma open_at_idx m i dir m' x y :
  open_at m i dir = Ok m' → idx m' x y = idx m x y.
Proof.
  intros H. apply open_at_dims in H as (Hc & _ & _).
  unfold idx. by rewrite Hc.
Qed.

Lemma open_at_Ok m i dir :
  (∃ c, grid_at m i = Some c) → ∃ m', open_at m i dir = Ok m'.
Proof. intros [c Hc]. unfold open_at. rewrite Hc. eauto. Qed.

(** The passage bits after [this.grid[i].open(dir)]. *)
Lemma opened_open_at m i dir m' x y d :
  open_at m i dir = Ok m' → 0 ≤ dir < 4 → 0 ≤ d < 4 →
  opened m' x y d =
  opened m x y d || (bool_decide (idx m x y = i) && bool_decide (d = dir)).
Proof.
  intros H Hdir Hd.
  pose proof (open_at_idx m i dir m' x y H) as Hidx.
  apply open_at_spec in H as (c & Hc & Hi & ->).
  unfold opened. rewrite Hidx. unfold grid_at in *. simpl.
  destruct (Z.ltb_spec i 0); [lia|].
  destruct (Z.ltb_spec (idx m x y) 0) as [Hneg|Hpos].
  - rewrite bool_decide_eq_false_2 by lia. done.
  - case_bool_decide as Heq.
    + rewrite Heq. rewrite list_lookup_insert_eq by (by eapply lookup_lt_Some).
      rewrite Hc. rewrite isOpen_open by lia. done.
    + rewrite list_lookup_insert_ne by lia.
      simpl. by rewrite orb_false_r.
Qed.

(** ** The neighbours of a cell *)

Lemma elem_of_neighbors m x y n :
  n ∈ neighbors m x y ↔
  ∃ d, 0 ≤ d < 4 ∧ n = mkNbr (step_x x d) (step_y y d) d ∧
       (d = 0 → 0 < y) ∧ (d = 1 → x < cols m - 1) ∧
       (d = 2 → y < rows m - 1) ∧ (d = 3 → 0 < x).
Proof.
  unfold neighbors, step_x, step_y. split.
  - rewrite !elem_of_app.
    intros [H | [H | [H | H]]];
      [ destruct (Z.ltb_spec 0 y) | destruct (Z.ltb_spec x (cols m - 1))
      | destruct (Z.ltb_spec y (rows m - 1)) | destruct (Z.ltb_spec 0 x) ];
      try (by apply elem_of_nil in H);
      apply list_elem_of_singleton in H as ->;
      [exists 0 | exists 1 | exists 2 | exists 3]; simpl;
      (split; [lia|]); (split; [done|]); repeat split; intros; lia.
  - intros (d & Hd & -> & H0 & H1 & H2 & H3).
    rewrite !elem_of_app.
    assert (d = 0 ∨ d = 1 ∨ d = 2 ∨ d = 3) as [-> | [-> | [-> | ->]]] by lia;
      simpl.
    + left. destruct (Z.ltb_spec 0 y); [|lia]. apply list_elem_of_singleton. done.
    + right; left. destruct (Z.ltb_spec x (cols m - 1)); [|lia].
      apply list_elem_of_singleton. done.
    + right; right; left. destruct (Z.ltb_spec y (rows m - 1)); [|lia].
      apply list_elem_of_singleton. done.
    + right; right; right. destruct (Z.ltb_spec 0 x); [|lia].
      apply list_elem_of_singleton. done.
Qed.

Lemma step_in_grid m x y d :
  in_grid m x y → 0 ≤ d < 4 →
  in_grid m (step_x x d) (step_y y d) ↔
  (d = 0 → 0 < y) ∧ (d = 1 → x < cols m - 1) ∧
  (d = 2 → y < rows m - 1) ∧ (d = 3 → 0 < x).
Proof.
  intros [Hx Hy] Hd. unfold in_grid, step_x, step_y.
  assert (d = 0 ∨ d = 1 ∨ d = 2 ∨ d = 3) as [-> | [-> | [-> | ->]]] by lia;
    simpl; split; intros; repeat split; try lia.
Qed.

(** From a cell of the grid, [neighbors] lists exactly the directions that
    stay in the grid, each with the cell it leads to. *)
Lemma neighbors_in_grid m x y n :
  in_grid m x y →
  n ∈ neighbors m x y ↔
  ∃ d, 0 ≤ d < 4 ∧ n = mkNbr (step_x x d) (step_y y d) d ∧
       in_grid m (step_x x d) (step_y y d).
Proof.
  intros Hin. rewrite elem_of_neighbors. split.
  - intros (d & Hd & -> & H). exists d. split; [done|]. split; [done|].
    by apply step_in_grid.
  - intros (d & Hd & -> & H). exists d. split; [done|]. split; [done|].
    by apply step_in_grid.
Qed.

Lemma opposite_rem d : 0 ≤ d < 4 → Z.rem (d + 2) 4 = (d + 2) mod 4.
Proof. intros. apply Z.rem_mod_nonneg; lia. Qed.

Lemma opposite_range d : 0 ≤ d < 4 → 0 ≤ (d + 2) mod 4 < 4.
Proof. intros. apply Z.mod_pos_bound. lia. Qed.

Lemma opposite_invol d : 0 ≤ d < 4 → ((d + 2) mod 4 + 2) mod 4 = d.
Proof.
  intros H.
  assert (d = 0 ∨ d = 1 ∨ d = 2 ∨ d = 3) as [-> | [-> | [-> | ->]]] by lia; done.
Qed.

Lemma step_back x y d :
  0 ≤ d < 4 →
  step_x (step_x x d) ((d + 2) mod 4) = x ∧
  step_y (step_y y d) ((d + 2) mod 4) = y.
Proof.
  intros H. unfold step_x, step_y.
  assert (d = 0 ∨ d = 1 ∨ d = 2 ∨ d = 3) as [-> | [-> | [-> | ->]]] by lia;
    simpl; lia.
Qed.

Lemma step_moves x y d :
  0 ≤ d < 4 → (step_x x d, step_y y d) ≠ (x, y).
Proof.
  intros H. unfold step_x, step_y.
  assert (d = 0 ∨ d = 1 ∨ d = 2 ∨ d = 3) as [-> | [-> | [-> | ->]]] by lia;
    simpl; intros [= ]; lia.
Qed.

Lemma neighbor_back a d : 0 ≤ d < 4 → neighbor (neighbor a d) ((d + 2) mod 4) = a.
Proof.
  intros H. destruct a as [x y]. unfold neighbor. simpl.
  by destruct (step_back x y d H) as [-> ->].
Qed.

Lemma neighbor_ne a d : 0 ≤ d < 4 → neighbor a d ≠ a.
Proof.
  intros H. destruct a as [x y]. unfold neighbor. simpl.
  intros [= Hx Hy]. by apply (step_moves x y d H); f_equal.
Qed.

Lemma neighbor_inj a d d' :
  0 ≤ d < 4 → 0 ≤ d' < 4 → neighbor a d = neighbor a d' → d = d'.
Proof.
  intros Hd Hd'. destruct a as [x y]. unfold neighbor, step_x, step_y.
  intros [= Hx Hy].
  assert (d = 0 ∨ d = 1 ∨ d = 2 ∨ d = 3) as [-> | [-> | [-> | ->]]] by lia;
  assert (d' = 0 ∨ d' = 1 ∨ d' = 2 ∨ d' = 3) as [-> | [-> | [-> | ->]]] by lia;
    simpl in *; lia.
Qed.

(** ** The random index *)

Lemma mulberry32_next_range a :
  0 ≤ snd (mulberry32_next a) < Int32.two32.
Proof.
  unfold mulberry32_next. simpl. unfold Int32.to_uint32.
  apply Z.mod_pos_bound. done.
Qed.

Lemma rand_index_lt u len :
  0 ≤ u < Int32.two32 → (0 < len)%nat → (rand_index u len < len)%nat.
Proof.
  intros Hu Hlen. unfold rand_index.
  assert (u * Z.of_nat len / Int32.two32 < Z.of_nat len).
  { apply Z.div_lt_upper_bound; [done|]. unfold Int32.two32 in *. nia. }
  assert (0 ≤ u * Z.of_nat len / Int32.two32).
  { apply Z.div_pos; [|done]. nia. }
  lia.
Qed.

(** ** One iteration of the loop *)

Lemma cidx_inj m a b : in_maze m a → in_maze m b → cidx m a = cidx m b → a = b.
Proof.
  destruct a as [x y], b as [x' y']. unfold in_maze, cidx. simpl.
  intros Ha Hb H. destruct (idx_inj m x y x' y' Ha Hb H) as [-> ->]. done.
Qed.

(** The two outcomes of an iteration on a cell [cur] of the grid: the
    stack is popped when every neighbour in the grid is visited; otherwise
    the passage to an unvisited neighbour [neighbor cur d] is opened on
    both sides, and the neighbour is visited and pushed. *)
Lemma generate_iter_cases st cur rest :
  Maze_wf (gs_maze st) → gs_stack st = cur :: rest → in_maze (gs_maze st) cur →
  ((∀ d, 0 ≤ d < 4 → in_maze (gs_maze st) (neighbor cur d) →
         visited st (neighbor cur d)) ∧
   generate_iter st = Ok (mkGen (gs_maze st) (gs_rand st) rest (gs_visited st)))
  ∨
  (∃ d m1 m2 a,
     0 ≤ d < 4 ∧ in_maze (gs_maze st) (neighbor cur d) ∧
     ¬ visited st (neighbor cur d) ∧
     open_at (gs_maze st) (cidx (gs_maze st) cur) d = Ok m1 ∧
     open_at m1 (cidx (gs_maze st) (neighbor cur d)) ((d + 2) mod 4) = Ok m2 ∧
     generate_iter st =
       Ok (mkGen m2 a (neighbor cur d :: cur :: rest)
                 ({[cidx (gs_maze st) (neighbor cur d)]} ∪ gs_visited st))).
Proof.
  intros Hwf Hst Hcur. unfold generate_iter. rewrite Hst.
  pose proof (mulberry32_next_range (gs_rand st)) as Hu.
  destruct (mulberry32_next (gs_rand st)) as [a u]. simpl in Hu.
  set (m := gs_maze st) in *.
  destruct cur as [x y]. unfold in_maze in Hcur. simpl in *.
  destruct (filter _ (neighbors m x y)) as [|n0 l] eqn:Hf.
  - left. split; [|done].
    intros d Hd Hn. unfold visited, neighbor. simpl. fold m.
    destruct (decide (idx m (step_x x d) (step_y y d) ∈ gs_visited st)) as [|Hnv];
      [done|].
    exfalso.
    eapply (filter_nil_not_elem_of _ _ (mkNbr (step_x x d) (step_y y d) d) Hf).
    + simpl. exact Hnv.
    + apply neighbors_in_grid; [done|]. eauto.
  - right. rewrite <- Hf.
    set (un := filter _ (neighbors m x y)) in *.
    assert (Hlen : (0 < length un)%nat) by (rewrite Hf; simpl; lia).
    destruct (lookup_lt_is_Some_2 un _ (rand_index_lt u (length un) Hu Hlen))
      as [n Hn].
    rewrite Hn.
    apply list_elem_of_lookup_2 in Hn.
    apply list_elem_of_filter in Hn as [Hnv Hn].
    apply neighbors_in_grid in Hn as (d & Hd & -> & Hin); [|done].
    simpl in *.
    destruct (grid_at_in_grid m x y Hwf Hcur) as [c Hc].
    destruct (open_at_Ok m (idx m x y) d (ex_intro _ c Hc)) as [m1 Hm1].
    assert (Hwf1 : Maze_wf m1) by (by eapply open_at_wf).
    assert (Hin1 : in_grid m1 (step_x x d) (step_y y d))
      by (by eapply open_at_in_grid).
    destruct (grid_at_in_grid m1 _ _ Hwf1 Hin1) as [nb Hnb].
    rewrite (open_at_idx _ _ _ _ _ _ Hm1) in Hnb.
    destruct (open_at_Ok m1 (idx m (step_x x d) (step_y y d)) ((d + 2) mod 4)
                (ex_intro _ nb Hnb)) as [m2 Hm2].
    exists d, m1, m2, a. unfold cidx, neighbor, visited. simpl. fold m.
    rewrite opposite_rem by done.
    rewrite Hm1. simpl. rewrite Hm2. simpl.
    destruct Hin. repeat split; simpl; try done; lia.
Qed.

(** The passage bits after a carving step. *)
Lemma opened_carve m cur d m1 m2 a e :
  Maze_wf m → in_maze m cur → in_maze m (neighbor cur d) → 0 ≤ d < 4 →
  open_at m (cidx m cur) d = Ok m1 →
  open_at m1 (cidx m (neighbor cur d)) ((d + 2) mod 4) = Ok m2 →
  in_maze m a → 0 ≤ e < 4 →
  opened m2 (co_x a) (co_y a) e =
  opened m (co_x a) (co_y a) e
  || bool_decide (a = cur ∧ e = d)
  || bool_decide (a = neighbor cur d ∧ e = (d + 2) mod 4).
Proof.
  intros Hwf Hcur Hn Hd H1 H2 Ha He.
  rewrite (opened_open_at _ _ _ _ _ _ _ H2) by (done || by apply opposite_range).
  rewrite (opened_open_at _ _ _ _ _ _ _ H1) by done.
  rewrite (open_at_idx _ _ _ _ _ _ H1).
  rewrite <- !bool_decide_and.
  f_equal; [f_equal|]; apply bool_decide_ext; unfold cidx in *.
  - split; intros [H ?]; (split; [|done]).
    + by apply (cidx_inj m).
    + by rewrite H.
  - split; intros [H ?]; (split; [|done]).
    + by apply (cidx_inj m).
    + by rewrite H.
Qed.

Lemma carve_dims m cur d m1 m2 :
  open_at m (cidx m cur) d = Ok m1 →
  open_at m1 (cidx m (neighbor cur d)) ((d + 2) mod 4) = Ok m2 →
  cols m2 = cols m ∧ rows m2 = rows m ∧ (Maze_wf m → Maze_wf m2).
Proof.
  intros H1 H2.
  destruct (open_at_dims _ _ _ _ H1) as (Hc1 & Hr1 & Hl1).
  destruct (open_at_dims _ _ _ _ H2) as (Hc2 & Hr2 & Hl2).
  split; [congruence|]. split; [congruence|].
  unfold Maze_wf. rewrite Hc2, Hr2, Hl2, Hc1, Hr1, Hl1. done.
Qed.

(** ** Counting with filters *)

Lemma length_filter_ext {A} (P Q : A → Prop)
    `{!∀ x, Decision (P x)} `{!∀ x, Decision (Q x)} (l : list A) :
  (∀ y, y ∈ l → (Q y ↔ P y)) →
  length (filter Q l) = length (filter P l).
Proof.
  induction l as [|y l IH]; intros HQ; [done|].
  rewrite !filter_cons.
  assert (HQP : Q y ↔ P y) by (apply HQ; left).
  assert (IH' : length (filter Q l) = length (filter P l)).
  { apply IH. intros z Hz. apply HQ. by right. }
  destruct (decide (Q y)), (decide (P y)); simpl; try tauto; by rewrite IH'.
Qed.

Lemma length_filter_add {A} (P Q : A → Prop)
    `{!∀ x, Decision (P x)} `{!∀ x, Decision (Q x)} (l : list A) (x : A) :
  NoDup l → x ∈ l → ¬ P x →
  (∀ y, y ∈ l → (Q y ↔ P y ∨ y = x)) →
  length (filter Q l) = S (length (filter P l)).
Proof.
  induction l as [|y l IH]; intros Hnd Hx HP HQ.
  { by apply elem_of_nil in Hx. }
  apply NoDup_cons in Hnd as [Hy Hnd].
  rewrite !filter_cons.
  apply elem_of_cons in Hx as [<- | Hx].
  - assert (Q x) by (apply HQ; [left | by right]).
    destruct (decide (Q x)), (decide (P x)); try tauto. simpl. f_equal.
    apply length_filter_ext. intros z Hz.
    rewrite HQ by (by right). split; [|tauto].
    intros [? | ->]; [done | tauto].
  - assert (y ≠ x) by (intros ->; tauto).
    assert (HQP : Q y ↔ P y).
    { rewrite HQ by left. split; [|tauto]. intros [? | ?]; [done | tauto]. }
    assert (IH' : length (filter Q l) = S (length (filter P l))).
    { apply IH; try done. intros z Hz. apply HQ. by right. }
    destruct (decide (Q y)), (decide (P y)); simpl; try tauto; by rewrite IH'.
Qed.

(** ** The list of cells *)

Lemma cells_same m m' : cols m' = cols m → rows m' = rows m → cells m' = cells m.
Proof. intros Hc Hr. unfold cells. by rewrite Hc, Hr. Qed.

Lemma elem_of_cells m a : 0 < cols m → a ∈ cells m ↔ in_maze m a.
Proof.
  intros Hc. unfold cells, in_maze, in_grid. rewrite list_elem_of_fmap. split.
  - intros (i & -> & Hi). apply elem_of_seqZ in Hi. simpl.
    pose proof (Z.mod_pos_bound i (cols m) Hc).
    split; [lia|]. split.
    + apply Z.div_pos; lia.
    + apply Z.div_lt_upper_bound; lia.
  - intros [Hx Hy]. exists (cidx m a). split.
    + destruct a as [x y]. unfold cidx, idx. simpl in *. f_equal.
      * rewrite Z.add_comm, Z.mod_add by lia. symmetry. apply Z.mod_small. lia.
      * rewrite Z.add_comm, Z.div_add by lia. rewrite Z.div_small by lia. lia.
    + apply elem_of_seqZ. unfold cidx, idx. nia.
Qed.

Lemma NoDup_cells m : 0 < cols m → NoDup (cells m).
Proof.
  intros Hc. unfold cells. apply NoDup_fmap_2_strong; [|apply NoDup_seqZ].
  intros i j _ _ [= Hm Hd].
  rewrite (Z.div_mod i (cols m)), (Z.div_mod j (cols m)) by lia. congruence.
Qed.

Lemma length_cells m : 0 < cols m → 0 < rows m →
  Z.of_nat (length (cells m)) = cols m * rows m.
Proof.
  intros. unfold cells. rewrite length_fmap, length_seqZ. nia.
Qed.

(** ** The effect of a carving step on the passage graph *)

Section Carve.

Context (m : Maze) (cur : Coord) (d : Z) (m1 m2 : Maze).
Hypothesis Hwf : Maze_wf m.
Hypothesis Hcur : in_maze m cur.
Hypothesis Hnbr : in_maze m (neighbor cur d).
Hypothesis Hd : 0 ≤ d < 4.
Hypothesis Hopen1 : open_at m (cidx m cur) d = Ok m1.
Hypothesis Hopen2 :
  open_at m1 (cidx m (neighbor cur d)) ((d + 2) mod 4) = Ok m2.

Lemma carve_cols : cols m2 = cols m.
Proof. by destruct (carve_dims m cur d m1 m2 Hopen1 Hopen2) as (? & ? & ?). Qed.

Lemma carve_rows : rows m2 = rows m.
Proof. by destruct (carve_dims m cur d m1 m2 Hopen1 Hopen2) as (? & ? & ?). Qed.

Lemma carve_wf : Maze_wf m2.
Proof. destruct (carve_dims m cur d m1 m2 Hopen1 Hopen2) as (? & ? & H). auto. Qed.

Lemma carve_in_maze a : in_maze m2 a ↔ in_maze m a.
Proof. unfold in_maze, in_grid. by rewrite carve_cols, carve_rows. Qed.

Lemma carve_in_grid x y : in_grid m2 x y ↔ in_grid m x y.
Proof. unfold in_grid. by rewrite carve_cols, carve_rows. Qed.

Lemma carve_cidx a : cidx m2 a = cidx m a.
Proof. unfold cidx, idx. by rewrite carve_cols. Qed.

Lemma carve_cells : cells m2 = cells m.
Proof. apply cells_same; [apply carve_cols | apply carve_rows]. Qed.

Lemma carve_opened a e :
  in_maze m a → 0 ≤ e < 4 →
  opened m2 (co_x a) (co_y a) e =
  opened m (co_x a) (co_y a) e
  || bool_decide (a = cur ∧ e = d)
  || bool_decide (a = neighbor cur d ∧ e = (d + 2) mod 4).
Proof. intros. by eapply opened_carve. Qed.

Lemma carve_opened_mono a e :
  in_maze m a → 0 ≤ e < 4 →
  opened m (co_x a) (co_y a) e = true → opened m2 (co_x a) (co_y a) e = true.
Proof. intros Ha He H. rewrite carve_opened by done. by rewrite H. Qed.

Lemma carve_opened_cur : opened m2 (co_x cur) (co_y cur) d = true.
Proof.
  rewrite carve_opened by done.
  rewrite (bool_decide_eq_true_2 (cur = cur ∧ d = d)) by done.
  by rewrite orb_true_r.
Qed.

Lemma carve_opened_nbr :
  opened m2 (co_x (neighbor cur d)) (co_y (neighbor cur d)) ((d + 2) mod 4) = true.
Proof.
  rewrite carve_opened by (done || by apply opposite_range).
  rewrite (bool_decide_eq_true_2 (neighbor cur d = neighbor cur d ∧ _)) by done.
  by rewrite orb_true_r.
Qed.

Lemma carve_opened_inv a e :
  in_maze m a → 0 ≤ e < 4 →
  opened m2 (co_x a) (co_y a) e = true →
  opened m (co_x a) (co_y a) e = true
  ∨ (a = cur ∧ e = d)
  ∨ (a = neighbor cur d ∧ e = (d + 2) mod 4).
Proof.
  intros Ha He. rewrite carve_opened by done.
  intros H. apply orb_true_iff in H as [H | H].
  - apply orb_true_iff in H as [H | H]; [by left|].
    right; left. by apply bool_decide_eq_true in H.
  - right; right. by apply bool_decide_eq_true in H.
Qed.

(** The links after the step are the links before it and the new
    passage in both directions. *)
Lemma carve_link a b :
  link m2 a b ↔
  link m a b ∨ (a = cur ∧ b = neighbor cur d) ∨ (a = neighbor cur d ∧ b = cur).
Proof.
  unfold link. rewrite !carve_in_maze. split.
  - intros (Ha & Hb & e & He & -> & Ho).
    apply carve_opened_inv in Ho as [Ho | [[-> ->] | [-> ->]]]; try done.
    + left. eauto 10.
    + right; left. done.
    + right; right. split; [done|]. by apply neighbor_back.
  - intros [(Ha & Hb & e & He & -> & Ho) | [[-> ->] | [-> ->]]].
    + split; [done|]. split; [done|]. exists e.
      split; [done|]. split; [done|]. by apply carve_opened_mono.
    + split; [done|]. split; [done|]. exists d.
      split; [done|]. split; [done|]. apply carve_opened_cur.
    + split; [done|]. split; [done|]. exists ((d + 2) mod 4).
      split; [by apply opposite_range|].
      split; [by rewrite neighbor_back | apply carve_opened_nbr].
Qed.

Lemma carve_link_mono a b : link m a b → link m2 a b.
Proof. intros H. apply carve_link. by left. Qed.

Lemma carve_reachable_mono a b : reachable m a b → reachable m2 a b.
Proof.
  unfold reachable. apply rtc_subrel. intros x y. apply carve_link_mono.
Qed.

(** Mutual passages stay mutual. *)
Lemma carve_mutual : mutual m → mutual m2.
Proof.
  intros Hmut x y e Hin He Ho Hin'.
  apply carve_in_grid in Hin, Hin'.
  change x with (co_x (mkCoord x y)) in Ho.
  change y with (co_y (mkCoord x y)) in Ho at 2.
  apply carve_opened_inv in Ho as [Ho | [[Ha ->] | [Ha ->]]]; try done.
  - change (step_x x e) with (co_x (neighbor (mkCoord x y) e)).
    change (step_y y e) with (co_y (neighbor (mkCoord x y) e)).
    apply carve_opened_mono; [done | by apply opposite_range |].
    by apply Hmut.
  - change (step_x x d) with (co_x (neighbor (mkCoord x y) d)).
    change (step_y y d) with (co_y (neighbor (mkCoord x y) d)).
    rewrite Ha. apply carve_opened_nbr.
  - change (step_x x ((d + 2) mod 4))
      with (co_x (neighbor (mkCoord x y) ((d + 2) mod 4))).
    change (step_y y ((d + 2) mod 4))
      with (co_y (neighbor (mkCoord x y) ((d + 2) mod 4))).
    rewrite Ha, neighbor_back, opposite_invol by done.
    apply carve_opened_cur.
Qed.

End Carve.

(** ** Cycles *)

Lemma succ_mod i k : (i < k)%nat →
  ((i + 1) mod k = if decide (i + 1 = k) then 0 else i + 1)%nat.
Proof.
  intros Hi. case_decide as Hk.
  - rewrite Hk. apply Nat.Div0.mod_same.
  - apply Nat.mod_small. lia.
Qed.

Lemma in_mazeb_true m a : in_mazeb m a = true ↔ in_maze m a.
Proof.
  unfold in_mazeb, in_gridb, in_maze, in_grid.
  rewrite !andb_true_iff, !Z.leb_le, !Z.ltb_lt. tauto.
Qed.

(** A cell without links is on no cycle, so a cycle that survives the
    addition of a passage to such a cell was there before. *)
Lemma cycle_through_leaf (R R' : Coord → Coord → Prop) (p : list Coord) (c n : Coord) :
  (3 ≤ length p)%nat → NoDup p →
  (∀ i a b, p !! i = Some a → p !! ((i + 1) mod length p)%nat = Some b → R' a b) →
  (∀ a b, R' a b → R a b ∨ (a = c ∧ b = n) ∨ (a = n ∧ b = c)) →
  (∀ b, ¬ R n b) → (∀ a, ¬ R a n) → n ≠ c →
  ∀ i a b, p !! i = Some a → p !! ((i + 1) mod length p)%nat = Some b → R a b.
Proof.
  intros Hlen Hnd Hcyc Hsub Hout Hin Hne.
  set (k := length p) in *.
  assert (Hnot : n ∉ p).
  { intros Hn. apply list_elem_of_lookup_1 in Hn as [i Hi].
    assert (Hik : (i < k)%nat) by (by eapply lookup_lt_Some).
    (* the successor of n on the cycle is c *)
    assert (Hj : ((i + 1) mod k < k)%nat) by (apply Nat.mod_upper_bound; lia).
    destruct (lookup_lt_is_Some_2 p _ Hj) as [b Hb].
    assert (b = c) as ->.
    { destruct (Hsub _ _ (Hcyc i n b Hi Hb)) as [H | [[? ?] | [_ ?]]]; try done.
      by apply Hout in H. }
    (* and so is its predecessor *)
    set (j' := if decide (i = 0)%nat then (k - 1)%nat else (i - 1)%nat).
    assert (Hj' : (j' < k)%nat) by (unfold j'; case_decide; lia).
    assert (Hj'i : ((j' + 1) mod k)%nat = i).
    { rewrite succ_mod by done. unfold j'. repeat case_decide; lia. }
    destruct (lookup_lt_is_Some_2 p _ Hj') as [a Ha].
    assert (a = c) as ->.
    { assert (Hl : R' a n) by (apply (Hcyc j'); [done | by rewrite Hj'i]).
      destruct (Hsub _ _ Hl) as [H | [[? ?] | [? ?]]]; try done.
      by apply Hin in H. }
    pose proof (NoDup_lookup p _ _ c Hnd Hb Ha) as Heq.
    rewrite succ_mod in Heq by done.
    unfold j' in Heq. repeat case_decide; lia. }
  intros i a b Ha Hb.
  destruct (Hsub _ _ (Hcyc i a b Ha Hb)) as [H | [[? ->] | [-> ?]]]; [done|..].
  - exfalso. apply Hnot. by eapply list_elem_of_lookup_2.
  - exfalso. apply Hnot. by eapply list_elem_of_lookup_2.
Qed.

(** ** The invariant is kept *)

Lemma pair_open_opened m a e :
  (∀ b f, in_maze m b → 0 ≤ f < 4 →
     opened m (co_x b) (co_y b) f = true →
     in_maze m (neighbor b f) ∧
     opened m (co_x (neighbor b f)) (co_y (neighbor b f)) ((f + 2) mod 4) = true) →
  in_maze m a → 0 ≤ e < 4 →
  pair_open m e a = opened m (co_x a) (co_y a) e.
Proof.
  intros Hseal Ha He. unfold pair_open.
  destruct (opened m (co_x a) (co_y a) e) eqn:Ho; [|done].
  destruct (Hseal a e Ha He Ho) as [Hn Ho'].
  apply in_mazeb_true in Hn. by rewrite Hn, Ho'.
Qed.

Section Push.

Context (st : GenState) (cur : Coord) (rest : list Coord)
        (d : Z) (m1 m2 : Maze) (a' : Z).
Let m := gs_maze st.
Let n := neighbor cur d.
Let st' := mkGen m2 a' (n :: cur :: rest) ({[cidx m n]} ∪ gs_visited st).

Hypothesis Hinv : gen_inv st.
Hypothesis Hstack : gs_stack st = cur :: rest.
Hypothesis Hd : 0 ≤ d < 4.
Hypothesis Hn : in_maze m n.
Hypothesis Hnv : ¬ visited st n.
Hypothesis Hopen1 : open_at m (cidx m cur) d = Ok m1.
Hypothesis Hopen2 : open_at m1 (cidx m n) ((d + 2) mod 4) = Ok m2.

Let Hwf : Maze_wf m := gi_wf st Hinv.

Lemma push_cur : in_maze m cur ∧ visited st cur.
Proof. apply (gi_stack st Hinv). rewrite Hstack. left. Qed.

Let Hcur : in_maze m cur := proj1 push_cur.

Lemma push_visited b :
  in_maze m b → visited st' b ↔ visited st b ∨ b = n.
Proof.
  intros Hb. unfold visited. simpl. fold m.
  rewrite elem_of_union, elem_of_singleton.
  change (idx m2 (co_x b) (co_y b)) with (cidx m2 b).
  rewrite (carve_cidx m cur d m1 m2 Hopen1 Hopen2).
  change (idx m (co_x b) (co_y b)) with (cidx m b).
  split.
  - intros [H | H]; [right | by left]. by apply (cidx_inj m).
  - intros [H | ->]; [by right | by left].
Qed.

Lemma push_visited_mono b : in_maze m b → visited st b → visited st' b.
Proof. intros Hb H. apply push_visited; auto. Qed.

Lemma push_visited_n : visited st' n.
Proof. apply push_visited; auto. Qed.

Lemma push_closed_cur : opened m (co_x cur) (co_y cur) d = false.
Proof.
  apply not_true_is_false. intros Ho.
  destruct (gi_open st Hinv cur d Hcur Hd Ho) as (_ & _ & Hv & _). done.
Qed.

Lemma push_closed_n e : 0 ≤ e < 4 → opened m (co_x n) (co_y n) e = false.
Proof.
  intros He. apply not_true_is_false. intros Ho.
  destruct (gi_open st Hinv n e Hn He Ho) as (Hv & _). done.
Qed.

Lemma push_no_link_from_n b : ¬ link m n b.
Proof.
  intros (_ & _ & e & He & _ & Ho). by rewrite push_closed_n in Ho.
Qed.

Lemma push_no_link_to_n b : ¬ link m b n.
Proof.
  intros (Hb & _ & e & He & Heq & Ho).
  destruct (gi_open st Hinv b e Hb He Ho) as (_ & _ & Hv & _).
  rewrite <- Heq in Hv. done.
Qed.

Lemma push_open b e :
  in_maze m2 b → 0 ≤ e < 4 → opened m2 (co_x b) (co_y b) e = true →
  visited st' b ∧ in_maze m2 (neighbor b e) ∧ visited st' (neighbor b e) ∧
  opened m2 (co_x (neighbor b e)) (co_y (neighbor b e)) ((e + 2) mod 4) = true.
Proof.
  intros Hb He Ho.
  rewrite !(carve_in_maze m cur d m1 m2 Hopen1 Hopen2) in *.
  apply (carve_opened_inv m cur d m1 m2 Hwf Hcur Hn Hd Hopen1 Hopen2) in Ho
    as [Ho | [[-> ->] | [-> ->]]]; try done.
  - destruct (gi_open st Hinv b e Hb He Ho) as (Hv & Hnb & Hvn & Hon).
    split; [by apply push_visited_mono|]. split; [done|].
    split; [by apply push_visited_mono|].
    apply (carve_opened_mono m cur d m1 m2); try done. by apply opposite_range.
  - split; [apply push_visited_mono; [done | apply push_cur]|].
    split; [done|]. split; [apply push_visited_n|].
    by apply (carve_opened_nbr m cur d m1 m2).
  - rewrite !neighbor_back, opposite_invol by done.
    split; [apply push_visited_n|]. split; [done|].
    split; [apply push_visited_mono; [done | apply push_cur]|].
    by apply (carve_opened_cur m cur d m1 m2).
Qed.

Lemma push_reach b :
  in_maze m2 b → visited st' b → reachable m2 origin b.
Proof.
  intros Hb Hv.
  rewrite (carve_in_maze m cur d m1 m2 Hopen1 Hopen2) in Hb.
  apply push_visited in Hv; [|done]. destruct Hv as [Hv | ->].
  - apply (carve_reachable_mono m cur d m1 m2); try done.
    by apply (gi_reach st Hinv).
  - eapply rtc_r.
    + apply (carve_reachable_mono m cur d m1 m2); try done.
      apply (gi_reach st Hinv); apply push_cur.
    + apply (carve_link m cur d m1 m2); try done. right; left. done.
Qed.

Lemma push_acyclic p : ¬ cycle m2 p.
Proof.
  intros (Hlen & Hnd & Hcyc).
  apply (gi_acyclic st Hinv p). split; [done|]. split; [done|].
  apply (cycle_through_leaf (link m) (link m2) p cur n); try done.
  - intros a b. by apply (carve_link m cur d m1 m2).
  - apply push_no_link_from_n.
  - apply push_no_link_to_n.
  - by apply neighbor_ne.
Qed.

Lemma push_seal b f :
  in_maze m2 b → 0 ≤ f < 4 → opened m2 (co_x b) (co_y b) f = true →
  in_maze m2 (neighbor b f) ∧
  opened m2 (co_x (neighbor b f)) (co_y (neighbor b f)) ((f + 2) mod 4) = true.
Proof. intros Hb Hf Ho. by destruct (push_open b f Hb Hf Ho) as (_ & ? & _ & ?). Qed.

Lemma old_seal b f :
  in_maze m b → 0 ≤ f < 4 → opened m (co_x b) (co_y b) f = true →
  in_maze m (neighbor b f) ∧
  opened m (co_x (neighbor b f)) (co_y (neighbor b f)) ((f + 2) mod 4) = true.
Proof.
  intros Hb Hf Ho. by destruct (gi_open st Hinv b f Hb Hf Ho) as (_ & ? & _ & ?).
Qed.

(** The list of cells open towards direction [e] gains one cell when
    the new passage lies in direction [e] from one of its two ends, and
    is unchanged otherwise. *)
Lemma push_pairs e :
  0 ≤ e < 4 →
  length (filter (λ a, pair_open m2 e a = true) (cells m2)) =
  ((if bool_decide (e = d ∨ e = (d + 2) mod 4)%Z then 1 else 0) +
   length (filter (λ a, pair_open m e a = true) (cells m)))%nat.
Proof.
  intros He.
  rewrite (carve_cells m cur d m1 m2 Hopen1 Hopen2).
  assert (Hc : 0 < cols m) by apply Hwf.
  assert (Hspec : ∀ a, a ∈ cells m →
            (pair_open m2 e a = true ↔
             pair_open m e a = true ∨ (a = cur ∧ e = d)
             ∨ (a = n ∧ e = (d + 2) mod 4))).
  { intros a Ha. apply elem_of_cells in Ha; [|done].
    rewrite (pair_open_opened m2 a e push_seal)
      by (done || by apply (carve_in_maze m cur d m1 m2)).
    rewrite (pair_open_opened m a e old_seal) by done.
    rewrite (carve_opened m cur d m1 m2) by done.
    rewrite !orb_true_iff, !bool_decide_eq_true. tauto. }
  assert (Hdd : d ≠ (d + 2) mod 4).
  { assert (d = 0 ∨ d = 1 ∨ d = 2 ∨ d = 3) as [-> | [-> | [-> | ->]]] by lia;
      done. }
  case_bool_decide as Hcase.
  - destruct Hcase as [-> | ->].
    + apply (length_filter_add _ _ _ cur).
      * by apply NoDup_cells.
      * by apply elem_of_cells.
      * rewrite (pair_open_opened m cur d old_seal) by done.
        by rewrite push_closed_cur.
      * intros a Ha. rewrite (Hspec a Ha). split; [|tauto].
        intros [? | [[? ?] | [? ?]]]; auto; exfalso; auto.
    + apply (length_filter_add _ _ _ n).
      * by apply NoDup_cells.
      * by apply elem_of_cells.
      * rewrite (pair_open_opened m n _ old_seal)
          by (done || by apply opposite_range).
        rewrite push_closed_n; [done | by apply opposite_range].
      * intros a Ha. rewrite (Hspec a Ha). split; [|tauto].
        intros [? | [[? ?] | [? ?]]]; auto; exfalso; auto.
  - simpl. apply length_filter_ext. intros a Ha. rewrite (Hspec a Ha).
    split; [|tauto]. intros [? | [[? ?] | [? ?]]]; auto; destruct Hcase; auto.
Qed.

Lemma push_passage_pairs : passage_pairs m2 = S (passage_pairs m).
Proof.
  unfold passage_pairs. rewrite !push_pairs by lia.
  assert (d = 0 ∨ d = 1 ∨ d = 2 ∨ d = 3) as [Hx | [Hx | [Hx | Hx]]] by lia;
    rewrite Hx; simpl; lia.
Qed.

Lemma push_visited_count : visited_count st' = S (visited_count st).
Proof.
  unfold visited_count. simpl. fold m.
  rewrite (carve_cells m cur d m1 m2 Hopen1 Hopen2).
  assert (Hc : 0 < cols m) by apply Hwf.
  apply (length_filter_add _ _ _ n).
  - by apply NoDup_cells.
  - by apply elem_of_cells.
  - done.
  - intros a Ha. apply push_visited. by apply elem_of_cells in Ha.
Qed.

Lemma push_inv : gen_inv st'.
Proof.
  constructor; simpl.
  - by apply (carve_wf m cur d m1 m2).
  - intros b Hb.
    rewrite (carve_in_maze m cur d m1 m2 Hopen1 Hopen2).
    apply elem_of_cons in Hb as [-> | Hb].
    + split; [done | apply push_visited_n].
    + rewrite <- Hstack in Hb.
      destruct (gi_stack st Hinv b Hb). split; [done|].
      by apply push_visited_mono.
  - apply push_visited_mono; [|apply (gi_origin st Hinv)].
    unfold in_maze, in_grid, origin. simpl.
    destruct Hwf as (? & ? & _). lia.
  - apply push_open.
  - apply push_reach.
  - rewrite push_passage_pairs, push_visited_count.
    pose proof (gi_count st Hinv). fold m in H. lia.
  - apply push_acyclic.
  - intros b e Hb Hv Hns He Hnb.
    rewrite (carve_in_maze m cur d m1 m2 Hopen1 Hopen2) in Hb, Hnb.
    apply push_visited_mono; [done|].
    apply (gi_closed st Hinv); try done.
    + apply push_visited in Hv; [|done]. destruct Hv as [Hv | ->]; [done|].
      exfalso. apply Hns. left.
    + rewrite Hstack. intros Hin. apply Hns. by right.
Qed.

Lemma push_measure : (gen_measure st' + 1 = gen_measure st)%nat.
Proof.
  unfold gen_measure. simpl. fold m.
  rewrite (carve_cells m cur d m1 m2 Hopen1 Hopen2).
  change (visited_count (mkGen m2 a' (n :: cur :: rest)
                               ({[cidx m n]} ∪ gs_visited st)))
    with (visited_count st').
  rewrite push_visited_count, Hstack. simpl.
  pose proof (length_filter (visited st') (cells m)) as Hle.
  assert (visited_count st' = length (filter (visited st') (cells m))) as Heq.
  { unfold visited_count. simpl. by rewrite (carve_cells m cur d m1 m2 Hopen1 Hopen2). }
  rewrite <- Heq, push_visited_count in Hle. lia.
Qed.

End Push.

(** ** Every iteration keeps the invariant and uses up the measure *)

Lemma pop_inv st cur rest :
  gen_inv st → gs_stack st = cur :: rest →
  (∀ d, 0 ≤ d < 4 → in_maze (gs_maze st) (neighbor cur d) →
        visited st (neighbor cur d)) →
  gen_inv (mkGen (gs_maze st) (gs_rand st) rest (gs_visited st)).
Proof.
  intros Hinv Hstack Hpop.
  destruct Hinv as [Hwf Hst Hor Hop Hre Hcn Hac Hcl].
  constructor; simpl; try done.
  - intros a Ha. apply Hst. rewrite Hstack. by right.
  - intros a d Ha Hv Hns Hd Hn.
    destruct (decide (a = cur)) as [-> | Hne].
    + by apply Hpop.
    + apply (Hcl a d); try done.
      rewrite Hstack. intros Hin. apply elem_of_cons in Hin as [? | ?]; done.
Qed.

Lemma gen_inv_iter st :
  gen_inv st → gs_stack st ≠ [] →
  ∃ st', generate_iter st = Ok st' ∧ gen_inv st' ∧
         (gen_measure st' + 1 = gen_measure st)%nat.
Proof.
  intros Hinv Hne.
  destruct (gs_stack st) as [|cur rest] eqn:Hstack; [done|].
  assert (Hcur : in_maze (gs_maze st) cur).
  { apply (gi_stack st Hinv). rewrite Hstack. left. }
  destruct (generate_iter_cases st cur rest (gi_wf st Hinv) Hstack Hcur)
    as [[Hpop Hit] | (d & m1 & m2 & a & Hd & Hn & Hnv & H1 & H2 & Hit)].
  - eexists. split; [exact Hit|]. split; [by eapply pop_inv|].
    unfold gen_measure. simpl. rewrite Hstack. simpl.
    assert (visited_count (mkGen (gs_maze st) (gs_rand st) rest (gs_visited st))
            = visited_count st) as -> by reflexivity.
    lia.
  - eexists. split; [exact Hit|]. split.
    + by eapply push_inv.
    + by eapply push_measure.
Qed.

(** The loop ends within [gen_measure] iterations. *)
Lemma generate_loop_terminates fuel st :
  gen_inv st → (gen_measure st ≤ fuel)%nat →
  ∃ st', generate_loop fuel st = Some (Ok st') ∧ gen_inv st' ∧ gs_stack st' = [].
Proof.
  revert st. induction fuel as [|fuel IH]; intros st Hinv Hm.
  - destruct (gs_stack st) as [|c r] eqn:Hs.
    + exists st. simpl. by rewrite Hs.
    + unfold gen_measure in Hm. rewrite Hs in Hm. simpl in Hm. lia.
  - destruct (gs_stack st) as [|c r] eqn:Hs.
    + exists st. simpl. by rewrite Hs.
    + destruct (gen_inv_iter st Hinv) as (st' & Hit & Hinv' & Hdec).
      { by rewrite Hs. }
      simpl. rewrite Hs, Hit. apply IH; [done | lia].
Qed.

(** More fuel does not change the result. *)
Lemma generate_loop_fuel fuel fuel' st r :
  generate_loop fuel st = Some r → (fuel ≤ fuel')%nat →
  generate_loop fuel' st = Some r.
Proof.
  revert fuel' st. induction fuel as [|fuel IH]; intros fuel' st H Hle.
  - simpl in H. destruct (gs_stack st) eqn:Hs; [|done].
    destruct fuel'; simpl; by rewrite Hs.
  - destruct fuel' as [|fuel']; [lia|].
    simpl in *. destruct (gs_stack st) eqn:Hs; [done|].
    destruct (generate_iter st); [|done].
    apply IH; [done | lia].
Qed.

(** ** The fresh maze *)

Lemma fresh_grid_lookup cols rows i c :
  fresh_grid cols rows !! i = Some c → passages c = 0.
Proof.
  unfold fresh_grid. rewrite list_lookup_fmap.
  destruct (seqZ 0 (cols * rows) !! i); [|done].
  by intros [= <-].
Qed.

Lemma Maze_new_Ok cols rows :
  1 ≤ cols → 1 ≤ rows →
  Maze_new cols rows =
  Ok (mkMaze cols rows (fresh_grid cols rows) origin (mkCoord (cols - 1) (rows - 1))).
Proof.
  intros Hc Hr. unfold Maze_new.
  destruct (Z.ltb_spec (cols * rows) 0); [nia | done].
Qed.

Lemma fresh_wf cols0 rows0 s g :
  1 ≤ cols0 → 1 ≤ rows0 →
  Maze_wf (mkMaze cols0 rows0 (fresh_grid cols0 rows0) s g).
Proof.
  intros Hc Hr. unfold Maze_wf. simpl.
  split; [lia|]. split; [lia|].
  unfold fresh_grid. rewrite length_fmap, length_seqZ. nia.
Qed.

Lemma fresh_opened cols0 rows0 s g x y d :
  opened (mkMaze cols0 rows0 (fresh_grid cols0 rows0) s g) x y d = false.
Proof.
  unfold opened, grid_at. simpl.
  destruct (_ <? 0); [done|].
  destruct (fresh_grid cols0 rows0 !! _) as [c|] eqn:Hc; [|done].
  apply fresh_grid_lookup in Hc. unfold isOpen. by rewrite Hc.
Qed.

Lemma length_filter_all {A} (P : A → Prop) `{!∀ x, Decision (P x)} (l : list A) :
  (∀ y, y ∈ l → P y) → length (filter P l) = length l.
Proof.
  induction l as [|y l IH]; intros HP; [done|].
  rewrite filter_cons_True by (apply HP; left).
  simpl. f_equal. apply IH. intros z Hz. apply HP. by right.
Qed.

Lemma length_filter_none {A} (P : A → Prop) `{!∀ x, Decision (P x)} (l : list A) :
  (∀ y, y ∈ l → ¬ P y) → length (filter P l) = 0%nat.
Proof.
  induction l as [|y l IH]; intros HP; [done|].
  rewrite filter_cons_False by (apply HP; left).
  apply IH. intros z Hz. apply HP. by right.
Qed.

Lemma no_links_no_cycle m p : (∀ a b, ¬ link m a b) → ¬ cycle m p.
Proof.
  intros Hno (Hlen & _ & Hcyc).
  destruct (lookup_lt_is_Some_2 p 0) as [a Ha]; [lia|].
  destruct (lookup_lt_is_Some_2 p ((0 + 1) mod length p)) as [b Hb].
  { apply Nat.mod_upper_bound. lia. }
  by apply (Hno a b), (Hcyc 0%nat).
Qed.

Lemma origin_in_maze m : Maze_wf m → in_maze m origin.
Proof. intros (? & ? & _). unfold in_maze, in_grid, origin. simpl. lia. Qed.

Lemma init_inv cols0 rows0 s g seed :
  1 ≤ cols0 → 1 ≤ rows0 →
  gen_inv (generate_init (mkMaze cols0 rows0 (fresh_grid cols0 rows0) s g) seed).
Proof.
  intros Hc Hr.
  set (m := mkMaze cols0 rows0 (fresh_grid cols0 rows0) s g).
  assert (Hwf : Maze_wf m) by (by apply fresh_wf).
  assert (Ho : in_maze m origin) by (by apply origin_in_maze).
  assert (Hvis : ∀ a, in_maze m a →
            (visited (generate_init m seed) a ↔ a = origin)).
  { intros a Ha. unfold visited. simpl. rewrite elem_of_singleton.
    split; [|by intros ->]. intros H. by apply (cidx_inj m). }
  assert (Hnol : ∀ a b, ¬ link m a b).
  { intros a b (_ & _ & d & _ & _ & H). unfold m in H.
    by rewrite fresh_opened in H. }
  assert (Hpp : passage_pairs m = 0%nat).
  { unfold passage_pairs. rewrite !length_filter_none; [done|..];
      intros a _; unfold pair_open, m; by rewrite fresh_opened. }
  assert (Hvc : visited_count (generate_init m seed) = 1%nat).
  { unfold visited_count.
    rewrite (length_filter_add (λ _, False) _ _ origin).
    - rewrite length_filter_none; [done | by intros ? ? ?].
    - apply NoDup_cells. apply Hwf.
    - apply elem_of_cells; [apply Hwf | done].
    - tauto.
    - intros a Ha. apply elem_of_cells in Ha; [|apply Hwf].
      rewrite (Hvis a Ha). tauto. }
  constructor; simpl; fold m.
  - done.
  - intros a Ha. apply list_elem_of_singleton in Ha as ->.
    split; [done | by apply Hvis].
  - by apply Hvis.
  - intros a d _ _ H. unfold m in H. by rewrite fresh_opened in H.
  - intros a Ha Hv. apply Hvis in Hv as ->; [|done]. apply rtc_refl.
  - rewrite Hpp. symmetry. exact Hvc.
  - intros p. by apply no_links_no_cycle.
  - intros a d Ha Hv Hns. apply Hvis in Hv as ->; [|done].
    exfalso. apply Hns. left.
Qed.

Lemma init_measure m seed :
  Maze_wf m →
  (gen_measure (generate_init m seed) ≤ generate_fuel m)%nat.
Proof.
  intros Hwf. unfold gen_measure, generate_fuel. simpl.
  pose proof (length_cells m) as Hl.
  destruct Hwf as (Hc & Hr & _). specialize (Hl Hc Hr).
  assert (1 ≤ visited_count (generate_init m seed))%nat.
  { unfold visited_count. simpl.
    assert (Hin : origin ∈ filter (visited (generate_init m seed)) (cells m)).
    { apply list_elem_of_filter. split.
      - unfold visited. simpl. by apply elem_of_singleton.
      - apply elem_of_cells; [done|]. unfold in_maze, in_grid, origin. simpl. lia. }
    destruct (filter _ (cells m)); [by apply elem_of_nil in Hin | simpl; lia]. }
  lia.
Qed.

(** ** When the stack is empty every cell has been visited *)

Lemma all_visited st :
  gen_inv st → gs_stack st = [] →
  ∀ a, in_maze (gs_maze st) a → visited st a.
Proof.
  intros Hinv Hs.
  set (m := gs_maze st).
  assert (Hstep : ∀ a d, in_maze m a → visited st a → 0 ≤ d < 4 →
            in_maze m (neighbor a d) → visited st (neighbor a d)).
  { intros a d Ha Hv Hd Hn. apply (gi_closed st Hinv a d); try done.
    rewrite Hs. apply not_elem_of_nil. }
  assert (Hrow : ∀ k : nat, Z.of_nat k < cols m → 0 < rows m →
            visited st (mkCoord (Z.of_nat k) 0)).
  { induction k as [|k IH]; intros Hk Hr.
    - apply (gi_origin st Hinv).
    - replace (mkCoord (Z.of_nat (S k)) 0)
        with (neighbor (mkCoord (Z.of_nat k) 0) 1)
        by (unfold neighbor, step_x, step_y; simpl; f_equal; lia).
      apply Hstep; [| apply IH; lia | lia |];
        unfold in_maze, in_grid, neighbor, step_x, step_y; simpl; lia. }
  assert (Hcol : ∀ (j : nat) x, 0 ≤ x < cols m → Z.of_nat j < rows m →
            visited st (mkCoord x (Z.of_nat j))).
  { induction j as [|j IH]; intros x Hx Hj.
    - replace x with (Z.of_nat (Z.to_nat x)) by lia. apply Hrow; lia.
    - replace (mkCoord x (Z.of_nat (S j)))
        with (neighbor (mkCoord x (Z.of_nat j)) 2)
        by (unfold neighbor, step_x, step_y; simpl; f_equal; lia).
      apply Hstep; [| apply IH; lia | lia |];
        unfold in_maze, in_grid, neighbor, step_x, step_y; simpl; lia. }
  intros [x y] [Hx Hy]. simpl in *.
  replace y with (Z.of_nat (Z.to_nat y)) by lia.
  apply Hcol; [done | lia].
Qed.

(** ** The generated maze *)

Lemma gen_inv_mutual st : gen_inv st → mutual (gs_maze st).
Proof.
  intros Hinv x y d Hin Hd Ho _.
  by destruct (gi_open st Hinv (mkCoord x y) d Hin Hd Ho) as (_ & _ & _ & ?).
Qed.

Lemma final_perfect st :
  gen_inv st → gs_stack st = [] → perfect (gs_maze st).
Proof.
  intros Hinv Hs.
  pose proof (all_visited st Hinv Hs) as Hall.
  split; [|split].
  - pose proof (gi_count st Hinv) as Hc.
    assert (Hvc : visited_count st = length (cells (gs_maze st))).
    { apply length_filter_all. intros a Ha. apply Hall.
      apply elem_of_cells in Ha; [done | apply (gi_wf st Hinv)]. }
    pose proof (length_cells (gs_maze st)) as Hl.
    destruct (gi_wf st Hinv) as (? & ? & _). lia.
  - intros a Ha. apply (gi_reach st Hinv); auto.
  - apply (gi_acyclic st Hinv).
Qed.

Lemma generate_iter_dims st st' :
  generate_iter st = Ok st' →
  cols (gs_maze st') = cols (gs_maze st) ∧ rows (gs_maze st') = rows (gs_maze st).
Proof.
  unfold generate_iter.
  destruct (gs_stack st) as [|cur rest]; [by intros [= <-]|].
  destruct (filter _ _) as [|n0 l]; [by intros [= <-]|].
  destruct (mulberry32_next (gs_rand st)) as [a u].
  destruct (_ !! _) as [n|]; [|done].
  destruct (open_at (gs_maze st) _ _) as [m1|] eqn:H1; [|done]. simpl.
  destruct (open_at m1 _ _) as [m2|] eqn:H2; [|done]. simpl.
  intros [= <-]. simpl.
  destruct (open_at_dims _ _ _ _ H1) as (? & ? & _).
  destruct (open_at_dims _ _ _ _ H2) as (? & ? & _).
  split; congruence.
Qed.

Lemma generate_loop_dims fuel st st' :
  generate_loop fuel st = Some (Ok st') →
  cols (gs_maze st') = cols (gs_maze st) ∧ rows (gs_maze st') = rows (gs_maze st).
Proof.
  revert st. induction fuel as [|fuel IH]; intros st; simpl.
  - destruct (gs_stack st); [by intros [= <-] | done].
  - destruct (gs_stack st); [by intros [= <-]|].
    destruct (generate_iter st) as [st1|] eqn:Hit; [|done].
    intros H. apply IH in H as [-> ->]. by apply generate_iter_dims.
Qed.

(** The loop of [generate] on a fresh maze ends within the bound, without
    throwing, in a state that satisfies the invariant. *)
Lemma generate_fresh_ends cols0 rows0 seed :
  1 ≤ cols0 → 1 ≤ rows0 →
  ∃ st, generate cols0 rows0 seed = Some (Ok (generate_finish (gs_maze st))) ∧
        gen_inv st ∧ gs_stack st = [] ∧
        cols (gs_maze st) = cols0 ∧ rows (gs_maze st) = rows0.
Proof.
  intros Hc Hr. unfold generate. rewrite Maze_new_Ok by done.
  set (m0 := mkMaze _ _ _ _ _).
  assert (Hwf : Maze_wf m0) by (by apply fresh_wf).
  destruct (generate_loop_terminates (generate_fuel m0) (generate_init m0 seed))
    as (st & Hrun & Hinv & Hs).
  { by apply init_inv. }
  { by apply init_measure. }
  exists st. unfold Maze_generate, Maze_generate_with. rewrite Hrun.
  destruct (generate_loop_dims _ _ _ Hrun) as [Hcols Hrows].
  simpl in Hcols, Hrows.
  split; [done|]. split; [done|]. split; [done|]. by split.
Qed.

(** In a grid of one column whose cells are all reachable, every cell is
    linked to the one below it; likewise along a grid of one row. *)
Lemma corridor_column m y :
  (∀ a, in_maze m a → reachable m origin a) →
  cols m = 1 → 0 ≤ y < rows m - 1 →
  link m (mkCoord 0 y) (mkCoord 0 (y + 1)).
Proof.
  intros Hreach Hc Hy.
  assert (Hcross : ∀ b, reachable m origin b →
            co_y b ≤ y ∨ link m (mkCoord 0 y) (mkCoord 0 (y + 1))).
  { apply (rtc_ind_r (λ b, co_y b ≤ y ∨ link m (mkCoord 0 y) (mkCoord 0 (y + 1)))).
    - left. simpl. lia.
    - intros a b Ha Hl IH.
      destruct IH as [IH | ?]; [|by right].
      destruct (decide (co_y b ≤ y)) as [|Hgt]; [by left|]. right.
      pose proof Hl as (Hina & Hinb & e & He & Heq & Ho).
      destruct a as [ax ay], b as [bx by_].
      unfold in_maze, in_grid, neighbor, step_x, step_y in *. simpl in *.
      injection Heq as Hbx Hby.
      assert (e = 0 ∨ e = 1 ∨ e = 2 ∨ e = 3) as [-> | [-> | [-> | ->]]] by lia;
        simpl in *; try lia.
      assert (ax = 0) as -> by lia. assert (ay = y) as -> by lia.
      subst. exact Hl. }
  destruct (Hcross (mkCoord 0 (y + 1))) as [H | H]; [| simpl in H; lia | done].
  apply Hreach. unfold in_maze, in_grid. simpl. lia.
Qed.

Lemma corridor_row m x :
  (∀ a, in_maze m a → reachable m origin a) →
  rows m = 1 → 0 ≤ x < cols m - 1 →
  link m (mkCoord x 0) (mkCoord (x + 1) 0).
Proof.
  intros Hreach Hr Hx.
  assert (Hcross : ∀ b, reachable m origin b →
            co_x b ≤ x ∨ link m (mkCoord x 0) (mkCoord (x + 1) 0)).
  { apply (rtc_ind_r (λ b, co_x b ≤ x ∨ link m (mkCoord x 0) (mkCoord (x + 1) 0))).
    - left. simpl. lia.
    - intros a b Ha Hl IH.
      destruct IH as [IH | ?]; [|by right].
      destruct (decide (co_x b ≤ x)) as [|Hgt]; [by left|]. right.
      pose proof Hl as (Hina & Hinb & e & He & Heq & Ho).
      destruct a as [ax ay], b as [bx by_].
      unfold in_maze, in_grid, neighbor, step_x, step_y in *. simpl in *.
      injection Heq as Hbx Hby.
      assert (e = 0 ∨ e = 1 ∨ e = 2 ∨ e = 3) as [-> | [-> | [-> | ->]]] by lia;
        simpl in *; try lia.
      assert (ay = 0) as -> by lia. assert (ax = x) as -> by lia.
      subst. exact Hl. }
  destruct (Hcross (mkCoord (x + 1) 0)) as [H | H]; [| simpl in H; lia | done].
  apply Hreach. unfold in_maze, in_grid. simpl. lia.
Qed.

(** On a single cell the loop pops the start cell at once: the generator
    is not called and no passage is opened. *)
Lemma generate_one_cell seed :
  generate 1 1 seed =
  Some (Ok (mkMaze 1 1 [Cell_new 0 0] origin (mkCoord 0 0))).
Proof. reflexivity. Qed.

(** C2.  For every [cols >= 1], [rows >= 1] and seed, [generate] returns
    (its loop ends within the bound and nothing throws) a maze of that
    size which is perfect: it has exactly [cols * rows - 1] open passage
    pairs, every cell can be reached from (0,0) through open passages, and
    the passage graph has no cycle.  A 1x1 maze has no open passage, and
    a maze of one column or of one row is a straight corridor. *)
Theorem generate_perfect (cols0 rows0 seed : Z) :
  1 ≤ cols0 → 1 ≤ rows0 →
  ∃ m, generate cols0 rows0 seed = Some (Ok m) ∧
       cols m = cols0 ∧ rows m = rows0 ∧
       Z.of_nat (passage_pairs m) = cols0 * rows0 - 1 ∧
       (∀ a, in_maze m a → reachable m origin a) ∧
       (∀ p, ¬ cycle m p) ∧
       (cols0 * rows0 = 1 →
          masks m = [0] ∧ ∀ d, 0 ≤ d < 4 → opened m 0 0 d = false) ∧
       (cols0 = 1 → ∀ y, 0 ≤ y < rows0 - 1 →
          link m (mkCoord 0 y) (mkCoord 0 (y + 1))) ∧
       (rows0 = 1 → ∀ x, 0 ≤ x < cols0 - 1 →
          link m (mkCoord x 0) (mkCoord (x + 1) 0)).
Proof.
  intros Hc Hr.
  destruct (generate_fresh_ends cols0 rows0 seed Hc Hr)
    as (st & Hgen & Hinv & Hs & Hcols & Hrows).
  destruct (final_perfect st Hinv Hs) as (Hcount & Hreach & Hacyc).
  exists (generate_finish (gs_maze st)).
  split; [done|]. split; [done|]. split; [done|].
  split; [by rewrite <- Hcols, <- Hrows|].
  split; [exact Hreach|]. split; [exact Hacyc|].
  split; [|split].
  - intros H1. split.
    + assert (cols0 = 1 ∧ rows0 = 1) as [-> ->] by nia.
      rewrite generate_one_cell in Hgen.
      exact (eq_sym (f_equal (λ r, match r with
                                   | Some (Ok m) => masks m
                                   | _ => []
                                   end) Hgen)).
    + intros d Hd. apply not_true_is_false. intros Ho.
      assert (Hin : in_maze (gs_maze st) origin)
        by (apply origin_in_maze, (gi_wf st Hinv)).
      destruct (gi_open st Hinv origin d Hin Hd Ho) as (_ & Hn & _).
      unfold in_maze, in_grid, neighbor, origin, step_x, step_y in Hn.
      simpl in Hn. rewrite Hcols, Hrows in Hn.
      assert (cols0 = 1 ∧ rows0 = 1) as [-> ->] by nia.
      assert (d = 0 ∨ d = 1 ∨ d = 2 ∨ d = 3) as [-> | [-> | [-> | ->]]] by lia;
        simpl in Hn; lia.
  - intros H1 y Hy.
    apply (corridor_column (gs_maze st)); [done | congruence | lia].
  - intros H1 x Hx.
    apply (corridor_row (gs_maze st)); [done | congruence | lia].
Qed.

(** ** Mutual passages at every step *)

Lemma carve_inv_iter st :
  carve_inv st → gs_stack st ≠ [] →
  ∃ st', generate_iter st = Ok st' ∧ carve_inv st'.
Proof.
  intros [Hwf Hst Hmut] Hne.
  destruct (gs_stack st) as [|cur rest] eqn:Hstack; [done|].
  assert (Hcur : in_maze (gs_maze st) cur) by (apply Hst; left).
  destruct (generate_iter_cases st cur rest Hwf Hstack Hcur)
    as [[Hpop Hit] | (d & m1 & m2 & a & Hd & Hn & Hnv & H1 & H2 & Hit)].
  - eexists. split; [exact Hit|]. constructor; simpl; try done.
    intros b Hb. apply Hst. by right.
  - eexists. split; [exact Hit|]. constructor; simpl.
    + by apply (carve_wf (gs_maze st) cur d m1 m2).
    + intros b Hb. apply (carve_in_maze (gs_maze st) cur d m1 m2 H1 H2).
      apply elem_of_cons in Hb as [-> | Hb]; [done | by apply Hst].
    + by apply (carve_mutual (gs_maze st) cur d m1 m2).
Qed.

Lemma carve_inv_states k st s :
  carve_inv st → s ∈ generate_states k st → carve_inv s.
Proof.
  revert st. induction k as [|k IH]; intros st Hinv Hs; simpl in Hs.
  - destruct (gs_stack st); by apply elem_of_nil in Hs.
  - destruct (gs_stack st) as [|c r] eqn:Hst; [by apply elem_of_nil in Hs|].
    destruct (carve_inv_iter st Hinv) as (st' & Hit & Hinv').
    { by rewrite Hst. }
    rewrite Hit in Hs. apply elem_of_cons in Hs as [-> | Hs]; [done|].
    by apply (IH st').
Qed.

(** On any well-formed maze whose passages are mutual, fresh or not, they
    are mutual after every iteration of the loop of [generate]. *)
Lemma generate_states_mutual m0 seed k st :
  Maze_wf m0 → mutual m0 →
  st ∈ generate_states k (generate_init m0 seed) → mutual (gs_maze st).
Proof.
  intros Hwf Hmut Hst.
  apply (ci_mutual st), (carve_inv_states k (generate_init m0 seed)); [|done].
  constructor; simpl; try done.
  intros a Ha. apply list_elem_of_singleton in Ha as ->. by apply origin_in_maze.
Qed.

Lemma fresh_mutual cols0 rows0 s g :
  mutual (mkMaze cols0 rows0 (fresh_grid cols0 rows0) s g).
Proof. intros x y d _ _ H. by rewrite fresh_opened in H. Qed.

(** C7.  The maze that [generate] returns satisfies the mutual passage
    invariant: a cell's open bit [d] towards a neighbour in the grid is
    matched by the neighbour's bit [(d + 2) mod 4]; and so does the maze
    after every iteration (every carving step) of the loop. *)
Theorem generate_mutual (cols0 rows0 seed : Z) :
  1 ≤ cols0 → 1 ≤ rows0 →
  ∃ m0 m, Maze_new cols0 rows0 = Ok m0 ∧
          generate cols0 rows0 seed = Some (Ok m) ∧
          mutual m ∧
          ∀ k st, st ∈ generate_states k (generate_init m0 seed) →
                  mutual (gs_maze st).
Proof.
  intros Hc Hr.
  destruct (generate_fresh_ends cols0 rows0 seed Hc Hr)
    as (st & Hgen & Hinv & _).
  eexists. exists (generate_finish (gs_maze st)).
  split; [by apply Maze_new_Ok|]. split; [done|]. split.
  - exact (gen_inv_mutual st Hinv).
  - intros k s Hs. eapply generate_states_mutual; [| |exact Hs].
    + by apply fresh_wf.
    + apply fresh_mutual.
Qed.

(** ** Determinism *)

Lemma generate_with_fuel fuel fuel' cols0 rows0 seed r :
  generate_with fuel cols0 rows0 seed = Some r → (fuel ≤ fuel')%nat →
  generate_with fuel' cols0 rows0 seed = Some r.
Proof.
  unfold generate_with, Maze_generate_with.
  destruct (Maze_new cols0 rows0) as [m0|]; [|done].
  destruct (generate_loop fuel _) as [r0|] eqn:Hrun; [|done].
  intros H Hle. by rewrite (generate_loop_fuel _ _ _ _ Hrun Hle).
Qed.

(** The seed is read through [seed >>> 0] only. *)
Lemma generate_seed_uint32 cols0 rows0 seed seed' :
  seed mod 2 ^ 32 = seed' mod 2 ^ 32 →
  generate cols0 rows0 seed = generate cols0 rows0 seed'.
Proof.
  intros H. unfold generate, Maze_generate, Maze_generate_with, generate_init,
    Int32.to_uint32, Int32.two32.
  change 4294967296 with (2 ^ 32). by rewrite H.
Qed.

Lemma generate_is_generate_with cols0 rows0 seed :
  0 ≤ cols0 * rows0 →
  generate cols0 rows0 seed =
  generate_with (Z.to_nat (2 * (cols0 * rows0))) cols0 rows0 seed.
Proof.
  intros H. unfold generate, generate_with, Maze_generate, Maze_new.
  destruct (Z.ltb_spec (cols0 * rows0) 0); [lia | done].
Qed.

(** *** A second call on the same maze object *)

Lemma open_small c d :
  0 ≤ passages c < 16 → 0 ≤ d < 4 → 0 ≤ passages (open d c) < 16.
Proof.
  intros Hp Hd. unfold open, Int32.or. simpl.
  rewrite shl_one by lia.
  assert (H2 : 1 ≤ 2 ^ d < 16).
  { assert (d = 0 ∨ d = 1 ∨ d = 2 ∨ d = 3) as [-> | [-> | [-> | ->]]] by lia;
      simpl; lia. }
  rewrite !to_int32_small by lia.
  assert (H0 : 0 ≤ Z.lor (passages c) (2 ^ d)) by (apply Z.lor_nonneg; lia).
  split; [done|].
  destruct (Z.eq_dec (Z.lor (passages c) (2 ^ d)) 0) as [-> | Hne]; [lia|].
  change 16 with (2 ^ 4). apply Z.log2_lt_pow2; [lia|].
  rewrite Z.log2_lor by lia.
  assert (Z.log2 (2 ^ d) < 4) by (apply Z.log2_lt_pow2; simpl; lia).
  destruct (Z.eq_dec (passages c) 0) as [-> | Hp0]; [simpl; lia|].
  assert (Z.log2 (passages c) < 4)
    by (apply Z.log2_lt_pow2; [lia | simpl; lia]).
  lia.
Qed.

(** Opening a passage that is open leaves the cell as it is. *)
Lemma open_again c d :
  0 ≤ passages c < 16 → 0 ≤ d < 4 → isOpen c d = true → open d c = c.
Proof.
  intros Hp Hd Ho. rewrite isOpen_testbit in Ho by lia.
  destruct c as [x y p]. unfold open, Int32.or. simpl in *. f_equal.
  rewrite shl_one by lia.
  assert (H2 : 1 ≤ 2 ^ d < 16).
  { assert (d = 0 ∨ d = 1 ∨ d = 2 ∨ d = 3) as [-> | [-> | [-> | ->]]] by lia;
      simpl; lia. }
  rewrite !to_int32_small by lia.
  apply Z.bits_inj'. intros n Hn.
  rewrite Z.lor_spec, Z.pow2_bits_eqb by lia.
  destruct (Z.eqb_spec d n) as [<- | Hne]; [by rewrite Ho | apply orb_false_r].
Qed.

Lemma flags_in_refl m : flags_in m m.
Proof. intros i c Hc. by exists c. Qed.

Lemma flags_in_trans m1 m2 m3 : flags_in m1 m2 → flags_in m2 m3 → flags_in m1 m3.
Proof.
  intros H12 H23 i c Hc.
  destruct (H12 i c Hc) as (c2 & Hc2 & Hf2).
  destruct (H23 i c2 Hc2) as (c3 & Hc3 & Hf3).
  exists c3. split; [done|]. auto.
Qed.

(** [open] in the cell [i] keeps every flag and sets the flag [d]. *)
Lemma open_at_flags m i d m' :
  open_at m i d = Ok m' → 0 ≤ d < 4 →
  flags_in m m' ∧
  (∃ c', grid_at m' i = Some c' ∧ isOpen c' d = true) ∧
  (small_masks m → small_masks m').
Proof.
  intros Ho Hd. apply open_at_spec in Ho as (c & Hc & Hi & ->).
  unfold grid_at in *. destruct (i <? 0) eqn:Ei; [done|]. simpl.
  assert (Hlt : (Z.to_nat i < length (grid m))%nat) by (by eapply lookup_lt_Some).
  split; [|split].
  - intros j cj Hj. unfold grid_at in *. simpl.
    destruct (j <? 0) eqn:Ej; [done|].
    destruct (decide (Z.to_nat j = Z.to_nat i)) as [E | Hne].
    + rewrite E in *. rewrite list_lookup_insert_eq by done.
      assert (cj = c) as -> by congruence.
      eexists. split; [done|]. intros d' Hd' Hopen.
      rewrite isOpen_open by lia. by rewrite Hopen.
    + rewrite list_lookup_insert_ne by done. by exists cj.
  - rewrite list_lookup_insert_eq by done.
    eexists. split; [done|]. rewrite isOpen_open by lia.
    rewrite bool_decide_eq_true_2 by done. apply orb_true_r.
  - intros Hs c' Hc'. simpl in Hc'.
    apply list_elem_of_lookup in Hc' as [j Hj].
    destruct (decide (j = Z.to_nat i)) as [-> | Hne].
    + rewrite list_lookup_insert_eq in Hj by done. injection Hj as <-.
      apply open_small; [|done]. apply Hs. by eapply list_elem_of_lookup_2.
    + rewrite list_lookup_insert_ne in Hj by done.
      apply Hs. by eapply list_elem_of_lookup_2.
Qed.

(** Opening in [m] a passage that is open gives [m] back. *)
Lemma open_at_again m i d c :
  small_masks m → 0 ≤ d < 4 → grid_at m i = Some c → isOpen c d = true →
  open_at m i d = Ok m.
Proof.
  intros Hs Hd Hc Ho. unfold open_at. rewrite Hc.
  unfold grid_at in Hc. destruct (i <? 0); [done|].
  rewrite open_again; [|by apply Hs; eapply list_elem_of_lookup_2 | done | done].
  rewrite list_insert_id by done. by destruct m.
Qed.

Lemma neighbors_dims m m' x y :
  cols m' = cols m → rows m' = rows m → neighbors m' x y = neighbors m x y.
Proof. unfold neighbors. by intros -> ->. Qed.

(** What an iteration does to the maze: nothing, or two [open]s. *)
Lemma generate_iter_carves st st' :
  generate_iter st = Ok st' →
  gs_maze st' = gs_maze st ∨
  ∃ i d i' d' m1, 0 ≤ d < 4 ∧ 0 ≤ d' < 4 ∧
    open_at (gs_maze st) i d = Ok m1 ∧ open_at m1 i' d' = Ok (gs_maze st').
Proof.
  unfold generate_iter.
  destruct (gs_stack st) as [|cur rest]; [intros [= <-]; by left|].
  destruct (filter _ _) as [|n0 l] eqn:Hf; [intros [= <-]; by left|].
  destruct (mulberry32_next (gs_rand st)) as [a u].
  destruct ((n0 :: l) !! _) as [n|] eqn:Hn; [|done].
  assert (Hd : 0 ≤ nb_dir n < 4).
  { apply list_elem_of_lookup_2 in Hn. rewrite <- Hf in Hn.
    apply list_elem_of_filter in Hn as [_ Hn].
    apply elem_of_neighbors in Hn as (d & Hd & -> & _). done. }
  destruct (open_at (gs_maze st) _ (nb_dir n)) as [m1|] eqn:H1; [|done]. simpl.
  destruct (open_at m1 _ _) as [m2|] eqn:H2; [|done]. simpl.
  intros [= <-]. right. simpl.
  eexists _, _, _, _, m1. split; [exact Hd|]. split; [|by split].
  rewrite opposite_rem by done. by apply opposite_range.
Qed.

Lemma generate_iter_flags st st' :
  generate_iter st = Ok st' →
  flags_in (gs_maze st) (gs_maze st') ∧
  (small_masks (gs_maze st) → small_masks (gs_maze st')).
Proof.
  intros Hit.
  destruct (generate_iter_carves st st' Hit)
    as [-> | (i & d & i' & d' & m1 & Hd & Hd' & H1 & H2)].
  - split; [apply flags_in_refl | done].
  - destruct (open_at_flags _ _ _ _ H1 Hd) as (F1 & _ & S1).
    destruct (open_at_flags _ _ _ _ H2 Hd') as (F2 & _ & S2).
    split; [by eapply flags_in_trans | auto].
Qed.

(** The loop never closes a passage. *)
Lemma generate_loop_flags fuel st st' :
  generate_loop fuel st = Some (Ok st') →
  flags_in (gs_maze st) (gs_maze st') ∧
  (small_masks (gs_maze st) → small_masks (gs_maze st')).
Proof.
  revert st. induction fuel as [|fuel IH]; intros st; simpl.
  - destruct (gs_stack st); [|done]. intros [= <-].
    split; [apply flags_in_refl | done].
  - destruct (gs_stack st).
    { intros [= <-]. split; [apply flags_in_refl | done]. }
    destruct (generate_iter st) as [st1|] eqn:Hit; [|done].
    intros Hrun. destruct (generate_iter_flags _ _ Hit) as [F1 S1].
    destruct (IH _ Hrun) as [F2 S2].
    split; [by eapply flags_in_trans | auto].
Qed.

(** An iteration on a maze that already holds the passages which the
    same iteration carves elsewhere takes the same decisions and leaves
    that maze as it is: the choice of the neighbour reads the visited set
    and the generator, never the passages. *)
Lemma generate_iter_again a a' b :
  generate_iter a = Ok a' → same_control a b →
  small_masks (gs_maze b) → flags_in (gs_maze a') (gs_maze b) →
  generate_iter b = Ok (mkGen (gs_maze b) (gs_rand a') (gs_stack a') (gs_visited a')).
Proof.
  intros Hit (Hr & Hs & Hv & Hc & Hw) Hsm Hfl.
  destruct b as [mb rb sb vb]. simpl in *. subst rb sb vb.
  revert Hit. unfold generate_iter. cbn [gs_stack gs_maze gs_rand gs_visited].
  destruct (gs_stack a) as [|cur rest] eqn:Hsa; [intros [= <-]; by rewrite Hsa|].
  rewrite (neighbors_dims (gs_maze a) mb) by done.
  unfold idx. rewrite Hc.
  destruct (filter _ _) as [|n0 l] eqn:Hf; [by intros [= <-]|].
  destruct (mulberry32_next (gs_rand a)) as [r u].
  destruct ((n0 :: l) !! _) as [n|] eqn:Hn; [|done].
  assert (Hd : 0 ≤ nb_dir n < 4).
  { apply list_elem_of_lookup_2 in Hn. rewrite <- Hf in Hn.
    apply list_elem_of_filter in Hn as [_ Hn].
    apply elem_of_neighbors in Hn as (d & Hd & -> & _). done. }
  assert (Hd' : 0 ≤ Z.rem (nb_dir n + 2) 4 < 4).
  { rewrite opposite_rem by done. by apply opposite_range. }
  destruct (open_at (gs_maze a) _ (nb_dir n)) as [m1|] eqn:H1; [|done].
  cbn [mbind result_bind].
  destruct (open_at m1 _ _) as [m2|] eqn:H2; [|done].
  cbn [mbind result_bind].
  intros [= <-]. cbn [gs_stack gs_maze gs_rand gs_visited] in *.
  destruct (open_at_flags _ _ _ _ H1 Hd) as (_ & (c1 & Hc1 & Ho1) & _).
  destruct (open_at_flags _ _ _ _ H2 Hd') as (F2 & (c2 & Hc2 & Ho2) & _).
  destruct (F2 _ _ Hc1) as (c1' & Hc1' & Hk1).
  destruct (Hfl _ _ Hc1') as (cb & Hcb & Hkb).
  destruct (Hfl _ _ Hc2) as (cn & Hcn & Hkn).
  rewrite (open_at_again mb _ _ cb); [|done|done|done|by auto]. simpl.
  rewrite (open_at_again mb _ _ cn); [|done|done|done|by auto]. simpl.
  done.
Qed.

Lemma generate_loop_again fuel a z b :
  generate_loop fuel a = Some (Ok z) → same_control a b →
  small_masks (gs_maze b) → flags_in (gs_maze z) (gs_maze b) →
  generate_loop fuel b
  = Some (Ok (mkGen (gs_maze b) (gs_rand z) (gs_stack z) (gs_visited z))).
Proof.
  revert a b. induction fuel as [|fuel IH]; intros a b; simpl.
  - intros Hrun (Hr & Hs & Hv & Hc & Hw). rewrite Hs.
    destruct (gs_stack a) eqn:Hsa; [|done]. injection Hrun as <-.
    intros _ _. destruct b. simpl in *. by rewrite Hr, Hs, Hv, Hsa.
  - intros Hrun Hsame. pose proof Hsame as (Hr & Hs & Hv & Hc & Hw). rewrite Hs.
    destruct (gs_stack a) eqn:Hsa.
    { injection Hrun as <-. intros _ _. destruct b. simpl in *.
      by rewrite Hr, Hs, Hv, Hsa. }
    destruct (generate_iter a) as [a'|] eqn:Hit; [|done].
    intros Hsm Hfl.
    destruct (generate_loop_flags _ _ _ Hrun) as [Fz _].
    rewrite (generate_iter_again a a' b Hit Hsame Hsm
               (flags_in_trans _ _ _ Fz Hfl)).
    destruct (generate_iter_dims _ _ Hit) as [Hc' Hw'].
    apply (IH a' (mkGen (gs_maze b) (gs_rand a') (gs_stack a') (gs_visited a')));
      [done| |done|done].
    split; [done|]. split; [done|]. split; [done|]. simpl. split; congruence.
Qed.

(** C8.  [generate] is a function of [cols], [rows] and [seed] and keeps
    no state between calls.  For [cols, rows >= 1] the call returns a maze
    [m] with one mask for every cell; a second run with the same
    arguments returns the same maze, whatever bound its loop is given (it
    cannot return anything else, and it does return when the bound is the
    one of [generate] or more); and [generate(seed)] called again on the
    maze object that the first call carved takes the same decisions and
    leaves every mask as it is. *)
Theorem generate_deterministic (cols0 rows0 seed : Z) :
  1 ≤ cols0 → 1 ≤ rows0 →
  ∃ m, generate cols0 rows0 seed = Some (Ok m) ∧
       length (masks m) = Z.to_nat (cols0 * rows0) ∧
       (∀ fuel r, generate_with fuel cols0 rows0 seed = Some r → r = Ok m) ∧
       (∀ fuel, (Z.to_nat (2 * (cols0 * rows0)) ≤ fuel)%nat →
                generate_with fuel cols0 rows0 seed = Some (Ok m)) ∧
       Maze_generate m seed = Some (Ok m).
Proof.
  intros Hc Hr.
  destruct (generate_fresh_ends cols0 rows0 seed Hc Hr)
    as (st & Hgen & Hinv & Hst & Hcs & Hrs).
  set (m := generate_finish (gs_maze st)) in *.
  assert (Hgw : generate_with (Z.to_nat (2 * (cols0 * rows0))) cols0 rows0 seed
                = Some (Ok m)).
  { rewrite <- generate_is_generate_with by nia. exact Hgen. }
  exists m. split; [exact Hgen|]. split.
  { unfold masks. rewrite length_fmap. destruct (gi_wf st Hinv) as (_ & _ & Hl).
    unfold m. simpl. rewrite Hcs, Hrs in Hl. lia. }
  split.
  { intros fuel r Hrun.
    apply (generate_with_fuel _ (fuel `max` Z.to_nat (2 * (cols0 * rows0))))
      in Hrun; [|lia].
    apply (generate_with_fuel _ (fuel `max` Z.to_nat (2 * (cols0 * rows0))))
      in Hgw; [|lia].
    congruence. }
  split.
  { intros fuel Hfuel. by apply (generate_with_fuel _ fuel) in Hgw. }
  revert Hgen. unfold generate, Maze_generate, Maze_generate_with.
  rewrite Maze_new_Ok by done.
  set (m0 := mkMaze cols0 rows0 _ _ _).
  destruct (generate_loop (generate_fuel m0) (generate_init m0 seed))
    as [[z|]|] eqn:Hrun; [|done|done].
  intros Hz0.
  assert (Hz : generate_finish (gs_maze z) = m) by congruence. clear Hz0.
  destruct (generate_loop_dims _ _ _ Hrun) as [Hzc Hzr].
  destruct (generate_loop_flags _ _ _ Hrun) as [_ Hsmall].
  assert (Hfuel : generate_fuel m = generate_fuel m0).
  { unfold generate_fuel. rewrite <- Hz. simpl. by rewrite Hzc, Hzr. }
  rewrite Hfuel.
  rewrite (generate_loop_again _ _ z (generate_init m seed) Hrun).
  - rewrite <- Hz. done.
  - unfold same_control, generate_init. simpl. rewrite <- Hz. simpl.
    split; [done|]. split; [done|]. split; [done|]. by split.
  - simpl. rewrite <- Hz. intros c Hin.
    assert (Hfresh : small_masks (gs_maze (generate_init m0 seed))).
    { intros c0 Hc0. simpl in Hc0.
      apply list_elem_of_lookup in Hc0 as [j Hj].
      apply fresh_grid_lookup in Hj. lia. }
    exact (Hsmall Hfresh c Hin).
  - simpl. rewrite <- Hz. intros i c Hgc. exists c. split; [exact Hgc | auto].
Qed.

(** ** The goal event fires once per level (main.js) *)

Section Latch.

Variable hypot : Q → Q → Q.
Variable sin : Q → Q.

Lemma latch_same_le g g' : latch_same g g' → latch_le g g'.
Proof. intros [Hw Hg]. unfold latch_le, goal_budget. rewrite Hw, Hg. lia. Qed.

Lemma latch_le_trans g1 g2 g3 : latch_le g1 g2 → latch_le g2 g3 → latch_le g1 g3.
Proof. unfold latch_le. intros [? ?] [? ?]. lia. Qed.

Lemma latch_le_refl g : latch_le g g.
Proof. unfold latch_le. lia. Qed.

Lemma drawAll_latch g : latch_same g (Main.drawAll g).
Proof. unfold Main.drawAll. by destruct (0 <? _). Qed.

Lemma maybeHurt_latch g now : latch_same g (Main.maybeHurt g now).
Proof.
  unfold Main.maybeHurt. destruct (Qltb 220 _); [|done].
  unfold Main.hurt.
  by destruct (drawAll_latch
    (Main.mkGame (Main.g_maze g) (Main.g_metrics g)
       (Main.set_hurtFlash (Main.g_player g) 8) (Main.g_dragging g)
       (Main.g_lastTouch g) now (Main.g_running g) (Main.g_won g)
       (Main.g_canvas g) (Main.g_raf g) (now :: Main.g_hurts g)
       (Main.g_goals g))).
Qed.

Lemma attemptMove_latch g now cx cy dx dy pos g' :
  Main.attemptMove g now cx cy dx dy = Ok (pos, g') → latch_same g g'.
Proof.
  unfold Main.attemptMove.
  destruct (canTraverse _ _ cx cy (cx + dx)%Q (cy + dy)%Q) as [[]|];
    simpl; try done; [by intros [= _ <-]|].
  destruct (canTraverse _ _ cx cy (cx + dx)%Q cy) as [[]|];
    simpl; try done; [by intros [= _ <-]|].
  destruct (canTraverse _ _ cx cy cx (cy + dy)%Q) as [[]|];
    simpl; try done; [by intros [= _ <-]|].
  intros [= _ <-]. apply maybeHurt_latch.
Qed.

Lemma tick_latch g now g' : Main.tick hypot g now = Ok g' → latch_le g g'.
Proof.
  unfold Main.tick.
  destruct (Main.g_running g); simpl; [|intros [= <-]; apply latch_le_refl].
  set (moved := match Main.g_dragging g with true => _ | false => _ end).
  assert (Hmoved : ∀ g1, moved = Ok g1 → latch_same g g1).
  { unfold moved. intros g1.
    destruct (Main.g_dragging g); [|by intros [= <-]].
    destruct (Main.g_lastTouch g) as [[tx ty]|]; [|by intros [= <-]].
    destruct (Qltb _ _); [|by intros [= <-]].
    destruct (Main.attemptMove _ _ _ _ _ _) as [[[x y] g2]|] eqn:Ha; [|done].
    simpl. intros [= <-]. by apply attemptMove_latch in Ha. }
  destruct moved as [g1|]; [|done]. simpl.
  specialize (Hmoved g1 eq_refl).
  set (g2 := match cellFromPoint _ _ _ _ with Some c => _ | None => g1 end).
  assert (H2 : latch_same g g2).
  { unfold g2. by destruct (cellFromPoint _ _ _ _). }
  pose proof (drawAll_latch g2) as H3.
  set (g3 := Main.drawAll g2) in *.
  intros [= <-].
  destruct Hmoved as [Hw1 Hg1], H2 as [Hw2 Hg2], H3 as [Hw3 Hg3].
  assert (Hw : Main.g_won g3 = Main.g_won g) by congruence.
  assert (Hg : Main.g_goals g3 = Main.g_goals g) by congruence.
  unfold latch_le, goal_budget.
  destruct (negb (Main.g_won g3) && _ && _) eqn:Hc; simpl.
  - apply andb_true_iff in Hc as [Hc _]. apply andb_true_iff in Hc as [Hc _].
    apply negb_true_iff in Hc. rewrite <- Hw, Hc, Hg. lia.
  - rewrite Hw, Hg. lia.
Qed.

Lemma jump_step_latch g t startY : latch_same g (Main.jump_step sin g t startY).
Proof.
  unfold Main.jump_step.
  set (g1 := Main.with_player _ _).
  destruct (drawAll_latch g1) as [Hw Hg].
  by destruct (_ <? 22).
Qed.

Lemma run_callback_latch g now cb g' :
  Main.run_callback hypot sin g now cb = Ok g' → latch_le g g'.
Proof.
  destruct cb as [|t startY]; simpl.
  - apply tick_latch.
  - intros [= <-]. apply latch_same_le, jump_step_latch.
Qed.

Lemma callbacks_latch cbs now g0 r g' :
  r = Ok g0 →
  foldl (λ r cb, g ← r; Main.run_callback hypot sin g now cb) r cbs = Ok g' →
  latch_le g0 g'.
Proof.
  revert r g0. induction cbs as [|cb cbs IH]; intros r g0 -> H; simpl in H.
  - injection H as <-. apply latch_le_refl.
  - change (foldl (λ r cb, g ← r; Main.run_callback hypot sin g now cb)
              (Main.run_callback hypot sin g0 now cb) cbs = Ok g') in H.
    destruct (Main.run_callback hypot sin g0 now cb) as [g1|] eqn:Hcb.
    + apply latch_le_trans with g1; [by eapply run_callback_latch|].
      exact (IH (Ok g1) g1 eq_refl H).
    + exfalso. clear -H. induction cbs; simpl in H; [done | auto].
Qed.

Lemma frame_latch g now g' : Main.frame hypot sin g now = Ok g' → latch_le g g'.
Proof.
  unfold Main.frame. intros H.
  exact (callbacks_latch _ _ _ _ _ eq_refl H).
Qed.

Lemma handle_latch g e g' :
  Main.is_start e = false →
  Main.handle hypot sin g e = Some (Ok g') → latch_le g g'.
Proof.
  destruct e; simpl; try done; intros _.
  - intros [= H]. by apply frame_latch in H.
  - intros [= <-]. unfold Main.onStart.
    destruct (Main.withinPlayer _ _ _); unfold latch_le, goal_budget; simpl; lia.
  - intros [= <-]. unfold Main.onMove.
    destruct (negb _); unfold latch_le, goal_budget; simpl; lia.
  - intros [= <-]. unfold latch_le, goal_budget; simpl; lia.
  - intros [= <-]. unfold Main.fitCanvas.
    exact (latch_same_le _ _ (drawAll_latch (Main.with_canvas g (w, h)))).
Qed.

Lemma run_latch es g g' :
  same_level es → Main.run hypot sin g es = Some (Ok g') → latch_le g g'.
Proof.
  unfold same_level.
  revert g. induction es as [|e es IH]; intros g Hes H; simpl in *.
  - injection H as <-. apply latch_le_refl.
  - apply andb_true_iff in Hes as [He Hes]. apply negb_true_iff in He.
    destruct (Main.handle hypot sin g e) as [[g1|]|] eqn:Hh; try done.
    apply latch_le_trans with g1; [by eapply handle_latch | by apply IH].
Qed.

(** [startGame] clears the latch. *)
Lemma startGame_clears prev age seed w h g :
  Main.startGame prev age seed w h = Some (Ok g) → Main.g_won g = false.
Proof.
  unfold Main.startGame.
  destruct (generate _ _ _) as [[m|]|]; try done.
  destruct (cellCenter _ _ _) as [px py].
  intros [= <-].
  unfold Main.startLoop.
  match goal with |- context [Main.drawAll ?x] =>
    destruct (drawAll_latch x) as [Hw _]; set (gd := Main.drawAll x) in * end.
  destruct (Main.g_running gd); simpl; by rewrite Hw.
Qed.

(** A tick that finds the player on the goal cell with the latch clear
    fires the event and sets the latch. *)
Lemma tick_fires g now g' :
  Main.tick hypot g now = Ok g' →
  Main.g_running g = true → Main.g_won g = false →
  Main.cellX (Main.g_player g') = Int (co_x (goal (Main.g_maze g'))) →
  Main.cellY (Main.g_player g') = Int (co_y (goal (Main.g_maze g'))) →
  Main.g_goals g' = S (Main.g_goals g) ∧ Main.g_won g' = true.
Proof.
  unfold Main.tick. intros H Hrun Hwon. rewrite Hrun in H. simpl in H.
  set (moved := match Main.g_dragging g with true => _ | false => _ end) in H.
  assert (Hmoved : ∀ g1, moved = Ok g1 →
            Main.g_won g1 = Main.g_won g ∧ Main.g_goals g1 = Main.g_goals g).
  { unfold moved. intros g1.
    destruct (Main.g_dragging g); [|by intros [= <-]].
    destruct (Main.g_lastTouch g) as [[tx ty]|]; [|by intros [= <-]].
    destruct (Qltb _ _); [|by intros [= <-]].
    destruct (Main.attemptMove _ _ _ _ _ _) as [[[x y] g2]|] eqn:Ha; [|done].
    simpl. intros [= <-]. by apply attemptMove_latch in Ha. }
  destruct moved as [g1|]; [|done]. simpl in H.
  destruct (Hmoved g1 eq_refl) as [Hw1 Hg1].
  set (g2 := match cellFromPoint _ _ _ _ with Some c => _ | None => g1 end) in H.
  assert (H2 : Main.g_won g2 = Main.g_won g1 ∧ Main.g_goals g2 = Main.g_goals g1).
  { unfold g2. by destruct (cellFromPoint _ _ _ _). }
  destruct H2 as [Hw2 Hg2].
  destruct (drawAll_latch g2) as [Hw3 Hg3].
  set (g3 := Main.drawAll g2) in *.
  injection H as <-.
  assert (Hw : Main.g_won g3 = false) by congruence.
  assert (Hg : Main.g_goals g3 = Main.g_goals g) by congruence.
  rewrite Hw. simpl.
  destruct (JsNum.seq _ _ && JsNum.seq _ _) eqn:Hon; simpl.
  - intros _ _. split; [congruence | done].
  - intros Hx Hy. rewrite Hx, Hy in Hon. simpl in Hon.
    by rewrite !Z.eqb_refl in Hon.
Qed.

(** In main.js, within one level (a run of events without a call of
    [startGame]) the goal event fires at most once, and not at all once
    the latch [won] is set. *)
Lemma goal_fires_once g es g' :
  same_level es → Main.run hypot sin g es = Some (Ok g') →
  (Main.g_goals g' ≤ Main.g_goals g + 1)%nat ∧
  (Main.g_won g = true → Main.g_goals g' = Main.g_goals g).
Proof.
  intros Hes Hrun.
  destruct (run_latch es g g' Hes Hrun) as [Hmono Hbud].
  unfold goal_budget in Hbud.
  split.
  - destruct (Main.g_won g), (Main.g_won g'); lia.
  - intros Hw. rewrite Hw in Hbud. destruct (Main.g_won g'); lia.
Qed.

End Latch.

(** ** The hurt log along a whole game *)

Section HurtRuns.

Variable hypot : Q → Q → Q.
Variable sin : Q → Q.

Lemma main_attemptMove_hurts g now cx cy dx dy pos g' :
  Main.attemptMove g now cx cy dx dy = Ok (pos, g') →
  hurt_inv (main_hurt_view g) → hurt_inv (main_hurt_view g').
Proof.
  unfold Main.attemptMove.
  destruct (canTraverse _ _ cx cy (cx + dx)%Q (cy + dy)%Q) as [[]|];
    simpl; try done; [by intros [= _ <-]|].
  destruct (canTraverse _ _ cx cy (cx + dx)%Q cy) as [[]|];
    simpl; try done; [by intros [= _ <-]|].
  destruct (canTraverse _ _ cx cy cx (cy + dy)%Q) as [[]|];
    simpl; try done; [by intros [= _ <-]|].
  intros [= _ <-] H. rewrite main_maybeHurt_view. by apply hurt_step_inv.
Qed.

Lemma main_tick_hurts g now g' :
  Main.tick hypot g now = Ok g' →
  hurt_inv (main_hurt_view g) → hurt_inv (main_hurt_view g').
Proof.
  unfold Main.tick. intros H Hinv.
  destruct (Main.g_running g); simpl in H; [|by injection H as <-].
  set (moved := match Main.g_dragging g with true => _ | false => _ end) in H.
  assert (Hmoved : ∀ g1, moved = Ok g1 → hurt_inv (main_hurt_view g1)).
  { unfold moved. intros g1.
    destruct (Main.g_dragging g); [|by intros [= <-]].
    destruct (Main.g_lastTouch g) as [[tx ty]|]; [|by intros [= <-]].
    destruct (Qltb _ _); [|by intros [= <-]].
    destruct (Main.attemptMove _ _ _ _ _ _) as [[[x y] g2]|] eqn:Ha; [|done].
    simpl. intros [= <-].
    exact (main_attemptMove_hurts _ _ _ _ _ _ _ _ Ha Hinv). }
  destruct moved as [g1|]; [|done]. simpl in H.
  specialize (Hmoved g1 eq_refl).
  set (g2 := match cellFromPoint _ _ _ _ with Some c => _ | None => g1 end) in H.
  assert (H2 : main_hurt_view g2 = main_hurt_view g1).
  { unfold g2. by destruct (cellFromPoint _ _ _ _). }
  pose proof (main_drawAll_view g2) as H3.
  set (g3 := Main.drawAll g2) in *.
  injection H as <-.
  assert (Hv : main_hurt_view
            (Main.request
               (if negb (Main.g_won g3)
                   && JsNum.seq (Main.cellX (Main.g_player g3))
                        (Int (co_x (goal (Main.g_maze g3))))
                   && JsNum.seq (Main.cellY (Main.g_player g3))
                        (Int (co_y (goal (Main.g_maze g3))))
                then Main.onGoal (Main.set_won g3 true) else g3) Main.CbTick)
            = main_hurt_view g3).
  { by destruct (_ && _ && _). }
  rewrite Hv, H3, H2. done.
Qed.

Lemma main_callback_hurts g now cb g' :
  Main.run_callback hypot sin g now cb = Ok g' →
  hurt_inv (main_hurt_view g) → hurt_inv (main_hurt_view g').
Proof.
  destruct cb as [|t startY]; simpl.
  - apply main_tick_hurts.
  - intros [= <-] H. unfold Main.jump_step.
    set (g1 := Main.with_player _ _).
    assert (Hv : main_hurt_view
              (if t + 1 <? 22
               then Main.request (Main.drawAll g1) (Main.CbJump (t + 1) startY)
               else Main.drawAll g1) = main_hurt_view (Main.drawAll g1))
      by (by destruct (_ <? _)).
    rewrite Hv, main_drawAll_view. done.
Qed.

Lemma main_callbacks_hurts cbs now g0 g' :
  foldl (λ r cb, g ← r; Main.run_callback hypot sin g now cb) (Ok g0) cbs = Ok g' →
  hurt_inv (main_hurt_view g0) → hurt_inv (main_hurt_view g').
Proof.
  revert g0. induction cbs as [|cb cbs IH]; intros g0 H Hinv; simpl in H.
  - by injection H as <-.
  - change (foldl (λ r cb, g ← r; Main.run_callback hypot sin g now cb)
              (Main.run_callback hypot sin g0 now cb) cbs = Ok g') in H.
    destruct (Main.run_callback hypot sin g0 now cb) as [g1|] eqn:Hcb.
    + apply (IH g1 H). by eapply main_callback_hurts.
    + exfalso. clear -H. induction cbs; simpl in H; [done | auto].
Qed.

Lemma main_handle_hurts g e g' :
  Main.handle hypot sin g e = Some (Ok g') →
  hurt_inv (main_hurt_view g) → hurt_inv (main_hurt_view g').
Proof.
  destruct e; simpl.
  - unfold Main.startGame.
    destruct (generate _ _ _) as [[m|]|]; try done.
    destruct (cellCenter _ _ _) as [px py].
    intros [= <-] H.
    unfold Main.startLoop.
    match goal with |- context [Main.drawAll ?x] =>
      pose proof (main_drawAll_view x) as Hd; set (gd := Main.drawAll x) in * end.
    assert (Hv : main_hurt_view
              (if Main.g_running gd then gd
               else Main.request (Main.set_running gd true) Main.CbTick)
              = main_hurt_view gd) by (by destruct (Main.g_running gd)).
    rewrite Hv, Hd.
    change (hurt_inv (main_hurt_view (Main.fitCanvas g w h))).
    unfold Main.fitCanvas. by rewrite main_drawAll_view.
  - intros [= H] Hinv. unfold Main.frame in H.
    exact (main_callbacks_hurts _ _ _ _ H Hinv).
  - intros [= <-]. unfold Main.onStart. by destruct (Main.withinPlayer _ _ _).
  - intros [= <-]. unfold Main.onMove. by destruct (negb _).
  - by intros [= <-].
  - intros [= <-] H. unfold Main.fitCanvas. by rewrite main_drawAll_view.
Qed.

(** In main.js the hurt events of a whole game, whatever happens between
    the blocked attempts, are more than 220 ms apart. *)
Lemma main_run_hurts es g g' :
  Main.run hypot sin g es = Some (Ok g') →
  hurt_inv (main_hurt_view g) → spaced (Main.g_hurts g').
Proof.
  intros Hrun Hinv.
  assert (H : hurt_inv (main_hurt_view g')); [|apply H].
  revert g Hrun Hinv. induction es as [|e es IH]; intros g Hrun Hinv;
    simpl in Hrun.
  - by injection Hrun as <-.
  - destruct (Main.handle hypot sin g e) as [[g1|]|] eqn:Hh; try done.
    apply (IH g1 Hrun). by eapply main_handle_hurts.
Qed.

Lemma hop_begin_hop_view g d : hop_hurt_view (Hop.begin_hop g d) = hop_hurt_view g.
Proof. unfold Hop.begin_hop. by destruct (cellCenter _ _ _). Qed.

Lemma hop_animate_view g : hop_hurt_view (Hop.animate g) = hop_hurt_view g.
Proof. reflexivity. Qed.

Lemma hop_tryStepToward_hurts g now x y g' :
  Hop.tryStepToward g now x y = Ok g' →
  hurt_inv (hop_hurt_view g) → hurt_inv (hop_hurt_view g').
Proof.
  unfold Hop.tryStepToward. intros H Hinv.
  destruct (Hop.moving (Hop.g_player g));
    destruct (canMove _ _ _ _) as [[]|]; simpl in H; try done;
    injection H as <-;
    first [ done
          | rewrite hop_maybeHurt_view; by apply hurt_step_inv
          | by rewrite hop_animate_view, hop_begin_hop_view ].
Qed.

Lemma hop_step_hurts g speed g' :
  Hop.step hypot g speed = Ok g' →
  hurt_inv (hop_hurt_view g) → hurt_inv (hop_hurt_view g').
Proof.
  unfold Hop.step. intros H Hinv.
  destruct (Qle_bool _ _).
  - match type of H with context [Hop.drawAll ?x] =>
      pose proof (hop_drawAll_view x) as Hd; set (gd := Hop.drawAll x) in * end.
    set (gg := if _ && _ then Hop.onGoal gd else gd) in H.
    assert (Hgg : hop_hurt_view gg = hop_hurt_view g).
    { unfold gg. destruct (_ && _); exact Hd. }
    destruct (negb _ && _); [|injection H as <-; by rewrite Hgg].
    set (dir := match Hop.g_queuedDir gg with Some d => _ | None => _ end) in H.
    destruct dir as [d|]; [|injection H as <-; by rewrite <- Hgg in Hinv].
    destruct (canMove _ _ _ _) as [[]|]; simpl in H; try done;
      injection H as <-; [|by rewrite <- Hgg in Hinv].
    change (hurt_inv (hop_hurt_view (Hop.begin_hop (Hop.with_queuedDir gg None) d))).
    rewrite hop_begin_hop_view. by rewrite <- Hgg in Hinv.
  - injection H as <-.
    match goal with |- context [Hop.drawAll ?x] =>
      pose proof (hop_drawAll_view x) as Hd; set (gd := Hop.drawAll x) in * end.
    change (hurt_inv (hop_hurt_view gd)). rewrite Hd. exact Hinv.
Qed.

Lemma hop_callback_hurts g cb g' :
  Hop.run_callback hypot sin g cb = Ok g' →
  hurt_inv (hop_hurt_view g) → hurt_inv (hop_hurt_view g').
Proof.
  destruct cb as [speed|t startY]; simpl.
  - apply hop_step_hurts.
  - intros [= <-] H. unfold Hop.jump_step.
    set (g1 := Hop.with_player _ _).
    assert (Hv : hop_hurt_view
              (if t + 1 <? 22
               then Hop.request (Hop.drawAll g1) (Hop.CbJump (t + 1) startY)
               else Hop.drawAll g1) = hop_hurt_view (Hop.drawAll g1))
      by (by destruct (_ <? _)).
    rewrite Hv, hop_drawAll_view. done.
Qed.

Lemma hop_callbacks_hurts (cbs : list (Z * Hop.Callback)) g0 g' :
  foldl (λ r cb, g ← r; Hop.run_callback hypot sin g (snd cb)) (Ok g0) cbs = Ok g' →
  hurt_inv (hop_hurt_view g0) → hurt_inv (hop_hurt_view g').
Proof.
  revert g0. induction cbs as [|cb cbs IH]; intros g0 H Hinv; simpl in H.
  - by injection H as <-.
  - change (foldl (λ r cb, g ← r; Hop.run_callback hypot sin g (snd cb))
              (Hop.run_callback hypot sin g0 (snd cb)) cbs = Ok g') in H.
    destruct (Hop.run_callback hypot sin g0 (snd cb)) as [g1|] eqn:Hcb.
    + apply (IH g1 H). by eapply hop_callback_hurts.
    + exfalso. clear -H. induction cbs; simpl in H; [done | auto].
Qed.

Lemma hop_handle_hurts g e g' :
  Hop.handle hypot sin g e = Some (Ok g') →
  hurt_inv (hop_hurt_view g) → hurt_inv (hop_hurt_view g').
Proof.
  destruct e; simpl.
  - unfold Hop.startGame.
    destruct (generate _ _ _) as [[m|]|]; try done.
    destruct (cellCenter _ _ _) as [px py].
    intros [= <-] H.
    match goal with |- context [Hop.drawAll ?x] =>
      pose proof (hop_drawAll_view x) as Hd; set (gd := Hop.drawAll x) in * end.
    rewrite Hd.
    change (hurt_inv (hop_hurt_view (Hop.fitCanvas g w h))).
    unfold Hop.fitCanvas. by rewrite hop_drawAll_view.
  - intros [= H] Hinv. unfold Hop.frame in H.
    exact (hop_callbacks_hurts _ _ _ H Hinv).
  - intros [= <-]. unfold Hop.onStart. by destruct (Hop.withinPlayer _ _ _).
  - intros [= H] Hinv. unfold Hop.onMove in H.
    destruct (negb _); [by injection H as <-|].
    exact (hop_tryStepToward_hurts _ _ _ _ _ H Hinv).
  - by intros [= <-].
  - intros [= <-] H. unfold Hop.fitCanvas. by rewrite hop_drawAll_view.
Qed.

(** The same in the hop version. *)
Lemma hop_run_hurts es g g' :
  Hop.run hypot sin g es = Some (Ok g') →
  hurt_inv (hop_hurt_view g) → spaced (Hop.g_hurts g').
Proof.
  intros Hrun Hinv.
  assert (H : hurt_inv (hop_hurt_view g')); [|apply H].
  revert g Hrun Hinv. induction es as [|e es IH]; intros g Hrun Hinv;
    simpl in Hrun.
  - by injection Hrun as <-.
  - destruct (Hop.handle hypot sin g e) as [[g1|]|] eqn:Hh; try done.
    apply (IH g1 Hrun). by eapply hop_handle_hurts.
Qed.

End HurtRuns.

(** ** The goal event in the hop version *)

(** C3 fails in the hop version of main.js, which has no latch: [step]
    calls [onGoal] whenever a hop ends on the goal cell.  The game starts
    for age 3 on a 600 by 600 canvas at [Date.now() = 1760936591402],
    which [seed >>> 0] turns into 42.  The player is dragged to the goal,
    turns round to cell (4,3) and re-enters the goal 31 frames after the
    first arrival (about half a second at 60 frames per second, before
    the 900 ms timer of [onGoal] starts the next level): [onGoal] has then
    run twice within one level. *)
Theorem hop_goal_fires_twice :
  ∃ g0 g,
    Hop.startGame None 3 1760936591402 600 600 = Some (Ok g0) ∧
    forallb (λ e, negb (Hop.is_start e)) (hop_to_goal ++ hop_back_and_forth) = true ∧
    Hop.run approx_hypot approx_sin g0 (hop_to_goal ++ hop_back_and_forth)
      = Some (Ok g) ∧
    Hop.g_goals g0 = 0%nat ∧ Hop.g_goals g = 2%nat.
Proof.
  eexists. eexists.
  split; [vm_compute; reflexivity|].
  split; [vm_compute; reflexivity|].
  split; [vm_compute; reflexivity|].
  split; reflexivity.
Qed.

(** ** The statements on concrete inputs *)

Ltac evaluated :=
  vm_compute; repeat split; first [reflexivity | intro; discriminate].

Lemma canMove_boundary_witness :
  Maze_wf sample_maze ∧ in_grid sample_maze 0 0 ∧
  0 ≤ 0 < 4 ∧ exits sample_maze 0 0 0 ∧
  (∃ b, canMove sample_maze 0 0 0 = Ok b) ∧
  canMove sample_maze 0 0 0 = Ok false.
Proof.
  assert (Hwf : Maze_wf sample_maze) by evaluated.
  assert (Hin : in_grid sample_maze 0 0) by evaluated.
  assert (Hd : 0 ≤ 0 < 4) by lia.
  assert (Hex : exits sample_maze 0 0 0).
  { unfold exits, in_grid. vm_compute. intros [_ [H _]]. by apply H. }
  destruct (canMove_boundary sample_maze 0 0 0 Hwf Hin) as [H1 H2].
  split; [exact Hwf|]. split; [exact Hin|]. split; [exact Hd|].
  split; [exact Hex|]. split; [exact H1 | exact (H2 Hd Hex)].
Defined.

Lemma generate_perfect_witness :
  1 ≤ 5 ∧ 1 ≤ 5 ∧
  ∃ m, generate 5 5 42 = Some (Ok m) ∧
       Z.of_nat (passage_pairs m) = 24 ∧
       (∀ a, in_maze m a → reachable m origin a) ∧
       (∀ p, ¬ cycle m p).
Proof.
  split; [lia|]. split; [lia|].
  destruct (generate_perfect 5 5 42) as (m & Hg & _ & _ & Hp & Hr & Hc & _);
    [lia | lia |].
  exists m. split; [exact Hg|]. split; [exact Hp|]. split; [exact Hr | exact Hc].
Defined.

Lemma canTraverse_cases_witness :
  cellFromPoint sample_maze (drawMaze sample_maze 600 600)
    (fst (hop_pt 0 0)) (snd (hop_pt 0 0)) = Some (Int 0, Int 0) ∧
  cellFromPoint sample_maze (drawMaze sample_maze 600 600)
    (fst (hop_pt 0 1)) (snd (hop_pt 0 1)) = Some (Int 0, Int 1) ∧
  canTraverse sample_maze (drawMaze sample_maze 600 600)
    (fst (hop_pt 0 0)) (snd (hop_pt 0 0)) (fst (hop_pt 0 1)) (snd (hop_pt 0 1))
  = canMove sample_maze 0 0 2.
Proof.
  assert (Ha : cellFromPoint sample_maze (drawMaze sample_maze 600 600)
                 (fst (hop_pt 0 0)) (snd (hop_pt 0 0)) = Some (Int 0, Int 0))
    by (vm_compute; reflexivity).
  assert (Hb : cellFromPoint sample_maze (drawMaze sample_maze 600 600)
                 (fst (hop_pt 0 1)) (snd (hop_pt 0 1)) = Some (Int 0, Int 1))
    by (vm_compute; reflexivity).
  split; [exact Ha|]. split; [exact Hb|].
  destruct (canTraverse_cases _ _ _ _ _ _ _ _ _ _ Ha Hb) as (_ & H & _).
  apply (H 2); [lia | reflexivity].
Defined.

Lemma attemptMove_cases_witness :
  let g := Main.loaded sample_maze 600 600 in
  let cx := fst (hop_pt 0 0) in
  let cy := snd (hop_pt 0 0) in
  canTraverse sample_maze (Main.g_metrics g) cx cy (cx + 100)%Q (cy + -100)%Q
    = Ok false ∧
  canTraverse sample_maze (Main.g_metrics g) cx cy (cx + 100)%Q cy = Ok false ∧
  canTraverse sample_maze (Main.g_metrics g) cx cy cx (cy + -100)%Q = Ok false ∧
  (220 < 1000 - Main.g_lastHurtAt g)%Q ∧
  ∃ g', Main.attemptMove g 1000 cx cy 100 (-100) = Ok ((cx, cy), g') ∧
    Main.g_lastHurtAt g' = 1000%Q ∧ Main.g_hurts g' = [1000%Q] ∧
    Main.hurtFlash (Main.g_player g') = 7 ∧
    ¬ (220 < 1100 - Main.g_lastHurtAt g')%Q ∧
    Main.attemptMove g' 1100 cx cy 100 (-100) = Ok ((cx, cy), g').
Proof.
  intros g cx cy.
  assert (H1 : canTraverse sample_maze (Main.g_metrics g) cx cy
                 (cx + 100)%Q (cy + -100)%Q = Ok false) by (vm_compute; reflexivity).
  assert (H2 : canTraverse sample_maze (Main.g_metrics g) cx cy
                 (cx + 100)%Q cy = Ok false) by (vm_compute; reflexivity).
  assert (H3 : canTraverse sample_maze (Main.g_metrics g) cx cy
                 cx (cy + -100)%Q = Ok false) by (vm_compute; reflexivity).
  assert (H4 : (220 < 1000 - Main.g_lastHurtAt g)%Q) by reflexivity.
  destruct (attemptMove_cases g 1000 cx cy 100 (-100)) as (_ & _ & _ & H).
  destruct (H H1 H2 H3) as (g' & Ha & Hg' & Hhurt & _).
  destruct (Hhurt H4) as (Hlast & Hlog & Hflash & Hmaze & _).
  assert (K1 : canTraverse (Main.g_maze g') (Main.g_metrics g') cx cy
                 (cx + 100)%Q (cy + -100)%Q = Ok false)
    by (rewrite Hg'; vm_compute; reflexivity).
  assert (K2 : canTraverse (Main.g_maze g') (Main.g_metrics g') cx cy
                 (cx + 100)%Q cy = Ok false)
    by (rewrite Hg'; vm_compute; reflexivity).
  assert (K3 : canTraverse (Main.g_maze g') (Main.g_metrics g') cx cy
                 cx (cy + -100)%Q = Ok false)
    by (rewrite Hg'; vm_compute; reflexivity).
  assert (K4 : ¬ (220 < 1100 - Main.g_lastHurtAt g')%Q)
    by (rewrite Hlast; vm_compute; discriminate).
  destruct (attemptMove_cases g' 1100 cx cy 100 (-100)) as (_ & _ & _ & H').
  destruct (H' K1 K2 K3) as (g'' & Ha' & _ & _ & Hsame).
  rewrite (Hsame K4) in Ha'.
  split; [exact H1|]. split; [exact H2|]. split; [exact H3|]. split; [exact H4|].
  exists g'. split; [exact Ha|]. split; [exact Hlast|].
  split; [exact Hlog|]. split; [exact Hflash|]. split; [exact K4 | exact Ha'].
Defined.

Lemma cell_round_trip_witness :
  Qfloor (Qmin 600 600 - 32) ≠ 0 ∧ in_grid sample_maze 2 3 ∧
  cellFromPoint sample_maze (drawMaze sample_maze 600 600)
    (fst (cellCenter (drawMaze sample_maze 600 600) 2 3))
    (snd (cellCenter (drawMaze sample_maze 600 600) 2 3))
  = Some (Int 2, Int 3).
Proof.
  assert (H1 : Qfloor (Qmin 600 600 - 32) ≠ 0) by (vm_compute; discriminate).
  assert (H2 : in_grid sample_maze 2 3) by evaluated.
  split; [exact H1|]. split; [exact H2|].
  exact (cell_round_trip sample_maze 600 600 2 3 H1 H2).
Defined.

Lemma generate_mutual_witness :
  1 ≤ 5 ∧ 1 ≤ 5 ∧
  ∃ m0 m, Maze_new 5 5 = Ok m0 ∧ generate 5 5 42 = Some (Ok m) ∧ mutual m ∧
          ∀ k st, st ∈ generate_states k (generate_init m0 42) →
                  mutual (gs_maze st).
Proof.
  split; [lia|]. split; [lia|].
  apply (generate_mutual 5 5 42); lia.
Defined.

Lemma generate_deterministic_witness :
  1 ≤ 5 ∧ 1 ≤ 5 ∧
  ∃ m, generate 5 5 42 = Some (Ok m) ∧
       masks m = [4; 2; 10; 10; 12; 3; 12; 6; 10; 13; 6; 9; 7; 12; 5; 5; 2; 9;
                  5; 5; 3; 10; 10; 9; 1] ∧
       generate_with 48 5 5 42 = None ∧
       generate_with 49 5 5 42 = Some (Ok m) ∧
       generate_with 60 5 5 42 = Some (Ok m) ∧
       Maze_generate m 42 = Some (Ok m).
Proof.
  assert (H5 : 1 ≤ 5) by lia.
  split; [exact H5|]. split; [exact H5|].
  destruct (generate_deterministic 5 5 42 H5 H5)
    as (m & Hg & Hlen & Hany & Hbig & Hagain).
  assert (Hs : generate 5 5 42 = Some (Ok sample_maze))
    by (vm_compute; reflexivity).
  assert (Hm : sample_maze = m) by congruence.
  assert (H48 : generate_with 48 5 5 42 = None) by (vm_compute; reflexivity).
  assert (H49 : generate_with 49 5 5 42 = Some (Ok sample_maze))
    by (vm_compute; reflexivity).
  exists m. split; [exact Hg|]. split.
  { rewrite <- Hm. vm_compute. reflexivity. }
  split; [exact H48|]. split.
  { rewrite H49. f_equal. exact (Hany 49%nat (Ok sample_maze) H49). }
  split; [|exact Hagain].
  apply Hbig. lia.
Defined.

Lemma maybeHurt_rate_limited_witness :
  let g := Main.loaded sample_maze 600 600 in
  let ts := [100; 300; 400; 600]%Q in
  Main.g_hurts g = [] ∧
  Main.g_hurts (foldl Main.maybeHurt g ts) !! 1%nat = Some 300%Q ∧
  Main.g_hurts (foldl Main.maybeHurt g ts) !! 0%nat = Some 600%Q ∧
  (300 < 600)%Q ∧ (220 < 600 - 300)%Q.
Proof.
  intros g ts.
  assert (H0 : Main.g_hurts g = []) by reflexivity.
  assert (H1 : Main.g_hurts (foldl Main.maybeHurt g ts) !! 1%nat = Some 300%Q)
    by (vm_compute; reflexivity).
  assert (H2 : Main.g_hurts (foldl Main.maybeHurt g ts) !! 0%nat = Some 600%Q)
    by (vm_compute; reflexivity).
  assert (H3 : (300 < 600)%Q) by reflexivity.
  split; [exact H0|]. split; [exact H1|]. split; [exact H2|].
  split; [exact H3|].
  exact (proj1 (maybeHurt_rate_limited ts) g 1%nat 0%nat 300%Q 600%Q H0 H1 H2 H3).
Defined.

Lemma attemptMove_in_grid_witness :
  let g := Main.loaded sample_maze 600 600 in
  let cx := fst (hop_pt 0 0) in
  let cy := snd (hop_pt 0 0) in
  Maze_wf (Main.g_maze g) ∧
  cellFromPoint (Main.g_maze g) (Main.g_metrics g) cx cy = Some (Int 0, Int 0) ∧
  ∃ x' y' g' bx by_,
    Main.attemptMove g 1000 cx cy 0 36 = Ok ((x', y'), g') ∧
    cellFromPoint (Main.g_maze g) (Main.g_metrics g) x' y' = Some (Int bx, Int by_) ∧
    in_grid (Main.g_maze g) bx by_.
Proof.
  intros g cx cy.
  assert (H1 : Maze_wf (Main.g_maze g)) by evaluated.
  assert (H2 : cellFromPoint (Main.g_maze g) (Main.g_metrics g) cx cy
               = Some (Int 0, Int 0)) by (vm_compute; reflexivity).
  split; [exact H1|]. split; [exact H2|].
  exact (attemptMove_in_grid g 1000 cx cy 0 36 0 0 H1 H2).
Defined.

(** * Further properties of maze.js *)

(** ** The passage flags for every direction number *)

Lemma to_int32_range z : - 2147483648 ≤ Int32.to_int32 z < 2147483648.
Proof.
  unfold Int32.to_int32, Int32.two32, Int32.two31.
  pose proof (Z.mod_pos_bound z 4294967296 ltac:(lia)).
  destruct (z mod 4294967296 <? 2147483648) eqn:E; lia.
Qed.

Lemma to_int32_idem z : Int32.to_int32 (Int32.to_int32 z) = Int32.to_int32 z.
Proof. apply to_int32_small, to_int32_range. Qed.

(** The bits of a 32-bit integer from the sign bit on repeat the sign. *)
Lemma int32_sign_bits x n :
  - 2147483648 ≤ x < 2147483648 → 31 ≤ n → Z.testbit x n = (x <? 0).
Proof.
  intros Hx Hn. destruct (x <? 0) eqn:E.
  - apply Z.bits_above_log2_neg; [lia|].
    destruct (Z.eq_dec (Z.pred (- x)) 0) as [-> | Hne]; [simpl; lia|].
    apply Z.log2_lt_pow2; [lia|].
    assert (2 ^ 31 ≤ 2 ^ n) by (apply Z.pow_le_mono_r; lia).
    change (2 ^ 31) with 2147483648 in *. lia.
  - destruct (Z.eq_dec x 0) as [-> | Hne]; [apply Z.bits_0|].
    apply Z.bits_above_log2; [lia|].
    apply Z.log2_lt_pow2; [lia|].
    assert (2 ^ 31 ≤ 2 ^ n) by (apply Z.pow_le_mono_r; lia).
    change (2 ^ 31) with 2147483648 in *. lia.
Qed.

(** [1 << dir] has the single bit [dir mod 32] among its low 32 bits. *)
Lemma shl_one_testbit dir i :
  0 ≤ i < 32 → Z.testbit (Int32.shl 1 dir) i = bool_decide (i = dir mod 32).
Proof.
  intros Hi. unfold Int32.shl.
  rewrite (to_int32_small 1) by lia.
  rewrite to_int32_testbit by done.
  pose proof (Z.mod_pos_bound dir 32 ltac:(lia)) as Hk.
  rewrite Z.shiftl_1_l, Z.pow2_bits_eqb by lia.
  case_bool_decide; [apply Z.eqb_eq | apply Z.eqb_neq]; lia.
Qed.

Lemma shl_one_int32 dir :
  Int32.to_int32 (Int32.shl 1 dir) = Int32.shl 1 dir.
Proof. unfold Int32.shl. apply to_int32_idem. Qed.

(** A 32-bit integer meets [1 << dir] exactly when its bit [dir mod 32]
    is set. *)
Lemma land_shl_one x dir :
  - 2147483648 ≤ x < 2147483648 →
  negb (Z.land x (Int32.shl 1 dir) =? 0) = Z.testbit x (dir mod 32).
Proof.
  intros Hx.
  pose proof (Z.mod_pos_bound dir 32 ltac:(lia)) as Hk.
  set (k := dir mod 32) in *.
  destruct (Z.testbit x k) eqn:Hb.
  - apply negb_true_iff, Z.eqb_neq. intros H0.
    assert (Hx' : Z.testbit (Z.land x (Int32.shl 1 dir)) k = true).
    { rewrite Z.land_spec, Hb, shl_one_testbit by lia.
      by rewrite bool_decide_eq_true_2. }
    rewrite H0, Z.bits_0 in Hx'. done.
  - apply negb_false_iff, Z.eqb_eq.
    apply Z.bits_inj'. intros n Hn.
    rewrite Z.land_spec, Z.bits_0.
    destruct (Z_lt_le_dec n 32) as [Hlt | Hge].
    + rewrite shl_one_testbit by lia.
      case_bool_decide as Hnk; [|apply andb_false_r].
      fold k in Hnk. subst n. by rewrite Hb.
    + rewrite (int32_sign_bits x n) by lia.
      destruct (x <? 0) eqn:E; [|done].
      rewrite <- shl_one_int32.
      rewrite (int32_sign_bits (Int32.to_int32 (Int32.shl 1 dir)) n);
        [| apply to_int32_range | lia].
      rewrite shl_one_int32.
      apply Z.ltb_ge.
      assert (Hk31 : k ≠ 31).
      { intros ->. rewrite (int32_sign_bits x 31), E in Hb by lia. done. }
      unfold Int32.shl. fold k.
      rewrite (to_int32_small 1), Z.shiftl_1_l by lia.
      assert (0 < 2 ^ k) by (apply Z.pow_pos_nonneg; lia).
      assert (2 ^ k ≤ 2 ^ 30) by (apply Z.pow_le_mono_r; lia).
      change (2 ^ 30) with 1073741824 in *.
      rewrite to_int32_small; lia.
Qed.

(** [isOpen(dir)] reads bit [dir mod 32] of the flags. *)
Lemma isOpen_bit c dir :
  isOpen c dir = Z.testbit (Int32.to_int32 (passages c)) (dir mod 32).
Proof.
  unfold isOpen, Int32.and. rewrite shl_one_int32.
  apply land_shl_one, to_int32_range.
Qed.

(** X1.  [open(d)] followed by [isOpen(d')], for all integers [d] and
    [d']: the flag [d'] is set afterwards exactly when it was set before
    or when [d'] and [d] agree modulo 32, the shift count of [1 << dir]
    being taken modulo 32.  So [open(d)] sets the flag [d] and changes no
    flag among 0..31 other than [d mod 32]. *)
Theorem open_isOpen (c : Cell) (d d' : Z) :
  isOpen (open d c) d' = isOpen c d' || bool_decide (d' mod 32 = d mod 32).
Proof.
  rewrite !isOpen_bit.
  pose proof (Z.mod_pos_bound d' 32 ltac:(lia)) as Hk.
  unfold open, Int32.or. simpl.
  rewrite to_int32_testbit by lia.
  rewrite Z.lor_spec, shl_one_int32, shl_one_testbit by lia.
  done.
Qed.

(** ** The constructor *)

Lemma fresh_grid_at cols0 rows0 s g x y :
  0 ≤ x < cols0 → 0 ≤ y < rows0 →
  grid_at (mkMaze cols0 rows0 (fresh_grid cols0 rows0) s g)
          (idx (mkMaze cols0 rows0 (fresh_grid cols0 rows0) s g) x y)
  = Some (Cell_new x y).
Proof.
  intros Hx Hy. unfold grid_at, idx. simpl.
  assert (Hi : 0 ≤ y * cols0 + x < cols0 * rows0) by nia.
  destruct (y * cols0 + x <? 0) eqn:E; [lia|].
  unfold fresh_grid. rewrite list_lookup_fmap.
  rewrite lookup_seqZ_lt by lia. simpl.
  rewrite Z2Nat.id by lia.
  rewrite Z.rem_mod_nonneg by lia.
  do 2 f_equal.
  - rewrite Z.add_0_l, Z.add_comm, Z.mod_add, Z.mod_small by lia. done.
  - rewrite Z.add_0_l, Z.add_comm, Z.div_add, Z.div_small by lia. lia.
Qed.

(** X2.  [new Maze(cols, rows)] with positive dimensions: the grid holds
    [cols * rows] cells, the cell stored at index [idx(x, y)] is the cell
    with the coordinates [(x, y)] and has no passage, so that [canMove]
    refuses every move; the start is (0,0) and the goal the opposite
    corner. *)
Theorem Maze_new_cells (cols0 rows0 : Z) :
  1 ≤ cols0 → 1 ≤ rows0 →
  ∃ m, Maze_new cols0 rows0 = Ok m ∧
       cols m = cols0 ∧ rows m = rows0 ∧
       Z.of_nat (length (grid m)) = cols0 * rows0 ∧
       start m = mkCoord 0 0 ∧ goal m = mkCoord (cols0 - 1) (rows0 - 1) ∧
       ∀ x y, 0 ≤ x < cols0 → 0 ≤ y < rows0 →
         grid_at m (idx m x y) = Some (Cell_new x y) ∧
         ∀ dir, canMove m x y dir = Ok false.
Proof.
  intros Hc Hr. rewrite Maze_new_Ok by done.
  eexists. split; [done|]. simpl.
  split; [done|]. split; [done|].
  split; [apply (fresh_wf cols0 rows0 origin (mkCoord (cols0 - 1) (rows0 - 1)));
          done|].
  split; [done|]. split; [done|].
  intros x y Hx Hy.
  pose proof (fresh_grid_at cols0 rows0 origin
                (mkCoord (cols0 - 1) (rows0 - 1)) x y Hx Hy) as Hat.
  split; [exact Hat|].
  intros dir. unfold canMove. rewrite Hat.
  by rewrite isOpen_new.
Qed.

(** ** neighbors *)

Lemma NoDup_neighbors m x y : NoDup (neighbors m x y).
Proof.
  unfold neighbors.
  apply (NoDup_fmap_1 nb_dir). unfold neighbors.
  destruct (0 <? y), (x <? cols m - 1), (y <? rows m - 1), (0 <? x); simpl;
    by apply (bool_decide_unpack _).
Qed.

(** X3.  [neighbors(x, y)] for a cell of the grid: it lists, each exactly
    once and with the direction that leads to it, the cells of the grid
    next to [(x, y)]; it lists nothing else. *)
Theorem neighbors_exact (m : Maze) (x y : Z) :
  in_grid m x y →
  NoDup (neighbors m x y) ∧
  ∀ n, n ∈ neighbors m x y ↔
       ∃ d, 0 ≤ d < 4 ∧ n = mkNbr (step_x x d) (step_y y d) d ∧
            in_grid m (step_x x d) (step_y y d).
Proof.
  intros Hin. split; [apply NoDup_neighbors|].
  intros n. by apply neighbors_in_grid.
Qed.

(** X4.  [neighbors] is symmetric: a neighbour [n] of a cell of the grid
    lists that cell among its own neighbours, with the opposite direction
    [(n.dir + 2) % 4] that [generate] opens in [n]. *)
Theorem neighbors_symmetric (m : Maze) (x y : Z) (n : Nbr) :
  in_grid m x y → n ∈ neighbors m x y →
  mkNbr x y (Z.rem (nb_dir n + 2) 4) ∈ neighbors m (nb_x n) (nb_y n).
Proof.
  intros Hin Hn.
  apply (neighbors_in_grid m x y n Hin) in Hn as (d & Hd & -> & Hn). simpl.
  rewrite opposite_rem by done.
  apply (neighbors_in_grid m _ _ _ Hn).
  exists ((d + 2) mod 4).
  destruct (step_back x y d Hd) as [-> ->].
  split; [by apply opposite_range|]. by split.
Qed.

(** ** The random index *)

(** X5.  A call of the generator made by [mulberry32] returns
    [u / 4294967296] with [0 <= u < 2^32], a number in [0, 1): the index
    [Math.floor(rand() * unvisited.length)] that [generate] computes for a
    non-empty array is an index of the array. *)
Theorem rand_index_in_range (a : Z) (len : nat) :
  (0 < len)%nat →
  0 ≤ snd (mulberry32_next a) < 4294967296 ∧
  (rand_index (snd (mulberry32_next a)) len < len)%nat.
Proof.
  intros Hlen.
  pose proof (mulberry32_next_range a) as Hu.
  split; [exact Hu|]. by apply rand_index_lt.
Qed.

(** ** The number of iterations of generate *)

Lemma measure_done st :
  gen_inv st → gs_stack st = [] → gen_measure st = 0%nat.
Proof.
  intros Hinv Hs. unfold gen_measure, visited_count. rewrite Hs. simpl.
  rewrite length_filter_all; [lia|].
  intros a Ha. apply (all_visited st Hinv Hs).
  apply elem_of_cells in Ha; [done|]. apply (gi_wf st Hinv).
Qed.

Lemma generate_states_length fuel st :
  gen_inv st →
  length (generate_states fuel st) = Nat.min fuel (gen_measure st).
Proof.
  revert st. induction fuel as [|fuel IH]; intros st Hinv.
  - simpl. by destruct (gs_stack st).
  - destruct (gs_stack st) as [|cur rest] eqn:Hs.
    + rewrite (measure_done st Hinv Hs). simpl. by rewrite Hs.
    + destruct (gen_inv_iter st Hinv) as (st' & Hit & Hinv' & Hm);
        [by rewrite Hs|].
      rewrite <- Hm, Nat.add_1_r, <- Nat.succ_min_distr, <- (IH st' Hinv').
      simpl. by rewrite Hs, Hit.
Qed.

Lemma generate_loop_short fuel st :
  gen_inv st → (fuel < gen_measure st)%nat → generate_loop fuel st = None.
Proof.
  revert st. induction fuel as [|fuel IH]; intros st Hinv Hlt.
  - destruct (gs_stack st) as [|cur rest] eqn:Hs.
    + rewrite (measure_done st Hinv Hs) in Hlt. lia.
    + simpl. by rewrite Hs.
  - destruct (gs_stack st) as [|cur rest] eqn:Hs.
    + rewrite (measure_done st Hinv Hs) in Hlt. lia.
    + destruct (gen_inv_iter st Hinv) as (st' & Hit & Hinv' & Hm);
        [by rewrite Hs|].
      simpl. rewrite Hs, Hit. apply IH; [done | lia].
Qed.

Lemma init_measure_fresh cols0 rows0 s g seed :
  1 ≤ cols0 → 1 ≤ rows0 →
  Z.of_nat (gen_measure
              (generate_init (mkMaze cols0 rows0 (fresh_grid cols0 rows0) s g) seed))
  = 2 * (cols0 * rows0) - 1.
Proof.
  intros Hc Hr. set (m := mkMaze _ _ _ _ _).
  assert (Hwf : Maze_wf m) by (by apply fresh_wf).
  unfold gen_measure. simpl.
  pose proof (length_cells m ltac:(simpl; lia) ltac:(simpl; lia)) as Hl.
  simpl in Hl.
  assert (Hv : visited_count (generate_init m seed) = 1%nat).
  { unfold visited_count. simpl.
    rewrite (length_filter_add (λ _, False) _ (cells m) origin).
    - rewrite length_filter_none; [done | tauto].
    - apply NoDup_cells. simpl. lia.
    - apply elem_of_cells; [simpl; lia|]. by apply origin_in_maze.
    - tauto.
    - intros a Ha. apply elem_of_cells in Ha; [|simpl; lia].
      unfold visited. simpl. rewrite elem_of_singleton. split.
      + intros Hi. right.
        apply (cidx_inj m a origin Ha (origin_in_maze m Hwf) Hi).
      + intros [[] | ->]. done. }
  rewrite Hv. lia.
Qed.

(** X6.  On a fresh maze with positive dimensions the loop of [generate]
    runs exactly [2 * cols * rows - 1] iterations, one that pushes for
    every cell but the first and one that pops for every cell: cut after
    [fuel] iterations it has run [min fuel (2 * cols * rows - 1)] of them,
    and it has ended exactly when [fuel] reaches that number. *)
Theorem generate_iterations (cols0 rows0 seed : Z) (fuel : nat) :
  1 ≤ cols0 → 1 ≤ rows0 →
  ∃ m0, Maze_new cols0 rows0 = Ok m0 ∧
    Z.of_nat (length (generate_states fuel (generate_init m0 seed)))
    = Z.min (Z.of_nat fuel) (2 * (cols0 * rows0) - 1) ∧
    (generate_with fuel cols0 rows0 seed = None ↔
     Z.of_nat fuel < 2 * (cols0 * rows0) - 1).
Proof.
  intros Hc Hr. eexists. split; [by apply Maze_new_Ok|].
  set (m0 := mkMaze _ _ _ _ _).
  pose proof (init_inv cols0 rows0 origin (mkCoord (cols0 - 1) (rows0 - 1))
                seed Hc Hr) as Hinv.
  pose proof (init_measure_fresh cols0 rows0 origin
                (mkCoord (cols0 - 1) (rows0 - 1)) seed Hc Hr) as Hm.
  fold m0 in Hinv, Hm.
  split.
  - rewrite (generate_states_length fuel _ Hinv). lia.
  - unfold generate_with. rewrite Maze_new_Ok by done. fold m0.
    unfold Maze_generate_with.
    destruct (Z_lt_le_dec (Z.of_nat fuel) (2 * (cols0 * rows0) - 1)) as [Hlt | Hge].
    + rewrite (generate_loop_short fuel _ Hinv) by lia. done.
    + destruct (generate_loop_terminates fuel _ Hinv) as (st & -> & _); [lia|].
      split; [done | lia].
Qed.

(** ** The seed *)

(** X7.  [generate] uses its seed through [seed >>> 0] only: integer
    seeds that differ by a multiple of 2^32 give the same maze. *)
Theorem generate_seed_wraps (cols0 rows0 seed k : Z) :
  generate cols0 rows0 (seed + k * 4294967296) = generate cols0 rows0 seed.
Proof.
  apply generate_seed_uint32.
  change 4294967296 with (2 ^ 32). apply Z.mod_add. lia.
Qed.

(** ** canMove on a generated maze *)

Lemma finish_opened m x y d : opened (generate_finish m) x y d = opened m x y d.
Proof. done. Qed.

Lemma canMove_generated st x y d :
  gen_inv st → in_grid (gs_maze st) x y → 0 ≤ d < 4 →
  canMove (generate_finish (gs_maze st)) x y d = Ok (opened (gs_maze st) x y d) ∧
  (opened (gs_maze st) x y d = true →
   in_grid (gs_maze st) (step_x x d) (step_y y d) ∧
   opened (gs_maze st) (step_x x d) (step_y y d) ((d + 2) mod 4) = true).
Proof.
  intros Hinv Hin Hd. set (m := gs_maze st) in *.
  assert (Hopen : opened m x y d = true →
            in_grid m (step_x x d) (step_y y d) ∧
            opened m (step_x x d) (step_y y d) ((d + 2) mod 4) = true).
  { intros Ho.
    destruct (gi_open st Hinv (mkCoord x y) d Hin Hd Ho) as (_ & Hn & _ & Hb).
    by split. }
  split; [|exact Hopen].
  destruct (grid_at_in_grid m x y (gi_wf st Hinv) Hin) as [c Hc].
  rewrite (canMove_spec (generate_finish m) x y d c Hc Hd Hin).
  unfold opened in *. rewrite Hc in *.
  destruct (isOpen c d); [|done].
  destruct (Hopen eq_refl) as [Hn _].
  assert (Hb : in_gridb (generate_finish m) (step_x x d) (step_y y d) = true).
  { apply (in_mazeb_true m (mkCoord (step_x x d) (step_y y d))). exact Hn. }
  by rewrite Hb.
Qed.

(** X8.  In a maze made by [generate] no passage flag points out of the
    grid, so for a cell of the grid and a direction 0..3 [canMove] answers
    the passage flag itself: its tests of the four borders never decide. *)
Theorem generate_canMove (cols0 rows0 seed : Z) :
  1 ≤ cols0 → 1 ≤ rows0 →
  ∃ m, generate cols0 rows0 seed = Some (Ok m) ∧
    ∀ x y d, in_grid m x y → 0 ≤ d < 4 →
      canMove m x y d = Ok (opened m x y d) ∧
      (opened m x y d = true → in_grid m (step_x x d) (step_y y d)).
Proof.
  intros Hc Hr.
  destruct (generate_fresh_ends cols0 rows0 seed Hc Hr)
    as (st & Hgen & Hinv & _).
  exists (generate_finish (gs_maze st)). split; [done|].
  intros x y d Hin Hd.
  destruct (canMove_generated st x y d Hinv Hin Hd) as [Hcm Ho].
  split; [exact Hcm|].
  intros H. by destruct (Ho H).
Qed.

(** X9.  In a maze made by [generate] a wall blocks from both sides:
    when [canMove] allows the move from a cell in direction [d], it allows
    the move back from the cell entered, in direction [(d + 2) mod 4]. *)
Theorem generate_canMove_symmetric (cols0 rows0 seed : Z) :
  1 ≤ cols0 → 1 ≤ rows0 →
  ∃ m, generate cols0 rows0 seed = Some (Ok m) ∧
    ∀ x y d, in_grid m x y → 0 ≤ d < 4 →
      canMove m x y d = Ok true →
      in_grid m (step_x x d) (step_y y d) ∧
      canMove m (step_x x d) (step_y y d) ((d + 2) mod 4) = Ok true.
Proof.
  intros Hc Hr.
  destruct (generate_fresh_ends cols0 rows0 seed Hc Hr)
    as (st & Hgen & Hinv & _).
  exists (generate_finish (gs_maze st)). split; [done|].
  intros x y d Hin Hd Hcm.
  destruct (canMove_generated st x y d Hinv Hin Hd) as [Hcm' Ho].
  rewrite Hcm' in Hcm. injection Hcm as Hcm.
  destruct (Ho Hcm) as [Hn Hb].
  split; [exact Hn|].
  destruct (canMove_generated st _ _ ((d + 2) mod 4) Hinv Hn
              (opposite_range d Hd)) as [-> _].
  by rewrite Hb.
Qed.

(** ** Mazes without cells *)

(** X10.  [generate] on a maze without cells.  With no rows and two or
    more columns the first iteration finds the neighbour (1,0), whose
    index misses the empty grid: [c.open] throws.  With no columns every
    neighbour has the index 0 of the start cell, which counts as visited:
    the loop ends after one iteration and leaves an empty maze. *)
Theorem generate_without_cells (fuel : nat) (n seed : Z) :
  (0 < fuel)%nat → 2 ≤ n →
  generate_with fuel n 0 seed = Some Throw ∧
  generate_with fuel 0 n seed
  = Some (Ok (mkMaze 0 n [] (mkCoord 0 0) (mkCoord (-1) (n - 1)))).
Proof.
  intros Hf Hn. destruct fuel as [|fuel]; [lia|].
  assert (E : (0 <? n - 1) = true) by (apply Z.ltb_lt; lia).
  split.
  - unfold generate_with, Maze_new. rewrite Z.mul_0_r. simpl.
    unfold Maze_generate_with.
    set (m := mkMaze n 0 _ _ _).
    assert (Hnb : filter (λ k, idx m (nb_x k) (nb_y k) ∉ ({[idx m 0 0]} : gset Z))
                         (neighbors m 0 0) = [mkNbr 1 0 1]).
    { unfold neighbors. simpl. rewrite E. simpl.
      rewrite filter_cons_True; [done|].
      simpl. unfold idx. simpl. rewrite elem_of_singleton. lia. }
    assert (Hit : generate_iter (generate_init m seed) = Throw).
    { unfold generate_iter.
      cbn -[mulberry32_next rand_index filter neighbors]. rewrite Hnb.
      destruct (mulberry32_next (Int32.to_uint32 seed)) as [a u] eqn:Hmb.
      assert (Hu : 0 ≤ u < Int32.two32).
      { pose proof (mulberry32_next_range (Int32.to_uint32 seed)) as H.
        by rewrite Hmb in H. }
      assert (Hi : rand_index u 1 = 0%nat).
      { pose proof (rand_index_lt u 1 Hu ltac:(lia)). lia. }
      cbn -[rand_index]. rewrite Hi. simpl.
      unfold open_at, grid_at, idx. simpl.
      assert (Hg : fresh_grid n 0 = []).
      { unfold fresh_grid. by rewrite Z.mul_0_r. }
      by rewrite Hg. }
    simpl. by rewrite Hit.
  - unfold generate_with, Maze_new. simpl.
    unfold Maze_generate_with.
    set (m := mkMaze 0 n _ _ _).
    assert (Hnb : filter (λ k, idx m (nb_x k) (nb_y k) ∉ ({[idx m 0 0]} : gset Z))
                         (neighbors m 0 0) = []).
    { unfold neighbors. simpl. rewrite E. simpl.
      rewrite filter_cons_False; [done|].
      simpl. unfold idx. simpl. rewrite elem_of_singleton. lia. }
    assert (Hit : generate_iter (generate_init m seed)
                  = Ok (mkGen m (Int32.to_uint32 seed) [] {[idx m 0 0]})).
    { unfold generate_iter.
      cbn -[mulberry32_next rand_index filter neighbors]. by rewrite Hnb. }
    simpl. rewrite Hit. by destruct fuel.
Qed.

(** * Further properties of the layout *)

(** ** The layout that drawMaze computes *)

Lemma Qmin_le_l a b : (Qmin a b <= a)%Q.
Proof.
  unfold Qmin. destruct (Qle_bool a b) eqn:E; [apply Qle_refl|].
  apply Qlt_le_weak, Qnot_le_lt. intros H. apply Qle_bool_iff in H. congruence.
Qed.

Lemma Qmin_le_r a b : (Qmin a b <= b)%Q.
Proof.
  unfold Qmin. destruct (Qle_bool a b) eqn:E; [|apply Qle_refl].
  by apply Qle_bool_iff.
Qed.

Lemma Qmin_glb a b c : (c <= a)%Q → (c <= b)%Q → (c <= Qmin a b)%Q.
Proof. intros Ha Hb. unfold Qmin. by destruct (Qle_bool a b). Qed.

Lemma QofZ_le a b : a ≤ b → (QofZ a <= QofZ b)%Q.
Proof. intros H. unfold QofZ. by rewrite <- Zle_Qle. Qed.

Lemma QofZ_lt a b : a < b → (QofZ a < QofZ b)%Q.
Proof. intros H. unfold QofZ. by rewrite <- Zlt_Qlt. Qed.

(** The cell size times the larger dimension is the usable length, and
    the maze is no longer than that along either axis. *)
Lemma drawMaze_extent m w h :
  0 < cols m → 0 < rows m → (32 <= w)%Q → (32 <= h)%Q →
  let cs := cellSize (drawMaze m w h) in
  (0 <= cs)%Q ∧
  (cs * QofZ (cols m) <= Qmin w h - 32)%Q ∧
  (cs * QofZ (rows m) <= Qmin w h - 32)%Q.
Proof.
  intros Hc Hr Hw Hh. cbv zeta. unfold drawMaze. cbn [cellSize].
  set (F := QofZ (Qfloor (Qmin w h - 16 * 2))).
  set (M := QofZ (Z.max (cols m) (rows m))).
  assert (HM : (0 < M)%Q) by (apply (QofZ_lt 0); lia).
  assert (HF0 : (0 <= F)%Q).
  { apply (QofZ_le 0). rewrite <- (Qfloor_Z 0).
    apply Qfloor_resp_le.
    pose proof (Qmin_glb w h 32 Hw Hh) as Hm.
    change (inject_Z 0) with 0%Q. lra. }
  assert (HF : (F <= Qmin w h - 32)%Q).
  { pose proof (Qfloor_le (Qmin w h - 16 * 2)) as Hf.
    change (inject_Z (Qfloor (Qmin w h - 16 * 2))) with F in Hf. lra. }
  assert (Hcs : (0 <= F / M)%Q).
  { apply Qle_shift_div_l; [done|]. lra. }
  assert (HcsM : (F / M * M == F)%Q) by (field; lra).
  assert (Hcols : (QofZ (cols m) <= M)%Q) by (apply QofZ_le; lia).
  assert (Hrows : (QofZ (rows m) <= M)%Q) by (apply QofZ_le; lia).
  split; [done|]. split.
  - assert ((F / M * QofZ (cols m) <= F / M * M)%Q).
    { rewrite !(Qmult_comm (F / M)). by apply Qmult_le_compat_r. }
    lra.
  - assert ((F / M * QofZ (rows m) <= F / M * M)%Q).
    { rewrite !(Qmult_comm (F / M)). by apply Qmult_le_compat_r. }
    lra.
Qed.

(** X11.  The layout of [drawMaze] on a canvas of at least 32 by 32
    pixels, for a maze with positive dimensions: the cell size is not
    negative, the maze rectangle is centred in the canvas, and it keeps
    the padding of 16 pixels free on every side. *)
Theorem drawMaze_margins (m : Maze) (w h : Q) :
  0 < cols m → 0 < rows m → (32 <= w)%Q → (32 <= h)%Q →
  let mt := drawMaze m w h in
  let right := (originX mt + cellSize mt * QofZ (cols m))%Q in
  let bottom := (originY mt + cellSize mt * QofZ (rows m))%Q in
  (0 <= cellSize mt)%Q ∧
  (originX mt + right == w)%Q ∧ (originY mt + bottom == h)%Q ∧
  (16 <= originX mt)%Q ∧ (right <= w - 16)%Q ∧
  (16 <= originY mt)%Q ∧ (bottom <= h - 16)%Q.
Proof.
  intros Hc Hr Hw Hh.
  destruct (drawMaze_extent m w h Hc Hr Hw Hh) as (Hcs & Hx & Hy).
  cbv zeta in *.
  pose proof (Qmin_le_l w h) as Hl. pose proof (Qmin_le_r w h) as Hrr.
  assert (Hox : (originX (drawMaze m w h)
                 == (w - cellSize (drawMaze m w h) * QofZ (cols m)) / 2)%Q)
    by (unfold drawMaze; cbn [originX cellSize]; reflexivity).
  assert (Hoy : (originY (drawMaze m w h)
                 == (h - cellSize (drawMaze m w h) * QofZ (rows m)) / 2)%Q)
    by (unfold drawMaze; cbn [originY cellSize]; reflexivity).
  set (cs := cellSize (drawMaze m w h)) in *.
  set (ox := originX (drawMaze m w h)) in *.
  set (oy := originY (drawMaze m w h)) in *.
  set (a := (cs * QofZ (cols m))%Q) in *.
  set (b := (cs * QofZ (rows m))%Q) in *.
  assert (Hox' : (ox == (w - a) * (1 # 2))%Q) by (rewrite Hox; field).
  assert (Hoy' : (oy == (h - b) * (1 # 2))%Q) by (rewrite Hoy; field).
  repeat split; lra.
Qed.

(** ** The cell of a point *)

Lemma Qfloor_eq_iff q z :
  Qfloor q = z ↔ (QofZ z <= q)%Q ∧ (q < QofZ z + 1)%Q.
Proof.
  unfold QofZ. split.
  - intros <-. split; [apply Qfloor_le|].
    pose proof (Qlt_floor q) as H. rewrite inject_Z_plus in H. exact H.
  - intros [H1 H2].
    apply Qfloor_resp_le in H1. rewrite Qfloor_Z in H1.
    assert (H3 : (inject_Z (Qfloor q) < inject_Z (z + 1))%Q).
    { rewrite inject_Z_plus. eapply Qle_lt_trans; [apply Qfloor_le | exact H2]. }
    rewrite <- Zlt_Qlt in H3. lia.
Qed.

Lemma Qfloor_lt_iff q z : Qfloor q < z ↔ (q < QofZ z)%Q.
Proof.
  unfold QofZ. split.
  - intros H. eapply Qlt_le_trans; [apply Qlt_floor|].
    rewrite <- Zle_Qle. lia.
  - intros H. apply Z.lt_nge. intros Hz.
    apply (Qlt_not_le _ _ H).
    eapply Qle_trans; [|apply Qfloor_le]. by rewrite <- Zle_Qle.
Qed.

(** A quotient by a positive number lies in a unit interval exactly when
    the numerator lies in the scaled interval. *)
Lemma Qdiv_between a cs z :
  (0 < cs)%Q →
  ((QofZ z <= a / cs)%Q ∧ (a / cs < QofZ z + 1)%Q) ↔
  ((QofZ z * cs <= a)%Q ∧ (a < (QofZ z + 1) * cs)%Q).
Proof.
  intros Hcs.
  assert (Ha : (a == a / cs * cs)%Q) by (field; lra).
  split; intros [H1 H2].
  - split.
    + rewrite Ha. by apply Qmult_le_compat_r; [|lra].
    + rewrite Ha at 1. by apply Qmult_lt_compat_r.
  - split.
    + apply Qle_shift_div_l; done.
    + apply Qlt_shift_div_r; done.
Qed.

Lemma Qdiv_lt_iff a cs z :
  (0 < cs)%Q → (a / cs < QofZ z)%Q ↔ (a < QofZ z * cs)%Q.
Proof.
  intros Hcs.
  assert (Ha : (a == a / cs * cs)%Q) by (field; lra).
  split; intros H.
  - rewrite Ha at 1. by apply Qmult_lt_compat_r.
  - by apply Qlt_shift_div_r.
Qed.

Lemma floor_div_pos a cs : (0 < cs)%Q → floor_div a cs = Int (Qfloor (a / cs)).
Proof.
  intros Hcs. unfold floor_div. rewrite Qzero_false; [done|]. lra.
Qed.

(** With the subtraction and the quotient taken exactly, [cellFromPoint]
    with a positive cell size answers [(x, y)] on the square of the cell
    [(x, y)], its left and upper sides included, and [null] outside the
    maze rectangle.  (The code rounds both operations to doubles, which
    can move a point that lies within rounding distance of a wall into
    the neighbouring cell; the statement with a margin follows below.) *)
Lemma cellFromPoint_square (m : Maze) (mt : Metrics) (px py : Q) (x y : Z) :
  (0 < cellSize mt)%Q →
  (cellFromPoint m mt px py = Some (Int x, Int y) ↔
   in_grid m x y ∧
   (originX mt + QofZ x * cellSize mt <= px)%Q ∧
   (px < originX mt + (QofZ x + 1) * cellSize mt)%Q ∧
   (originY mt + QofZ y * cellSize mt <= py)%Q ∧
   (py < originY mt + (QofZ y + 1) * cellSize mt)%Q) ∧
  (cellFromPoint m mt px py = None ↔
   (px < originX mt)%Q ∨ (py < originY mt)%Q ∨
   (originX mt + QofZ (cols m) * cellSize mt <= px)%Q ∨
   (originY mt + QofZ (rows m) * cellSize mt <= py)%Q).
Proof.
  intros Hcs. unfold cellFromPoint.
  rewrite !floor_div_pos by done.
  set (ox := originX mt). set (oy := originY mt). set (cs := cellSize mt) in *.
  set (X := Qfloor ((px - ox) / cs)). set (Y := Qfloor ((py - oy) / cs)).
  pose proof (proj1 (Qfloor_eq_iff ((px - ox) / cs) X) eq_refl) as HX.
  pose proof (proj1 (Qfloor_eq_iff ((py - oy) / cs) Y) eq_refl) as HY.
  apply Qdiv_between in HX; [|done]. apply Qdiv_between in HY; [|done].
  simpl.
  split.
  - split.
    + destruct (_ || _) eqn:E; [done|].
      intros [= <- <-].
      apply orb_false_iff in E as [E E4]. apply orb_false_iff in E as [E E3].
      apply orb_false_iff in E as [E1 E2].
      split; [unfold in_grid; lia|]. lra.
    + intros (Hin & H1 & H2 & H3 & H4).
      assert (HXx : X = x).
      { apply Qfloor_eq_iff, Qdiv_between; [done|]. split; lra. }
      assert (HYy : Y = y).
      { apply Qfloor_eq_iff, Qdiv_between; [done|]. split; lra. }
      rewrite HXx, HYy. unfold in_grid in Hin.
      destruct (x <? 0) eqn:E1; [lia|]. destruct (y <? 0) eqn:E2; [lia|].
      destruct (cols m <=? x) eqn:E3; [lia|].
      destruct (rows m <=? y) eqn:E4; [lia|]. done.
  - assert (H1 : X < 0 ↔ (px < ox)%Q).
    { unfold X. rewrite Qfloor_lt_iff, Qdiv_lt_iff by done.
      change (QofZ 0) with 0%Q. split; intros; lra. }
    assert (H2 : Y < 0 ↔ (py < oy)%Q).
    { unfold Y. rewrite Qfloor_lt_iff, Qdiv_lt_iff by done.
      change (QofZ 0) with 0%Q. split; intros; lra. }
    assert (H3 : cols m ≤ X ↔ (ox + QofZ (cols m) * cs <= px)%Q).
    { rewrite <- Z.nlt_ge. unfold X.
      rewrite Qfloor_lt_iff, Qdiv_lt_iff by done.
      split; intros H.
      - apply Qnot_lt_le in H. lra.
      - apply Qle_not_lt. lra. }
    assert (H4 : rows m ≤ Y ↔ (oy + QofZ (rows m) * cs <= py)%Q).
    { rewrite <- Z.nlt_ge. unfold Y.
      rewrite Qfloor_lt_iff, Qdiv_lt_iff by done.
      split; intros H.
      - apply Qnot_lt_le in H. lra.
      - apply Qle_not_lt. lra. }
    rewrite <- H1, <- H2, <- H3, <- H4.
    destruct (X <? 0) eqn:E1; simpl; [split; [lia | done]|].
    destruct (Y <? 0) eqn:E2; simpl; [split; [lia | done]|].
    destruct (cols m <=? X) eqn:E3; simpl; [split; [lia | done]|].
    destruct (rows m <=? Y) eqn:E4; simpl; [split; [lia | done]|].
    split; [done | lia].
Qed.

(** X12.  [cellFromPoint] with a positive cell size tiles the maze
    rectangle, up to a hundredth of a cell at the walls.  A point within
    0.49 cell of the centre of a cell [(x, y)] of the grid, on both axes,
    is assigned [(x, y)]; a point that is assigned [(x, y)] lies within
    0.51 cell of that centre and [(x, y)] is a cell of the grid; the
    result is [null] for every point more than a hundredth of a cell
    outside the maze rectangle, and only for points outside the rectangle
    shrunk by a hundredth of a cell. *)
Theorem cellFromPoint_cell (m : Maze) (mt : Metrics) (px py : Q) (x y : Z) :
  (0 < cellSize mt)%Q →
  (in_grid m x y →
   (Qabs (px - fst (cellCenter mt x y)) <= (49 # 100) * cellSize mt)%Q →
   (Qabs (py - snd (cellCenter mt x y)) <= (49 # 100) * cellSize mt)%Q →
   cellFromPoint m mt px py = Some (Int x, Int y)) ∧
  (cellFromPoint m mt px py = Some (Int x, Int y) →
   in_grid m x y ∧
   (Qabs (px - fst (cellCenter mt x y)) <= (51 # 100) * cellSize mt)%Q ∧
   (Qabs (py - snd (cellCenter mt x y)) <= (51 # 100) * cellSize mt)%Q) ∧
  ((px < originX mt - (1 # 100) * cellSize mt)%Q ∨
   (py < originY mt - (1 # 100) * cellSize mt)%Q ∨
   (originX mt + (QofZ (cols m) + (1 # 100)) * cellSize mt < px)%Q ∨
   (originY mt + (QofZ (rows m) + (1 # 100)) * cellSize mt < py)%Q →
   cellFromPoint m mt px py = None) ∧
  (cellFromPoint m mt px py = None →
   (px < originX mt + (1 # 100) * cellSize mt)%Q ∨
   (py < originY mt + (1 # 100) * cellSize mt)%Q ∨
   (originX mt + (QofZ (cols m) - (1 # 100)) * cellSize mt < px)%Q ∨
   (originY mt + (QofZ (rows m) - (1 # 100)) * cellSize mt < py)%Q).
Proof.
  intros Hcs.
  destruct (cellFromPoint_square m mt px py x y Hcs) as [Hcell Hnull].
  unfold cellCenter. simpl fst. simpl snd.
  set (ox := originX mt) in *. set (oy := originY mt) in *.
  set (cs := cellSize mt) in *.
  set (X := (QofZ x * cs)%Q) in *. set (Y := (QofZ y * cs)%Q) in *.
  set (W := (QofZ (cols m) * cs)%Q) in *. set (H := (QofZ (rows m) * cs)%Q) in *.
  split; [|split; [|split]].
  - intros Hin Hx Hy. apply Qabs_Qle_condition in Hx, Hy.
    apply Hcell. split; [done|]. fold X Y.
    assert (E1 : ((QofZ x + (1 # 2)) * cs == X + (1 # 2) * cs)%Q) by (unfold X; ring).
    assert (E2 : ((QofZ y + (1 # 2)) * cs == Y + (1 # 2) * cs)%Q) by (unfold Y; ring).
    assert (E3 : ((QofZ x + 1) * cs == X + cs)%Q) by (unfold X; ring).
    assert (E4 : ((QofZ y + 1) * cs == Y + cs)%Q) by (unfold Y; ring).
    rewrite E1 in Hx. rewrite E2 in Hy. rewrite E3, E4.
    split; [lra|]. split; [lra|]. split; lra.
  - intros Hsome. apply Hcell in Hsome as (Hin & H1 & H2 & H3 & H4).
    split; [done|]. fold X Y in H1, H3.
    assert (E1 : ((QofZ x + (1 # 2)) * cs == X + (1 # 2) * cs)%Q) by (unfold X; ring).
    assert (E2 : ((QofZ y + (1 # 2)) * cs == Y + (1 # 2) * cs)%Q) by (unfold Y; ring).
    assert (E3 : ((QofZ x + 1) * cs == X + cs)%Q) by (unfold X; ring).
    assert (E4 : ((QofZ y + 1) * cs == Y + cs)%Q) by (unfold Y; ring).
    rewrite E3 in H2. rewrite E4 in H4. rewrite E1, E2.
    split; apply Qabs_Qle_condition; split; lra.
  - intros Hout. apply Hnull. fold W H.
    assert (E1 : ((QofZ (cols m) + (1 # 100)) * cs == W + (1 # 100) * cs)%Q)
      by (unfold W; ring).
    assert (E2 : ((QofZ (rows m) + (1 # 100)) * cs == H + (1 # 100) * cs)%Q)
      by (unfold H; ring).
    rewrite E1, E2 in Hout.
    destruct Hout as [Ho | [Ho | [Ho | Ho]]];
      [left | right; left | right; right; left | right; right; right]; lra.
  - intros Hnone. apply Hnull in Hnone. fold W H in Hnone.
    assert (E1 : ((QofZ (cols m) - (1 # 100)) * cs == W - (1 # 100) * cs)%Q)
      by (unfold W; ring).
    assert (E2 : ((QofZ (rows m) - (1 # 100)) * cs == H - (1 # 100) * cs)%Q)
      by (unfold H; ring).
    rewrite E1, E2.
    destruct Hnone as [Ho | [Ho | [Ho | Ho]]];
      [left | right; left | right; right; left | right; right; right]; lra.
Qed.

(** * Further properties of the game loop of main.js *)

(** ** Positions that are equal as numbers lie in the same cell *)

Lemma Qzero_iff q : Qzero q = true ↔ (q == 0)%Q.
Proof.
  unfold Qzero, Qeq. simpl. rewrite Z.eqb_eq. lia.
Qed.

Lemma Qpos_iff q : Qpos q = true ↔ (0 < q)%Q.
Proof.
  unfold Qpos, Qlt. simpl. rewrite Z.ltb_lt. lia.
Qed.

Lemma floor_div_Qeq a a' b : (a == a')%Q → floor_div a b = floor_div a' b.
Proof.
  intros H. unfold floor_div.
  assert (Hz : Qzero a = Qzero a').
  { apply eq_true_iff_eq. rewrite !Qzero_iff. by rewrite H. }
  assert (Hp : Qpos a = Qpos a').
  { apply eq_true_iff_eq. rewrite !Qpos_iff. by rewrite H. }
  rewrite Hz, Hp.
  destruct (Qzero b); [done|].
  f_equal. apply Qfloor_comp. by rewrite H.
Qed.

Lemma cellFromPoint_Qeq m mt px py px' py' :
  (px == px')%Q → (py == py')%Q →
  cellFromPoint m mt px py = cellFromPoint m mt px' py'.
Proof.
  intros Hx Hy. unfold cellFromPoint.
  rewrite (floor_div_Qeq (px - originX mt) (px' - originX mt)) by (by rewrite Hx).
  rewrite (floor_div_Qeq (py - originY mt) (py' - originY mt)) by (by rewrite Hy).
  done.
Qed.

Lemma cellFromPoint_Qred m mt px py :
  cellFromPoint m mt (Qred px) (Qred py) = cellFromPoint m mt px py.
Proof. apply cellFromPoint_Qeq; apply Qred_correct. Qed.

(** ** canTraverse allows a move within a cell or through an open passage *)

Lemma canTraverse_true_through m mt x1 y1 x2 y2 ax ay :
  cellFromPoint m mt x1 y1 = Some (Int ax, Int ay) →
  canTraverse m mt x1 y1 x2 y2 = Ok true →
  ∃ bx by_, cellFromPoint m mt x2 y2 = Some (Int bx, Int by_) ∧
            same_or_through m (ax, ay) (bx, by_).
Proof.
  intros Ha Ht.
  destruct (canTraverse_true_dest m mt x1 y1 x2 y2 ax ay Ha Ht)
    as (bx & by_ & Hb).
  exists bx, by_. split; [exact Hb|].
  rewrite (canTraverse_cells m mt x1 y1 x2 y2 ax ay bx by_ Ha Hb) in Ht.
  destruct ((ax =? bx) && (ay =? by_)) eqn:Esame.
  - left. apply andb_true_iff in Esame as [E1 E2].
    apply Z.eqb_eq in E1, E2. by subst.
  - right. destruct (negb _) eqn:Eadj; [done|].
    apply negb_false_iff, Z.eqb_eq in Eadj.
    unfold step_x, step_y. simpl.
    destruct (bx - ax =? 1) eqn:E1.
    { apply Z.eqb_eq in E1. exists 1. simpl.
      split; [lia|]. split; [f_equal; lia | exact Ht]. }
    destruct (bx - ax =? -1) eqn:E2.
    { apply Z.eqb_eq in E2. exists 3. simpl.
      split; [lia|]. split; [f_equal; lia | exact Ht]. }
    destruct (by_ - ay =? 1) eqn:E3.
    { apply Z.eqb_eq in E3. exists 2. simpl.
      apply Z.eqb_neq in E1, E2.
      split; [lia|]. split; [f_equal; lia | exact Ht]. }
    exists 0. simpl. apply Z.eqb_neq in E1, E2, E3.
    split; [lia|]. split; [f_equal; lia | exact Ht].
Qed.

Lemma attemptMove_through g now cx cy dx dy ax ay x' y' g' :
  cellFromPoint (Main.g_maze g) (Main.g_metrics g) cx cy = Some (Int ax, Int ay) →
  Main.attemptMove g now cx cy dx dy = Ok ((x', y'), g') →
  (g' = g ∨ g' = Main.maybeHurt g now) ∧
  ∃ bx by_,
    cellFromPoint (Main.g_maze g) (Main.g_metrics g) x' y' = Some (Int bx, Int by_) ∧
    same_or_through (Main.g_maze g) (ax, ay) (bx, by_).
Proof.
  intros Ha. unfold Main.attemptMove.
  destruct (canTraverse _ _ cx cy (cx + dx)%Q (cy + dy)%Q) as [[]|] eqn:E1;
    simpl; try done.
  { intros [= <- <- <-]. split; [by left|].
    exact (canTraverse_true_through _ _ _ _ _ _ _ _ Ha E1). }
  destruct (canTraverse _ _ cx cy (cx + dx)%Q cy) as [[]|] eqn:E2;
    simpl; try done.
  { intros [= <- <- <-]. split; [by left|].
    exact (canTraverse_true_through _ _ _ _ _ _ _ _ Ha E2). }
  destruct (canTraverse _ _ cx cy cx (cy + dy)%Q) as [[]|] eqn:E3;
    simpl; try done.
  { intros [= <- <- <-]. split; [by left|].
    exact (canTraverse_true_through _ _ _ _ _ _ _ _ Ha E3). }
  intros [= <- <- <-]. split; [by right|].
  exists ax, ay. split; [exact Ha | by left].
Qed.

Lemma attemptMove_state g now cx cy dx dy pos g' :
  Main.attemptMove g now cx cy dx dy = Ok (pos, g') →
  g' = g ∨ g' = Main.maybeHurt g now.
Proof.
  unfold Main.attemptMove.
  destruct (canTraverse _ _ cx cy (cx + dx)%Q (cy + dy)%Q) as [[]|];
    simpl; try done; [intros [= _ <-]; by left|].
  destruct (canTraverse _ _ cx cy (cx + dx)%Q cy) as [[]|];
    simpl; try done; [intros [= _ <-]; by left|].
  destruct (canTraverse _ _ cx cy cx (cy + dy)%Q) as [[]|];
    simpl; try done; [intros [= _ <-]; by left|].
  intros [= _ <-]. by right.
Qed.

(** ** What the steps of the loop leave unchanged *)

Lemma main_drawAll_frame g :
  Main.g_maze (Main.drawAll g) = Main.g_maze g ∧
  Main.g_canvas (Main.drawAll g) = Main.g_canvas g ∧
  Main.g_running (Main.drawAll g) = Main.g_running g ∧
  Main.g_raf (Main.drawAll g) = Main.g_raf g ∧
  Main.pl_x (Main.g_player (Main.drawAll g)) = Main.pl_x (Main.g_player g) ∧
  Main.pl_y (Main.g_player (Main.drawAll g)) = Main.pl_y (Main.g_player g) ∧
  Main.cellX (Main.g_player (Main.drawAll g)) = Main.cellX (Main.g_player g) ∧
  Main.cellY (Main.g_player (Main.drawAll g)) = Main.cellY (Main.g_player g) ∧
  main_layout_fresh (Main.drawAll g).
Proof.
  unfold Main.drawAll, main_layout_fresh. by destruct (0 <? _).
Qed.

Lemma main_maybeHurt_frame g now :
  Main.g_maze (Main.maybeHurt g now) = Main.g_maze g ∧
  Main.g_canvas (Main.maybeHurt g now) = Main.g_canvas g ∧
  Main.g_running (Main.maybeHurt g now) = Main.g_running g ∧
  Main.g_raf (Main.maybeHurt g now) = Main.g_raf g ∧
  Main.pl_x (Main.g_player (Main.maybeHurt g now)) = Main.pl_x (Main.g_player g) ∧
  Main.pl_y (Main.g_player (Main.maybeHurt g now)) = Main.pl_y (Main.g_player g) ∧
  (main_layout_fresh g → Main.g_metrics (Main.maybeHurt g now) = Main.g_metrics g).
Proof.
  unfold Main.maybeHurt. destruct (Qltb 220 _); [|done].
  unfold Main.hurt.
  match goal with |- context [Main.drawAll ?x] =>
    destruct (main_drawAll_frame x) as (H1 & H2 & H3 & H4 & H5 & H6 & _ & _ & H7);
    set (gd := Main.drawAll x) in * end.
  assert (H8 : main_layout_fresh g → Main.g_metrics gd = Main.g_metrics g).
  { intros Hf. unfold main_layout_fresh in *. rewrite H7, H1, H2. simpl.
    by rewrite Hf. }
  rewrite H1, H2, H3, H4, H5, H6.
  repeat (split; [done|]). exact H8.
Qed.

Section MainLoop.

Variable hypot : Q → Q → Q.
Variable sin : Q → Q.

(** The part of [tick] that moves the player. *)
Lemma tick_move g now :
  Maze_wf (Main.g_maze g) →
  ∃ g1,
    match Main.g_dragging g, Main.g_lastTouch g with
    | true, Some (tx, ty) =>
        let p := Main.g_player g in
        let vx := (tx - Main.pl_x p)%Q in
        let vy := (ty - Main.pl_y p)%Q in
        let dist := hypot vx vy in
        if Qltb (1 # 2) dist then
          let step :=
            Qmin (QofZ (Z.max 3 (Qfloor (cellSize (Main.g_metrics g) * (32 # 100)))))
                 dist in
          let dx := ((vx / dist) * step)%Q in
          let dy := ((vy / dist) * step)%Q in
          r ← Main.attemptMove g now (Main.pl_x p) (Main.pl_y p) dx dy;
          let '((x, y), g) := r in
          Ok (Main.with_player g (Main.set_pos (Main.g_player g) x y))
        else Ok g
    | _, _ => Ok g
    end = Ok g1 ∧
    Main.g_maze g1 = Main.g_maze g ∧
    Main.g_canvas g1 = Main.g_canvas g ∧
    Main.g_running g1 = Main.g_running g ∧
    Main.g_raf g1 = Main.g_raf g ∧
    (main_layout_fresh g → Main.g_metrics g1 = Main.g_metrics g) ∧
    ∀ ax ay,
      cellFromPoint (Main.g_maze g) (Main.g_metrics g)
        (Main.pl_x (Main.g_player g)) (Main.pl_y (Main.g_player g))
      = Some (Int ax, Int ay) →
      ∃ bx by_,
        cellFromPoint (Main.g_maze g) (Main.g_metrics g)
          (Main.pl_x (Main.g_player g1)) (Main.pl_y (Main.g_player g1))
        = Some (Int bx, Int by_) ∧
        same_or_through (Main.g_maze g) (ax, ay) (bx, by_).
Proof.
  intros Hwf.
  assert (Hstay : ∃ g1, Ok g = Ok g1 ∧
    Main.g_maze g1 = Main.g_maze g ∧
    Main.g_canvas g1 = Main.g_canvas g ∧
    Main.g_running g1 = Main.g_running g ∧
    Main.g_raf g1 = Main.g_raf g ∧
    (main_layout_fresh g → Main.g_metrics g1 = Main.g_metrics g) ∧
    ∀ ax ay,
      cellFromPoint (Main.g_maze g) (Main.g_metrics g)
        (Main.pl_x (Main.g_player g)) (Main.pl_y (Main.g_player g))
      = Some (Int ax, Int ay) →
      ∃ bx by_,
        cellFromPoint (Main.g_maze g) (Main.g_metrics g)
          (Main.pl_x (Main.g_player g1)) (Main.pl_y (Main.g_player g1))
        = Some (Int bx, Int by_) ∧
        same_or_through (Main.g_maze g) (ax, ay) (bx, by_)).
  { exists g. repeat split; try done.
    intros ax ay Ha. exists ax, ay. split; [exact Ha | by left]. }
  destruct (Main.g_dragging g); [|exact Hstay].
  destruct (Main.g_lastTouch g) as [[tx ty]|]; [|exact Hstay].
  cbv zeta. destruct (Qltb _ _); [|exact Hstay]. clear Hstay.
  match goal with |- context [Main.attemptMove g now ?a ?b ?c ?d] =>
    destruct (attemptMove_total g now a b c d Hwf) as [[[x y] g2] Ham];
    rewrite Ham end.
  simpl. eexists. split; [done|]. simpl.
  pose proof (attemptMove_state _ _ _ _ _ _ _ _ Ham) as Hg2.
  destruct (main_maybeHurt_frame g now) as (M1 & M2 & M3 & M4 & _ & _ & M7).
  assert (Hfr : Main.g_maze g2 = Main.g_maze g ∧
                Main.g_canvas g2 = Main.g_canvas g ∧
                Main.g_running g2 = Main.g_running g ∧
                Main.g_raf g2 = Main.g_raf g ∧
                (main_layout_fresh g → Main.g_metrics g2 = Main.g_metrics g)).
  { destruct Hg2 as [-> | ->]; done. }
  destruct Hfr as (F1 & F2 & F3 & F4 & F5).
  repeat (split; [done|]).
  intros ax ay Ha.
  destruct (attemptMove_through g now _ _ _ _ ax ay x y g2 Ha Ham)
    as (_ & bx & by_ & Hb & Hthrough).
  exists bx, by_. split; [|exact Hthrough].
  by rewrite cellFromPoint_Qred.
Qed.

(** [tick] returns on every game whose maze holds its cells. *)
Lemma tick_total g now :
  Maze_wf (Main.g_maze g) → ∃ g', Main.tick hypot g now = Ok g'.
Proof.
  intros Hwf. unfold Main.tick.
  destruct (Main.g_running g); simpl; [|by eexists].
  destruct (tick_move g now Hwf) as (g1 & Hmv & _).
  set (moved := match Main.g_dragging g with true => _ | false => _ end).
  assert (E : moved = Ok g1) by exact Hmv.
  rewrite E. simpl. by eexists.
Qed.

(** X13.  A tick of the game loop never takes the player through a
    wall.  When the layout is the one of the current canvas and the
    player's position lies in the cell [(ax, ay)], the tick returns, the
    new position lies in a cell [(bx, by)] that is [(ax, ay)] itself or
    the cell entered from it through a passage that [canMove] allows,
    and [player.cellX], [player.cellY] hold that cell. *)
Theorem tick_respects_walls (g : Main.Game) (now : Q) (ax ay : Z) :
  Maze_wf (Main.g_maze g) → main_layout_fresh g → Main.g_running g = true →
  cellFromPoint (Main.g_maze g) (Main.g_metrics g)
    (Main.pl_x (Main.g_player g)) (Main.pl_y (Main.g_player g))
  = Some (Int ax, Int ay) →
  ∃ g' bx by_,
    Main.tick hypot g now = Ok g' ∧
    cellFromPoint (Main.g_maze g) (Main.g_metrics g)
      (Main.pl_x (Main.g_player g')) (Main.pl_y (Main.g_player g'))
    = Some (Int bx, Int by_) ∧
    Main.cellX (Main.g_player g') = Int bx ∧
    Main.cellY (Main.g_player g') = Int by_ ∧
    same_or_through (Main.g_maze g) (ax, ay) (bx, by_).
Proof.
  intros Hwf Hfresh Hrun Ha. unfold Main.tick. rewrite Hrun. simpl.
  destruct (tick_move g now Hwf) as (g1 & Hmv & Hm & _ & _ & _ & Hmt & Hcell).
  set (moved := match Main.g_dragging g with true => _ | false => _ end).
  assert (E : moved = Ok g1) by exact Hmv.
  rewrite E. simpl.
  destruct (Hcell ax ay Ha) as (bx & by_ & Hb & Hthrough).
  rewrite Hm, (Hmt Hfresh), Hb. simpl.
  set (g2 := Main.with_player g1 _).
  destruct (main_drawAll_frame g2) as (_ & _ & _ & _ & D5 & D6 & D7 & D8 & _).
  set (g3 := Main.drawAll g2) in *.
  eexists. exists bx, by_. split; [done|].
  assert (Hpos : ∀ g4, g4 = g3 ∨ g4 = Main.onGoal (Main.set_won g3 true) →
            Main.g_player (Main.request g4 Main.CbTick) = Main.g_player g3).
  { by intros g4 [-> | ->]. }
  rewrite Hpos by (destruct (_ && _ && _); auto).
  rewrite D5, D6, D7, D8. simpl.
  split; [exact Hb|]. done.
Qed.

(** ** The loop on a whole run *)

Lemma pending_ticks_request g cb :
  pending_ticks (Main.request g cb)
  = (pending_ticks g + (if is_tick cb then 1 else 0))%nat.
Proof.
  unfold pending_ticks, Main.request. simpl.
  rewrite filter_app, length_app.
  destruct cb; simpl; lia.
Qed.

Lemma tick_frame g now g' :
  Maze_wf (Main.g_maze g) → Main.tick hypot g now = Ok g' →
  Main.g_maze g' = Main.g_maze g ∧
  Main.g_canvas g' = Main.g_canvas g ∧
  Main.g_running g' = Main.g_running g ∧
  (main_layout_fresh g → main_layout_fresh g') ∧
  (Main.g_running g = true → pending_ticks g' = S (pending_ticks g)).
Proof.
  intros Hwf. unfold Main.tick.
  destruct (Main.g_running g) eqn:Hrun; simpl; [|by intros [= <-]].
  destruct (tick_move g now Hwf) as (g1 & Hmv & M1 & M2 & M3 & M4 & _).
  set (moved := match Main.g_dragging g with true => _ | false => _ end).
  assert (E : moved = Ok g1) by exact Hmv.
  rewrite E. simpl.
  set (g2 := match cellFromPoint _ _ _ _ with Some c => _ | None => g1 end).
  assert (H2 : Main.g_maze g2 = Main.g_maze g1 ∧
               Main.g_canvas g2 = Main.g_canvas g1 ∧
               Main.g_running g2 = Main.g_running g1 ∧
               Main.g_raf g2 = Main.g_raf g1).
  { unfold g2. by destruct (cellFromPoint _ _ _ _). }
  destruct H2 as (C1 & C2 & C3 & C4).
  destruct (main_drawAll_frame g2) as (D1 & D2 & D3 & D4 & _ & _ & _ & _ & D9).
  set (g3 := Main.drawAll g2) in *.
  intros [= <-].
  assert (H3 : ∀ g4, g4 = g3 ∨ g4 = Main.onGoal (Main.set_won g3 true) →
            Main.g_maze g4 = Main.g_maze g3 ∧
            Main.g_canvas g4 = Main.g_canvas g3 ∧
            Main.g_running g4 = Main.g_running g3 ∧
            Main.g_metrics g4 = Main.g_metrics g3 ∧
            pending_ticks g4 = pending_ticks g3).
  { intros g4 [-> | ->]; [done|].
    repeat (split; [done|]).
    unfold Main.onGoal. by rewrite pending_ticks_request, Nat.add_0_r. }
  match goal with |- context [Main.request ?x Main.CbTick] =>
    destruct (H3 x) as (G1 & G2 & G3 & G4 & G5);
      [destruct (_ && _ && _); auto|];
    set (g4 := x) in * end.
  simpl. rewrite G1, G2, G3, D1, D2, D3, C1, C2, C3, M1, M2, M3.
  repeat (split; [done|]). split.
  - intros _. unfold main_layout_fresh in *. simpl.
    rewrite G1, G2, G4. exact D9.
  - intros _. rewrite pending_ticks_request, G5. simpl.
    unfold pending_ticks. rewrite D4, C4, M4. lia.
Qed.

Lemma jump_step_frame g t startY :
  Main.g_maze (Main.jump_step sin g t startY) = Main.g_maze g ∧
  Main.g_canvas (Main.jump_step sin g t startY) = Main.g_canvas g ∧
  Main.g_running (Main.jump_step sin g t startY) = Main.g_running g ∧
  main_layout_fresh (Main.jump_step sin g t startY) ∧
  pending_ticks (Main.jump_step sin g t startY) = pending_ticks g.
Proof.
  unfold Main.jump_step.
  match goal with |- context [Main.drawAll ?x] =>
    destruct (main_drawAll_frame x) as (D1 & D2 & D3 & D4 & _ & _ & _ & _ & D9);
    set (gd := Main.drawAll x) in * end.
  assert (Hp : pending_ticks gd = pending_ticks g)
    by (unfold pending_ticks; by rewrite D4).
  destruct (_ <? 22).
  - rewrite pending_ticks_request, Nat.add_0_r. simpl.
    split; [exact D1|]. split; [exact D2|]. split; [exact D3|].
    split; [exact D9 | exact Hp].
  - split; [exact D1|]. split; [exact D2|]. split; [exact D3|].
    split; [exact D9 | exact Hp].
Qed.

Lemma run_callback_frame g now cb :
  Maze_wf (Main.g_maze g) →
  ∃ g', Main.run_callback hypot sin g now cb = Ok g' ∧
    Main.g_maze g' = Main.g_maze g ∧
    Main.g_canvas g' = Main.g_canvas g ∧
    Main.g_running g' = Main.g_running g ∧
    (main_layout_fresh g → main_layout_fresh g') ∧
    (Main.g_running g = true →
     pending_ticks g' = (pending_ticks g + (if is_tick cb then 1 else 0))%nat).
Proof.
  intros Hwf. destruct cb as [|t startY]; simpl.
  - destruct (tick_total g now Hwf) as [g' Ht]. exists g'.
    split; [done|].
    destruct (tick_frame g now g' Hwf Ht) as (T1 & T2 & T3 & T4 & T5).
    repeat (split; [done|]). intros Hr. rewrite (T5 Hr). lia.
  - eexists. split; [done|].
    destruct (jump_step_frame g t startY) as (J1 & J2 & J3 & J4 & J5).
    repeat (split; [done|]). intros _. rewrite J5. lia.
Qed.

Lemma callbacks_frame cbs now g :
  Maze_wf (Main.g_maze g) →
  ∃ g', foldl (λ r cb, g ← r; Main.run_callback hypot sin g now cb) (Ok g) cbs
        = Ok g' ∧
    Main.g_maze g' = Main.g_maze g ∧
    Main.g_canvas g' = Main.g_canvas g ∧
    Main.g_running g' = Main.g_running g ∧
    (main_layout_fresh g → main_layout_fresh g') ∧
    (Main.g_running g = true →
     pending_ticks g'
     = (pending_ticks g + length (filter (λ cb, is_tick cb = true) cbs))%nat).
Proof.
  revert g. induction cbs as [|cb cbs IH]; intros g Hwf.
  - exists g. simpl. repeat (split; [done|]). intros _. lia.
  - destruct (run_callback_frame g now cb Hwf)
      as (g1 & Hcb & R1 & R2 & R3 & R4 & R5).
    destruct (IH g1) as (g' & Hfold & F1 & F2 & F3 & F4 & F5);
      [by rewrite R1|].
    exists g'. split.
    + simpl.
      change (foldl (λ r cb, g ← r; Main.run_callback hypot sin g now cb)
                (Main.run_callback hypot sin g now cb) cbs = Ok g').
      by rewrite Hcb.
    + rewrite F1, F2, F3, R1, R2, R3.
      repeat (split; [done|]). split; [auto|].
      intros Hr. rewrite F5 by (by rewrite R3). rewrite (R5 Hr).
      destruct cb.
      * rewrite filter_cons_True by done. simpl. lia.
      * rewrite filter_cons_False by done. simpl. lia.
Qed.

Lemma frame_frame g now :
  Maze_wf (Main.g_maze g) →
  ∃ g', Main.frame hypot sin g now = Ok g' ∧
    Main.g_maze g' = Main.g_maze g ∧
    Main.g_canvas g' = Main.g_canvas g ∧
    Main.g_running g' = Main.g_running g ∧
    (main_layout_fresh g → main_layout_fresh g') ∧
    (Main.g_running g = true → pending_ticks g' = pending_ticks g).
Proof.
  intros Hwf. unfold Main.frame.
  match goal with |- context [foldl _ (Ok ?x) _] =>
    destruct (callbacks_frame (Main.g_raf g) now x Hwf)
      as (g' & Hfold & F1 & F2 & F3 & F4 & F5) end.
  exists g'. split; [exact Hfold|].
  split; [exact F1|]. split; [exact F2|]. split; [exact F3|].
  split; [exact F4|].
  intros Hr. rewrite (F5 Hr). unfold pending_ticks. simpl. lia.
Qed.

Lemma difficultyForAge_range age : 5 ≤ difficultyForAge age ≤ 12.
Proof.
  unfold difficultyForAge.
  destruct (age =? 3), (age =? 4), (age =? 5), (age =? 6); lia.
Qed.

(** The maze of a level: [generate] returns, and the maze is perfect. *)
Lemma level_maze age seed :
  ∃ m, generate (difficultyForAge age) (difficultyForAge age) seed
       = Some (Ok m) ∧
    cols m = difficultyForAge age ∧ rows m = difficultyForAge age ∧
    Maze_wf m ∧ perfect m.
Proof.
  pose proof (difficultyForAge_range age) as Hs.
  destruct (generate_fresh_ends (difficultyForAge age) (difficultyForAge age)
              seed ltac:(lia) ltac:(lia)) as (st & Hgen & Hinv & Hst & Hc & Hr).
  exists (generate_finish (gs_maze st)).
  split; [exact Hgen|]. split; [exact Hc|]. split; [exact Hr|].
  split; [exact (gi_wf st Hinv)|].
  exact (final_perfect st Hinv Hst).
Qed.

Lemma startGame_frame prev age seed w h :
  ∃ g, Main.startGame prev age seed w h = Some (Ok g) ∧
    Maze_wf (Main.g_maze g) ∧ main_layout_fresh g ∧
    Main.g_running g = true ∧
    pending_ticks g
    = match prev with
      | Some g0 => if Main.g_running g0 then pending_ticks g0
                   else S (pending_ticks g0)
      | None => 1%nat
      end.
Proof.
  unfold Main.startGame.
  destruct (level_maze age seed) as (m & -> & Hc & Hr & Hwf & _).
  set (m' := mkMaze (cols m) (rows m) (grid m) _ _).
  destruct (cellCenter _ _ _) as [px py].
  eexists. split; [done|].
  match goal with |- context [Main.drawAll ?x] =>
    destruct (main_drawAll_frame x) as (D1 & D2 & D3 & D4 & _ & _ & _ & _ & D9);
    set (gd := Main.drawAll x) in * end.
  assert (Hgd : Main.g_maze gd = m') by (rewrite D1; by destruct prev).
  assert (Hp : pending_ticks (Main.startLoop gd)
               = if Main.g_running gd then pending_ticks gd
                 else S (pending_ticks gd)).
  { unfold Main.startLoop. destruct (Main.g_running gd); [done|].
    rewrite pending_ticks_request. unfold pending_ticks. simpl. lia. }
  assert (Hl : Main.g_maze (Main.startLoop gd) = Main.g_maze gd ∧
               Main.g_metrics (Main.startLoop gd) = Main.g_metrics gd ∧
               Main.g_canvas (Main.startLoop gd) = Main.g_canvas gd ∧
               Main.g_running (Main.startLoop gd) = true).
  { unfold Main.startLoop. by destruct (Main.g_running gd) eqn:E. }
  destruct Hl as (L1 & L2 & L3 & L4).
  split; [by rewrite L1, Hgd|].
  split; [unfold main_layout_fresh in *; by rewrite L1, L2, L3|].
  split; [exact L4|].
  rewrite Hp, D3. unfold pending_ticks. rewrite D4.
  destruct prev as [g0|]; simpl; [|done].
  destruct (main_drawAll_frame (Main.with_canvas g0 (w, h)))
    as (_ & _ & E3 & E4 & _).
  unfold Main.fitCanvas. by rewrite E3, E4.
Qed.

Lemma handle_frame g e :
  Maze_wf (Main.g_maze g) →
  ∃ g', Main.handle hypot sin g e = Some (Ok g') ∧
    Maze_wf (Main.g_maze g') ∧
    (main_layout_fresh g → main_layout_fresh g') ∧
    (Main.g_running g = true → pending_ticks g = 1%nat →
     Main.g_running g' = true ∧ pending_ticks g' = 1%nat).
Proof.
  intros Hwf. destruct e; simpl.
  - destruct (startGame_frame (Some g) age seed w h)
      as (g' & -> & S1 & S2 & S3 & S4).
    exists g'. split; [done|]. split; [done|]. split; [done|].
    intros Hr Hp. rewrite Hr in S4. by rewrite S4.
  - destruct (frame_frame g now Hwf) as (g' & -> & F1 & F2 & F3 & F4 & F5).
    exists g'. split; [done|]. rewrite F1. split; [done|]. split; [done|].
    intros Hr Hp. rewrite F3, (F5 Hr). done.
  - eexists. split; [done|]. unfold Main.onStart.
    destruct (Main.withinPlayer _ _ _); done.
  - eexists. split; [done|]. unfold Main.onMove.
    destruct (negb _); done.
  - eexists. split; [done|]. done.
  - eexists. split; [done|]. unfold Main.fitCanvas.
    destruct (main_drawAll_frame (Main.with_canvas g (w, h)))
      as (D1 & D2 & D3 & D4 & _ & _ & _ & _ & D9).
    rewrite D1, D3. unfold pending_ticks. rewrite D4. done.
Qed.

Lemma run_frame es g :
  Maze_wf (Main.g_maze g) →
  ∃ g', Main.run hypot sin g es = Some (Ok g') ∧
    Maze_wf (Main.g_maze g') ∧
    (main_layout_fresh g → main_layout_fresh g') ∧
    (Main.g_running g = true → pending_ticks g = 1%nat →
     Main.g_running g' = true ∧ pending_ticks g' = 1%nat).
Proof.
  revert g. induction es as [|e es IH]; intros g Hwf.
  - exists g. done.
  - destruct (handle_frame g e Hwf) as (g1 & Hh & H1 & H2 & H3).
    destruct (IH g1 H1) as (g' & Hrun & R1 & R2 & R3).
    exists g'. simpl. rewrite Hh. split; [exact Hrun|].
    split; [done|]. split; [auto|].
    intros Hr Hp. destruct (H3 Hr Hp). auto.
Qed.

(** X14.  The game never reads a cell that the grid does not hold: in a
    game whose maze holds its [cols * rows] cells, every sequence of
    frames, pointer events, resizes and restarts runs to its end and no
    call of [canMove] or [generate] throws; the layout stays the one of
    the current maze and canvas. *)
Theorem main_run_total (g : Main.Game) (es : list Main.Event) :
  Maze_wf (Main.g_maze g) →
  ∃ g', Main.run hypot sin g es = Some (Ok g') ∧
    Maze_wf (Main.g_maze g') ∧
    (main_layout_fresh g → main_layout_fresh g').
Proof.
  intros Hwf.
  destruct (run_frame es g Hwf) as (g' & Hrun & H1 & H2 & _).
  by exists g'.
Qed.

(** X15.  One game loop.  After the first [startGame] exactly one [tick]
    callback is pending at any time, whatever events follow: [tick]
    requests itself once per frame, and a later [startGame] (a restart
    after the goal, or a new selection) starts no second loop because
    [startLoop] returns when [running] is set. *)
Theorem main_single_loop (age seed : Z) (w h : Q) (es : list Main.Event) :
  ∃ g0 g', Main.startGame None age seed w h = Some (Ok g0) ∧
    Main.run hypot sin g0 es = Some (Ok g') ∧
    Main.g_running g' = true ∧ pending_ticks g' = 1%nat.
Proof.
  destruct (startGame_frame None age seed w h) as (g0 & Hs & S1 & _ & S3 & S4).
  destruct (run_frame es g0 S1) as (g' & Hrun & _ & _ & R3).
  exists g0, g'. split; [done|]. split; [done|]. by apply R3.
Qed.

(** X16.  In main.js the goal event fires at most once in a level: along
    a run of events without a call of [startGame] the number of calls of
    [onGoal] grows by one at most, and not at all once [won] is set. *)
Theorem main_goal_once (g : Main.Game) (es : list Main.Event) (g' : Main.Game) :
  same_level es → Main.run hypot sin g es = Some (Ok g') →
  (Main.g_goals g' ≤ Main.g_goals g + 1)%nat ∧
  (Main.g_won g = true → Main.g_goals g' = Main.g_goals g).
Proof.
  intros Hes Hrun.
  destruct (run_latch hypot sin es g g' Hes Hrun) as [Hmono Hbud].
  unfold goal_budget in Hbud. split.
  - destruct (Main.g_won g), (Main.g_won g'); lia.
  - intros Hw. rewrite Hw in Hbud. destruct (Main.g_won g'); lia.
Qed.

End MainLoop.

(** ** The hurt flash *)

Lemma drawAll_hurtFlash g :
  Main.hurtFlash (Main.g_player (Main.drawAll g))
  = if 0 <? Main.hurtFlash (Main.g_player g)
    then Main.hurtFlash (Main.g_player g) - 1
    else Main.hurtFlash (Main.g_player g).
Proof. unfold Main.drawAll. simpl. by destruct (0 <? _). Qed.

Lemma drawAll_iter_hurtFlash k g :
  0 ≤ Main.hurtFlash (Main.g_player g) →
  Main.hurtFlash (Main.g_player (Nat.iter k Main.drawAll g))
  = Z.max 0 (Main.hurtFlash (Main.g_player g) - Z.of_nat k).
Proof.
  intros H0. induction k as [|k IH].
  - simpl. lia.
  - rewrite Nat.iter_succ, drawAll_hurtFlash, IH.
    destruct (0 <? _) eqn:E; lia.
Qed.

(** X17.  The hurt flash lasts eight drawings.  [hurt] sets
    [player.hurtFlash] to 8 and draws once; each later [drawAll] counts it
    down by one while it is positive, so after [k] more drawings it is
    [max 0 (7 - k)]: positive for the next seven drawings, and 0 from then
    on, never negative. *)
Theorem hurt_flash_countdown (g : Main.Game) (now : Q) (k : nat) :
  Main.hurtFlash (Main.g_player (Nat.iter k Main.drawAll (Main.hurt g now)))
  = Z.max 0 (7 - Z.of_nat k).
Proof.
  assert (H7 : Main.hurtFlash (Main.g_player (Main.hurt g now)) = 7).
  { unfold Main.hurt. rewrite drawAll_hurtFlash. done. }
  rewrite drawAll_iter_hurtFlash by lia. by rewrite H7.
Qed.

(** ** Moves along one axis *)

Lemma canTraverse_same_point m mt cx cy x' y' ax ay :
  cellFromPoint m mt cx cy = Some (Int ax, Int ay) →
  (x' == cx)%Q → (y' == cy)%Q →
  canTraverse m mt cx cy x' y' = Ok true.
Proof.
  intros Ha Hx Hy.
  assert (Hb : cellFromPoint m mt x' y' = Some (Int ax, Int ay))
    by (by rewrite (cellFromPoint_Qeq m mt x' y' cx cy Hx Hy)).
  rewrite (canTraverse_cells m mt cx cy x' y' ax ay ax ay Ha Hb).
  by rewrite !Z.eqb_refl.
Qed.

Lemma canTraverse_Qeq m mt x1 y1 x2 y2 x2' y2' :
  (x2 == x2')%Q → (y2 == y2')%Q →
  canTraverse m mt x1 y1 x2 y2 = canTraverse m mt x1 y1 x2' y2'.
Proof.
  intros Hx Hy. unfold canTraverse.
  by rewrite (cellFromPoint_Qeq m mt x2 y2 x2' y2' Hx Hy).
Qed.

(** X21.  A move along one axis gives no hurt feedback.  From a position
    in a cell of the grid, [attemptMove] with [dx = 0] or with [dy = 0]
    never calls [maybeHurt]: when the move itself is refused, the slide
    along the other axis is a move by 0, which stays in the cell and
    passes, so the player stays where it is and the state is unchanged.
    Only a move that is blocked along both axes hurts. *)
Theorem attemptMove_axis_silent (g : Main.Game) (now cx cy d : Q) (ax ay : Z) :
  Maze_wf (Main.g_maze g) →
  cellFromPoint (Main.g_maze g) (Main.g_metrics g) cx cy = Some (Int ax, Int ay) →
  (∃ pos, Main.attemptMove g now cx cy 0 d = Ok (pos, g) ∧
          (pos = ((cx + 0)%Q, (cy + d)%Q) ∨ pos = ((cx + 0)%Q, cy))) ∧
  (∃ pos, Main.attemptMove g now cx cy d 0 = Ok (pos, g) ∧
          (pos = ((cx + d)%Q, (cy + 0)%Q) ∨ pos = (cx, (cy + 0)%Q))).
Proof.
  intros Hwf Ha. split; unfold Main.attemptMove.
  - destruct (canTraverse_total (Main.g_maze g) (Main.g_metrics g)
                cx cy (cx + 0)%Q (cy + d)%Q Hwf) as [[] ->]; simpl.
    + eexists. split; [done | by left].
    + rewrite (canTraverse_same_point _ _ cx cy (cx + 0)%Q cy ax ay Ha);
        [| ring | reflexivity].
      simpl. eexists. split; [done | by right].
  - destruct (canTraverse_total (Main.g_maze g) (Main.g_metrics g)
                cx cy (cx + d)%Q (cy + 0)%Q Hwf) as [[] Hfull];
      rewrite Hfull; simpl.
    + eexists. split; [done | by left].
    + rewrite <- (canTraverse_Qeq _ _ cx cy (cx + d)%Q (cy + 0)%Q (cx + d)%Q cy);
        [| reflexivity | ring].
      rewrite Hfull. simpl.
      rewrite (canTraverse_same_point _ _ cx cy cx (cy + 0)%Q ax ay Ha);
        [| reflexivity | ring].
      simpl. eexists. split; [done | by right].
Qed.

(** * Further properties of the hop version of main.js *)

(** ** A move that canMove allows stays in the grid *)

Lemma canMove_true_in_grid m x y dir :
  in_grid m x y → canMove m x y dir = Ok true →
  in_grid m (x + (if dir =? 1 then 1 else if dir =? 3 then -1 else 0))
            (y + (if dir =? 2 then 1 else if dir =? 0 then -1 else 0)).
Proof.
  intros Hin. unfold canMove.
  destruct (grid_at m (idx m x y)) as [c|]; [|done].
  destruct (negb (isOpen c dir)); [done|].
  unfold in_grid in *.
  destruct (dir =? 0) eqn:E0; simpl.
  { apply Z.eqb_eq in E0. subst dir.
    destruct (y <=? 0) eqn:Ey; [done|]. intros _. simpl. lia. }
  destruct (dir =? 1) eqn:E1; simpl.
  { apply Z.eqb_eq in E1. subst dir.
    destruct (x >=? cols m - 1) eqn:Ex; [done|]. intros _. simpl. lia. }
  destruct (dir =? 2) eqn:E2; simpl.
  { apply Z.eqb_eq in E2. subst dir.
    destruct (y >=? rows m - 1) eqn:Ey; [done|]. intros _. simpl. lia. }
  destruct (dir =? 3) eqn:E3; simpl.
  { apply Z.eqb_eq in E3. subst dir.
    destruct (x <=? 0) eqn:Ex; [done|]. intros _. simpl. lia. }
  intros _. lia.
Qed.

(** ** What the steps of the hop version leave unchanged *)

Lemma hop_drawAll_frame g :
  Hop.g_maze (Hop.drawAll g) = Hop.g_maze g ∧
  Hop.cellX (Hop.g_player (Hop.drawAll g)) = Hop.cellX (Hop.g_player g) ∧
  Hop.cellY (Hop.g_player (Hop.drawAll g)) = Hop.cellY (Hop.g_player g).
Proof. unfold Hop.drawAll. by destruct (0 <? _). Qed.

Lemma hop_drawAll_on_grid g : hop_on_grid g → hop_on_grid (Hop.drawAll g).
Proof.
  unfold hop_on_grid. destruct (hop_drawAll_frame g) as (-> & -> & ->). done.
Qed.

Lemma hop_maybeHurt_on_grid g now :
  hop_on_grid g → hop_on_grid (Hop.maybeHurt g now).
Proof.
  intros H. unfold Hop.maybeHurt. destruct (Qltb 220 _); [|done].
  unfold Hop.hurt. by apply hop_drawAll_on_grid.
Qed.

Lemma hop_begin_hop_on_grid g dir :
  hop_on_grid g →
  canMove (Hop.g_maze g) (Hop.cellX (Hop.g_player g))
          (Hop.cellY (Hop.g_player g)) dir = Ok true →
  hop_on_grid (Hop.begin_hop g dir).
Proof.
  intros [Hwf Hin] Hcm. unfold Hop.begin_hop.
  destruct (cellCenter _ _ _) as [tx ty].
  split; [exact Hwf|]. simpl.
  by apply canMove_true_in_grid.
Qed.

Lemma hop_tryStepToward_on_grid g now x y :
  hop_on_grid g →
  ∃ g', Hop.tryStepToward g now x y = Ok g' ∧ hop_on_grid g'.
Proof.
  intros Hon. pose proof Hon as [Hwf Hin]. unfold Hop.tryStepToward.
  set (dir := Hop.dominant _ _).
  destruct (canMove_total (Hop.g_maze g) _ _ dir Hwf Hin) as [b Hcm].
  destruct (Hop.moving (Hop.g_player g)); rewrite Hcm; simpl.
  - destruct b; eexists; (split; [done|]); [done|].
    by apply hop_maybeHurt_on_grid.
  - destruct b; simpl; eexists; (split; [done|]).
    + apply (hop_begin_hop_on_grid g dir Hon) in Hcm.
      unfold Hop.animate. exact Hcm.
    + by apply hop_maybeHurt_on_grid.
Qed.

Section HopLoop.

Variable hypot : Q → Q → Q.
Variable sin : Q → Q.

Lemma hop_step_on_grid g speed :
  hop_on_grid g →
  ∃ g', Hop.step hypot g speed = Ok g' ∧ hop_on_grid g'.
Proof.
  intros Hon. unfold Hop.step.
  destruct (Qle_bool _ _).
  - match goal with |- context [Hop.drawAll ?x] =>
      assert (H1 : hop_on_grid (Hop.drawAll x))
        by (apply hop_drawAll_on_grid; exact Hon);
      set (g1 := Hop.drawAll x) in * end.
    cbv zeta.
    set (g2 := if _ && _ then Hop.onGoal g1 else g1).
    assert (H2 : hop_on_grid g2) by (unfold g2; by destruct (_ && _)).
    clearbody g2. clear H1 g1.
    destruct (negb _ && _); [|by exists g2].
    set (dir := match Hop.g_queuedDir g2 with Some d => _ | None => _ end).
    assert (H3 : hop_on_grid (Hop.with_queuedDir g2 None)) by exact H2.
    destruct dir as [d|]; [|by eexists].
    pose proof H2 as [Hwf Hin].
    destruct (canMove_total (Hop.g_maze g2) _ _ d Hwf Hin) as [b Hcm].
    simpl. rewrite Hcm. simpl.
    destruct b; eexists; (split; [done|]); [|done].
    exact (hop_begin_hop_on_grid (Hop.with_queuedDir g2 None) d H3 Hcm).
  - eexists. split; [done|].
    match goal with |- context [Hop.drawAll ?x] =>
      exact (hop_drawAll_on_grid x Hon) end.
Qed.

Lemma hop_jump_step_on_grid g t startY :
  hop_on_grid g → hop_on_grid (Hop.jump_step sin g t startY).
Proof.
  intros Hon. unfold Hop.jump_step.
  match goal with |- context [Hop.drawAll ?x] =>
    pose proof (hop_drawAll_on_grid x Hon) as H1;
    set (g1 := Hop.drawAll x) in * end.
  by destruct (_ <? 22).
Qed.

Lemma hop_callbacks_on_grid (cbs : list (Z * Hop.Callback)) g :
  hop_on_grid g →
  ∃ g', foldl (λ r cb, g ← r; Hop.run_callback hypot sin g (snd cb)) (Ok g) cbs
        = Ok g' ∧ hop_on_grid g'.
Proof.
  revert g. induction cbs as [|[i cb] cbs IH]; intros g Hon.
  - by exists g.
  - assert (∃ g1, Hop.run_callback hypot sin g cb = Ok g1 ∧ hop_on_grid g1)
      as (g1 & Hcb & H1).
    { destruct cb as [speed | t startY]; simpl.
      - by apply hop_step_on_grid.
      - eexists. split; [done|]. by apply hop_jump_step_on_grid. }
    destruct (IH g1 H1) as (g' & Hfold & H').
    exists g'. split; [|exact H']. simpl.
    change (foldl (λ r cb, g ← r; Hop.run_callback hypot sin g (snd cb))
              (Hop.run_callback hypot sin g cb) cbs = Ok g').
    by rewrite Hcb.
Qed.

Lemma hop_startGame_on_grid prev age seed w h :
  ∃ g, Hop.startGame prev age seed w h = Some (Ok g) ∧ hop_on_grid g.
Proof.
  unfold Hop.startGame.
  destruct (level_maze age seed) as (m & -> & Hc & Hr & Hwf & _).
  destruct (cellCenter _ _ _) as [px py].
  eexists. split; [done|].
  apply hop_drawAll_on_grid. split.
  - by destruct prev.
  - simpl. unfold in_grid. destruct Hwf as (H1 & H2 & _).
    destruct prev; simpl; lia.
Qed.

Lemma hop_handle_on_grid g e :
  hop_on_grid g →
  ∃ g', Hop.handle hypot sin g e = Some (Ok g') ∧ hop_on_grid g'.
Proof.
  intros Hon. destruct e; simpl.
  - apply hop_startGame_on_grid.
  - unfold Hop.frame.
    match goal with |- context [foldl _ (Ok ?x) _] =>
      destruct (hop_callbacks_on_grid (Hop.g_raf g) x Hon) as (g' & -> & H') end.
    by exists g'.
  - eexists. split; [done|]. unfold Hop.onStart.
    by destruct (Hop.withinPlayer _ _ _).
  - unfold Hop.onMove. destruct (negb _); [by exists g|].
    destruct (hop_tryStepToward_on_grid
                (Hop.with_drag g (Hop.g_dragging g) (Some (x, y))) now x y Hon)
      as (g' & -> & H').
    by exists g'.
  - eexists. split; [done|]. done.
  - eexists. split; [done|]. unfold Hop.fitCanvas.
    by apply (hop_drawAll_on_grid (Hop.with_canvas g (w, h))).
Qed.

(** X18.  The hop version keeps the player on the grid and never reads
    a cell that the grid does not hold.  From a game whose maze holds its
    cells and whose player stands on a cell of the grid, every sequence
    of frames, pointer events, resizes and restarts runs to its end
    without a throwing [canMove], and the player's cell is a cell of the
    grid afterwards: a hop begins only where [canMove] allows it, and
    [canMove] refuses the moves that leave the grid. *)
Theorem hop_run_on_grid (g : Hop.Game) (es : list Hop.Event) :
  hop_on_grid g →
  ∃ g', Hop.run hypot sin g es = Some (Ok g') ∧ hop_on_grid g'.
Proof.
  revert g. induction es as [|e es IH]; intros g Hon.
  - by exists g.
  - destruct (hop_handle_on_grid g e Hon) as (g1 & Hh & H1).
    destruct (IH g1 H1) as (g' & Hrun & H').
    exists g'. simpl. by rewrite Hh.
Qed.

End HopLoop.

(** ** A new level *)

Lemma hop_drawAll_fields g :
  Hop.g_maze (Hop.drawAll g) = Hop.g_maze g ∧
  Hop.g_canvas (Hop.drawAll g) = Hop.g_canvas g ∧
  Hop.g_metrics (Hop.drawAll g)
  = drawMaze (Hop.g_maze g) (fst (Hop.g_canvas g)) (snd (Hop.g_canvas g)) ∧
  Hop.cellX (Hop.g_player (Hop.drawAll g)) = Hop.cellX (Hop.g_player g) ∧
  Hop.cellY (Hop.g_player (Hop.drawAll g)) = Hop.cellY (Hop.g_player g) ∧
  Hop.pl_x (Hop.g_player (Hop.drawAll g)) = Hop.pl_x (Hop.g_player g) ∧
  Hop.pl_y (Hop.g_player (Hop.drawAll g)) = Hop.pl_y (Hop.g_player g) ∧
  Hop.targetX (Hop.g_player (Hop.drawAll g)) = Hop.targetX (Hop.g_player g) ∧
  Hop.targetY (Hop.g_player (Hop.drawAll g)) = Hop.targetY (Hop.g_player g).
Proof. unfold Hop.drawAll. by destruct (0 <? _). Qed.

Lemma goal_reachable m s :
  Maze_wf m → perfect m →
  reachable (mkMaze (cols m) (rows m) (grid m) s
                    (mkCoord (cols m - 1) (rows m - 1)))
            origin (mkCoord (cols m - 1) (rows m - 1)).
Proof.
  intros (Hc & Hr & _) (_ & Hreach & _).
  apply (Hreach (mkCoord (cols m - 1) (rows m - 1))).
  unfold in_maze, in_grid. simpl. lia.
Qed.

(** X19.  [startGame] always succeeds and sets up a level that can be
    solved, in both versions of main.js: the maze has the size that
    [difficultyForAge] gives for the age, it is perfect, the goal cell is
    the corner opposite to the start cell (0,0) and can be reached from it
    through open passages; the layout is the one of the canvas, and the
    player is placed on the start cell, at its centre.  In main.js the latch
    [won] is cleared and the loop runs. *)
Theorem startGame_level (age seed : Z) (w h : Q) :
  (∀ prev, ∃ g, Main.startGame prev age seed w h = Some (Ok g) ∧
     let m := Main.g_maze g in
     let p := Main.g_player g in
     cols m = difficultyForAge age ∧ rows m = difficultyForAge age ∧
     perfect m ∧
     start m = mkCoord 0 0 ∧ goal m = mkCoord (cols m - 1) (rows m - 1) ∧
     reachable m (start m) (goal m) ∧
     Main.g_metrics g = drawMaze m w h ∧
     Main.cellX p = Int 0 ∧ Main.cellY p = Int 0 ∧
     (Main.pl_x p, Main.pl_y p) = cellCenter (Main.g_metrics g) 0 0 ∧
     Main.g_won g = false ∧ Main.g_running g = true) ∧
  (∀ prev, ∃ g, Hop.startGame prev age seed w h = Some (Ok g) ∧
     let m := Hop.g_maze g in
     let p := Hop.g_player g in
     cols m = difficultyForAge age ∧ rows m = difficultyForAge age ∧
     perfect m ∧
     start m = mkCoord 0 0 ∧ goal m = mkCoord (cols m - 1) (rows m - 1) ∧
     reachable m (start m) (goal m) ∧
     Hop.g_metrics g = drawMaze m w h ∧
     Hop.cellX p = 0 ∧ Hop.cellY p = 0 ∧
     (Hop.pl_x p, Hop.pl_y p) = cellCenter (Hop.g_metrics g) 0 0 ∧
     (Hop.targetX p, Hop.targetY p) = cellCenter (Hop.g_metrics g) 0 0).
Proof.
  destruct (level_maze age seed) as (m & Hgen & Hc & Hr & Hwf & Hperf).
  pose proof (goal_reachable m (mkCoord 0 0) Hwf Hperf) as Hgoal.
  split; intros prev.
  - unfold Main.startGame. rewrite Hgen.
    set (m' := mkMaze (cols m) (rows m) (grid m) _ _) in *.
    destruct (cellCenter _ _ _) as [px py] eqn:Hcc.
    eexists. split; [done|]. cbv zeta.
    match goal with |- context [Main.drawAll ?x] =>
      destruct (main_drawAll_frame x)
        as (D1 & D2 & D3 & D4 & D5 & D6 & D7 & D8 & D9);
      destruct (drawAll_latch x) as [Hwon _];
      set (gd := Main.drawAll x) in * end.
    simpl in Hwon.
    assert (Hm : Main.g_maze gd = m') by (rewrite D1; by destruct prev).
    assert (Hcv : Main.g_canvas gd = (w, h)).
    { rewrite D2. destruct prev as [g0|]; simpl; [|done].
      unfold Main.fitCanvas.
      by destruct (main_drawAll_frame (Main.with_canvas g0 (w, h)))
        as (_ & -> & _). }
    assert (Hmt : Main.g_metrics gd = drawMaze m' w h).
    { unfold main_layout_fresh in D9. by rewrite D9, Hm, Hcv. }
    assert (Hl : Main.g_maze (Main.startLoop gd) = Main.g_maze gd ∧
                 Main.g_metrics (Main.startLoop gd) = Main.g_metrics gd ∧
                 Main.g_player (Main.startLoop gd) = Main.g_player gd ∧
                 Main.g_won (Main.startLoop gd) = Main.g_won gd ∧
                 Main.g_running (Main.startLoop gd) = true).
    { unfold Main.startLoop. by destruct (Main.g_running gd) eqn:E. }
    destruct Hl as (L1 & L2 & L3 & L4 & L5).
    rewrite L1, L2, L3, L4, L5, Hm, Hmt, Hwon, D5, D6, D7, D8.
    split; [exact Hc|]. split; [exact Hr|]. split; [exact Hperf|].
    split; [done|]. split; [done|]. split; [exact Hgoal|].
    split; [done|]. split; [done|]. split; [done|].
    split; [|done]. simpl. by rewrite <- Hcc.
  - unfold Hop.startGame. rewrite Hgen.
    set (m' := mkMaze (cols m) (rows m) (grid m) _ _) in *.
    destruct (cellCenter _ _ _) as [px py] eqn:Hcc.
    eexists. split; [done|]. cbv zeta.
    match goal with |- context [Hop.drawAll ?x] =>
      destruct (hop_drawAll_fields x)
        as (E1 & Ecv & E2 & E3 & E4 & E5 & E6 & E7 & E8);
      set (gd := Hop.drawAll x) in * end.
    assert (Hm : Hop.g_maze gd = m') by (rewrite E1; by destruct prev).
    assert (Hcv : Hop.g_canvas gd = (w, h)).
    { rewrite Ecv. destruct prev as [g0|]; simpl; [|done].
      unfold Hop.fitCanvas.
      by destruct (hop_drawAll_fields (Hop.with_canvas g0 (w, h)))
        as (_ & -> & _). }
    rewrite <- Ecv in E2. rewrite <- E1 in E2. rewrite Hm, Hcv in E2.
    rewrite Hm, E2, E3, E4, E5, E6, E7, E8.
    split; [exact Hc|]. split; [exact Hr|]. split; [exact Hperf|].
    split; [done|]. split; [done|]. split; [exact Hgoal|].
    split; [done|]. split; [done|]. split; [done|].
    simpl in Hcc |- *. by rewrite <- Hcc.
Qed.

(** ** The hurt events along a game *)

(** X20.  The hurt feedback is rate-limited along whole games, in both
    versions of main.js.  Start from a game in which no hurt event has
    fired, and run any sequence of frames, pointer events, resizes and
    restarts, with any timestamps: any two hurt events of the run, at times
    [t1 < t2], are more than 220 ms apart.  Every path to [hurt] goes
    through [maybeHurt]: from [tick] by [attemptMove] in main.js, from
    [onMove] by [tryStepToward] in the hop version. *)
Theorem game_hurts_spaced (hypot : Q → Q → Q) (sin : Q → Q) :
  (∀ (g : Main.Game) es g' i j t1 t2,
     Main.g_hurts g = [] → Main.run hypot sin g es = Some (Ok g') →
     Main.g_hurts g' !! i = Some t1 → Main.g_hurts g' !! j = Some t2 →
     (t1 < t2)%Q → (220 < t2 - t1)%Q) ∧
  (∀ (g : Hop.Game) es g' i j t1 t2,
     Hop.g_hurts g = [] → Hop.run hypot sin g es = Some (Ok g') →
     Hop.g_hurts g' !! i = Some t1 → Hop.g_hurts g' !! j = Some t2 →
     (t1 < t2)%Q → (220 < t2 - t1)%Q).
Proof.
  split; intros g es g' i j t1 t2 H0 Hrun Hi Hj Hlt.
  - apply (spaced_lookup (Main.g_hurts g') i j t1 t2); try done.
    apply (main_run_hurts hypot sin es g g' Hrun).
    unfold hurt_inv, main_hurt_view. simpl. rewrite H0. split; [done|].
    intros t Ht. by apply elem_of_nil in Ht.
  - apply (spaced_lookup (Hop.g_hurts g') i j t1 t2); try done.
    apply (hop_run_hurts hypot sin es g g' Hrun).
    unfold hurt_inv, hop_hurt_view. simpl. rewrite H0. split; [done|].
    intros t Ht. by apply elem_of_nil in Ht.
Qed.

(** ** The further statements on concrete inputs *)

Lemma Maze_new_cells_witness :
  1 ≤ 3 ∧ 1 ≤ 2 ∧
  ∃ m, Maze_new 3 2 = Ok m ∧ cols m = 3 ∧ rows m = 2 ∧
       Z.of_nat (length (grid m)) = 3 * 2 ∧
       start m = mkCoord 0 0 ∧ goal m = mkCoord (3 - 1) (2 - 1) ∧
       ∀ x y, 0 ≤ x < 3 → 0 ≤ y < 2 →
         grid_at m (idx m x y) = Some (Cell_new x y) ∧
         ∀ dir, canMove m x y dir = Ok false.
Proof.
  assert (H1 : 1 ≤ 3) by lia. assert (H2 : 1 ≤ 2) by lia.
  split; [exact H1|]. split; [exact H2|].
  exact (Maze_new_cells 3 2 H1 H2).
Defined.

Lemma neighbors_exact_witness :
  in_grid sample_maze 0 2 ∧
  NoDup (neighbors sample_maze 0 2) ∧
  ∀ n, n ∈ neighbors sample_maze 0 2 ↔
       ∃ d, 0 ≤ d < 4 ∧ n = mkNbr (step_x 0 d) (step_y 2 d) d ∧
            in_grid sample_maze (step_x 0 d) (step_y 2 d).
Proof.
  assert (H : in_grid sample_maze 0 2) by evaluated.
  split; [exact H|]. exact (neighbors_exact sample_maze 0 2 H).
Defined.

Lemma neighbors_symmetric_witness :
  in_grid sample_maze 0 2 ∧
  mkNbr 1 2 1 ∈ neighbors sample_maze 0 2 ∧
  mkNbr 0 2 (Z.rem (1 + 2) 4) ∈ neighbors sample_maze 1 2.
Proof.
  assert (H : in_grid sample_maze 0 2) by evaluated.
  assert (Hn : mkNbr 1 2 1 ∈ neighbors sample_maze 0 2).
  { vm_compute. apply list_elem_of_further, list_elem_of_here. }
  split; [exact H|]. split; [exact Hn|].
  exact (neighbors_symmetric sample_maze 0 2 (mkNbr 1 2 1) H Hn).
Defined.

Lemma rand_index_in_range_witness :
  (0 < 3)%nat ∧
  0 ≤ snd (mulberry32_next 42) < 4294967296 ∧
  (rand_index (snd (mulberry32_next 42)) 3 < 3)%nat.
Proof.
  assert (H : (0 < 3)%nat) by lia.
  split; [exact H|]. exact (rand_index_in_range 42 3 H).
Defined.

Lemma generate_iterations_witness :
  1 ≤ 5 ∧ 1 ≤ 5 ∧
  ∃ m0, Maze_new 5 5 = Ok m0 ∧
    Z.of_nat (length (generate_states 60 (generate_init m0 42)))
    = Z.min (Z.of_nat 60) (2 * (5 * 5) - 1) ∧
    (generate_with 60 5 5 42 = None ↔ Z.of_nat 60 < 2 * (5 * 5) - 1).
Proof.
  assert (H1 : 1 ≤ 5) by lia.
  split; [exact H1|]. split; [exact H1|].
  exact (generate_iterations 5 5 42 60 H1 H1).
Defined.

Lemma generate_canMove_witness :
  1 ≤ 5 ∧ 1 ≤ 5 ∧
  ∃ m, generate 5 5 42 = Some (Ok m) ∧
    ∀ x y d, in_grid m x y → 0 ≤ d < 4 →
      canMove m x y d = Ok (opened m x y d) ∧
      (opened m x y d = true → in_grid m (step_x x d) (step_y y d)).
Proof.
  assert (H1 : 1 ≤ 5) by lia.
  split; [exact H1|]. split; [exact H1|].
  exact (generate_canMove 5 5 42 H1 H1).
Defined.

Lemma generate_canMove_symmetric_witness :
  1 ≤ 5 ∧ 1 ≤ 5 ∧
  ∃ m, generate 5 5 42 = Some (Ok m) ∧
    ∀ x y d, in_grid m x y → 0 ≤ d < 4 →
      canMove m x y d = Ok true →
      in_grid m (step_x x d) (step_y y d) ∧
      canMove m (step_x x d) (step_y y d) ((d + 2) mod 4) = Ok true.
Proof.
  assert (H1 : 1 ≤ 5) by lia.
  split; [exact H1|]. split; [exact H1|].
  exact (generate_canMove_symmetric 5 5 42 H1 H1).
Defined.

Lemma generate_without_cells_witness :
  (0 < 1)%nat ∧ 2 ≤ 5 ∧
  generate_with 1 5 0 42 = Some Throw ∧
  generate_with 1 0 5 42
  = Some (Ok (mkMaze 0 5 [] (mkCoord 0 0) (mkCoord (-1) (5 - 1)))).
Proof.
  assert (H1 : (0 < 1)%nat) by lia. assert (H2 : 2 ≤ 5) by lia.
  split; [exact H1|]. split; [exact H2|].
  exact (generate_without_cells 1 5 42 H1 H2).
Defined.

Lemma drawMaze_margins_witness :
  0 < cols sample_maze ∧ 0 < rows sample_maze ∧
  (32 <= 600)%Q ∧ (32 <= 400)%Q ∧
  let mt := drawMaze sample_maze 600 400 in
  let right := (originX mt + cellSize mt * QofZ (cols sample_maze))%Q in
  let bottom := (originY mt + cellSize mt * QofZ (rows sample_maze))%Q in
  (0 <= cellSize mt)%Q ∧
  (originX mt + right == 600)%Q ∧ (originY mt + bottom == 400)%Q ∧
  (16 <= originX mt)%Q ∧ (right <= 600 - 16)%Q ∧
  (16 <= originY mt)%Q ∧ (bottom <= 400 - 16)%Q.
Proof.
  assert (H1 : 0 < cols sample_maze) by (vm_compute; reflexivity).
  assert (H2 : 0 < rows sample_maze) by (vm_compute; reflexivity).
  assert (H3 : (32 <= 600)%Q) by (vm_compute; discriminate).
  assert (H4 : (32 <= 400)%Q) by (vm_compute; discriminate).
  split; [exact H1|]. split; [exact H2|]. split; [exact H3|]. split; [exact H4|].
  exact (drawMaze_margins sample_maze 600 400 H1 H2 H3 H4).
Defined.

Lemma cellFromPoint_cell_witness :
  let mt := drawMaze sample_maze 600 600 in
  (0 < cellSize mt)%Q ∧ in_grid sample_maze 2 1 ∧
  (Qabs (340 - fst (cellCenter mt 2 1)) <= (49 # 100) * cellSize mt)%Q ∧
  (Qabs (200 - snd (cellCenter mt 2 1)) <= (49 # 100) * cellSize mt)%Q ∧
  cellFromPoint sample_maze mt 340 200 = Some (Int 2, Int 1).
Proof.
  intros mt.
  assert (H : (0 < cellSize mt)%Q) by (vm_compute; reflexivity).
  assert (Hin : in_grid sample_maze 2 1) by evaluated.
  assert (Hx : (Qabs (340 - fst (cellCenter mt 2 1))
                <= (49 # 100) * cellSize mt)%Q)
    by (vm_compute; intros K; discriminate K).
  assert (Hy : (Qabs (200 - snd (cellCenter mt 2 1))
                <= (49 # 100) * cellSize mt)%Q)
    by (vm_compute; intros K; discriminate K).
  split; [exact H|]. split; [exact Hin|]. split; [exact Hx|]. split; [exact Hy|].
  exact (proj1 (cellFromPoint_cell sample_maze mt 340 200 2 1 H) Hin Hx Hy).
Defined.

Lemma tick_respects_walls_witness :
  let g := Main.with_drag
             (Main.startLoop
                (Main.with_player (Main.loaded sample_maze 600 600)
                   (Main.mkPlayer (Int 0) (Int 0) (fst (hop_pt 0 0))
                      (snd (hop_pt 0 0)) 27 0)))
             true (Some (hop_pt 0 1)) in
  Maze_wf (Main.g_maze g) ∧ main_layout_fresh g ∧ Main.g_running g = true ∧
  cellFromPoint (Main.g_maze g) (Main.g_metrics g)
    (Main.pl_x (Main.g_player g)) (Main.pl_y (Main.g_player g))
  = Some (Int 0, Int 0) ∧
  ∃ g' bx by_,
    Main.tick approx_hypot g 1000 = Ok g' ∧
    cellFromPoint (Main.g_maze g) (Main.g_metrics g)
      (Main.pl_x (Main.g_player g')) (Main.pl_y (Main.g_player g'))
    = Some (Int bx, Int by_) ∧
    Main.cellX (Main.g_player g') = Int bx ∧
    Main.cellY (Main.g_player g') = Int by_ ∧
    same_or_through (Main.g_maze g) (0, 0) (bx, by_).
Proof.
  intros g.
  assert (H1 : Maze_wf (Main.g_maze g)) by evaluated.
  assert (H2 : main_layout_fresh g) by reflexivity.
  assert (H3 : Main.g_running g = true) by reflexivity.
  assert (H4 : cellFromPoint (Main.g_maze g) (Main.g_metrics g)
                 (Main.pl_x (Main.g_player g)) (Main.pl_y (Main.g_player g))
               = Some (Int 0, Int 0)) by (vm_compute; reflexivity).
  split; [exact H1|]. split; [exact H2|]. split; [exact H3|]. split; [exact H4|].
  exact (tick_respects_walls approx_hypot g 1000 0 0 H1 H2 H3 H4).
Defined.

Lemma main_run_total_witness :
  let g := Main.loaded sample_maze 600 600 in
  let es := [Main.EvStartGame 3 42 600 600; Main.EvFrame 16;
             Main.EvPointerStart (fst (hop_pt 0 0)) (snd (hop_pt 0 0));
             Main.EvPointerMove (fst (hop_pt 0 1)) (snd (hop_pt 0 1));
             Main.EvFrame 32; Main.EvResize 500 400; Main.EvPointerEnd] in
  Maze_wf (Main.g_maze g) ∧
  ∃ g', Main.run approx_hypot approx_sin g es = Some (Ok g') ∧
    Maze_wf (Main.g_maze g') ∧
    (main_layout_fresh g → main_layout_fresh g').
Proof.
  intros g es.
  assert (H1 : Maze_wf (Main.g_maze g)) by evaluated.
  split; [exact H1|].
  exact (main_run_total approx_hypot approx_sin g es H1).
Defined.

Lemma main_goal_once_witness :
  Main.startGame None 3 42 600 600 = Some (Ok main_game) ∧
  same_level (main_to_goal ++ main_stay) ∧
  Main.g_goals main_game = 0%nat ∧ Main.g_won main_game = false ∧
  ∃ g1 g2,
    Main.run approx_hypot approx_sin main_game main_to_goal = Some (Ok g1) ∧
    Main.cellX (Main.g_player g1) = Int 4 ∧ Main.cellY (Main.g_player g1) = Int 4 ∧
    Main.g_goals g1 = 1%nat ∧ Main.g_won g1 = true ∧
    Main.run approx_hypot approx_sin main_game (main_to_goal ++ main_stay)
      = Some (Ok g2) ∧
    Main.cellX (Main.g_player g2) = Int 4 ∧ Main.cellY (Main.g_player g2) = Int 4 ∧
    Main.g_goals g2 = 1%nat ∧
    (Main.g_goals g2 ≤ Main.g_goals main_game + 1)%nat.
Proof.
  assert (H0 : Main.startGame None 3 42 600 600 = Some (Ok main_game))
    by (vm_compute; reflexivity).
  assert (Hes : same_level (main_to_goal ++ main_stay))
    by (vm_compute; reflexivity).
  assert (F1 : match Main.run approx_hypot approx_sin main_game main_to_goal with
               | Some (Ok g) =>
                   Main.cellX (Main.g_player g) = Int 4 ∧
                   Main.cellY (Main.g_player g) = Int 4 ∧
                   Main.g_goals g = 1%nat ∧ Main.g_won g = true
               | _ => False
               end) by (vm_compute; repeat split; reflexivity).
  assert (F2 : match Main.run approx_hypot approx_sin main_game
                       (main_to_goal ++ main_stay) with
               | Some (Ok g) =>
                   Main.cellX (Main.g_player g) = Int 4 ∧
                   Main.cellY (Main.g_player g) = Int 4 ∧
                   Main.g_goals g = 1%nat
               | _ => False
               end) by (vm_compute; repeat split; reflexivity).
  destruct (Main.run approx_hypot approx_sin main_game main_to_goal)
    as [[g1|]|]; [|destruct F1|destruct F1].
  destruct (Main.run approx_hypot approx_sin main_game (main_to_goal ++ main_stay))
    as [[g2|]|] eqn:H2; [|destruct F2|destruct F2].
  destruct F1 as (A1 & A2 & A3 & A4). destruct F2 as (B1 & B2 & B3).
  split; [exact H0|]. split; [exact Hes|].
  split; [reflexivity|]. split; [reflexivity|].
  exists g1, g2.
  split; [reflexivity|]. split; [exact A1|]. split; [exact A2|].
  split; [exact A3|]. split; [exact A4|].
  split; [reflexivity|]. split; [exact B1|]. split; [exact B2|].
  split; [exact B3|].
  exact (proj1 (main_goal_once approx_hypot approx_sin main_game
                  (main_to_goal ++ main_stay) g2 Hes H2)).
Defined.

Lemma hop_run_on_grid_witness :
  let g := Hop.loaded sample_maze 600 600 in
  let es := [Hop.EvStartGame 3 42 600 600;
             Hop.EvPointerStart (fst (hop_pt 0 0)) (snd (hop_pt 0 0));
             Hop.EvPointerMove 0 (fst (hop_pt 0 1)) (snd (hop_pt 0 1));
             Hop.EvFrame; Hop.EvFrame] in
  hop_on_grid g ∧
  ∃ g', Hop.run approx_hypot approx_sin g es = Some (Ok g') ∧ hop_on_grid g'.
Proof.
  intros g es.
  assert (H1 : hop_on_grid g) by evaluated.
  split; [exact H1|].
  exact (hop_run_on_grid approx_hypot approx_sin g es H1).
Defined.

Lemma game_hurts_spaced_witness :
  let g := Main.with_drag
             (Main.startLoop
                (Main.with_player (Main.loaded sample_maze 600 600)
                   (Main.mkPlayer (Int 0) (Int 0) 17 17 27 0)))
             true (Some ((-100)%Q, (-100)%Q)) in
  let es := [Main.EvFrame 300; Main.EvFrame 400; Main.EvFrame 600] in
  Main.g_hurts g = [] ∧
  ∃ g', Main.run approx_hypot approx_sin g es = Some (Ok g') ∧
    Main.g_hurts g' !! 1%nat = Some 300%Q ∧
    Main.g_hurts g' !! 0%nat = Some 600%Q ∧
    (300 < 600)%Q ∧ (220 < 600 - 300)%Q.
Proof.
  intros g es.
  assert (H0 : Main.g_hurts g = []) by reflexivity.
  assert (H3 : (300 < 600)%Q) by reflexivity.
  split; [exact H0|].
  destruct (Main.run approx_hypot approx_sin g es) as [[g'|]|] eqn:Hrun.
  - exists g'. split; [reflexivity|].
    assert (H1 : Main.g_hurts g' !! 1%nat = Some 300%Q).
    { revert Hrun. vm_compute. intros [= <-]. reflexivity. }
    assert (H2 : Main.g_hurts g' !! 0%nat = Some 600%Q).
    { revert Hrun. vm_compute. intros [= <-]. reflexivity. }
    split; [exact H1|]. split; [exact H2|]. split; [exact H3|].
    exact (proj1 (game_hurts_spaced approx_hypot approx_sin)
             g es g' 1%nat 0%nat 300%Q 600%Q H0 Hrun H1 H2 H3).
  - exfalso. revert Hrun. vm_compute. discriminate.
  - exfalso. revert Hrun. vm_compute. discriminate.
Defined.

Lemma attemptMove_axis_silent_witness :
  let g := Main.loaded sample_maze 600 600 in
  let cx := fst (hop_pt 0 0) in
  let cy := snd (hop_pt 0 0) in
  Maze_wf (Main.g_maze g) ∧
  cellFromPoint (Main.g_maze g) (Main.g_metrics g) cx cy = Some (Int 0, Int 0) ∧
  (∃ pos, Main.attemptMove g 1000 cx cy 0 (-100) = Ok (pos, g) ∧
          (pos = ((cx + 0)%Q, (cy + -100)%Q) ∨ pos = ((cx + 0)%Q, cy))) ∧
  (∃ pos, Main.attemptMove g 1000 cx cy (-100) 0 = Ok (pos, g) ∧
          (pos = ((cx + -100)%Q, (cy + 0)%Q) ∨ pos = (cx, (cy + 0)%Q))).
Proof.
  intros g cx cy.
  assert (H1 : Maze_wf (Main.g_maze g)) by evaluated.
  assert (H2 : cellFromPoint (Main.g_maze g) (Main.g_metrics g) cx cy
               = Some (Int 0, Int 0)) by (vm_compute; reflexivity).
  split; [exact H1|]. split; [exact H2|].
  exact (attemptMove_axis_silent g 1000 cx cy (-100) 0 0 H1 H2).
Defined.

(** * One route between any two cells *)

Section Routes.

Variable m : Maze.
Hypothesis link_sym : ∀ a b, link m a b → link m b a.
Hypothesis acyclic : ∀ c, ¬ cycle m c.

Lemma path_app p q :
  path m (p ++ q) ↔
  path m p ∧ path m q ∧
  ∀ x y, last p = Some x → head q = Some y → link m x y.
Proof.
  induction p as [|a p IH].
  - simpl. split; [|tauto]. intros H. repeat split; done.
  - destruct p as [|b p].
    + simpl. destruct q as [|c q]; simpl.
      * split; [|tauto]. intros _. repeat split; done.
      * split.
        -- intros [H1 H2]. split; [done|]. split; [done|].
           intros x y [= <-] [= <-]. exact H1.
        -- intros (_ & H2 & H3). split; [|done]. by apply H3.
    + change (path m ((a :: b :: p) ++ q))
        with (link m a b ∧ path m ((b :: p) ++ q)).
      change (path m (a :: b :: p)) with (link m a b ∧ path m (b :: p)).
      rewrite IH. change (last (a :: b :: p)) with (last (b :: p)). tauto.
Qed.

Lemma path_tail a p : path m (a :: p) → path m p.
Proof. by intros [_ H]. Qed.

Lemma path_lookup p i a b :
  path m p → p !! i = Some a → p !! S i = Some b → link m a b.
Proof.
  revert i. induction p as [|c p IH]; intros i Hp Ha Hb; [done|].
  destruct i as [|i].
  - simpl in Ha, Hb. injection Ha as ->.
    destruct p as [|d p]; [done|]. simpl in Hb. injection Hb as ->.
    by destruct Hp.
  - apply (IH i); [by apply path_tail in Hp | done | done].
Qed.

Lemma path_reverse p : path m p → path m (reverse p).
Proof.
  induction p as [|a p IH]; intros Hp; [done|].
  rewrite reverse_cons. apply path_app.
  split; [apply IH; by apply path_tail in Hp|]. split; [done|].
  intros x y Hx [= <-]. rewrite last_reverse in Hx.
  destruct p as [|b p]; [done|]. simpl in Hx. injection Hx as ->.
  apply link_sym. by destruct Hp.
Qed.

(** A path that visits no cell twice, has three cells or more and whose
    last cell is linked to its first is a cycle. *)
Lemma closed_path_cycle c :
  (3 ≤ length c)%nat → NoDup c → path m c →
  (∀ x y, last c = Some x → head c = Some y → link m x y) →
  cycle m c.
Proof.
  intros Hlen Hnd Hp Hclose. split; [done|]. split; [done|].
  intros i a b Ha Hb.
  assert (Hi : (i < length c)%nat) by (by apply lookup_lt_Some in Ha).
  rewrite succ_mod in Hb by done.
  destruct (decide (i + 1 = length c)%nat) as [E | E].
  - apply Hclose.
    + rewrite last_lookup. replace (pred (length c)) with i by lia. done.
    + by rewrite head_lookup.
  - apply (path_lookup c i); [done | done |].
    by replace (S i) with (i + 1)%nat by lia.
Qed.

(** The first cell of [p] that lies on [q]. *)
Lemma first_common (p q : list Coord) t :
  t ∈ p → t ∈ q →
  ∃ p1 x p2, p = p1 ++ x :: p2 ∧ x ∈ q ∧ ∀ y, y ∈ p1 → y ∉ q.
Proof.
  induction p as [|a p IH]; intros Hp Hq; [by apply elem_of_nil in Hp|].
  destruct (decide (a ∈ q)) as [Ha | Ha].
  - exists [], a, p. split; [done|]. split; [done|].
    intros y Hy. by apply elem_of_nil in Hy.
  - apply elem_of_cons in Hp as [-> | Hp]; [done|].
    destruct (IH Hp Hq) as (p1 & x & p2 & -> & Hx & Hdis).
    exists (a :: p1), x, p2. split; [done|]. split; [done|].
    intros y Hy. apply elem_of_cons in Hy as [-> | Hy]; [done | by apply Hdis].
Qed.

Lemma last_elem_of (p : list Coord) b : last p = Some b → b ∈ p.
Proof. rewrite last_lookup. apply list_elem_of_lookup_2. Qed.

(** Two routes from [a] that start with different cells and end in the
    same cell would close a cycle. *)
Lemma routes_fork a b1 c1 p q t :
  b1 ≠ c1 →
  NoDup (a :: b1 :: p) → NoDup (a :: c1 :: q) →
  path m (a :: b1 :: p) → path m (a :: c1 :: q) →
  last (b1 :: p) = Some t → last (c1 :: q) = Some t → False.
Proof.
  intros Hne Hndp Hndq Hpp Hpq Hlp Hlq.
  apply NoDup_cons in Hndp as [Hap Hndp]. apply NoDup_cons in Hndq as [Haq Hndq].
  destruct Hpp as [Hab Hpp]. destruct Hpq as [Hac Hpq].
  destruct (first_common (b1 :: p) (c1 :: q) t
              (last_elem_of _ _ Hlp) (last_elem_of _ _ Hlq))
    as (p1 & x & p2 & Ep & Hxq & Hdis).
  apply list_elem_of_split in Hxq as (q1 & q2 & Eq).
  rewrite Ep in Hndp, Hpp, Hap. rewrite Eq in Hndq, Hpq, Haq.
  apply NoDup_app in Hndp as (Hnd1 & Hp1x & Hndx).
  apply NoDup_app in Hndq as (Hndq1 & Hq1x & _).
  apply path_app in Hpp as (Hpp1 & Hppx & Hjp).
  apply path_app in Hpq as (Hpq1 & Hpqx & Hjq).
  apply (acyclic (a :: p1 ++ x :: reverse q1)).
  assert (Hhead : head (p1 ++ x :: reverse q1) = Some b1).
  { destruct p1 as [|y p1]; simpl in *; congruence. }
  assert (Hlast : last (a :: p1 ++ x :: reverse q1) = Some c1).
  { rewrite app_comm_cons, last_app. simpl.
    destruct q1 as [|y q1].
    - simpl in *. congruence.
    - rewrite last_cons, last_reverse. simpl in *.
      injection Eq as -> _. done. }
  assert (Hx1 : x ∉ q1).
  { intros Hx. apply (Hq1x x Hx). apply list_elem_of_here. }
  apply closed_path_cycle.
  - simpl. rewrite length_app. simpl. rewrite length_reverse.
    destruct p1 as [|y p1]; simpl; [|lia].
    destruct q1 as [|z q1]; simpl; [|lia].
    simpl in Ep, Eq. congruence.
  - apply NoDup_cons. split.
    + rewrite elem_of_app, elem_of_cons, elem_of_reverse.
      intros [H | [-> | H]].
      * apply Hap. apply elem_of_app. by left.
      * apply Hap. apply elem_of_app. right. apply list_elem_of_here.
      * apply Haq. apply elem_of_app. by left.
    + apply NoDup_app. split; [done|]. split.
      * intros y Hy. rewrite elem_of_cons, elem_of_reverse.
        intros [-> | H].
        -- apply (Hp1x x Hy). apply list_elem_of_here.
        -- apply (Hdis y Hy). rewrite Eq. apply elem_of_app. by left.
      * apply NoDup_cons. split; [by rewrite elem_of_reverse|].
        by rewrite reverse_Permutation.
  - split.
    + destruct (p1 ++ x :: reverse q1) as [|y l]; [done|].
      simpl in Hhead. injection Hhead as ->. done.
    + apply path_app. split; [done|]. split.
      * split; [|by apply path_reverse].
        destruct (reverse q1) as [|y l] eqn:Er; [done|].
        apply link_sym. apply Hjq; [|done].
        rewrite <- head_reverse, Er. done.
      * intros y z Hy [= <-]. by apply Hjp.
  - intros y z Hy [= <-]. rewrite Hlast in Hy. injection Hy as <-.
    by apply link_sym.
Qed.

(** There is at most one route between two cells. *)
Lemma route_unique p : ∀ q a b, route m a b p → route m a b q → p = q.
Proof.
  induction p as [|a0 p IH]; intros q a b (Hh & Hl & Hnd & Hp) (Hh' & Hl' & Hnd' & Hp');
    [done|].
  simpl in Hh. injection Hh as ->.
  destruct q as [|a1 q]; [done|]. simpl in Hh'. injection Hh' as ->.
  f_equal.
  destruct p as [|b1 p], q as [|c1 q]; [done | | |].
  - simpl in Hl. injection Hl as ->.
    rewrite last_cons_cons in Hl'. apply last_elem_of in Hl'.
    by apply NoDup_cons in Hnd' as [Hn _].
  - simpl in Hl'. injection Hl' as ->.
    rewrite last_cons_cons in Hl. apply last_elem_of in Hl.
    by apply NoDup_cons in Hnd as [Hn _].
  - rewrite last_cons_cons in Hl, Hl'.
    destruct (decide (b1 = c1)) as [<- | Hne].
    + apply (IH (b1 :: q) b1 b).
      * split; [done|]. split; [done|].
        split; [by apply NoDup_cons in Hnd as [_ ?] | by apply path_tail in Hp].
      * split; [done|]. split; [done|].
        split; [by apply NoDup_cons in Hnd' as [_ ?] | by apply path_tail in Hp'].
    + exfalso. exact (routes_fork a b1 c1 p q b Hne Hnd Hnd' Hp Hp' Hl Hl').
Qed.

(** Cells joined by passages are joined by a route. *)
Lemma route_exists a b : rtc (link m) a b → ∃ p, route m a b p.
Proof.
  revert b. apply (rtc_ind_r (λ b, ∃ p, route m a b p)).
  - exists [a]. split; [done|]. split; [done|].
    split; [apply NoDup_singleton | done].
  - intros b c _ Hbc (p & Hh & Hl & Hnd & Hp).
    destruct (decide (c ∈ p)) as [Hc | Hc].
    + apply list_elem_of_split in Hc as (p1 & p2 & ->).
      exists (p1 ++ [c]).
      apply NoDup_app in Hnd as (Hnd1 & Hdis & Hnd2).
      apply path_app in Hp as (Hp1 & Hp2 & Hj).
      split; [by destruct p1|]. split; [by rewrite last_snoc|]. split.
      * apply NoDup_app. split; [done|]. split; [|apply NoDup_singleton].
        intros y Hy Hy'. apply list_elem_of_singleton in Hy'. subst y.
        apply (Hdis c Hy). apply list_elem_of_here.
      * apply path_app. split; [done|]. split; [done|].
        intros x y Hx [= <-]. by apply Hj.
    + exists (p ++ [c]).
      split; [by destruct p|]. split; [by rewrite last_snoc|]. split.
      * apply NoDup_app. split; [done|]. split; [|apply NoDup_singleton].
        intros y Hy Hy'. apply list_elem_of_singleton in Hy'. by subst y.
      * apply path_app. split; [done|]. split; [done|].
        intros x y Hx [= <-]. rewrite Hl in Hx. by injection Hx as <-.
Qed.

Lemma reachable_sym a b : rtc (link m) a b → rtc (link m) b a.
Proof.
  induction 1 as [|a b c Hab _ IH]; [done|].
  apply rtc_r with b; [done | by apply link_sym].
Qed.

End Routes.

Lemma gen_inv_link_sym st a b :
  gen_inv st → link (gs_maze st) a b → link (gs_maze st) b a.
Proof.
  intros Hinv (Ha & Hb & d & Hd & -> & Ho).
  destruct (gi_open st Hinv a d Ha Hd Ho) as (_ & _ & _ & Hback).
  split; [done|]. split; [done|].
  exists ((d + 2) mod 4). split; [by apply opposite_range|].
  split; [by rewrite neighbor_back | done].
Qed.

Lemma path_finish m p : path (generate_finish m) p ↔ path m p.
Proof.
  induction p as [|a p IH]; [done|].
  simpl. rewrite IH. by destruct p.
Qed.

Lemma route_finish m a b p : route (generate_finish m) a b p ↔ route m a b p.
Proof. unfold route. by rewrite path_finish. Qed.

(** X22.  A maze made by [generate] has exactly one route between any
    two of its cells: a path through open passages that visits no cell
    twice exists, and any two such paths are equal.  In particular there
    is one way from the start to the goal. *)
Theorem generate_one_route (cols0 rows0 seed : Z) :
  1 ≤ cols0 → 1 ≤ rows0 →
  ∃ m, generate cols0 rows0 seed = Some (Ok m) ∧
    ∀ a b, in_maze m a → in_maze m b →
      ∃ p, route m a b p ∧ ∀ q, route m a b q → q = p.
Proof.
  intros Hc Hr.
  destruct (generate_fresh_ends cols0 rows0 seed Hc Hr)
    as (st & Hgen & Hinv & Hs & _).
  destruct (final_perfect st Hinv Hs) as (_ & Hreach & Hacyc).
  exists (generate_finish (gs_maze st)). split; [exact Hgen|].
  intros a b Ha Hb.
  pose proof (gen_inv_link_sym st) as Hsym.
  assert (Hab : rtc (link (gs_maze st)) a b).
  { transitivity origin.
    - apply (reachable_sym (gs_maze st)); [intros x y; by apply Hsym|].
      by apply Hreach.
    - by apply Hreach. }
  destruct (route_exists (gs_maze st) a b Hab) as [p Hp].
  exists p. split; [by apply route_finish|].
  intros q Hq. apply (proj1 (route_finish _ _ _ _)) in Hq.
  apply (route_unique (gs_maze st) (λ x y, Hsym x y Hinv) Hacyc q p a b Hq Hp).
Qed.

(** * Moves can be taken back *)

Lemma gen_inv_opened_sym st x y d :
  gen_inv st → in_grid (gs_maze st) x y → 0 ≤ d < 4 →
  in_grid (gs_maze st) (step_x x d) (step_y y d) →
  opened (gs_maze st) x y d
  = opened (gs_maze st) (step_x x d) (step_y y d) ((d + 2) mod 4).
Proof.
  intros Hinv Hin Hd Hn.
  destruct (opened (gs_maze st) x y d) eqn:E1.
  - destruct (gi_open st Hinv (mkCoord x y) d Hin Hd E1) as (_ & _ & _ & H).
    by rewrite <- H.
  - destruct (opened _ (step_x x d) _ _) eqn:E2; [|done].
    destruct (gi_open st Hinv (mkCoord (step_x x d) (step_y y d)) ((d + 2) mod 4)
                Hn (opposite_range d Hd) E2) as (_ & _ & _ & H).
    change (mkCoord (step_x x d) (step_y y d)) with (neighbor (mkCoord x y) d) in H.
    rewrite neighbor_back, opposite_invol in H by done.
    simpl in H. congruence.
Qed.

Lemma adjacent_step ax ay bx by_ :
  Z.abs (bx - ax) + Z.abs (by_ - ay) = 1 →
  ∃ d, 0 ≤ d < 4 ∧ bx = step_x ax d ∧ by_ = step_y ay d ∧
       (if bx - ax =? 1 then 1 else if bx - ax =? -1 then 3
        else if by_ - ay =? 1 then 2 else 0) = d.
Proof.
  intros H.
  destruct (bx - ax =? 1) eqn:E1.
  { apply Z.eqb_eq in E1. exists 1. unfold step_x, step_y. simpl. lia. }
  destruct (bx - ax =? -1) eqn:E2.
  { apply Z.eqb_eq in E2. exists 3. unfold step_x, step_y. simpl. lia. }
  apply Z.eqb_neq in E1, E2.
  destruct (by_ - ay =? 1) eqn:E3.
  { apply Z.eqb_eq in E3. exists 2. unfold step_x, step_y. simpl. lia. }
  apply Z.eqb_neq in E3. exists 0. unfold step_x, step_y. simpl. lia.
Qed.

Lemma canTraverse_not_finite m mt x1 y1 x2 y2 a b :
  cellFromPoint m mt x1 y1 = Some a → cellFromPoint m mt x2 y2 = Some b →
  fst a = NaN ∨ snd a = NaN ∨ fst b = NaN ∨ snd b = NaN →
  canTraverse m mt x1 y1 x2 y2 = Ok false.
Proof.
  intros Ha Hb Hnan. unfold canTraverse. rewrite Ha, Hb.
  destruct (cellFromPoint_shape m mt x1 y1 a Ha) as [Ha1 Ha2].
  destruct (cellFromPoint_shape m mt x2 y2 b Hb) as [Hb1 Hb2].
  destruct a as [a1 a2], b as [b1 b2]. simpl in *.
  destruct Ha1 as [-> | (ax & -> & _)], Ha2 as [-> | (ay & -> & _)],
           Hb1 as [-> | (bx & -> & _)], Hb2 as [-> | (by_ & -> & _)];
    simpl; try done; try (by rewrite andb_false_r).
  destruct Hnan as [H | [H | [H | H]]]; discriminate H.
Qed.

(** X23.  In a maze made by [generate] a move that [canTraverse] allows
    can be taken back: for any layout (also one with a cell size of zero,
    where [cellFromPoint] gives cell coordinates that are NaN or infinite)
    and any two points with finite coordinates, the check from the first
    point to the second gives the same answer as the check from the second
    to the first. *)
Theorem canTraverse_symmetric (cols0 rows0 seed : Z) :
  1 ≤ cols0 → 1 ≤ rows0 →
  ∃ m, generate cols0 rows0 seed = Some (Ok m) ∧
    ∀ mt x1 y1 x2 y2,
      canTraverse m mt x1 y1 x2 y2 = canTraverse m mt x2 y2 x1 y1.
Proof.
  intros Hc Hr.
  destruct (generate_fresh_ends cols0 rows0 seed Hc Hr)
    as (st & Hgen & Hinv & _).
  exists (generate_finish (gs_maze st)). split; [exact Hgen|].
  set (m := generate_finish (gs_maze st)).
  intros mt x1 y1 x2 y2.
  destruct (cellFromPoint m mt x1 y1) as [a|] eqn:Ha;
    [|by rewrite !canTraverse_null by auto].
  destruct (cellFromPoint m mt x2 y2) as [b|] eqn:Hb;
    [|by rewrite !canTraverse_null by auto].
  destruct (cellFromPoint_shape m mt x1 y1 a Ha) as [Ha1 Ha2].
  destruct (cellFromPoint_shape m mt x2 y2 b Hb) as [Hb1 Hb2].
  assert (Hnan : fst a = NaN ∨ snd a = NaN ∨ fst b = NaN ∨ snd b = NaN →
            canTraverse m mt x1 y1 x2 y2 = canTraverse m mt x2 y2 x1 y1).
  { intros H.
    rewrite (canTraverse_not_finite m mt x1 y1 x2 y2 a b Ha Hb H).
    rewrite (canTraverse_not_finite m mt x2 y2 x1 y1 b a Hb Ha); [done|tauto]. }
  destruct Ha1 as [Ha1 | (ax & Ha1 & _)]; [auto|].
  destruct Ha2 as [Ha2 | (ay & Ha2 & _)]; [auto|].
  destruct Hb1 as [Hb1 | (bx & Hb1 & _)]; [auto 6|].
  destruct Hb2 as [Hb2 | (by_ & Hb2 & _)]; [auto 6|].
  clear Hnan.
  destruct a as [a1 a2], b as [b1 b2]. simpl in *. subst.
  pose proof (cellFromPoint_Some_Int m mt x1 y1 ax ay Ha) as Hina.
  pose proof (cellFromPoint_Some_Int m mt x2 y2 bx by_ Hb) as Hinb.
  rewrite (canTraverse_cells m mt x1 y1 x2 y2 ax ay bx by_ Ha Hb).
  rewrite (canTraverse_cells m mt x2 y2 x1 y1 bx by_ ax ay Hb Ha).
  rewrite (Z.eqb_sym bx ax), (Z.eqb_sym by_ ay).
  destruct ((ax =? bx) && (ay =? by_)); [done|].
  replace (Z.abs (ax - bx) + Z.abs (ay - by_))
    with (Z.abs (bx - ax) + Z.abs (by_ - ay)) by lia.
  destruct (Z.abs (bx - ax) + Z.abs (by_ - ay) =? 1) eqn:Eadj; [|done].
  apply Z.eqb_eq in Eadj. simpl.
  destruct (adjacent_step ax ay bx by_ Eadj) as (d & Hd & Ex & Ey & ->).
  destruct (adjacent_step bx by_ ax ay ltac:(lia)) as (d' & Hd' & Ex' & Ey' & ->).
  assert (d' = (d + 2) mod 4) as ->.
  { clear -Hd Hd' Ex Ey Ex' Ey'. unfold step_x, step_y in *.
    assert (Hcase : d = 0 ∨ d = 1 ∨ d = 2 ∨ d = 3) by lia.
    assert (Hcase' : d' = 0 ∨ d' = 1 ∨ d' = 2 ∨ d' = 3) by lia.
    destruct Hcase as [-> | [-> | [-> | ->]]];
      destruct Hcase' as [-> | [-> | [-> | ->]]];
      simpl in *; first [reflexivity | exfalso; lia]. }
  subst bx by_. unfold m in *.
  destruct (canMove_generated st ax ay d Hinv Hina Hd) as [-> _].
  destruct (canMove_generated st _ _ ((d + 2) mod 4) Hinv Hinb
              (opposite_range d Hd)) as [-> _].
  f_equal. by apply gen_inv_opened_sym.
Qed.

(** * One hop at a time *)

(** ** The pending step callbacks *)

Lemma steps_app l1 l2 : steps (l1 ++ l2) = (steps l1 + steps l2)%nat.
Proof. unfold steps. by rewrite filter_app, length_app. Qed.

Lemma steps_cons e l :
  steps (e :: l) = ((if is_step (snd e) then 1 else 0) + steps l)%nat.
Proof.
  unfold steps. destruct (is_step (snd e)) eqn:E.
  - by rewrite filter_cons_True.
  - rewrite filter_cons_False; [done|]. by rewrite E.
Qed.

Lemma steps_zero l :
  steps l = 0%nat ↔ ∀ e, e ∈ l → is_step (snd e) = true → False.
Proof.
  split.
  - induction l as [|a l IH]; intros H0 e He Hs; [by apply elem_of_nil in He|].
    rewrite steps_cons in H0.
    apply elem_of_cons in He as [-> | He].
    + rewrite Hs in H0. lia.
    + apply (IH ltac:(lia) e He Hs).
  - intros H. unfold steps. apply length_filter_none.
    intros e He Hs. by apply (H e He).
Qed.

Lemma hop_on_grid_transfer g g' :
  Hop.g_maze g' = Hop.g_maze g → hop_cell g' = hop_cell g →
  hop_on_grid g → hop_on_grid g'.
Proof.
  unfold hop_on_grid, hop_cell. intros Hm Hc [Hwf Hin].
  rewrite Hm. split; [done|].
  pose proof (f_equal fst Hc) as Hx. pose proof (f_equal snd Hc) as Hy.
  simpl in Hx, Hy. by rewrite Hx, Hy.
Qed.

Lemma hop_kept_refl g : hop_kept g g.
Proof. by split. Qed.

Lemma hop_kept_trans g1 g2 g3 : hop_kept g1 g2 → hop_kept g2 g3 → hop_kept g1 g3.
Proof. intros [] []. split; congruence. Qed.

Lemma hop_drawAll_kept g : hop_kept g (Hop.drawAll g).
Proof. unfold Hop.drawAll. by destruct (0 <? _). Qed.

Lemma hop_maybeHurt_kept g now : hop_kept g (Hop.maybeHurt g now).
Proof.
  unfold Hop.maybeHurt. destruct (Qltb 220 _); [|apply hop_kept_refl].
  unfold Hop.hurt.
  match goal with |- hop_kept _ (Hop.drawAll ?x) =>
    apply hop_kept_trans with x; [by split | apply hop_drawAll_kept] end.
Qed.

Lemma hop_kept_inv g g' :
  hop_kept g g' → hop_on_grid g' → hop_inv g → hop_inv g'.
Proof.
  intros [Hm Hc Hr Hi] Hon [_ H1 H2]. split; [done| |].
  - unfold pending_steps in *. by rewrite Hr.
  - unfold hop_step_named in *. by rewrite Hr, Hi.
Qed.

(** A jump callback more does not count. *)
Lemma hop_request_jump g t y :
  Hop.g_maze (Hop.request g (Hop.CbJump t y)) = Hop.g_maze g ∧
  hop_cell (Hop.request g (Hop.CbJump t y)) = hop_cell g ∧
  pending_steps (Hop.request g (Hop.CbJump t y)) = pending_steps g ∧
  (hop_step_named g → hop_step_named (Hop.request g (Hop.CbJump t y))).
Proof.
  split; [done|]. split; [done|]. split.
  - unfold pending_steps, Hop.request. simpl. rewrite steps_app.
    unfold steps at 2. rewrite filter_cons_False by done. simpl. lia.
  - intros Hn e He Hs. unfold Hop.request in He. simpl in *.
    apply elem_of_app in He as [He | He]; [by apply Hn|].
    apply list_elem_of_singleton in He. subst e. done.
Qed.

Lemma hop_onGoal_jump g :
  Hop.g_maze (Hop.onGoal g) = Hop.g_maze g ∧
  hop_cell (Hop.onGoal g) = hop_cell g ∧
  pending_steps (Hop.onGoal g) = pending_steps g ∧
  (hop_step_named g → hop_step_named (Hop.onGoal g)).
Proof.
  unfold Hop.onGoal.
  match goal with |- context [Hop.request ?x (Hop.CbJump ?t ?y)] =>
    exact (hop_request_jump x t y) end.
Qed.

(** After [animate] one step callback is pending, the one requested. *)
Lemma hop_animate_steps g :
  hop_step_named g →
  Hop.g_maze (Hop.animate g) = Hop.g_maze g ∧
  hop_cell (Hop.animate g) = hop_cell g ∧
  pending_steps (Hop.animate g) = 1%nat ∧
  hop_step_named (Hop.animate g).
Proof.
  intros Hn. unfold Hop.animate, Hop.request_rafId, Hop.cancel_rafId. simpl.
  assert (H0 : steps (filter (λ e, fst e ≠ Hop.g_rafId g) (Hop.g_raf g)) = 0%nat).
  { apply steps_zero.
    intros e He Hs. apply list_elem_of_filter in He as [Hne He].
    by apply Hne, Hn. }
  split; [done|]. split; [done|]. split.
  - unfold pending_steps. simpl. rewrite steps_app, H0.
    unfold steps. by rewrite filter_cons_True.
  - intros e He Hs. simpl in *.
    apply elem_of_app in He as [He | He].
    + exfalso. by apply (proj1 (steps_zero _) H0 e He).
    + apply list_elem_of_singleton in He. by subst e.
Qed.

(** A step callback requested while none is pending is the only one. *)
Lemma hop_request_step g speed :
  pending_steps g = 0%nat →
  pending_steps (Hop.request_rafId g (Hop.CbStep speed)) = 1%nat ∧
  hop_step_named (Hop.request_rafId g (Hop.CbStep speed)).
Proof.
  intros H0. unfold pending_steps, Hop.request_rafId in *. simpl. split.
  - rewrite steps_app, H0. unfold steps. by rewrite filter_cons_True.
  - intros e He Hs. simpl in *.
    apply elem_of_app in He as [He | He].
    + exfalso. by apply (proj1 (steps_zero _) H0 e He).
    + apply list_elem_of_singleton in He. by subst e.
Qed.

(** ** A hop goes through an open passage *)

Lemma begin_hop_through g dir :
  canMove (Hop.g_maze g) (Hop.cellX (Hop.g_player g))
          (Hop.cellY (Hop.g_player g)) dir = Ok true →
  Hop.g_maze (Hop.begin_hop g dir) = Hop.g_maze g ∧
  Hop.g_raf (Hop.begin_hop g dir) = Hop.g_raf g ∧
  Hop.g_rafId (Hop.begin_hop g dir) = Hop.g_rafId g ∧
  same_or_through (Hop.g_maze g) (hop_cell g) (hop_cell (Hop.begin_hop g dir)).
Proof.
  intros Hcm. unfold Hop.begin_hop.
  destruct (cellCenter _ _ _) as [tx ty].
  split; [done|]. split; [done|]. split; [done|].
  unfold hop_cell. simpl.
  destruct (decide (0 ≤ dir < 4)) as [Hd | Hd].
  - right. exists dir. split; [done|]. split; [|done].
    unfold step_x, step_y. simpl. f_equal.
    + destruct (dir =? 1); [done|]. destruct (dir =? 3); lia.
    + destruct (dir =? 2); [done|]. destruct (dir =? 0); lia.
  - left.
    destruct (dir =? 1) eqn:E1; [apply Z.eqb_eq in E1; lia|].
    destruct (dir =? 3) eqn:E3; [apply Z.eqb_eq in E3; lia|].
    destruct (dir =? 2) eqn:E2; [apply Z.eqb_eq in E2; lia|].
    destruct (dir =? 0) eqn:E0; [apply Z.eqb_eq in E0; lia|].
    f_equal; lia.
Qed.

Lemma dominant_range dx dy : 0 ≤ Hop.dominant dx dy < 4.
Proof.
  unfold Hop.dominant. destruct (Qltb _ _), (Qltb 0 dx), (Qltb 0 dy); lia.
Qed.

Lemma same_or_through_refl m a : same_or_through m a a.
Proof. by left. Qed.

Lemma hop_tryStepToward_inv g now x y :
  hop_inv g →
  ∃ g', Hop.tryStepToward g now x y = Ok g' ∧ hop_inv g' ∧
    Hop.g_maze g' = Hop.g_maze g ∧
    same_or_through (Hop.g_maze g) (hop_cell g) (hop_cell g').
Proof.
  intros Hinv. pose proof Hinv as [Hon H1 Hn]. pose proof Hon as [Hwf Hin].
  unfold Hop.tryStepToward.
  set (dir := Hop.dominant _ _).
  destruct (canMove_total (Hop.g_maze g) _ _ dir Hwf Hin) as [b Hcm].
  assert (Hkept : ∀ g', hop_kept g g' →
            hop_inv g' ∧ Hop.g_maze g' = Hop.g_maze g ∧
            same_or_through (Hop.g_maze g) (hop_cell g) (hop_cell g')).
  { intros g' Hk. pose proof Hk as [Km Kc Kr Ki].
    split; [|split; [done | rewrite Kc; by left]].
    apply (hop_kept_inv g g' Hk); [|done].
    by apply (hop_on_grid_transfer g g'). }
  destruct (Hop.moving (Hop.g_player g)); rewrite Hcm; simpl.
  - destruct b; eexists; (split; [done|]); apply Hkept.
    + by split.
    + apply hop_maybeHurt_kept.
  - destruct b; simpl; eexists; (split; [done|]).
    + destruct (begin_hop_through g dir Hcm) as (B1 & B2 & B3 & B4).
      assert (Hn' : hop_step_named (Hop.begin_hop g dir)).
      { unfold hop_step_named. by rewrite B2, B3. }
      destruct (hop_animate_steps _ Hn') as (A1 & A2 & A3 & A4).
      split; [|split; [by rewrite A1, B1 | by rewrite A2]].
      split; [| lia | done].
      pose proof (hop_begin_hop_on_grid g dir Hon Hcm) as Hon'.
      by apply (hop_on_grid_transfer (Hop.begin_hop g dir)).
    + apply Hkept, hop_maybeHurt_kept.
Qed.

Section HopSteps.

Variable hypot : Q → Q → Q.
Variable sin : Q → Q.

Lemma hop_step_inv g speed :
  hop_on_grid g → pending_steps g = 0%nat →
  ∃ g', Hop.step hypot g speed = Ok g' ∧ hop_on_grid g' ∧
    Hop.g_maze g' = Hop.g_maze g ∧
    (pending_steps g' ≤ 1)%nat ∧ hop_step_named g' ∧
    same_or_through (Hop.g_maze g) (hop_cell g) (hop_cell g').
Proof.
  intros Hon H0.
  assert (Hnone : ∀ g1, Hop.g_maze g1 = Hop.g_maze g →
            hop_cell g1 = hop_cell g → pending_steps g1 = 0%nat →
            hop_on_grid g1 ∧ Hop.g_maze g1 = Hop.g_maze g ∧
            (pending_steps g1 ≤ 1)%nat ∧ hop_step_named g1 ∧
            same_or_through (Hop.g_maze g) (hop_cell g) (hop_cell g1)).
  { intros g1 Hm Hc Hp. split.
    { by apply (hop_on_grid_transfer g g1). }
    split; [done|]. split; [lia|]. split; [|rewrite Hc; by left].
    intros e He Hs. exfalso.
    by apply (proj1 (steps_zero _) Hp e He). }
  unfold Hop.step.
  destruct (Qle_bool _ _).
  - match goal with |- context [Hop.drawAll ?x] =>
      pose proof (hop_drawAll_kept x) as [D1 D2 D3 D4];
      set (g1 := Hop.drawAll x) in * end.
    simpl in D1, D2, D3, D4. cbv zeta.
    set (g2 := if _ && _ then Hop.onGoal g1 else g1).
    assert (H2 : Hop.g_maze g2 = Hop.g_maze g ∧ hop_cell g2 = hop_cell g ∧
                 pending_steps g2 = 0%nat).
    { unfold g2. destruct (_ && _).
      - destruct (hop_onGoal_jump g1) as (J1 & J2 & J3 & _).
        rewrite J1, J2, J3. unfold pending_steps.
        by rewrite D3.
      - unfold pending_steps. by rewrite D3. }
    destruct H2 as (G1 & G2 & G3). clearbody g2. clear D1 D2 D3 D4 g1.
    destruct (negb _ && _); [|exists g2; split; [done|]; by apply Hnone].
    set (dir := match Hop.g_queuedDir g2 with Some d => _ | None => _ end).
    set (g3 := Hop.with_queuedDir g2 None).
    assert (H3 : Hop.g_maze g3 = Hop.g_maze g ∧ hop_cell g3 = hop_cell g ∧
                 pending_steps g3 = 0%nat) by done.
    destruct H3 as (Q1 & Q2 & Q3).
    destruct dir as [d|]; [|exists g3; split; [done|]; by apply Hnone].
    destruct (Hnone g3 Q1 Q2 Q3) as (Hon3 & _).
    pose proof Hon3 as [Hwf Hin].
    destruct (canMove_total (Hop.g_maze g3) _ _ d Hwf Hin) as [b Hcm].
    change (Hop.cellX (Hop.g_player g2)) with (Hop.cellX (Hop.g_player g3)).
    change (Hop.cellY (Hop.g_player g2)) with (Hop.cellY (Hop.g_player g3)).
    rewrite Hcm. simpl.
    destruct b; [|exists g3; split; [done|]; by apply Hnone].
    eexists. split; [done|].
    destruct (begin_hop_through g3 d Hcm) as (B1 & B2 & B3 & B4).
    assert (Hp : pending_steps (Hop.begin_hop g3 d) = 0%nat)
      by (unfold pending_steps in *; by rewrite B2).
    destruct (hop_request_step _ speed Hp) as [R1 R2].
    pose proof (hop_begin_hop_on_grid g3 d Hon3 Hcm) as Hon'.
    split; [exact Hon'|].
    split; [change (Hop.g_maze (Hop.begin_hop g3 d) = Hop.g_maze g);
            by rewrite B1|].
    split; [lia|]. split; [done|].
    rewrite <- Q1, <- Q2. exact B4.
  - match goal with |- context [Hop.drawAll ?x] =>
      pose proof (hop_drawAll_kept x) as [D1 D2 D3 D4];
      set (g1 := Hop.drawAll x) in * end.
    simpl in D1, D2, D3, D4.
    eexists. split; [done|].
    assert (Hp : pending_steps g1 = 0%nat)
      by (unfold pending_steps in *; by rewrite D3).
    destruct (hop_request_step g1 speed Hp) as [R1 R2].
    split.
    { by apply (hop_on_grid_transfer g). }
    split; [done|]. split; [lia|]. split; [done|].
    change (hop_cell (Hop.request_rafId g1 (Hop.CbStep speed))) with (hop_cell g1).
    rewrite D2. by left.
Qed.

Lemma hop_jump_step_kept g t startY :
  Hop.g_maze (Hop.jump_step sin g t startY) = Hop.g_maze g ∧
  hop_cell (Hop.jump_step sin g t startY) = hop_cell g ∧
  pending_steps (Hop.jump_step sin g t startY) = pending_steps g ∧
  (hop_step_named g → hop_step_named (Hop.jump_step sin g t startY)).
Proof.
  unfold Hop.jump_step.
  match goal with |- context [Hop.drawAll ?x] =>
    pose proof (hop_drawAll_kept x) as [D1 D2 D3 D4];
    set (g1 := Hop.drawAll x) in * end.
  simpl in D1, D2, D3, D4.
  assert (Hn : hop_step_named g → hop_step_named g1).
  { unfold hop_step_named. by rewrite D3, D4. }
  assert (Hp : pending_steps g1 = pending_steps g)
    by (unfold pending_steps; by rewrite D3).
  destruct (_ <? 22); [|done].
  destruct (hop_request_jump g1 (t + 1) startY) as (J1 & J2 & J3 & J4).
  rewrite J1, J2, J3.
  split; [done|]. split; [done|]. split; [done|]. auto.
Qed.

(** The callbacks of a frame, of which one at most is a step. *)
Lemma hop_callbacks_inv (cbs : list (Z * Hop.Callback)) g :
  hop_on_grid g → (steps cbs + pending_steps g ≤ 1)%nat → hop_step_named g →
  ∃ g', foldl (λ r cb, g ← r; Hop.run_callback hypot sin g (snd cb)) (Ok g) cbs
        = Ok g' ∧
    hop_inv g' ∧ Hop.g_maze g' = Hop.g_maze g ∧
    (steps cbs = 0%nat → hop_cell g' = hop_cell g) ∧
    same_or_through (Hop.g_maze g) (hop_cell g) (hop_cell g').
Proof.
  revert g. induction cbs as [|[i cb] cbs IH]; intros g Hon H1 Hn.
  - exists g. split; [done|]. split; [by split|].
    split; [done|]. split; [done | by left].
  - rewrite steps_cons in H1. simpl in H1.
    assert (∃ g1, Hop.run_callback hypot sin g cb = Ok g1 ∧ hop_on_grid g1 ∧
              Hop.g_maze g1 = Hop.g_maze g ∧
              (steps cbs + pending_steps g1 ≤ 1)%nat ∧ hop_step_named g1 ∧
              (is_step cb = false → hop_cell g1 = hop_cell g) ∧
              (is_step cb = true → steps cbs = 0%nat) ∧
              same_or_through (Hop.g_maze g) (hop_cell g) (hop_cell g1))
      as (g1 & Hcb & Hon1 & Hm1 & Hs1 & Hn1 & Hj & Hst & Hth).
    { destruct cb as [speed | t startY]; simpl in *.
      - destruct (hop_step_inv g speed Hon ltac:(lia))
          as (g1 & Hs & S1 & S2 & S3 & S4 & S5).
        exists g1. split; [done|]. split; [done|]. split; [done|].
        split; [lia|]. split; [done|]. split; [done|]. split; [lia | done].
      - eexists. split; [done|].
        destruct (hop_jump_step_kept g t startY) as (J1 & J2 & J3 & J4).
        split.
        { by apply (hop_on_grid_transfer g). }
        split; [done|]. split; [lia|]. split; [auto|]. split; [done|].
        split; [done|]. rewrite J2. by left. }
    destruct (IH g1 Hon1 Hs1 Hn1) as (g' & Hfold & Hinv' & Hm' & Hc' & Hth').
    exists g'. split.
    { simpl.
      change (foldl (λ r cb, g ← r; Hop.run_callback hypot sin g (snd cb))
                (Hop.run_callback hypot sin g cb) cbs = Ok g').
      by rewrite Hcb. }
    split; [done|]. split; [by rewrite Hm', Hm1|]. split.
    + rewrite steps_cons. simpl. intros H0.
      destruct (is_step cb) eqn:E; [lia|].
      rewrite Hc' by lia. by apply Hj.
    + destruct (is_step cb) eqn:E.
      * rewrite (Hc' (Hst eq_refl)). exact Hth.
      * rewrite <- (Hj eq_refl), <- Hm1. exact Hth'.
Qed.

Lemma hop_startGame_inv g age seed w h :
  hop_inv g →
  ∃ g', Hop.startGame (Some g) age seed w h = Some (Ok g') ∧ hop_inv g'.
Proof.
  intros [_ H1 Hn].
  destruct (hop_startGame_on_grid (Some g) age seed w h) as (g' & Hs & Hon').
  exists g'. split; [done|].
  assert (Hr : Hop.g_raf g' = Hop.g_raf g ∧ Hop.g_rafId g' = Hop.g_rafId g).
  { unfold Hop.startGame in Hs.
    destruct (generate _ _ _) as [[m|]|]; try done.
    destruct (cellCenter _ _ _) as [px py].
    injection Hs as <-.
    match goal with |- context [Hop.drawAll ?x] =>
      pose proof (hop_drawAll_kept x) as [_ _ D3 D4] end.
    rewrite D3, D4. simpl. unfold Hop.fitCanvas.
    by destruct (hop_drawAll_kept (Hop.with_canvas g (w, h))) as [_ _ -> ->]. }
  destruct Hr as [Hr Hi]. split; [done| |].
  - unfold pending_steps. by rewrite Hr.
  - unfold hop_step_named. by rewrite Hr, Hi.
Qed.

Lemma hop_first_game age seed w h :
  ∃ g, Hop.startGame None age seed w h = Some (Ok g) ∧ hop_inv g.
Proof.
  destruct (hop_startGame_on_grid None age seed w h) as (g & Hs & Hon).
  exists g. split; [done|].
  assert (Hr : Hop.g_raf g = []).
  { unfold Hop.startGame in Hs.
    destruct (generate _ _ _) as [[m|]|]; try done.
    destruct (cellCenter _ _ _) as [px py].
    injection Hs as <-.
    match goal with |- context [Hop.drawAll ?x] =>
      pose proof (hop_drawAll_kept x) as [_ _ D3 _] end.
    by rewrite D3. }
  split; [done| |].
  - unfold pending_steps. rewrite Hr. unfold steps. simpl. lia.
  - intros e He. rewrite Hr in He. by apply elem_of_nil in He.
Qed.

Lemma hop_handle_inv g e :
  hop_inv g →
  ∃ g', Hop.handle hypot sin g e = Some (Ok g') ∧ hop_inv g' ∧
    (Hop.is_start e = false →
     Hop.g_maze g' = Hop.g_maze g ∧
     same_or_through (Hop.g_maze g) (hop_cell g) (hop_cell g')).
Proof.
  intros Hinv. pose proof Hinv as [Hon H1 Hn].
  assert (Hkept : ∀ g', hop_kept g g' →
            hop_inv g' ∧
            (Hop.g_maze g' = Hop.g_maze g ∧
             same_or_through (Hop.g_maze g) (hop_cell g) (hop_cell g'))).
  { intros g' Hk. pose proof Hk as [Km Kc Kr Ki].
    split; [|split; [done | rewrite Kc; by left]].
    apply (hop_kept_inv g g' Hk); [|done].
    by apply (hop_on_grid_transfer g g'). }
  destruct e; simpl.
  - destruct (hop_startGame_inv g age seed w h Hinv) as (g' & -> & H').
    by exists g'.
  - unfold Hop.frame.
    match goal with |- context [foldl _ (Ok ?x) _] =>
      destruct (hop_callbacks_inv (Hop.g_raf g) x) as (g' & -> & H' & Hm & _ & Hth)
    end.
    + exact Hon.
    + unfold pending_steps in *. simpl. unfold steps at 2. simpl. lia.
    + intros e He. simpl in He. by apply elem_of_nil in He.
    + exists g'. split; [done|]. split; [done|]. intros _. by split.
  - eexists. split; [done|]. unfold Hop.onStart.
    destruct (Hop.withinPlayer _ _ _);
      (destruct (Hkept _ ltac:(by split)) as [? ?]; by split).
  - unfold Hop.onMove. destruct (negb _).
    + exists g. split; [done|].
      destruct (Hkept g (hop_kept_refl g)) as [? ?]. by split.
    + set (g1 := Hop.with_drag g (Hop.g_dragging g) (Some (x, y))).
      destruct (Hkept g1 ltac:(by split)) as [H1' _].
      destruct (hop_tryStepToward_inv g1 now x y H1') as (g' & -> & H' & Hm & Hth).
      exists g'. split; [done|]. split; [done|]. intros _. by split.
  - eexists. split; [done|].
    destruct (Hkept (Hop.onEnd g) ltac:(by split)) as [? ?]. by split.
  - eexists. split; [done|]. unfold Hop.fitCanvas.
    assert (Hk : hop_kept g (Hop.drawAll (Hop.with_canvas g (w, h)))).
    { apply hop_kept_trans with (Hop.with_canvas g (w, h));
        [by split | apply hop_drawAll_kept]. }
    destruct (Hkept _ Hk) as [? ?]. by split.
Qed.

Lemma hop_run_inv es g :
  hop_inv g → ∃ g', Hop.run hypot sin g es = Some (Ok g') ∧ hop_inv g'.
Proof.
  revert g. induction es as [|e es IH]; intros g Hinv.
  - by exists g.
  - destruct (hop_handle_inv g e Hinv) as (g1 & Hh & H1 & _).
    destruct (IH g1 H1) as (g' & Hrun & H').
    exists g'. simpl. by rewrite Hh.
Qed.

(** X24.  One hop animation at a time.  In the hop version, after the
    first [startGame] one [step] callback at most is pending at any
    time, whatever events follow: [animate] cancels the callback that
    [rafId] names before it requests a new one, and [step] requests
    itself only when it has just run. *)
Theorem hop_single_step (age seed : Z) (w h : Q) (es : list Hop.Event) :
  ∃ g0 g', Hop.startGame None age seed w h = Some (Ok g0) ∧
    Hop.run hypot sin g0 es = Some (Ok g') ∧
    (pending_steps g' ≤ 1)%nat.
Proof.
  destruct (hop_first_game age seed w h) as (g0 & Hs & H0).
  destruct (hop_run_inv es g0 H0) as (g' & Hrun & [_ H1 _]).
  by exists g0, g'.
Qed.

(** X25.  The hop version never takes the player through a wall.  At
    any time of a game, an event other than [startGame] (a frame, a
    pointer event, a resize) leaves the maze as it is and leaves the
    player's cell unchanged or moves it to the neighbour behind a passage
    that [canMove] allows: one hop at most, through an open passage. *)
Theorem hop_respects_walls (age seed : Z) (w h : Q) (es : list Hop.Event)
    (e : Hop.Event) :
  Hop.is_start e = false →
  ∃ g0 g g', Hop.startGame None age seed w h = Some (Ok g0) ∧
    Hop.run hypot sin g0 es = Some (Ok g) ∧
    Hop.handle hypot sin g e = Some (Ok g') ∧
    Hop.g_maze g' = Hop.g_maze g ∧
    same_or_through (Hop.g_maze g) (hop_cell g) (hop_cell g').
Proof.
  intros He.
  destruct (hop_first_game age seed w h) as (g0 & Hs & H0).
  destruct (hop_run_inv es g0 H0) as (g & Hrun & Hinv).
  destruct (hop_handle_inv g e Hinv) as (g' & Hh & _ & Hth).
  exists g0, g, g'. split; [done|]. split; [done|]. split; [done|].
  by apply Hth.
Qed.

End HopSteps.

(** * The selection screen and the theme lock *)

(** ** refreshThemeButtons *)

Lemma lock_flag t c :
  negb (Ui.need t <=? c) && (0 <? Ui.need t) = theme_locked t c.
Proof.
  unfold theme_locked.
  destruct (Z.leb_spec (Ui.need t) c), (Z.ltb_spec c (Ui.need t)); simpl; (done || lia).
Qed.

Lemma button_fresh_deselect c b :
  button_fresh c b → button_fresh c (Ui.deselect b).
Proof. done. Qed.

(** What one round of the loop does: it brings the button [i] up to date,
    leaves the lock state of the others as it is, and may clear
    [store.theme]. *)
Lemma refresh_button_spec pg i :
  Ui.age (Ui.refresh_button pg i) = Ui.age pg ∧
  Ui.coins (Ui.refresh_button pg i) = Ui.coins pg ∧
  Ui.ageButtons (Ui.refresh_button pg i) = Ui.ageButtons pg ∧
  Ui.selectActive (Ui.refresh_button pg i) = Ui.selectActive pg ∧
  Ui.gameActive (Ui.refresh_button pg i) = Ui.gameActive pg ∧
  Ui.toasts (Ui.refresh_button pg i) = Ui.toasts pg ∧
  Ui.starts (Ui.refresh_button pg i) = Ui.starts pg ∧
  length (Ui.themeButtons (Ui.refresh_button pg i)) = length (Ui.themeButtons pg) ∧
  (Ui.theme (Ui.refresh_button pg i) = Ui.theme pg ∨
   Ui.theme (Ui.refresh_button pg i) = None) ∧
  ∀ j b', Ui.themeButtons (Ui.refresh_button pg i) !! j = Some b' →
    ∃ b, Ui.themeButtons pg !! j = Some b ∧ Ui.tb_theme b' = Ui.tb_theme b ∧
      (j = i → button_fresh (Ui.coins pg) b' ∧
               (Ui.theme (Ui.refresh_button pg i) = Some (Ui.tb_theme b) →
                Ui.need (Ui.tb_theme b) ≤ Ui.coins pg)) ∧
      (j ≠ i → ∀ c, button_fresh c b → button_fresh c b').
Proof.
  unfold Ui.refresh_button.
  destruct (Ui.themeButtons pg !! i) as [b|] eqn:Hb.
  2:{ repeat (split; [done|]). split; [by left|].
      intros j b' Hj. exists b'. split; [done|]. split; [done|].
      split; [|done]. intros ->. congruence. }
  set (t := Ui.tb_theme b).
  set (unlocked := Ui.need t <=? Ui.coins pg).
  set (b1 := Ui.mkThemeButton t _ _ _ _).
  assert (Hfresh : button_fresh (Ui.coins pg) b1).
  { unfold button_fresh, b1, unlocked. simpl. by rewrite lock_flag. }
  assert (Hlook : ∀ j b', <[i := b1]> (Ui.themeButtons pg) !! j = Some b' →
            ∃ b0, Ui.themeButtons pg !! j = Some b0 ∧
              Ui.tb_theme b' = Ui.tb_theme b0 ∧
              (j = i → b' = b1 ∧ b0 = b) ∧ (j ≠ i → b' = b0)).
  { intros j b' Hj. destruct (decide (j = i)) as [-> | Hne].
    - rewrite list_lookup_insert_eq in Hj by (by apply lookup_lt_Some in Hb).
      injection Hj as <-. exists b. by repeat split.
    - rewrite list_lookup_insert_ne in Hj by done.
      exists b'. by repeat split. }
  destruct (negb unlocked && bool_decide (Ui.theme pg = Some t)) eqn:Hreset; simpl.
  - repeat (split; [done|]).
    split; [by rewrite length_fmap, length_insert|]. split; [by right|].
    intros j b' Hj. rewrite list_lookup_fmap in Hj.
    destruct (<[i:=b1]> (Ui.themeButtons pg) !! j) as [b2|] eqn:Hj2; [|done].
    simpl in Hj. injection Hj as <-.
    destruct (Hlook j b2 Hj2) as (b0 & H0 & Ht & Hi & Hne).
    exists b0. split; [done|]. split; [done|]. split.
    + intros E. destruct (Hi E) as [-> ->]. split; [|done].
      by apply button_fresh_deselect.
    + intros E c Hc. rewrite (Hne E). by apply button_fresh_deselect.
  - repeat (split; [done|]).
    split; [by rewrite length_insert|]. split; [by left|].
    intros j b' Hj.
    destruct (Hlook j b' Hj) as (b0 & H0 & Ht & Hi & Hne).
    exists b0. split; [done|]. split; [done|]. split.
    + intros E. destruct (Hi E) as [-> ->]. split; [done|].
      intros Hth. fold t in Hth. unfold unlocked in Hreset.
      destruct (Ui.need t <=? Ui.coins pg) eqn:Eu; [by apply Z.leb_le|].
      simpl in Hreset. by rewrite bool_decide_eq_true_2 in Hreset.
    + intros E c Hc. by rewrite (Hne E).
Qed.

Lemma refresh_fold pg n :
  (n ≤ length (Ui.themeButtons pg))%nat →
  let pg' := foldl Ui.refresh_button pg (seq 0 n) in
  Ui.age pg' = Ui.age pg ∧ Ui.coins pg' = Ui.coins pg ∧
  Ui.ageButtons pg' = Ui.ageButtons pg ∧
  Ui.selectActive pg' = Ui.selectActive pg ∧
  Ui.gameActive pg' = Ui.gameActive pg ∧
  Ui.toasts pg' = Ui.toasts pg ∧ Ui.starts pg' = Ui.starts pg ∧
  length (Ui.themeButtons pg') = length (Ui.themeButtons pg) ∧
  (Ui.theme pg' = Ui.theme pg ∨ Ui.theme pg' = None) ∧
  ∀ j b', Ui.themeButtons pg' !! j = Some b' →
    ∃ b, Ui.themeButtons pg !! j = Some b ∧ Ui.tb_theme b' = Ui.tb_theme b ∧
      ((j < n)%nat → button_fresh (Ui.coins pg) b' ∧
         (Ui.theme pg' = Some (Ui.tb_theme b') →
          Ui.need (Ui.tb_theme b') ≤ Ui.coins pg)).
Proof.
  induction n as [|n IH]; intros Hn; cbv zeta.
  - simpl. repeat (split; [done|]). split; [by left|].
    intros j b' Hj. exists b'. split; [done|]. split; [done|]. lia.
  - rewrite seq_S, foldl_app. simpl.
    destruct (IH ltac:(lia)) as (A1 & A2 & A3 & A4 & A5 & A6 & A7 & A8 & A9 & A10).
    set (pg1 := foldl Ui.refresh_button pg (seq 0 n)) in *.
    destruct (refresh_button_spec pg1 n)
      as (B1 & B2 & B3 & B4 & B5 & B6 & B7 & B8 & B9 & B10).
    set (pg2 := Ui.refresh_button pg1 n) in *.
    split; [congruence|]. split; [congruence|]. split; [congruence|].
    split; [congruence|]. split; [congruence|]. split; [congruence|].
    split; [congruence|]. split; [congruence|].
    split.
    { destruct B9 as [B9 | B9]; [|by right].
      destruct A9 as [A9 | A9]; [left | right]; congruence. }
    intros j b' Hj.
    destruct (B10 j b' Hj) as (b1 & Hb1 & Ht1 & Heq & Hne).
    destruct (A10 j b1 Hb1) as (b & Hb & Ht & Hlt).
    exists b. split; [done|]. split; [congruence|].
    intros Hj'. destruct (decide (j = n)) as [-> | Hjn].
    + destruct (Heq eq_refl) as [Hf Hth]. rewrite <- A2. split; [done|].
      rewrite Ht1. exact Hth.
    + destruct (Hlt ltac:(lia)) as [Hf Hth]. split; [by apply (Hne Hjn)|].
      intros Hth2. rewrite Ht1. apply Hth. rewrite <- Ht1.
      destruct B9 as [B9 | B9]; congruence.
Qed.

(** X26.  [refreshThemeButtons] brings every button of the theme grid up
    to date with the coins: afterwards a button is disabled and carries
    the class [locked] exactly when the price of its theme is positive and
    exceeds the coins, and its text shows the price exactly when the coins
    do not reach it.  It never leaves a locked theme of the grid selected
    in the store: [store.theme] is unchanged or cleared, and it is not the
    theme of a button whose price exceeds the coins.  The coins, the age
    and the themes of the buttons are unchanged. *)
Theorem refreshThemeButtons_spec (pg : Ui.Page) :
  let pg' := Ui.refreshThemeButtons pg in
  Ui.coins pg' = Ui.coins pg ∧ Ui.age pg' = Ui.age pg ∧
  Ui.tb_theme <$> Ui.themeButtons pg' = Ui.tb_theme <$> Ui.themeButtons pg ∧
  buttons_fresh pg' ∧
  (Ui.theme pg' = Ui.theme pg ∨ Ui.theme pg' = None) ∧
  ∀ b, b ∈ Ui.themeButtons pg' → Ui.theme pg' = Some (Ui.tb_theme b) →
       Ui.need (Ui.tb_theme b) ≤ Ui.coins pg'.
Proof.
  cbv zeta. unfold Ui.refreshThemeButtons.
  destruct (refresh_fold pg (length (Ui.themeButtons pg)) ltac:(lia))
    as (A1 & A2 & A3 & A4 & A5 & A6 & A7 & A8 & A9 & A10).
  set (pg' := foldl Ui.refresh_button pg _) in *.
  split; [done|]. split; [done|]. split.
  { apply list_eq. intros j. rewrite !list_lookup_fmap.
    destruct (Ui.themeButtons pg' !! j) as [b'|] eqn:Hj.
    - destruct (A10 j b' Hj) as (b & Hb & Ht & _).
      rewrite Hb. simpl. by rewrite Ht.
    - apply lookup_ge_None in Hj. rewrite A8 in Hj.
      apply lookup_ge_None in Hj. by rewrite Hj. }
  split.
  { intros b' Hb'. apply list_elem_of_lookup in Hb' as [j Hj].
    destruct (A10 j b' Hj) as (b & _ & _ & Hf).
    rewrite A2. apply Hf. apply lookup_lt_Some in Hj. lia. }
  split; [done|].
  intros b' Hb' Hth. apply list_elem_of_lookup in Hb' as [j Hj].
  destruct (A10 j b' Hj) as (b & _ & _ & Hf).
  rewrite A2. apply Hf; [|done]. apply lookup_lt_Some in Hj. lia.
Qed.

Lemma refresh_keeps pg :
  Ui.coins (Ui.refreshThemeButtons pg) = Ui.coins pg ∧
  Ui.toasts (Ui.refreshThemeButtons pg) = Ui.toasts pg ∧
  Ui.starts (Ui.refreshThemeButtons pg) = Ui.starts pg ∧
  buttons_fresh (Ui.refreshThemeButtons pg) ∧
  (Ui.theme (Ui.refreshThemeButtons pg) = Ui.theme pg ∨
   Ui.theme (Ui.refreshThemeButtons pg) = None).
Proof.
  unfold Ui.refreshThemeButtons.
  destruct (refresh_fold pg (length (Ui.themeButtons pg)) ltac:(lia))
    as (A1 & A2 & A3 & A4 & A5 & A6 & A7 & A8 & A9 & A10).
  set (pg' := foldl Ui.refresh_button pg _) in *.
  split; [done|]. split; [done|]. split; [done|]. split; [|done].
  intros b' Hb'. apply list_elem_of_lookup in Hb' as [j Hj].
  destruct (A10 j b' Hj) as (b & _ & _ & Hf).
  rewrite A2. apply Hf. apply lookup_lt_Some in Hj. lia.
Qed.

(** ** The coins and the unlock toast *)

Lemma startGame_fields pg :
  Ui.coins (Ui.startGame pg) = Ui.coins pg ∧
  Ui.toasts (Ui.startGame pg) = Ui.toasts pg ∧
  Ui.theme (Ui.startGame pg) = Ui.theme pg ∧
  Ui.themeButtons (Ui.startGame pg) = Ui.themeButtons pg ∧
  Ui.starts (Ui.startGame pg)
  = Ui.mkStart (Ui.age pg) (Ui.theme pg) (Ui.coins pg) :: Ui.starts pg.
Proof. done. Qed.

Lemma click_theme_fields pg i :
  Ui.coins (Ui.click_theme pg i) = Ui.coins pg ∧
  Ui.toasts (Ui.click_theme pg i) = Ui.toasts pg.
Proof.
  unfold Ui.click_theme. destruct (Ui.themeButtons pg !! i); [|done].
  by destruct (_ && _ && _).
Qed.

Lemma click_age_fields pg i :
  Ui.coins (Ui.click_age pg i) = Ui.coins pg ∧
  Ui.toasts (Ui.click_age pg i) = Ui.toasts pg.
Proof.
  unfold Ui.click_age. destruct (Ui.ageButtons pg !! i); [|done].
  by destruct (_ && _ && _).
Qed.

Lemma click_start_fields pg :
  Ui.coins (Ui.click_start pg) = Ui.coins pg ∧
  Ui.toasts (Ui.click_start pg) = Ui.toasts pg.
Proof. unfold Ui.click_start. by destruct (_ || _). Qed.

Lemma click_back_fields pg :
  Ui.coins (Ui.click_back pg) = Ui.coins pg ∧
  Ui.toasts (Ui.click_back pg) = Ui.toasts pg.
Proof.
  unfold Ui.click_back, Ui.switchScreen.
  match goal with |- context [Ui.refreshThemeButtons ?x] =>
    destruct (refresh_keeps x) as (H1 & H2 & _) end.
  by rewrite H1, H2.
Qed.

Lemma onGoal_fields pg :
  Ui.coins (Ui.onGoal pg) = Ui.coins pg + 5 ∧
  unlock_toasts (Ui.onGoal pg)
  = (unlock_toasts pg +
     (if ((Ui.coins pg <? 15) && (15 <=? Ui.coins pg + 5))%Z then 1 else 0))%nat.
Proof.
  unfold Ui.onGoal, Ui.coinsAdd.
  match goal with |- context [Ui.refreshThemeButtons ?x] =>
    destruct (refresh_keeps x) as (H1 & H2 & _);
    set (pg1 := Ui.refreshThemeButtons x) in * end.
  simpl in H1, H2. rewrite (Z.ltb_antisym 15 (Ui.coins pg)).
  destruct (negb _ && _); unfold unlock_toasts; simpl; rewrite H1, H2.
  - split; [done|]. rewrite filter_cons_False by done. lia.
  - split; [done|]. rewrite filter_cons_False by done. lia.
Qed.

(** X27.  Along any run of events the coins grow by five with every goal
    and by nothing else, and the toast that announces the vehicles theme
    is shown exactly once if the coins were below 15 before the run and
    are at least 15 after it, and not at all otherwise. *)
Theorem unlock_toast_once (pg : Ui.Page) (es : list Ui.Event) (pg' : Ui.Page) :
  Ui.run pg es = Some pg' →
  Ui.coins pg' = Ui.coins pg + 5 * Z.of_nat (goals_of es) ∧
  unlock_toasts pg'
  = (unlock_toasts pg +
     (if ((Ui.coins pg <? 15) && (15 <=? Ui.coins pg'))%Z then 1 else 0))%nat.
Proof.
  revert pg. induction es as [|e es IH]; intros pg Hrun; simpl in Hrun.
  - injection Hrun as <-. unfold goals_of. simpl. split; [lia|].
    destruct (Z.ltb_spec (Ui.coins pg) 15), (Z.leb_spec 15 (Ui.coins pg));
      simpl; lia.
  - destruct (Ui.dispatched pg e); [|done].
    destruct (IH _ Hrun) as [Hc Ht]. clear IH Hrun.
    assert (Hstep :
      (e = Ui.Goal ∧ Ui.coins (Ui.handle pg e) = Ui.coins pg + 5 ∧
       unlock_toasts (Ui.handle pg e)
       = (unlock_toasts pg +
          (if ((Ui.coins pg <? 15) && (15 <=? Ui.coins pg + 5))%Z then 1 else 0))%nat)
      ∨ (e ≠ Ui.Goal ∧ Ui.coins (Ui.handle pg e) = Ui.coins pg ∧
         unlock_toasts (Ui.handle pg e) = unlock_toasts pg)).
    { unfold unlock_toasts. destruct e as [i | i | | | |]; simpl.
      - right. destruct (click_theme_fields pg i) as [-> ->]. done.
      - right. destruct (click_age_fields pg i) as [-> ->]. done.
      - right. destruct (click_start_fields pg) as [-> ->]. done.
      - right. destruct (click_back_fields pg) as [-> ->]. done.
      - left. split; [done|]. apply onGoal_fields.
      - right. done. }
    unfold goals_of in *.
    destruct Hstep as [(-> & Hc1 & Ht1) | (Hne & Hc1 & Ht1)].
    + rewrite filter_cons_True by done. simpl length.
      split; [rewrite Hc, Hc1; lia|].
      rewrite Ht, Ht1, Hc1.
      assert (Hge : Ui.coins pg + 5 ≤ Ui.coins pg') by lia.
      destruct (Z.ltb_spec (Ui.coins pg) 15),
               (Z.leb_spec 15 (Ui.coins pg + 5)),
               (Z.ltb_spec (Ui.coins pg + 5) 15),
               (Z.leb_spec 15 (Ui.coins pg')); simpl; lia.
    + rewrite filter_cons_False by done.
      split; [by rewrite Hc, Hc1 | by rewrite Ht, Ht1, Hc1].
Qed.

(** ** No game starts with a locked theme *)

Lemma theme_locked_mono t c n :
  0 ≤ n → theme_locked t c = false → theme_locked t (c + n) = false.
Proof.
  unfold theme_locked. intros Hn.
  destruct (Z.ltb_spec c (Ui.need t)), (Z.ltb_spec (c + n) (Ui.need t)),
           (Z.ltb_spec 0 (Ui.need t)); simpl; (done || lia).
Qed.

Lemma startGame_inv pg : ui_inv pg → ui_inv (Ui.startGame pg).
Proof.
  intros (Hb & Ht & Hs). split; [exact Hb|]. split; [exact Ht|].
  intros s t Hin Hth. simpl in Hin.
  apply elem_of_cons in Hin as [-> | Hin]; [|by apply (Hs s t)].
  simpl in *. by apply Ht.
Qed.

Lemma click_theme_inv pg i :
  ui_inv pg → Ui.dispatched pg (Ui.ClickTheme i) = true →
  ui_inv (Ui.click_theme pg i).
Proof.
  intros (Hb & Ht & Hs) Hd. simpl in Hd. unfold Ui.click_theme.
  destruct (Ui.themeButtons pg !! i) as [b|] eqn:Hi; [|done].
  apply negb_true_iff in Hd.
  assert (Hbi : button_fresh (Ui.coins pg) b).
  { apply Hb. by eapply list_elem_of_lookup_2. }
  set (pg1 := Ui.mkPage _ _ _ _ _ _ _ _ _ _).
  assert (H1 : ui_inv pg1).
  { split; [|split].
    - intros b' Hb'. simpl in Hb'. apply list_elem_of_lookup in Hb' as [j Hj].
      destruct (decide (j = i)) as [-> | Hne].
      + rewrite list_lookup_insert_eq in Hj
          by (rewrite length_fmap; by apply lookup_lt_Some in Hi).
        injection Hj as <-. exact Hbi.
      + rewrite list_lookup_insert_ne in Hj by done.
        rewrite list_lookup_fmap in Hj.
        destruct (Ui.themeButtons pg !! j) as [b0|] eqn:Hj0; [|done].
        injection Hj as <-. apply button_fresh_deselect, Hb.
        by eapply list_elem_of_lookup_2.
    - intros t [= <-]. simpl. destruct Hbi as (Hdis & _). congruence.
    - exact Hs. }
  destruct (_ && _ && _); [by apply startGame_inv | done].
Qed.

Lemma click_age_inv pg i : ui_inv pg → ui_inv (Ui.click_age pg i).
Proof.
  intros H. unfold Ui.click_age.
  destruct (Ui.ageButtons pg !! i) as [b|]; [|done].
  set (pg1 := Ui.mkPage _ _ _ _ _ _ _ _ _ _).
  assert (H1 : ui_inv pg1) by exact H.
  destruct (_ && _ && _); [by apply startGame_inv | done].
Qed.

Lemma click_start_inv pg : ui_inv pg → ui_inv (Ui.click_start pg).
Proof.
  intros H. unfold Ui.click_start.
  destruct (_ || _); [done | by apply startGame_inv].
Qed.

Lemma refresh_inv pg :
  theme_unlocked pg → starts_unlocked pg → ui_inv (Ui.refreshThemeButtons pg).
Proof.
  intros Ht Hs. destruct (refresh_keeps pg) as (H1 & H2 & H3 & H4 & H5).
  split; [exact H4|]. split.
  - intros t Hth. rewrite H1. destruct H5 as [H5 | H5]; [|congruence].
    apply Ht. congruence.
  - intros s t Hin. rewrite H3 in Hin. by apply Hs.
Qed.

Lemma click_back_inv pg : ui_inv pg → ui_inv (Ui.click_back pg).
Proof. intros (_ & Ht & Hs). by apply refresh_inv. Qed.

Lemma onGoal_inv pg : ui_inv pg → ui_inv (Ui.onGoal pg).
Proof.
  intros (_ & Ht & Hs). unfold Ui.onGoal, Ui.coinsAdd.
  match goal with |- context [Ui.refreshThemeButtons ?x] =>
    assert (H1 : ui_inv (Ui.refreshThemeButtons x));
    [|set (pg1 := Ui.refreshThemeButtons x) in *] end.
  { apply refresh_inv; [|exact Hs].
    intros t Hth. simpl in *. apply theme_locked_mono; [lia | by apply Ht]. }
  destruct (negb _ && _); [exact H1 | exact H1].
Qed.

Lemma handle_inv pg e :
  ui_inv pg → Ui.dispatched pg e = true → ui_inv (Ui.handle pg e).
Proof.
  intros H Hd. destruct e as [i | i | | | |]; simpl.
  - by apply click_theme_inv.
  - by apply click_age_inv.
  - by apply click_start_inv.
  - by apply click_back_inv.
  - by apply onGoal_inv.
  - by apply startGame_inv.
Qed.

Lemma run_inv es pg pg' : ui_inv pg → Ui.run pg es = Some pg' → ui_inv pg'.
Proof.
  revert pg. induction es as [|e es IH]; intros pg H Hrun; simpl in Hrun.
  - by injection Hrun as <-.
  - destruct (Ui.dispatched pg e) eqn:Hd; [|done].
    apply (IH (Ui.handle pg e)); [by apply handle_inv | done].
Qed.

(** X28.  No game starts with a locked theme.  From the page as the
    script leaves it at load, whatever the buttons of the page and the
    number of coins in the store, and along any run of clicks that the
    browser dispatches (none on a disabled button), goals and restarts,
    every call of [startGame] finds in [store.theme] either null or a
    theme that is not locked for the coins of that moment; the buttons of
    the theme grid are up to date after every event. *)
Theorem no_start_with_locked_theme
    (coins0 : Z) (tbs : list Ui.ThemeButton) (abs : list Ui.AgeButton)
    (sd sa ga : bool) (es : list Ui.Event) (pg' : Ui.Page) :
  Ui.run (Ui.loaded coins0 tbs abs sd sa ga) es = Some pg' →
  starts_unlocked pg' ∧ buttons_fresh pg' ∧ theme_unlocked pg'.
Proof.
  intros Hrun.
  assert (H0 : ui_inv (Ui.loaded coins0 tbs abs sd sa ga)).
  { apply refresh_inv; [intros t Hth; done | intros s t Hin; simpl in Hin].
    by apply elem_of_nil in Hin. }
  destruct (run_inv es _ pg' H0 Hrun) as (Hb & Ht & Hs). done.
Qed.

(** ** The start button *)

Lemma refresh_button_start pg i :
  start_button_ok pg → start_button_ok (Ui.refresh_button pg i).
Proof.
  unfold Ui.refresh_button, start_button_ok. intros H.
  destruct (Ui.themeButtons pg !! i) as [b|]; [|done].
  by destruct (negb _ && bool_decide _).
Qed.

Lemma refresh_start pg :
  start_button_ok pg → start_button_ok (Ui.refreshThemeButtons pg).
Proof.
  unfold Ui.refreshThemeButtons. generalize (seq 0 (length (Ui.themeButtons pg))).
  intros l. revert pg. induction l as [|i l IH]; intros pg H; simpl; [done|].
  by apply IH, refresh_button_start.
Qed.

Lemma handle_start pg e :
  start_button_ok pg → start_button_ok (Ui.handle pg e).
Proof.
  intros H. destruct e as [i | i | | | |]; simpl.
  - unfold Ui.click_theme. destruct (Ui.themeButtons pg !! i); [|done].
    by destruct (_ && _ && _).
  - unfold Ui.click_age. destruct (Ui.ageButtons pg !! i); [|done].
    by destruct (_ && _ && _).
  - unfold Ui.click_start. by destruct (_ || _).
  - unfold Ui.click_back, Ui.switchScreen. by apply refresh_start.
  - unfold Ui.onGoal, Ui.coinsAdd.
    match goal with |- context [Ui.refreshThemeButtons ?x] =>
      assert (H1 : start_button_ok (Ui.refreshThemeButtons x))
        by (by apply refresh_start);
      set (pg1 := Ui.refreshThemeButtons x) in * end.
    by destruct (negb _ && _).
  - done.
Qed.

(** X29.  The start button is enabled exactly when an age and a theme
    are chosen: once its [disabled] property agrees with the store it
    does so after every event, also when [refreshThemeButtons] clears the
    theme.  A click on one of the two grids makes it agree, whatever the
    page was before. *)
Theorem start_button_follows_store (pg : Ui.Page) (es : list Ui.Event)
    (pg' : Ui.Page) :
  Ui.run pg es = Some pg' →
  (start_button_ok pg ∨
   (∃ e es', es = e :: es' ∧ ∃ i, e = Ui.ClickTheme i ∨ e = Ui.ClickAge i)) →
  start_button_ok pg'.
Proof.
  assert (Hrun : ∀ es pg pg', start_button_ok pg → Ui.run pg es = Some pg' →
                              start_button_ok pg').
  { clear. induction es as [|e es IH]; intros pg pg' H Hrun; simpl in Hrun.
    - by injection Hrun as <-.
    - destruct (Ui.dispatched pg e); [|done].
      apply (IH (Ui.handle pg e)); [by apply handle_start | done]. }
  intros H [H0 | (e & es' & -> & i & He)]; [by apply (Hrun es pg)|].
  simpl in H. destruct (Ui.dispatched pg e) eqn:Hd; [|done].
  apply (Hrun es' (Ui.handle pg e)); [|done].
  destruct He as [-> | ->]; simpl in *.
  - unfold Ui.click_theme.
    destruct (Ui.themeButtons pg !! i); [|done].
    by destruct (_ && _ && _).
  - unfold Ui.click_age. apply bool_decide_eq_true_1 in Hd as [b Hb].
    rewrite Hb. by destruct (_ && _ && _).
Qed.

Lemma generate_one_route_witness :
  1 ≤ 5 ∧ 1 ≤ 5 ∧
  ∃ m, generate 5 5 42 = Some (Ok m) ∧
    ∀ a b, in_maze m a → in_maze m b →
      ∃ p, route m a b p ∧ ∀ q, route m a b q → q = p.
Proof.
  split; [lia|]. split; [lia|].
  apply (generate_one_route 5 5 42); lia.
Defined.

Lemma canTraverse_symmetric_witness :
  1 ≤ 5 ∧ 1 ≤ 5 ∧
  ∃ m, generate 5 5 42 = Some (Ok m) ∧
    ∀ mt x1 y1 x2 y2,
      canTraverse m mt x1 y1 x2 y2 = canTraverse m mt x2 y2 x1 y1.
Proof.
  split; [lia|]. split; [lia|].
  apply (canTraverse_symmetric 5 5 42); lia.
Defined.

Lemma hop_respects_walls_witness :
  let es := [Hop.EvPointerStart (fst (hop_pt 0 0)) (snd (hop_pt 0 0));
             Hop.EvPointerMove 0 (fst (hop_pt 0 1)) (snd (hop_pt 0 1))] in
  Hop.is_start Hop.EvFrame = false ∧
  ∃ g0 g g', Hop.startGame None 3 42 600 600 = Some (Ok g0) ∧
    Hop.run approx_hypot approx_sin g0 es = Some (Ok g) ∧
    Hop.handle approx_hypot approx_sin g Hop.EvFrame = Some (Ok g') ∧
    Hop.g_maze g' = Hop.g_maze g ∧
    same_or_through (Hop.g_maze g) (hop_cell g) (hop_cell g').
Proof.
  intros es.
  assert (H : Hop.is_start Hop.EvFrame = false) by reflexivity.
  split; [exact H|].
  exact (hop_respects_walls approx_hypot approx_sin 3 42 600 600 es Hop.EvFrame H).
Defined.

Lemma unlock_toast_once_witness :
  let pg := Ui.loaded 10
              [Ui.mkThemeButton Ui.animals false false false None;
               Ui.mkThemeButton Ui.vehicles false false false None]
              [Ui.mkAgeButton 3 false; Ui.mkAgeButton 4 false]
              true true false in
  let es := [Ui.ClickAge 0; Ui.ClickTheme 0; Ui.Goal; Ui.Restart; Ui.Goal;
             Ui.Restart; Ui.ClickBack; Ui.ClickTheme 1] in
  ∃ pg', Ui.run pg es = Some pg' ∧
    Ui.coins pg' = Ui.coins pg + 5 * Z.of_nat (goals_of es) ∧
    unlock_toasts pg'
    = (unlock_toasts pg +
       (if ((Ui.coins pg <? 15) && (15 <=? Ui.coins pg'))%Z then 1 else 0))%nat.
Proof.
  intros pg es.
  destruct (Ui.run pg es) as [pg'|] eqn:Hrun;
    [|exfalso; revert Hrun; vm_compute; discriminate].
  exists pg'. split; [reflexivity|].
  exact (unlock_toast_once pg es pg' Hrun).
Defined.

Lemma no_start_with_locked_theme_witness :
  let tbs := [Ui.mkThemeButton Ui.animals false false false None;
              Ui.mkThemeButton Ui.vehicles false false true None] in
  let abs := [Ui.mkAgeButton 3 false; Ui.mkAgeButton 4 false] in
  let es := [Ui.ClickAge 1; Ui.ClickTheme 0; Ui.Goal; Ui.Restart;
             Ui.ClickBack; Ui.ClickTheme 1] in
  ∃ pg', Ui.run (Ui.loaded 10 tbs abs true true false) es = Some pg' ∧
    starts_unlocked pg' ∧ buttons_fresh pg' ∧ theme_unlocked pg'.
Proof.
  intros tbs abs es.
  destruct (Ui.run (Ui.loaded 10 tbs abs true true false) es)
    as [pg'|] eqn:Hrun; [|exfalso; revert Hrun; vm_compute; discriminate].
  exists pg'. split; [reflexivity|].
  exact (no_start_with_locked_theme 10 tbs abs true true false es pg' Hrun).
Defined.

Lemma start_button_follows_store_witness :
  let pg := Ui.loaded 0
              [Ui.mkThemeButton Ui.animals false false false None;
               Ui.mkThemeButton Ui.vehicles false false false None]
              [Ui.mkAgeButton 3 false] false true false in
  let es := [Ui.ClickAge 0; Ui.ClickTheme 0; Ui.ClickBack] in
  ∃ pg', Ui.run pg es = Some pg' ∧ start_button_ok pg'.
Proof.
  intros pg es.
  destruct (Ui.run pg es) as [pg'|] eqn:Hrun;
    [|exfalso; revert Hrun; vm_compute; discriminate].
  exists pg'. split; [reflexivity|].
  apply (start_button_follows_store pg es pg' Hrun).
  right. exists (Ui.ClickAge 0), [Ui.ClickTheme 0; Ui.ClickBack].
  split; [reflexivity|]. exists 0%nat. right. reflexivity.
Defined.
